(** * Formula engine: dependency graph, lexer, parser, evaluator, batch engine

    A shallow embedding of the TypeScript sources of the formula engine
    (dependency-graph.ts, lexer.ts, parser.ts, evaluator.ts, functions.ts,
    formula-engine.ts) together with the properties proved about them. *)

From Stdlib Require Import List String Ascii ZArith Lia Bool Arith PeanoNat Permutation.
From Stdlib Require Import DecimalString Sorted.
Import ListNotations.
Local Open Scope string_scope.
Local Open Scope list_scope.

Set Warnings "-register-all,-abstract-large-number".


(* ================================================================== *)
(** * Outcomes of fallible code *)
(* ================================================================== *)

(** A call either returns, throws an error, or (in the model only) exhausts
    the fuel of a loop whose termination is proved separately. *)
Inductive outcome (E A : Type) : Type :=
| Return (a : A)
| Throw (e : E)
| OutOfFuel.

Arguments Return {E A} a.
Arguments Throw {E A} e.
Arguments OutOfFuel {E A}.

Definition bind {E A B} (m : outcome E A) (k : A -> outcome E B) : outcome E B :=
  match m with
  | Return a => k a
  | Throw e => Throw e
  | OutOfFuel => OutOfFuel
  end.

Notation "x <- m ;; k" := (bind m (fun x => k))
  (at level 61, m at next level, right associativity).
Notation "' p <- m ;; k" := (bind m (fun p => k))
  (at level 61, p pattern, m at next level, right associativity).

(* ================================================================== *)
(** * JavaScript [Set<string>] and [Map<string, V>]                     *)
(* ================================================================== *)

(** Both containers iterate in insertion order, so they are modelled as
    lists: a set as the list of its members in insertion order, a map as an
    association list whose keys keep the position of their first insertion. *)

Abbreviation StrSet := (list string).

Definition set_has (s : StrSet) (x : string) : bool :=
  existsb (String.eqb x) s.

Definition set_add (s : StrSet) (x : string) : StrSet :=
  if set_has s x then s else s ++ [x].

Abbreviation StrMap V := (list (string * V)).

Fixpoint map_get {V} (m : StrMap V) (k : string) : option V :=
  match m with
  | [] => None
  | (k', v) :: r => if String.eqb k k' then Some v else map_get r k
  end.

Definition map_has {V} (m : StrMap V) (k : string) : bool :=
  match map_get m k with Some _ => true | None => false end.

Fixpoint map_set {V} (m : StrMap V) (k : string) (v : V) : StrMap V :=
  match m with
  | [] => [(k, v)]
  | (k', v') :: r =>
      if String.eqb k k' then (k', v) :: r else (k', v') :: map_set r k v
  end.

(* ================================================================== *)
(** * dependency-graph.ts                                              *)
(* ================================================================== *)

Record DependencyGraph := mkGraph {
  nodes : StrSet;
  edges : StrMap StrSet
}.

Definition emptyGraph : DependencyGraph := mkGraph [] [].

Definition addNode (g : DependencyGraph) (id : string) : DependencyGraph :=
  mkGraph (set_add (nodes g) id)
          (if map_has (edges g) id then edges g else map_set (edges g) id []).

Definition addEdge (g : DependencyGraph) (source target : string) : DependencyGraph :=
  let g1 := addNode g source in
  let g2 := addNode g1 target in
  match map_get (edges g2) source with
  | Some s => mkGraph (nodes g2) (map_set (edges g2) source (set_add s target))
  | None => g2
  end.

Definition getDependencies (g : DependencyGraph) (nodeId : string) : StrSet :=
  match map_get (edges g) nodeId with Some s => s | None => [] end.

Definition getDependents (g : DependencyGraph) (nodeId : string) : StrSet :=
  fold_left (fun acc '(node, deps) => if set_has deps nodeId then set_add acc node else acc)
            (edges g) [].

Record CircularDependency := mkCircular {
  cycle : list string;
  involvedFormulas : list string
}.

(** ** findCycle: depth-first search with a recursion stack *)

Record DfsState := mkDfs {
  dfs_visited : StrSet;
  recursionStack : StrSet;
  path : list string
}.

Inductive DfsResult :=
| CycleFound (c : list string)
| NoCycle (st : DfsState)
| DfsOutOfFuel.

(** [path.indexOf(dep)] followed by [path.slice(cycleStart)]. *)
Fixpoint slice_from (p : list string) (dep : string) : list string :=
  match p with
  | [] => []
  | x :: r => if String.eqb dep x then p else slice_from r dep
  end.

Definition set_delete (s : StrSet) (x : string) : StrSet :=
  filter (fun y => negb (String.eqb x y)) s.

(** The [for (const dep of deps)] loop in the body of [dfs], parameterised
    by the recursive call. *)
Fixpoint dfs_deps (g : DependencyGraph) (rec : string -> DfsState -> DfsResult)
         (deps : list string) (st : DfsState) : DfsResult :=
  match deps with
  | [] => NoCycle st
  | dep :: rest =>
      if negb (set_has (nodes g) dep) then dfs_deps g rec rest st
      else if negb (set_has (dfs_visited st) dep) then
        match rec dep st with
        | CycleFound c => CycleFound c
        | NoCycle st' => dfs_deps g rec rest st'
        | DfsOutOfFuel => DfsOutOfFuel
        end
      else if set_has (recursionStack st) dep then
        CycleFound (slice_from (path st) dep ++ [dep])
      else dfs_deps g rec rest st
  end.

Fixpoint dfs (g : DependencyGraph) (fuel : nat) (node : string) (st : DfsState) : DfsResult :=
  match fuel with
  | O => DfsOutOfFuel
  | S fuel' =>
      let st1 := mkDfs (set_add (dfs_visited st) node)
                       (set_add (recursionStack st) node)
                       (path st ++ [node]) in
      match dfs_deps g (dfs g fuel') (getDependencies g node) st1 with
      | CycleFound c => CycleFound c
      | NoCycle st2 =>
          NoCycle (mkDfs (dfs_visited st2)
                         (set_delete (recursionStack st2) node)
                         (removelast (path st2)))
      | DfsOutOfFuel => DfsOutOfFuel
      end
  end.

(** The outer [for (const node of this.nodes)] loop of [findCycle]. *)
Fixpoint findCycle_loop (g : DependencyGraph) (fuel : nat)
         (ns : list string) (st : DfsState) : option (list string) :=
  match ns with
  | [] => Some []
  | node :: rest =>
      if negb (set_has (dfs_visited st) node) then
        match dfs g fuel node st with
        | CycleFound c => Some c
        | NoCycle st' => findCycle_loop g fuel rest st'
        | DfsOutOfFuel => None
        end
      else findCycle_loop g fuel rest st
  end.

Definition findCycle (g : DependencyGraph) : option (list string) :=
  findCycle_loop g (S (List.length (nodes g))) (nodes g) (mkDfs [] [] []).

(** ** topologicalSort: Kahn's algorithm *)

Record KahnState := mkKahn {
  inDegree : StrMap Z;
  queue : list string;
  result : list string;
  visited : StrSet
}.

(** [dependents]: one empty set per node, then every edge reversed. *)
Definition init_dependents (g : DependencyGraph) : StrMap StrSet :=
  fold_left (fun m node => map_set m node []) (nodes g) [].

Definition add_dependents (node : string) (deps : StrSet) (m : StrMap StrSet) : StrMap StrSet :=
  fold_left (fun m dep =>
               match map_get m dep with
               | Some s => map_set m dep (set_add s node)
               | None => m
               end) deps m.

Definition build_dependents (g : DependencyGraph) : StrMap StrSet :=
  fold_left (fun m '(node, deps) => add_dependents node deps m) (edges g) (init_dependents g).

(** [inDegree]: zero for every node, then for every key of [edges] the
    number of its dependencies that are nodes of the graph. *)
Definition init_inDegree (g : DependencyGraph) : StrMap Z :=
  fold_left (fun m node => map_set m node 0%Z) (nodes g) [].

Definition build_inDegree (g : DependencyGraph) : StrMap Z :=
  fold_left (fun m '(node, deps) =>
               map_set m node (Z.of_nat (List.length (filter (set_has (nodes g)) deps))))
            (edges g) (init_inDegree g).

Definition init_queue (deg : StrMap Z) : list string :=
  map fst (filter (fun '(_, degree) => Z.eqb degree 0) deg).

(** The inner [for (const dependent of deps)] loop. *)
Definition relax (vis : StrSet) (deps : list string) (deg : StrMap Z) (q : list string)
  : StrMap Z * list string :=
  fold_left (fun '(deg, q) dependent =>
               let newDegree := (match map_get deg dependent with
                                 | Some d => d | None => 0 end - 1)%Z in
               let deg' := map_set deg dependent newDegree in
               if Z.eqb newDegree 0 && negb (set_has vis dependent)
               then (deg', q ++ [dependent]) else (deg', q))
            deps (deg, q).

Definition kahn_step (dependents : StrMap StrSet) (node : string) (rest : list string)
           (st : KahnState) : KahnState :=
  if set_has (visited st) node then mkKahn (inDegree st) rest (result st) (visited st)
  else
    let vis := set_add (visited st) node in
    let res := result st ++ [node] in
    let deps := match map_get dependents node with Some s => s | None => [] end in
    let '(deg, q) := relax vis deps (inDegree st) rest in
    mkKahn deg q res vis.

(** The [while (queue.length > 0)] loop. *)
Fixpoint kahn_loop (dependents : StrMap StrSet) (fuel : nat) (st : KahnState) : option KahnState :=
  match queue st with
  | [] => Some st
  | node :: rest =>
      match fuel with
      | O => None
      | S fuel' => kahn_loop dependents fuel' (kahn_step dependents node rest st)
      end
  end.

Definition total_size {A} (m : StrMap (list A)) : nat :=
  fold_right (fun '(_, s) n => List.length s + n) 0 m.

Definition kahn_init (g : DependencyGraph) : KahnState :=
  let deg := build_inDegree g in
  mkKahn deg (init_queue deg) [] [].

Definition kahn_fuel (g : DependencyGraph) : nat :=
  List.length (init_queue (build_inDegree g)) + total_size (build_dependents g).

Definition kahn_run (g : DependencyGraph) : option KahnState :=
  kahn_loop (build_dependents g) (kahn_fuel g) (kahn_init g).

Definition topologicalSort (g : DependencyGraph) : outcome CircularDependency (list string) :=
  match kahn_run g with
  | None => OutOfFuel
  | Some st =>
      if negb (Nat.eqb (List.length (result st)) (List.length (nodes g))) then
        match findCycle g with
        | Some c =>
            Throw (mkCircular c (filter (fun n => negb (set_has (visited st) n)) (nodes g)))
        | None => OutOfFuel
        end
      else Return (result st)
  end.

Definition hasCycles (g : DependencyGraph) : bool :=
  match topologicalSort g with
  | Return _ => false
  | Throw _ => true
  | OutOfFuel => false
  end.

(** ** getRoots and getTransitiveDependencies *)

Definition getRoots (g : DependencyGraph) : StrSet :=
  fold_left (fun roots node =>
               let deps := match map_get (edges g) node with Some s => s | None => [] end in
               if Nat.eqb (List.length deps) 0 then set_add roots node else roots)
            (nodes g) [].

(** The sets [visited] and [result] that [collectTransitiveDependencies]
    fills. *)
Record CollectState := mkCollect {
  c_visited : StrSet;
  c_result : StrSet
}.

(** The loop [for (const dep of deps)] of [collectTransitiveDependencies],
    parameterised by the recursive call. *)
Fixpoint collect_deps (rec : string -> CollectState -> option CollectState)
         (deps : list string) (st : CollectState) : option CollectState :=
  match deps with
  | [] => Some st
  | dep :: rest =>
      match rec dep (mkCollect (c_visited st) (set_add (c_result st) dep)) with
      | Some st' => collect_deps rec rest st'
      | None => None
      end
  end.

Fixpoint collectTransitiveDependencies (g : DependencyGraph) (fuel : nat) (nodeId : string)
         (st : CollectState) : option CollectState :=
  match fuel with
  | O => None
  | S fuel' =>
      if set_has (c_visited st) nodeId then Some st
      else
        let st1 := mkCollect (set_add (c_visited st) nodeId) (c_result st) in
        match map_get (edges g) nodeId with
        | Some deps => collect_deps (collectTransitiveDependencies g fuel') deps st1
        | None => Some st1
        end
  end.

(** [None] only if the fuel of the model were too small, which
    [getTransitiveDependencies_spec] rules out. *)
Definition getTransitiveDependencies (g : DependencyGraph) (nodeId : string) : option StrSet :=
  match collectTransitiveDependencies g (S (S (List.length (edges g)))) nodeId
                                      (mkCollect [] []) with
  | Some st => Some (set_delete (c_result st) nodeId)
  | None => None
  end.

(* ================================================================== *)
(** * The external collaborators: decimal.js and JavaScript numbers     *)
(* ================================================================== *)

(** Rounding modes of decimal.js ([Decimal.ROUND_*]). *)
Inductive Rounding :=
| ROUND_UP | ROUND_DOWN | ROUND_CEIL | ROUND_FLOOR
| ROUND_HALF_UP | ROUND_HALF_DOWN | ROUND_HALF_EVEN | ROUND_HALF_CEIL | ROUND_HALF_FLOOR.

(** types.ts: [DecimalRoundingMode]. *)
Inductive DecimalRoundingMode :=
| CEIL | FLOOR | DOWN | UP | HALF_UP | HALF_DOWN | HALF_EVEN | HALF_ODD.

(** decimal-utils.ts: [ROUNDING_MODE_MAP]. *)
Definition ROUNDING_MODE_MAP (m : DecimalRoundingMode) : Rounding :=
  match m with
  | CEIL => ROUND_CEIL
  | FLOOR => ROUND_FLOOR
  | DOWN => ROUND_DOWN
  | UP => ROUND_UP
  | HALF_UP => ROUND_HALF_UP
  | HALF_DOWN => ROUND_HALF_DOWN
  | HALF_EVEN => ROUND_HALF_EVEN
  | HALF_ODD => ROUND_HALF_CEIL
  end.

(** The decimal primitive (the package decimal.js, configured once by the
    [DecimalUtils] constructor) and the few operations on JavaScript
    numbers that the sources use.  The engine is written against this
    interface; nothing below depends on how it is realised. *)
Class DecimalLib : Type := {
  Decimal : Type;
  number : Type;
  (* decimal.js *)
  d_new_string : string -> option Decimal;   (* [new Decimal(text)]; [None]: it throws *)
  d_new_number : number -> Decimal;          (* [new Decimal(x)] *)
  d_plus : Decimal -> Decimal -> Decimal;
  d_minus : Decimal -> Decimal -> Decimal;
  d_times : Decimal -> Decimal -> Decimal;
  d_dividedBy : Decimal -> Decimal -> Decimal;
  d_modulo : Decimal -> Decimal -> Decimal;
  d_pow : Decimal -> number -> Decimal;
  d_negated : Decimal -> Decimal;
  d_toDecimalPlaces : Decimal -> Z -> Rounding -> option Decimal;  (* [None]: it throws *)
  d_isZero : Decimal -> bool;
  d_equals : Decimal -> Decimal -> bool;
  d_lessThan : Decimal -> Decimal -> bool;
  d_greaterThan : Decimal -> Decimal -> bool;
  d_lessThanOrEqualTo : Decimal -> Decimal -> bool;
  d_greaterThanOrEqualTo : Decimal -> Decimal -> bool;
  d_toString : Decimal -> string;
  d_toNumber : Decimal -> number;
  (* JavaScript numbers *)
  n_of_nat : nat -> number;                  (* an integer literal, [array.length] *)
  n_eqb : number -> number -> bool;          (* [===] *)
  n_ltb : number -> number -> bool;          (* [<] *)
  n_leb : number -> number -> bool;          (* [<=] *)
  n_isNaN : number -> bool;
  n_isFinite : number -> bool;
  n_toString : number -> string;             (* [String(x)] *)
  n_index : number -> option nat;            (* [x] as an array index: a natural number, or none *)
  parseFloat : string -> number
}.

(* ================================================================== *)
(** * Values, contexts, errors                                         *)
(* ================================================================== *)

Section Engine.

Context {P : DecimalLib}.

(** A JavaScript value as the engine handles it.  Arrays and objects are
    immutable here (the sources never write into one) and carry the
    identity [ref] of their allocation, which is what [===] compares. *)
Inductive value : Type :=
| VDecimal (d : Decimal)
| VNumber (n : number)
| VString (s : string)
| VBool (b : bool)
| VNull
| VUndefined
| VArray (ref : nat) (elements : list value)
| VObject (ref : nat) (properties : list (string * value)).

(** A JavaScript object used as a record: own properties in insertion
    order.  (Properties inherited from [Object.prototype] are not modelled.) *)
Definition props := list (string * value).

Definition prop_get (o : props) (k : string) : option value := map_get o k.
Definition prop_in (o : props) (k : string) : bool := map_has o k.
Definition prop_set (o : props) (k : string) (v : value) : props := map_set o k v.

(** types.ts: [EvaluationContext], as the evaluator reads it. *)
Record EvaluationContext := mkContext {
  variables : props;
  collections : option (list (string * list value));
  extra : option props
}.

Inductive Error : Type :=
(* parse *)
| SyntaxError (message : string) (position line column : nat)
| UnexpectedTokenError (token : string) (expected : list string) (position : nat)
| UnterminatedStringError (position : nat)
| InvalidNumberError (text : string) (position : nat)
(* validation *)
| CircularDependencyError (cycle involvedFormulas : list string)
| UndefinedVariableError (variableName expression : string)
| UndefinedFunctionError (functionName : string)
| DuplicateFormulaError (formulaId : string)
(* evaluation *)
| DivisionByZeroError
| TypeMismatchError (expected actual where_ : string)
| ArgumentCountError (functionName : string) (min max : Z) (actual : nat)
| InvalidOperationError (operator : string) (operandTypes : list string)
| PropertyAccessError (property objectType : string)
| IndexAccessError (index : value) (objectType : string)
(* decimal *)
| DecimalDivisionByZeroError
| InvalidDecimalError (input : string)
| DecimalError (message : string)          (* thrown by decimal.js itself *)
(* security *)
| MaxIterationsError (limit : nat)
| MaxRecursionError (limit : nat)
| MaxExpressionLengthError (length limit : nat)
(* plain JavaScript errors *)
| GeneralError (message : string)          (* [new Error(message)] *)
| TypeError (message : string).            (* raised by the runtime *)

Definition result_of (A : Type) := outcome Error A.

(** [typeof value] *)
Definition js_typeof (v : value) : string :=
  match v with
  | VDecimal _ => "object"
  | VNumber _ => "number"
  | VString _ => "string"
  | VBool _ => "boolean"
  | VNull => "object"
  | VUndefined => "undefined"
  | VArray _ _ => "object"
  | VObject _ _ => "object"
  end.

Definition join (sep : string) (l : list string) : string :=
  match l with
  | [] => ""
  | x :: r => fold_left (fun acc y => (acc ++ sep ++ y)%string) r x
  end.

(** [String(value)] *)
Fixpoint js_String (v : value) : string :=
  match v with
  | VDecimal d => d_toString d
  | VNumber n => n_toString n
  | VString s => s
  | VBool true => "true"
  | VBool false => "false"
  | VNull => "null"
  | VUndefined => "undefined"
  | VArray _ l =>
      join "," (map (fun e => match e with
                              | VNull | VUndefined => ""
                              | _ => js_String e
                              end) l)
  | VObject _ _ => "[object Object]"
  end.

(** [left === right] *)
Definition strict_equals (l r : value) : bool :=
  match l, r with
  | VNumber a, VNumber b => n_eqb a b
  | VString a, VString b => String.eqb a b
  | VBool a, VBool b => Bool.eqb a b
  | VNull, VNull => true
  | VUndefined, VUndefined => true
  | VArray a _, VArray b _ => Nat.eqb a b
  | VObject a _, VObject b _ => Nat.eqb a b
  | _, _ => false
  end.
(* ================================================================== *)
(** * lexer.ts                                                         *)
(* ================================================================== *)

(** types.ts: [TokenType].  The last constructor is no member of the
    enum: it is the type of the token that [scanIdentifier] makes of a
    name that [KEYWORDS] inherits (see there). *)
Inductive TokenType :=
| NUMBER | STRING | BOOLEAN | NULL
| IDENTIFIER | VARIABLE | CONTEXT_VAR
| PLUS | MINUS | MULTIPLY | DIVIDE | MODULO | POWER
| EQ | NEQ | LT | GT | LTE | GTE
| AND | OR | NOT
| LPAREN | RPAREN | LBRACKET | RBRACKET | COMMA | DOT | QUESTION | COLON
| EOF
| INHERITED.

Definition TokenType_eqb (a b : TokenType) : bool :=
  match a, b with
  | NUMBER, NUMBER | STRING, STRING | BOOLEAN, BOOLEAN | NULL, NULL
  | IDENTIFIER, IDENTIFIER | VARIABLE, VARIABLE | CONTEXT_VAR, CONTEXT_VAR
  | PLUS, PLUS | MINUS, MINUS | MULTIPLY, MULTIPLY | DIVIDE, DIVIDE
  | MODULO, MODULO | POWER, POWER
  | EQ, EQ | NEQ, NEQ | LT, LT | GT, GT | LTE, LTE | GTE, GTE
  | AND, AND | OR, OR | NOT, NOT
  | LPAREN, LPAREN | RPAREN, RPAREN | LBRACKET, LBRACKET | RBRACKET, RBRACKET
  | COMMA, COMMA | DOT, DOT | QUESTION, QUESTION | COLON, COLON
  | EOF, EOF | INHERITED, INHERITED => true
  | _, _ => false
  end.

(** [Token.value : string | number | boolean | null]. *)
Inductive TokenValue :=
| TString (s : string)
| TNumber (n : number)
| TBool (b : bool)
| TNull.

Record Token := mkToken {
  ttype : TokenType;
  tvalue : TokenValue;
  tposition : nat;
  tline : nat;
  tcolumn : nat
}.

(** The mutable fields of the [Lexer]; [input] is kept as the characters
    that remain from [position] on. *)
Record LexState := mkLex {
  remaining : list ascii;
  position : nat;
  line : nat;
  column : nat;
  tokens : list Token
}.

Definition isAtEnd (s : LexState) : bool :=
  match remaining s with [] => true | _ => false end.

Definition NUL : ascii := Ascii.zero.

Definition peek (s : LexState) : ascii :=
  match remaining s with [] => NUL | c :: _ => c end.

Definition peekNext (s : LexState) : ascii :=
  match remaining s with _ :: c :: _ => c | _ => NUL end.

Definition is_char (c : ascii) (s : string) : bool :=
  match s with
  | String c' EmptyString => Ascii.eqb c c'
  | _ => false
  end.

Definition newline : ascii := ascii_of_nat 10.
Definition tab : ascii := ascii_of_nat 9.
Definition carriage_return : ascii := ascii_of_nat 13.

(** [advance()]: only called when not at the end. *)
Definition advance (s : LexState) : ascii * LexState :=
  match remaining s with
  | [] => (NUL, s)
  | c :: r =>
      if Ascii.eqb c newline
      then (c, mkLex r (S (position s)) (S (line s)) 1 (tokens s))
      else (c, mkLex r (S (position s)) (line s) (S (column s)) (tokens s))
  end.

Definition isWhitespace (c : ascii) : bool :=
  is_char c " " || Ascii.eqb c tab || Ascii.eqb c carriage_return || Ascii.eqb c newline.

Fixpoint skipWhitespace_loop (n : nat) (s : LexState) : LexState :=
  match n with
  | O => s
  | S n' =>
      if isAtEnd s then s
      else if isWhitespace (peek s) then skipWhitespace_loop n' (snd (advance s))
      else s
  end.

Definition skipWhitespace (s : LexState) : LexState :=
  skipWhitespace_loop (List.length (remaining s)) s.

Definition addToken (t : TokenType) (v : TokenValue) (s : LexState) : LexState :=
  mkLex (remaining s) (position s) (line s) (column s)
        (tokens s ++ [mkToken t v (position s) (line s) (column s)]).

Definition char_between (lo c hi : ascii) : bool :=
  Nat.leb (nat_of_ascii lo) (nat_of_ascii c) && Nat.leb (nat_of_ascii c) (nat_of_ascii hi).

Definition isDigit (c : ascii) : bool := char_between "0" c "9".

Definition isAlpha (c : ascii) : bool :=
  char_between "a" c "z" || char_between "A" c "Z" || is_char c "_".

Definition isAlphaNumeric (c : ascii) : bool := isAlpha c || isDigit c.

Definition string_of_chars (l : list ascii) : string :=
  fold_right String EmptyString l.

(** [while (!this.isAtEnd() && pred(this.peek())) acc += this.advance()] *)
Fixpoint scan_while (pred : ascii -> bool) (n : nat) (acc : list ascii) (s : LexState)
  : list ascii * LexState :=
  match n with
  | O => (acc, s)
  | S n' =>
      if negb (isAtEnd s) && pred (peek s)
      then let '(c, s') := advance s in scan_while pred n' (acc ++ [c]) s'
      else (acc, s)
  end.

Definition scan_chars (pred : ascii -> bool) (acc : list ascii) (s : LexState)
  : list ascii * LexState :=
  scan_while pred (List.length (remaining s)) acc s.

Definition unexpected_character (c : ascii) (startPosition startLine startColumn : nat) : Error :=
  SyntaxError ("Unexpected character '" ++ String c "'")%string
              startPosition startLine startColumn.

Definition scanVariable (s : LexState) : result_of LexState :=
  let '(name, s1) := scan_chars isAlphaNumeric [] s in
  match name with
  | [] => Throw (SyntaxError "Expected variable name after $" (position s1) (line s1) (column s1))
  | _ => Return (addToken VARIABLE (TString (string_of_chars name)) s1)
  end.

Definition scanContextVariable (s : LexState) : result_of LexState :=
  let '(name, s1) := scan_chars isAlphaNumeric [] s in
  match name with
  | [] => Throw (SyntaxError "Expected variable name after @" (position s1) (line s1) (column s1))
  | _ => Return (addToken CONTEXT_VAR (TString (string_of_chars name)) s1)
  end.

Definition backslash : ascii := ascii_of_nat 92.
Definition double_quote : ascii := ascii_of_nat 34.
Definition single_quote : ascii := ascii_of_nat 39.

Definition unescape (escaped : ascii) : ascii :=
  if is_char escaped "n" then newline
  else if is_char escaped "t" then tab
  else if is_char escaped "r" then carriage_return
  else escaped.

(** The [while] loop of [scanString]. *)
Fixpoint scanString_loop (n : nat) (quote : ascii) (acc : list ascii) (s : LexState)
  : list ascii * LexState :=
  match n with
  | O => (acc, s)
  | S n' =>
      if negb (isAtEnd s) && negb (Ascii.eqb (peek s) quote) then
        if Ascii.eqb (peek s) backslash then
          let s1 := snd (advance s) in
          if negb (isAtEnd s1) then
            let '(escaped, s2) := advance s1 in
            scanString_loop n' quote (acc ++ [unescape escaped]) s2
          else scanString_loop n' quote acc s1
        else
          let '(c, s1) := advance s in
          scanString_loop n' quote (acc ++ [c]) s1
      else (acc, s)
  end.

Definition scanString (quote : ascii) (s : LexState) : result_of LexState :=
  let startPosition := position s - 1 in
  let '(value, s1) := scanString_loop (S (List.length (remaining s))) quote [] s in
  if isAtEnd s1 then Throw (UnterminatedStringError startPosition)
  else
    let s2 := snd (advance s1) in
    Return (addToken STRING (TString (string_of_chars value)) s2).

Definition scanNumber (firstChar : ascii) (s : LexState) : result_of LexState :=
  let startPosition := position s - 1 in
  (* integer part *)
  let '(numStr, s1) := scan_chars isDigit [firstChar] s in
  (* decimal part *)
  let '(numStr, s2) :=
    if is_char (peek s1) "." && isDigit (peekNext s1) then
      let '(dot, s') := advance s1 in
      scan_chars isDigit (numStr ++ [dot]) s'
    else (numStr, s1) in
  (* exponent part *)
  r <- (if is_char (peek s2) "e" || is_char (peek s2) "E" then
          let '(e, s3) := advance s2 in
          let numStr := numStr ++ [e] in
          let '(numStr, s4) :=
            if is_char (peek s3) "+" || is_char (peek s3) "-"
            then let '(sign, s') := advance s3 in (numStr ++ [sign], s')
            else (numStr, s3) in
          if negb (isDigit (peek s4))
          then Throw (InvalidNumberError (string_of_chars numStr) startPosition)
          else
            let '(numStr, s5) := scan_chars isDigit numStr s4 in
            Return (numStr, s5, true)
        else Return (numStr, s2, false)) ;;
  let '(numStr, s5, isFloat) := r in
  (* float suffix *)
  let '(s6, isFloat) :=
    if is_char (peek s5) "f" || is_char (peek s5) "F"
    then (snd (advance s5), true) else (s5, isFloat) in
  (* decimal suffix *)
  let '(s7, isFloat) :=
    if is_char (peek s6) "d" || is_char (peek s6) "D"
    then (snd (advance s6), false) else (s6, isFloat) in
  if isFloat then
    let value := parseFloat (string_of_chars numStr) in
    if n_isNaN value then Throw (InvalidNumberError (string_of_chars numStr) startPosition)
    else Return (addToken NUMBER (TNumber value) s7)
  else Return (addToken NUMBER (TString (string_of_chars numStr)) s7).

Definition upper_char (c : ascii) : ascii :=
  if char_between "a" c "z" then ascii_of_nat (nat_of_ascii c - 32) else c.

Definition lower_char (c : ascii) : ascii :=
  if char_between "A" c "Z" then ascii_of_nat (nat_of_ascii c + 32) else c.

Fixpoint toUpperCase (s : string) : string :=
  match s with
  | EmptyString => EmptyString
  | String c r => String (upper_char c) (toUpperCase r)
  end.

Fixpoint toLowerCase (s : string) : string :=
  match s with
  | EmptyString => EmptyString
  | String c r => String (lower_char c) (toLowerCase r)
  end.

(** The members every plain object inherits from [Object.prototype]:
    [name in object] holds and [object[name]] is defined for them although
    the object has no such property of its own. *)
Definition Object_prototype_members : list string :=
  ["constructor"; "__defineGetter__"; "__defineSetter__"; "hasOwnProperty";
   "__lookupGetter__"; "__lookupSetter__"; "isPrototypeOf"; "propertyIsEnumerable";
   "toString"; "valueOf"; "__proto__"; "toLocaleString"].

(** [KEYWORDS[name]].  The table is a plain object, so that for the name
    of an inherited member the lookup gives that member, which is no
    [TokenType]; [INHERITED] stands for it. *)
Definition KEYWORDS (name : string) : option TokenType :=
  if String.eqb name "true" then Some BOOLEAN
  else if String.eqb name "false" then Some BOOLEAN
  else if String.eqb name "null" then Some NULL
  else if String.eqb name "AND" then Some AND
  else if String.eqb name "OR" then Some OR
  else if String.eqb name "NOT" then Some NOT
  else if existsb (String.eqb name) Object_prototype_members then Some INHERITED
  else None.

Definition scanIdentifier (firstChar : ascii) (s : LexState) : LexState :=
  let '(chars, s1) := scan_chars isAlphaNumeric [firstChar] s in
  let name := string_of_chars chars in
  let keywordType :=
    match KEYWORDS name with
    | Some t => Some t
    | None => KEYWORDS (toUpperCase name)
    end in
  match keywordType with
  | Some BOOLEAN => addToken BOOLEAN (TBool (String.eqb (toLowerCase name) "true")) s1
  | Some NULL => addToken NULL TNull s1
  | Some t => addToken t (TString (toUpperCase name)) s1
  | None => addToken IDENTIFIER (TString name) s1
  end.

Definition scanToken (s : LexState) : result_of LexState :=
  let startPosition := position s in
  let startLine := line s in
  let startColumn := column s in
  let '(char, s1) := advance s in
  let two (second : string) (t2 : TokenType) (v2 : string)
          (otherwise : result_of LexState) : result_of LexState :=
    if is_char (peek s1) second
    then Return (addToken t2 (TString v2) (snd (advance s1)))
    else otherwise in
  let unexpected := Throw (unexpected_character char startPosition startLine startColumn) in
  if is_char char "(" then Return (addToken LPAREN (TString "(") s1)
  else if is_char char ")" then Return (addToken RPAREN (TString ")") s1)
  else if is_char char "[" then Return (addToken LBRACKET (TString "[") s1)
  else if is_char char "]" then Return (addToken RBRACKET (TString "]") s1)
  else if is_char char "," then Return (addToken COMMA (TString ",") s1)
  else if is_char char "." then Return (addToken DOT (TString ".") s1)
  else if is_char char "?" then Return (addToken QUESTION (TString "?") s1)
  else if is_char char ":" then Return (addToken COLON (TString ":") s1)
  else if is_char char "+" then Return (addToken PLUS (TString "+") s1)
  else if is_char char "-" then Return (addToken MINUS (TString "-") s1)
  else if is_char char "*" then Return (addToken MULTIPLY (TString "*") s1)
  else if is_char char "/" then Return (addToken DIVIDE (TString "/") s1)
  else if is_char char "%" then Return (addToken MODULO (TString "%") s1)
  else if is_char char "^" then Return (addToken POWER (TString "^") s1)
  else if is_char char "=" then two "=" EQ "==" unexpected
  else if is_char char "!" then two "=" NEQ "!=" (Return (addToken NOT (TString "!") s1))
  else if is_char char "<" then two "=" LTE "<=" (Return (addToken LT (TString "<") s1))
  else if is_char char ">" then two "=" GTE ">=" (Return (addToken GT (TString ">") s1))
  else if is_char char "&" then two "&" AND "&&" unexpected
  else if is_char char "|" then two "|" OR "||" unexpected
  else if is_char char "$" then scanVariable s1
  else if is_char char "@" then scanContextVariable s1
  else if Ascii.eqb char double_quote || Ascii.eqb char single_quote then scanString char s1
  else if isDigit char then scanNumber char s1
  else if isAlpha char then Return (scanIdentifier char s1)
  else unexpected.

(** The [while (!this.isAtEnd())] loop of [tokenize]. *)
Fixpoint tokenize_loop (fuel : nat) (s : LexState) : result_of LexState :=
  if isAtEnd s then Return s
  else
    match fuel with
    | O => OutOfFuel
    | S fuel' =>
        let s1 := skipWhitespace s in
        if negb (isAtEnd s1) then
          s2 <- scanToken s1 ;; tokenize_loop fuel' s2
        else tokenize_loop fuel' s1
    end.

Definition tokenize (input : string) : result_of (list Token) :=
  let chars := list_ascii_of_string input in
  s <- tokenize_loop (S (List.length chars)) (mkLex chars 0 1 1 []) ;;
  Return (tokens (addToken EOF TNull s)).
(* ================================================================== *)
(** * types.ts (AST) and parser.ts                                     *)
(* ================================================================== *)

Inductive Prefix := Dollar | At.

Inductive ASTNode : Type :=
| DecimalLiteral (value raw : string)
| NumberLiteral (value : number)
| StringLiteral (value : string)
| BooleanLiteral (value : bool)
| NullLiteral
| ArrayLiteral (elements : list ASTNode)
| VariableReference (prefix : Prefix) (name : string)
| BinaryOperation (operator : string) (left right : ASTNode)
| UnaryOperation (operator : string) (operand : ASTNode)
| ConditionalExpression (condition consequent alternate : ASTNode)
| FunctionCall (name : string) (arguments : list ASTNode)
| MemberAccess (object : ASTNode) (property : string)
| IndexAccess (object index : ASTNode).

(** The table [PRECEDENCE]. *)
Definition PREC_LOWEST := 1.
Definition PREC_TERNARY := 2.
Definition PREC_OR := 3.
Definition PREC_AND := 4.
Definition PREC_EQUALITY := 5.
Definition PREC_COMPARISON := 6.
Definition PREC_TERM := 7.
Definition PREC_FACTOR := 8.
Definition PREC_POWER := 9.
Definition PREC_UNARY := 10.
Definition PREC_CALL := 11.
Definition PREC_MEMBER := 12.

(** The parser's [tokens] and [current]. *)
Record ParseState := mkParse {
  ptokens : list Token;
  current : nat
}.

Definition EOF_token : Token := mkToken EOF TNull 0 0 0.

Definition ppeek (p : ParseState) : Token := nth (current p) (ptokens p) EOF_token.

Definition pisAtEnd (p : ParseState) : bool := TokenType_eqb (ttype (ppeek p)) EOF.

Definition padvance (p : ParseState) : Token * ParseState :=
  let p' := if negb (pisAtEnd p) then mkParse (ptokens p) (S (current p)) else p in
  (nth (current p' - 1) (ptokens p') EOF_token, p').

(** [String(token.value)] *)
Definition token_text (t : Token) : string :=
  match tvalue t with
  | TString s => s
  | TNumber n => n_toString n
  | TBool true => "true"
  | TBool false => "false"
  | TNull => "null"
  end.

Definition expect (t : TokenType) (expected : string) (p : ParseState)
  : result_of (Token * ParseState) :=
  if TokenType_eqb (ttype (ppeek p)) t then Return (padvance p)
  else Throw (UnexpectedTokenError (token_text (ppeek p)) [expected] (tposition (ppeek p))).

Definition getTokenPrecedence (t : TokenType) : nat :=
  match t with
  | OR => PREC_OR
  | AND => PREC_AND
  | EQ | NEQ => PREC_EQUALITY
  | LT | GT | LTE | GTE => PREC_COMPARISON
  | PLUS | MINUS => PREC_TERM
  | MULTIPLY | DIVIDE | MODULO => PREC_FACTOR
  | POWER => PREC_POWER
  | DOT | LBRACKET => PREC_MEMBER
  | QUESTION => PREC_TERNARY
  | _ => PREC_LOWEST
  end.

Definition getPrecedence (p : ParseState) : nat := getTokenPrecedence (ttype (ppeek p)).

Definition getOperatorSymbol (t : TokenType) : string :=
  match t with
  | PLUS => "+" | MINUS => "-" | MULTIPLY => "*" | DIVIDE => "/"
  | MODULO => "%" | POWER => "^"
  | EQ => "==" | NEQ => "!=" | LT => "<" | GT => ">" | LTE => "<=" | GTE => ">="
  | AND => "&&" | OR => "||" | NOT => "!"
  | _ => ""
  end.

Definition parseNumber (p : ParseState) : ASTNode * ParseState :=
  let '(token, p1) := padvance p in
  match tvalue token with
  | TNumber n => (NumberLiteral n, p1)
  | _ => (DecimalLiteral (token_text token) (token_text token), p1)
  end.

Definition parseString (p : ParseState) : ASTNode * ParseState :=
  let '(token, p1) := padvance p in (StringLiteral (token_text token), p1).

Definition parseBoolean (p : ParseState) : ASTNode * ParseState :=
  let '(token, p1) := padvance p in
  (BooleanLiteral (match tvalue token with TBool true => true | _ => false end), p1).

Definition parseNull (p : ParseState) : ASTNode * ParseState :=
  (NullLiteral, snd (padvance p)).

Definition parseVariable (p : ParseState) : ASTNode * ParseState :=
  let '(token, p1) := padvance p in (VariableReference Dollar (token_text token), p1).

Definition parseContextVariable (p : ParseState) : ASTNode * ParseState :=
  let '(token, p1) := padvance p in (VariableReference At (token_text token), p1).

Section ParserBody.
(** [rec] stands for the recursive call [this.parseExpression]. *)
Variable rec : nat -> ParseState -> result_of (ASTNode * ParseState).

(** The [do { ... } while (peek is COMMA)] loop shared by
    [parseFunctionCall] and [parseArrayLiteral]. *)
Fixpoint parse_list (n : nat) (acc : list ASTNode) (p : ParseState)
  : result_of (list ASTNode * ParseState) :=
  match n with
  | O => OutOfFuel
  | S n' =>
      let p1 := if TokenType_eqb (ttype (ppeek p)) COMMA then snd (padvance p) else p in
      '(e, p2) <- rec PREC_LOWEST p1 ;;
      let acc' := acc ++ [e] in
      if TokenType_eqb (ttype (ppeek p2)) COMMA then parse_list n' acc' p2
      else Return (acc', p2)
  end.

Definition parseFunctionCall (n : nat) (name : string) (p : ParseState)
  : result_of (ASTNode * ParseState) :=
  let p1 := snd (padvance p) in
  '(args, p2) <- (if negb (TokenType_eqb (ttype (ppeek p1)) RPAREN)
                  then parse_list n [] p1 else Return ([], p1)) ;;
  '(_, p3) <- expect RPAREN ")" p2 ;;
  Return (FunctionCall (toUpperCase name) args, p3).

Definition parseIdentifierOrFunctionCall (n : nat) (p : ParseState)
  : result_of (ASTNode * ParseState) :=
  let '(token, p1) := padvance p in
  let name := token_text token in
  if TokenType_eqb (ttype (ppeek p1)) LPAREN then parseFunctionCall n name p1
  else
    let upperName := toUpperCase name in
    if String.eqb upperName "AND" || String.eqb upperName "OR" then
      Throw (SyntaxError ("'" ++ name ++ "' cannot be used as an identifier")%string
                         (tposition token) (tline token) (tcolumn token))
    else
      Throw (SyntaxError ("Unknown identifier '" ++ name
                          ++ "'. Variables must be prefixed with $ or @")%string
                         (tposition token) (tline token) (tcolumn token)).

Definition parseGroupedExpression (p : ParseState) : result_of (ASTNode * ParseState) :=
  let p1 := snd (padvance p) in
  '(expr, p2) <- rec PREC_LOWEST p1 ;;
  '(_, p3) <- expect RPAREN ")" p2 ;;
  Return (expr, p3).

Definition parseArrayLiteral (n : nat) (p : ParseState) : result_of (ASTNode * ParseState) :=
  let p1 := snd (padvance p) in
  '(elements, p2) <- (if negb (TokenType_eqb (ttype (ppeek p1)) RBRACKET)
                      then parse_list n [] p1 else Return ([], p1)) ;;
  '(_, p3) <- expect RBRACKET "]" p2 ;;
  Return (ArrayLiteral elements, p3).

Definition parseUnaryExpression (p : ParseState) : result_of (ASTNode * ParseState) :=
  let '(token, p1) := padvance p in
  let operator := getOperatorSymbol (ttype token) in
  '(operand, p2) <- rec PREC_UNARY p1 ;;
  Return (UnaryOperation operator operand, p2).

Definition parsePrefixExpression (n : nat) (p : ParseState) : result_of (ASTNode * ParseState) :=
  let token := ppeek p in
  match ttype token with
  | NUMBER => Return (parseNumber p)
  | STRING => Return (parseString p)
  | BOOLEAN => Return (parseBoolean p)
  | NULL => Return (parseNull p)
  | VARIABLE => Return (parseVariable p)
  | CONTEXT_VAR => Return (parseContextVariable p)
  | IDENTIFIER => parseIdentifierOrFunctionCall n p
  | LPAREN => parseGroupedExpression p
  | LBRACKET => parseArrayLiteral n p
  | MINUS | NOT => parseUnaryExpression p
  | _ => Throw (UnexpectedTokenError (token_text token)
                  ["number"; "string"; "boolean"; "null"; "variable"; "identifier";
                   "("; "["; "-"; "!"]
                  (tposition token))
  end.

Definition parseBinaryExpression (left : ASTNode) (p : ParseState)
  : result_of (ASTNode * ParseState) :=
  let '(token, p1) := padvance p in
  let operator := getOperatorSymbol (ttype token) in
  let precedence := getTokenPrecedence (ttype token) in
  let nextPrecedence :=
    if TokenType_eqb (ttype token) POWER then precedence - 1 else precedence in
  '(rhs, p2) <- rec nextPrecedence p1 ;;
  Return (BinaryOperation operator left rhs, p2).

Definition parseTernaryExpression (condition : ASTNode) (p : ParseState)
  : result_of (ASTNode * ParseState) :=
  let p1 := snd (padvance p) in
  '(consequent, p2) <- rec PREC_LOWEST p1 ;;
  '(_, p3) <- expect COLON ":" p2 ;;
  '(alternate, p4) <- rec (PREC_TERNARY - 1) p3 ;;
  Return (ConditionalExpression condition consequent alternate, p4).

(** [parseMemberAccess] and [parseIndexAccess] call each other while the
    next token is [.] or [[]; [member] tells which of the two runs. *)
Fixpoint parseAccess (n : nat) (member : bool) (object : ASTNode) (p : ParseState)
  : result_of (ASTNode * ParseState) :=
  match n with
  | O => OutOfFuel
  | S n' =>
      '(node, p') <-
        (if member then
           let p1 := snd (padvance p) in
           let token := ppeek p1 in
           if negb (TokenType_eqb (ttype token) IDENTIFIER)
              && negb (TokenType_eqb (ttype token) VARIABLE)
           then Throw (UnexpectedTokenError (token_text token) ["identifier"] (tposition token))
           else Return (MemberAccess object (token_text token), snd (padvance p1))
         else
           let p1 := snd (padvance p) in
           '(index, p2) <- rec PREC_LOWEST p1 ;;
           '(_, p3) <- expect RBRACKET "]" p2 ;;
           Return (IndexAccess object index, p3)) ;;
      if TokenType_eqb (ttype (ppeek p')) DOT then parseAccess n' true node p'
      else if TokenType_eqb (ttype (ppeek p')) LBRACKET then parseAccess n' false node p'
      else Return (node, p')
  end.

Definition parseMemberAccess (n : nat) := parseAccess n true.
Definition parseIndexAccess (n : nat) := parseAccess n false.

Definition parseInfixExpression (n : nat) (left : ASTNode) (p : ParseState)
  : result_of (ASTNode * ParseState) :=
  match ttype (ppeek p) with
  | PLUS | MINUS | MULTIPLY | DIVIDE | MODULO | POWER
  | EQ | NEQ | LT | GT | LTE | GTE | AND | OR => parseBinaryExpression left p
  | QUESTION => parseTernaryExpression left p
  | DOT => parseMemberAccess n left p
  | LBRACKET => parseIndexAccess n left p
  | _ => Return (left, p)
  end.

(** The [while] loop of [parseExpression]. *)
Fixpoint parseExpression_loop (n : nat) (precedence : nat) (left : ASTNode) (p : ParseState)
  : result_of (ASTNode * ParseState) :=
  if negb (pisAtEnd p) && Nat.ltb precedence (getPrecedence p) then
    match n with
    | O => OutOfFuel
    | S n' =>
        '(left', p') <- parseInfixExpression n' left p ;;
        parseExpression_loop n' precedence left' p'
    end
  else Return (left, p).
End ParserBody.

Fixpoint parseExpression (fuel : nat) (precedence : nat) (p : ParseState)
  : result_of (ASTNode * ParseState) :=
  match fuel with
  | O => OutOfFuel
  | S fuel' =>
      '(lhs, p1) <- parsePrefixExpression (parseExpression fuel') fuel' p ;;
      parseExpression_loop (parseExpression fuel') fuel' precedence lhs p1
  end.

(** [Parser.parse].  The fuel is that of the recursion and the loops of
    the parser; twice the number of tokens is more than they take. *)
Definition parse (expression : string) : result_of ASTNode :=
  toks <- tokenize expression ;;
  let fuel := 2 * List.length toks + 2 in
  '(ast, p) <- parseExpression fuel PREC_LOWEST (mkParse toks 0) ;;
  if negb (pisAtEnd p) then
    Throw (UnexpectedTokenError (token_text (ppeek p)) ["end of expression"]
                                (tposition (ppeek p)))
  else Return ast.
(* ================================================================== *)
(** * types.ts (configuration) and decimal-utils.ts                    *)
(* ================================================================== *)

Record SecurityConfig := mkSecurity {
  maxExpressionLength : option nat;
  maxRecursionDepth : option nat;
  maxIterations : option nat;
  maxExecutionTime : option nat
}.

(** types.ts: [DecimalConfig], with the fields that the adapter and the
    engine read themselves.  ([precision], [maxExponent] and [minExponent]
    are handed to [Decimal.set], the configuration of decimal.js, which is
    one for the whole process and belongs to the primitive [DecimalLib].) *)
Record DecimalConfig := mkDecimalConfig {
  roundingMode : option DecimalRoundingMode;
  divisionScale : option Z;
  autoConvertFloats : option bool
}.

Inductive RoundingModeName := R_HALF_UP | R_HALF_DOWN | R_FLOOR | R_CEIL | R_NONE.

Record RoundingConfig := mkRounding {
  mode : RoundingModeName;
  precision : Z
}.

(** The adapter [DecimalUtils] after its constructor merged the
    configuration into [DEFAULT_CONFIG]. *)
Record DecimalUtils := mkDecimalUtils {
  du_roundingMode : DecimalRoundingMode;
  du_divisionScale : Z
}.

Definition DEFAULT_CONFIG : DecimalUtils := mkDecimalUtils HALF_UP 10.

Definition newDecimalUtils (config : option DecimalConfig) : DecimalUtils :=
  match config with
  | None => DEFAULT_CONFIG
  | Some c =>
      mkDecimalUtils
        (match roundingMode c with Some m => m | None => du_roundingMode DEFAULT_CONFIG end)
        (match divisionScale c with Some s => s | None => du_divisionScale DEFAULT_CONFIG end)
  end.

Definition du_from_string (s : string) : result_of Decimal :=
  match d_new_string s with
  | Some d => Return d
  | None => Throw (InvalidDecimalError s)
  end.

Definition du_from_number (n : number) : Decimal := d_new_number n.

Definition du_zero : Decimal := d_new_number (n_of_nat 0).

Definition du_toDecimalPlaces (d : Decimal) (scale : Z) (r : Rounding) : result_of Decimal :=
  match d_toDecimalPlaces d scale r with
  | Some d' => Return d'
  | None => Throw (DecimalError "[DecimalError] Invalid argument")
  end.

Definition du_divide (du : DecimalUtils) (a b : Decimal) : result_of Decimal :=
  if d_isZero b then Throw DecimalDivisionByZeroError
  else du_toDecimalPlaces (d_dividedBy a b) (du_divisionScale du)
                          (ROUNDING_MODE_MAP (du_roundingMode du)).

Definition du_modulo (a b : Decimal) : result_of Decimal :=
  if d_isZero b then Throw DecimalDivisionByZeroError
  else Return (d_modulo a b).

Definition du_round (du : DecimalUtils) (value : Decimal) (scale : Z)
           (roundingMode : option DecimalRoundingMode) : result_of Decimal :=
  let rounding := match roundingMode with
                  | Some m => ROUNDING_MODE_MAP m
                  | None => ROUNDING_MODE_MAP (du_roundingMode du)
                  end in
  du_toDecimalPlaces value scale rounding.

(* ================================================================== *)
(** * evaluator.ts                                                     *)
(* ================================================================== *)

Record FunctionDefinition := mkFunction {
  fname : string;
  minArgs : Z;
  maxArgs : Z;
  implementation : list value -> EvaluationContext -> result_of value
}.

(** The fields the [Evaluator] constructor fixes. *)
Record Evaluator := mkEvaluator {
  decimalUtils : DecimalUtils;
  functions : list (string * FunctionDefinition);
  strictMode : bool;
  securityConfig : SecurityConfig
}.

(** The fields an evaluation mutates, and the next free allocation
    identity of the JavaScript heap. *)
Record EvalState := mkState {
  recursionDepth : nat;
  iterationCount : nat;
  accessedVariables : list string;
  nextRef : nat
}.

Definition M (A : Type) := EvalState -> result_of A * EvalState.

Definition ret {A} (a : A) : M A := fun st => (Return a, st).
Definition throw {A} (e : Error) : M A := fun st => (Throw e, st).
Definition lift {A} (r : result_of A) : M A := fun st => (r, st).

Definition bindM {A B} (m : M A) (k : A -> M B) : M B :=
  fun st =>
    match m st with
    | (Return a, st') => k a st'
    | (Throw e, st') => (Throw e, st')
    | (OutOfFuel, st') => (OutOfFuel, st')
    end.

Notation "x <~ m ;; k" := (bindM m (fun x => k))
  (at level 61, m at next level, right associativity).

Fixpoint sequenceM {A} (l : list (M A)) : M (list A) :=
  match l with
  | [] => ret []
  | m :: r => x <~ m ;; xs <~ sequenceM r ;; ret (x :: xs)
  end.

Section EvaluatorBody.
Variable ev : Evaluator.

Definition recursion_limit : nat :=
  match maxRecursionDepth (securityConfig ev) with Some n => n | None => 100 end.

Definition iteration_limit : nat :=
  match maxIterations (securityConfig ev) with Some n => n | None => 10000 end.

Definition checkRecursionLimit : M unit :=
  fun st =>
    let st' := mkState (S (recursionDepth st)) (iterationCount st)
                       (accessedVariables st) (nextRef st) in
    if Nat.ltb recursion_limit (recursionDepth st')
    then (Throw (MaxRecursionError recursion_limit), st')
    else (Return tt, st').

Definition checkIterationLimit : M unit :=
  fun st =>
    let st' := mkState (recursionDepth st) (S (iterationCount st))
                       (accessedVariables st) (nextRef st) in
    if Nat.ltb iteration_limit (iterationCount st')
    then (Throw (MaxIterationsError iteration_limit), st')
    else (Return tt, st').

Definition access_variable (name : string) : M unit :=
  fun st => (Return tt, mkState (recursionDepth st) (iterationCount st)
                                (set_add (accessedVariables st) name) (nextRef st)).

(** A fresh array: [[...]], [Array.prototype.map], [result.push]. *)
Definition new_array (elements : list value) : M value :=
  fun st => (Return (VArray (nextRef st) elements),
             mkState (recursionDepth st) (iterationCount st)
                     (accessedVariables st) (S (nextRef st))).

Definition maybeConvertToDecimal (v : value) : value :=
  match v with
  | VNumber n =>
      if negb (n_isNaN n) && n_isFinite n then VDecimal (du_from_number n) else v
  | _ => v
  end.

Definition evaluateVariable (prefix : Prefix) (name : string) (context : EvaluationContext)
  : M value :=
  _ <~ access_variable name ;;
  match prefix with
  | Dollar =>
      match prop_get (variables context) name with
      | Some v => ret (maybeConvertToDecimal v)
      | None =>
          match (if String.eqb name "it" then
                   match extra context with
                   | Some e => prop_get e "_currentItem"
                   | None => None
                   end
                 else None) with
          | Some item => ret item
          | None =>
              if strictMode ev then throw (UndefinedVariableError name "")
              else ret VNull
          end
      end
  | At =>
      match (match extra context with Some e => prop_get e name | None => None end) with
      | Some v => ret v
      | None =>
          if strictMode ev then throw (UndefinedVariableError ("@" ++ name)%string "")
          else ret VNull
      end
  end.

(** Helper methods *)

Definition isNumeric (v : value) : bool :=
  match v with VDecimal _ | VNumber _ => true | _ => false end.

Definition typeOf (v : value) : string :=
  match v with
  | VNull => "null"
  | VDecimal _ => "decimal"
  | VArray _ _ => "array"
  | _ => js_typeof v
  end.

Definition toDecimal (v : value) : result_of Decimal :=
  match v with
  | VDecimal d => Return d
  | VNumber n => Return (du_from_number n)
  | VString s => du_from_string s
  | _ => Throw (InvalidOperationError "toDecimal" [typeOf v])
  end.

Definition toNumber (v : value) : result_of number :=
  match v with
  | VDecimal d => Return (d_toNumber d)
  | VNumber n => Return n
  | VString s => Return (parseFloat s)
  | _ => Throw (InvalidOperationError "toNumber" [typeOf v])
  end.

Definition toBool (v : value) : bool :=
  match v with
  | VDecimal d => negb (d_isZero d)
  | VBool b => b
  | VNull | VUndefined => false
  | VNumber n => negb (n_eqb n (n_of_nat 0))
  | VString s => negb (String.eqb s "")
  | VArray _ l => match l with [] => false | _ => true end
  | VObject _ _ => true
  end.

Definition is_string (v : value) : bool :=
  match v with VString _ => true | _ => false end.

Definition add (l r : value) : result_of value :=
  if is_string l || is_string r then
    Return (VString (js_String l ++ js_String r)%string)
  else if isNumeric l && isNumeric r then
    a <- toDecimal l ;; b <- toDecimal r ;; Return (VDecimal (d_plus a b))
  else Throw (InvalidOperationError "+" [typeOf l; typeOf r]).

Definition subtract (l r : value) : result_of value :=
  if negb (isNumeric l) || negb (isNumeric r)
  then Throw (InvalidOperationError "-" [typeOf l; typeOf r])
  else a <- toDecimal l ;; b <- toDecimal r ;; Return (VDecimal (d_minus a b)).

Definition multiply (l r : value) : result_of value :=
  if negb (isNumeric l) || negb (isNumeric r)
  then Throw (InvalidOperationError "*" [typeOf l; typeOf r])
  else a <- toDecimal l ;; b <- toDecimal r ;; Return (VDecimal (d_times a b)).

Definition divide (l r : value) : result_of value :=
  if negb (isNumeric l) || negb (isNumeric r)
  then Throw (InvalidOperationError "/" [typeOf l; typeOf r])
  else
    divisor <- toDecimal r ;;
    if d_isZero divisor then Throw DivisionByZeroError
    else a <- toDecimal l ;; q <- du_divide (decimalUtils ev) a divisor ;; Return (VDecimal q).

Definition modulo (l r : value) : result_of value :=
  if negb (isNumeric l) || negb (isNumeric r)
  then Throw (InvalidOperationError "%" [typeOf l; typeOf r])
  else
    divisor <- toDecimal r ;;
    if d_isZero divisor then Throw DivisionByZeroError
    else a <- toDecimal l ;; m <- du_modulo a divisor ;; Return (VDecimal m).

Definition power (l r : value) : result_of value :=
  if negb (isNumeric l) || negb (isNumeric r)
  then Throw (InvalidOperationError "^" [typeOf l; typeOf r])
  else a <- toDecimal l ;; n <- toNumber r ;; Return (VDecimal (d_pow a n)).

Definition negate (v : value) : result_of value :=
  if negb (isNumeric v) then Throw (InvalidOperationError "-" [typeOf v])
  else a <- toDecimal v ;; Return (VDecimal (d_negated a)).

Definition equals (l r : value) : bool :=
  match l, r with
  | VDecimal a, VDecimal b => d_equals a b
  | VDecimal a, VNumber b => d_equals a (du_from_number b)
  | VNumber a, VDecimal b => d_equals (du_from_number a) b
  | _, _ => strict_equals l r
  end.

Definition compare_with (op : string)
           (dec : Decimal -> Decimal -> bool) (str : string -> string -> bool)
           (l r : value) : result_of value :=
  if isNumeric l && isNumeric r then
    a <- toDecimal l ;; b <- toDecimal r ;; Return (VBool (dec a b))
  else
    match l, r with
    | VString a, VString b => Return (VBool (str a b))
    | _, _ => Throw (InvalidOperationError op [typeOf l; typeOf r])
    end.

Definition lessThan := compare_with "<" d_lessThan String.ltb.
Definition greaterThan := compare_with ">" d_greaterThan (fun a b => String.ltb b a).
Definition lessThanOrEqual := compare_with "<=" d_lessThanOrEqualTo String.leb.
Definition greaterThanOrEqual :=
  compare_with ">=" d_greaterThanOrEqualTo (fun a b => String.leb b a).

(** [evaluateNode(undefined, context)]: the limit is checked, then
    reading [node.type] fails. *)
Definition evaluateUndefinedNode : M value :=
  _ <~ checkRecursionLimit ;;
  throw (TypeError "Cannot read properties of undefined (reading 'type')").

Definition evaluateBinaryOperation (operator : string) (evalLeft evalRight : M value)
  : M value :=
  if String.eqb operator "&&" then
    l <~ evalLeft ;;
    if negb (toBool l) then ret (VBool false)
    else r <~ evalRight ;; ret (VBool (toBool r))
  else if String.eqb operator "||" then
    l <~ evalLeft ;;
    if toBool l then ret (VBool true)
    else r <~ evalRight ;; ret (VBool (toBool r))
  else
    l <~ evalLeft ;;
    r <~ evalRight ;;
    if String.eqb operator "+" then lift (add l r)
    else if String.eqb operator "-" then lift (subtract l r)
    else if String.eqb operator "*" then lift (multiply l r)
    else if String.eqb operator "/" then lift (divide l r)
    else if String.eqb operator "%" then lift (modulo l r)
    else if String.eqb operator "^" then lift (power l r)
    else if String.eqb operator "==" then ret (VBool (equals l r))
    else if String.eqb operator "!=" then ret (VBool (negb (equals l r)))
    else if String.eqb operator "<" then lift (lessThan l r)
    else if String.eqb operator ">" then lift (greaterThan l r)
    else if String.eqb operator "<=" then lift (lessThanOrEqual l r)
    else if String.eqb operator ">=" then lift (greaterThanOrEqual l r)
    else throw (InvalidOperationError operator [typeOf l; typeOf r]).

Definition evaluateUnaryOperation (operator : string) (evalOperand : M value) : M value :=
  operand <~ evalOperand ;;
  if String.eqb operator "-" then lift (negate operand)
  else if String.eqb operator "!" then ret (VBool (negb (toBool operand)))
  else throw (InvalidOperationError operator [typeOf operand]).

Definition evaluateConditional (evalCondition evalConsequent evalAlternate : M value)
  : M value :=
  condition <~ evalCondition ;;
  if toBool condition then evalConsequent else evalAlternate.

(** The context of one iteration of SUM / FILTER / MAP. *)
Definition itemContext (context : EvaluationContext) (item : value) : EvaluationContext :=
  mkContext (prop_set (variables context) "it" item)
            (collections context)
            (Some (prop_set (match extra context with Some e => e | None => [] end)
                            "_currentItem" item)).

Fixpoint sum_loop (evalExpression : EvaluationContext -> M value)
         (context : EvaluationContext) (items : list value) (sum : Decimal) : M Decimal :=
  match items with
  | [] => ret sum
  | item :: rest =>
      _ <~ checkIterationLimit ;;
      v <~ evalExpression (itemContext context item) ;;
      if isNumeric v then
        d <~ lift (toDecimal v) ;; sum_loop evalExpression context rest (d_plus sum d)
      else sum_loop evalExpression context rest sum
  end.

Definition evaluateSumWithExpression (evalArray : M value)
           (evalExpression : EvaluationContext -> M value)
           (context : EvaluationContext) : M value :=
  array <~ evalArray ;;
  match array with
  | VArray _ items =>
      s <~ sum_loop evalExpression context items du_zero ;; ret (VDecimal s)
  | _ => throw (GeneralError "SUM first argument must be an array")
  end.

Fixpoint filter_loop (evalCondition : EvaluationContext -> M value)
         (context : EvaluationContext) (items : list value) (acc : list value)
  : M (list value) :=
  match items with
  | [] => ret acc
  | item :: rest =>
      _ <~ checkIterationLimit ;;
      keep <~ evalCondition (itemContext context item) ;;
      filter_loop evalCondition context rest (if toBool keep then acc ++ [item] else acc)
  end.

Definition evaluateFilter (evalArray : M value)
           (evalCondition : EvaluationContext -> M value)
           (context : EvaluationContext) : M value :=
  array <~ evalArray ;;
  match array with
  | VArray _ items =>
      kept <~ filter_loop evalCondition context items [] ;; new_array kept
  | _ => throw (GeneralError "FILTER first argument must be an array")
  end.

Fixpoint map_loop (evalExpression : EvaluationContext -> M value)
         (context : EvaluationContext) (items : list value) (acc : list value)
  : M (list value) :=
  match items with
  | [] => ret acc
  | item :: rest =>
      _ <~ checkIterationLimit ;;
      v <~ evalExpression (itemContext context item) ;;
      map_loop evalExpression context rest (acc ++ [v])
  end.

Definition evaluateMap (evalArray : M value)
           (evalExpression : EvaluationContext -> M value)
           (context : EvaluationContext) : M value :=
  array <~ evalArray ;;
  match array with
  | VArray _ items =>
      mapped <~ map_loop evalExpression context items [] ;; new_array mapped
  | _ => throw (GeneralError "MAP first argument must be an array")
  end.

(** [evalArg0] and [evalArg1] evaluate [node.arguments[0]] and
    [node.arguments[1]]; [evalArgs] holds one evaluation per argument. *)
Definition evaluateFunctionCall (name : string) (argc : nat)
           (evalArg0 : M value) (evalArg1 : EvaluationContext -> M value)
           (evalArgs : list (M value)) (context : EvaluationContext) : M value :=
  let fnName := toUpperCase name in
  match map_get (functions ev) fnName with
  | None => throw (UndefinedFunctionError fnName)
  | Some fn =>
      if Z.ltb (Z.of_nat argc) (minArgs fn) then
        throw (ArgumentCountError fnName (minArgs fn) (maxArgs fn) argc)
      else if negb (Z.eqb (maxArgs fn) (-1)) && Z.ltb (maxArgs fn) (Z.of_nat argc) then
        throw (ArgumentCountError fnName (minArgs fn) (maxArgs fn) argc)
      else if String.eqb fnName "SUM" && Nat.eqb argc 2 then
        evaluateSumWithExpression evalArg0 evalArg1 context
      else if String.eqb fnName "FILTER" then
        evaluateFilter evalArg0 evalArg1 context
      else if String.eqb fnName "MAP" then
        evaluateMap evalArg0 evalArg1 context
      else
        args <~ sequenceM evalArgs ;;
        lift (implementation fn args context)
  end.

Definition evaluateMemberAccess (evalObject : M value) (property : string) : M value :=
  object <~ evalObject ;;
  match object with
  | VNull | VUndefined =>
      if strictMode ev then throw (PropertyAccessError property "null") else ret VNull
  | VObject _ o =>
      ret (maybeConvertToDecimal
             (match prop_get o property with Some v => v | None => VUndefined end))
  | VArray _ l =>
      (* own property [length]; inherited methods are not modelled *)
      ret (maybeConvertToDecimal
             (if String.eqb property "length" then VNumber (n_of_nat (List.length l))
              else VUndefined))
  | VDecimal _ =>
      (* the fields of the Decimal object itself are not modelled *)
      ret VUndefined
  | _ => throw (PropertyAccessError property (js_typeof object))
  end.

Definition evaluateIndexAccess (evalObject evalIndex : M value) : M value :=
  object <~ evalObject ;;
  index <~ evalIndex ;;
  match object with
  | VNull | VUndefined =>
      if strictMode ev then throw (IndexAccessError index "null") else ret VNull
  | VArray _ l =>
      idx <~ lift (toNumber index) ;;
      if n_ltb idx (n_of_nat 0) || n_leb (n_of_nat (List.length l)) idx then ret VNull
      else
        ret (maybeConvertToDecimal
               (match n_index idx with
                | Some i => match nth_error l i with Some v => v | None => VUndefined end
                | None => VUndefined
                end))
  | VObject _ o =>
      ret (maybeConvertToDecimal
             (match prop_get o (js_String index) with Some v => v | None => VUndefined end))
  | VDecimal _ => ret VUndefined
  | _ => throw (IndexAccessError index (js_typeof object))
  end.

Fixpoint evaluateNode (node : ASTNode) (context : EvaluationContext) {struct node} : M value :=
  _ <~ checkRecursionLimit ;;
  match node with
  | DecimalLiteral v _ => d <~ lift (du_from_string v) ;; ret (VDecimal d)
  | NumberLiteral v => ret (VNumber v)
  | StringLiteral v => ret (VString v)
  | BooleanLiteral v => ret (VBool v)
  | NullLiteral => ret VNull
  | ArrayLiteral elements =>
      l <~ sequenceM (map (fun el => evaluateNode el context) elements) ;; new_array l
  | VariableReference prefix name => evaluateVariable prefix name context
  | BinaryOperation operator l r =>
      evaluateBinaryOperation operator (evaluateNode l context) (evaluateNode r context)
  | UnaryOperation operator operand =>
      evaluateUnaryOperation operator (evaluateNode operand context)
  | ConditionalExpression c a b =>
      evaluateConditional (evaluateNode c context) (evaluateNode a context)
                          (evaluateNode b context)
  | FunctionCall name args =>
      evaluateFunctionCall name (List.length args)
        (match args with
         | a0 :: _ => evaluateNode a0 context
         | [] => evaluateUndefinedNode
         end)
        (fun ctx => match args with
                    | _ :: a1 :: _ => evaluateNode a1 ctx
                    | _ => evaluateUndefinedNode
                    end)
        (map (fun arg => evaluateNode arg context) args)
        context
  | MemberAccess object property => evaluateMemberAccess (evaluateNode object context) property
  | IndexAccess object index =>
      evaluateIndexAccess (evaluateNode object context) (evaluateNode index context)
  end.

(** types.ts: [EvaluationResult] (without the wall-clock time). *)
Record EvaluationResult := mkResult {
  rvalue : value;
  success : bool;
  error : option Error;
  resultAccessed : list string
}.

(** [Evaluator.evaluate]: the three counters are reset, the expression is
    parsed and evaluated, and every error is caught into the result.
    [None] only when the parser model ran out of fuel. *)
Definition evaluate (expression : string) (context : EvaluationContext) (st : EvalState)
  : option EvaluationResult * EvalState :=
  let st0 := mkState 0 0 [] (nextRef st) in
  match parse expression with
  | OutOfFuel => (None, st0)
  | Throw e => (Some (mkResult VNull false (Some e) (accessedVariables st0)), st0)
  | Return ast =>
      match evaluateNode ast context st0 with
      | (Return v, st1) => (Some (mkResult v true None (accessedVariables st1)), st1)
      | (Throw e, st1) => (Some (mkResult VNull false (Some e) (accessedVariables st1)), st1)
      | (OutOfFuel, st1) => (None, st1)
      end
  end.
End EvaluatorBody.
(* ================================================================== *)
(** * functions.ts (the entries the properties below exercise)          *)
(* ================================================================== *)

(** The helper [toDecimal] of functions.ts. *)
Definition fn_toDecimal (v : value) : result_of Decimal :=
  match v with
  | VDecimal d => Return d
  | VNumber n => Return (du_from_number n)
  | VString s => du_from_string s
  | _ => Throw (TypeMismatchError "number" (js_typeof v) "numeric conversion")
  end.

(** [args[i]] *)
Definition arg (args : list value) (i : nat) : value := nth i args VUndefined.

Fixpoint sum_decimals (l : list value) (acc : Decimal) : result_of Decimal :=
  match l with
  | [] => Return acc
  | v :: r => d <- fn_toDecimal v ;; sum_decimals r (d_plus acc d)
  end.

Fixpoint map_result {A B} (f : A -> result_of B) (l : list A) : result_of (list B) :=
  match l with
  | [] => Return []
  | a :: r => b <- f a ;; bs <- map_result f r ;; Return (b :: bs)
  end.

Definition SUM : FunctionDefinition :=
  mkFunction "SUM" 1 2
    (fun args _ =>
       match arg args 0 with
       | VArray _ arr =>
           if Nat.eqb (List.length args) 1 then
             ds <- map_result fn_toDecimal arr ;;
             Return (VDecimal (fold_left d_plus ds du_zero))
           else Throw (GeneralError "SUM with expression must be handled by evaluator")
       | other => Throw (TypeMismatchError "array" (js_typeof other) "SUM")
       end).

Definition COUNT : FunctionDefinition :=
  mkFunction "COUNT" 1 1
    (fun args _ =>
       match arg args 0 with
       | VArray _ arr => Return (VNumber (n_of_nat (List.length arr)))
       | other => Throw (TypeMismatchError "array" (js_typeof other) "COUNT")
       end).

Definition FILTER : FunctionDefinition :=
  mkFunction "FILTER" 2 2
    (fun _ _ => Throw (GeneralError "FILTER must be handled by evaluator")).

Definition MAP : FunctionDefinition :=
  mkFunction "MAP" 2 2
    (fun _ _ => Throw (GeneralError "MAP must be handled by evaluator")).

(** One criterion of LOOKUP: does the row's field equal the criterion? *)
Definition criterion_matches (rowVal v : value) : bool :=
  match rowVal, v with
  | VDecimal a, VDecimal b => d_equals a b
  | VDecimal a, VNumber n => n_eqb (d_toNumber a) n
  | VDecimal a, VString s => String.eqb (d_toString a) s
  | VDecimal _, _ => false
  | VNumber n, VDecimal b => n_eqb (d_toNumber b) n
  | VString s, VDecimal b => String.eqb (d_toString b) s
  | _, VDecimal _ => false
  | _, _ => strict_equals rowVal v
  end.

(** [rowObj[key]], for the properties of the row's own.  (A member that
    the row inherits from its prototype is no [value]; the properties of
    LOOKUP below carry the condition that keeps such names apart.) *)
Definition field (rowObj : props) (key : string) : value :=
  match prop_get rowObj key with Some v => v | None => VUndefined end.

(** The inner loop over [Object.entries(criteriaObj)]. *)
Definition row_matches (criteriaObj rowObj : props) : bool :=
  forallb (fun '(key, v) => criterion_matches (field rowObj key) v) criteriaObj.

Definition nat_to_string (n : nat) : string := NilEmpty.string_of_uint (Nat.to_uint n).

(** The own properties of an array: its elements under their indices,
    then [length]. *)
Definition array_props (l : list value) : props :=
  combine (map nat_to_string (seq 0 (List.length l))) l
  ++ [("length", VNumber (n_of_nat (List.length l)))].

(** [row as Record<string, unknown>] for a row with [typeof row === 'object'],
    [None] for the rows the loop skips.  A Decimal instance is such an
    object too; its own fields ([s], [e], [d], [constructor]) are those of
    decimal.js and are left out here, and the properties of LOOKUP below
    are stated for tables without such rows. *)
Definition row_object (row : value) : option props :=
  match row with
  | VObject _ rowObj => Some rowObj
  | VArray _ l => Some (array_props l)
  | VDecimal _ => Some []
  | _ => None
  end.

(** The loop [for (const row of table)] of LOOKUP. *)
Fixpoint lookup_rows (table : list value) (criteriaObj : props) (returnField : string)
  : value :=
  match table with
  | [] => VNumber (n_of_nat 0)
  | row :: rest =>
      match row_object row with
      | Some rowObj =>
          if row_matches criteriaObj rowObj then
            match field rowObj returnField with
            | VUndefined => VNumber (n_of_nat 0)
            | result => result
            end
          else lookup_rows rest criteriaObj returnField
      | None => lookup_rows rest criteriaObj returnField
      end
  end.

Definition LOOKUP : FunctionDefinition :=
  mkFunction "LOOKUP" 3 3
    (fun args _ =>
       let table := arg args 0 in
       let criteria := arg args 1 in
       let returnField := arg args 2 in
       match table with
       | VNull | VUndefined => Return (VNumber (n_of_nat 0))
       | VArray _ rows =>
           match criteria with
           | VObject _ criteriaObj =>
               match returnField with
               | VString f => Return (lookup_rows rows criteriaObj f)
               | _ => Throw (TypeMismatchError "string" (js_typeof returnField)
                                               "LOOKUP returnField")
               end
           | VDecimal _ =>
               (* a Decimal instance passes the test; among its fields is an
                  array of digits, which no field of a row is identical to
                  (a row that is this very instance apart) *)
               match returnField with
               | VString f => Return (VNumber (n_of_nat 0))
               | _ => Throw (TypeMismatchError "string" (js_typeof returnField)
                                               "LOOKUP returnField")
               end
           | VNull | VArray _ _ | VNumber _ | VString _ | VBool _ | VUndefined =>
               Throw (TypeMismatchError "object" (js_typeof criteria) "LOOKUP criteria")
           end
       | _ => Throw (TypeMismatchError "array" (js_typeof table) "LOOKUP")
       end).

(** [createBuiltInFunctions]: the map from upper-case name to definition,
    with the five entries embedded above out of those that functions.ts
    registers. *)
Definition createBuiltInFunctions : list (string * FunctionDefinition) :=
  fold_left (fun m fn => map_set m (fname fn) fn)
            [SUM; COUNT; FILTER; MAP; LOOKUP] [].
(* ================================================================== *)
(** * dependency-extractor.ts and DependencyGraphBuilder                *)
(* ================================================================== *)

Fixpoint visit (node : ASTNode) (dependencies : list string) {struct node} : list string :=
  let visitMemberRoot :=
    fix visitMemberRoot (n : ASTNode) (deps : list string) {struct n} : list string :=
      match n with
      | VariableReference Dollar name => set_add deps name
      | VariableReference At _ => deps
      | MemberAccess object _ => visitMemberRoot object deps
      | IndexAccess object index => visit index (visitMemberRoot object deps)
      | _ => visit n deps
      end in
  match node with
  | VariableReference Dollar name => set_add dependencies name
  | VariableReference At _ => dependencies
  | BinaryOperation _ l r => visit r (visit l dependencies)
  | UnaryOperation _ operand => visit operand dependencies
  | ConditionalExpression c a b => visit b (visit a (visit c dependencies))
  | FunctionCall _ args => fold_left (fun deps a => visit a deps) args dependencies
  | MemberAccess object _ => visitMemberRoot object dependencies
  | IndexAccess object index => visit index (visitMemberRoot object dependencies)
  | ArrayLiteral elements => fold_left (fun deps e => visit e deps) elements dependencies
  | DecimalLiteral _ _ | NumberLiteral _ | StringLiteral _ | BooleanLiteral _ | NullLiteral =>
      dependencies
  end.

Definition extractFromNode (node : ASTNode) : list string := visit node [].

(** [DependencyExtractor.extract] *)
Definition extract (expression : string) : result_of (list string) :=
  ast <- parse expression ;; Return (extractFromNode ast).

Inductive ErrorBehaviorType := EB_THROW | EB_NULL | EB_ZERO | EB_DEFAULT | EB_SKIP.

Record ErrorBehavior := mkErrorBehavior {
  eb_type : ErrorBehaviorType;
  eb_defaultValue : option value
}.

(** types.ts: [FormulaDefinition] *)
Record FormulaDefinition := mkFormula {
  id : string;
  expression : string;
  dependencies : option (list string);
  onError : option ErrorBehavior;
  defaultValue : option value;
  rounding : option RoundingConfig
}.

(** [new Set(list)] *)
Definition set_of_list (l : list string) : list string := fold_left set_add l [].

(** The loop [for (const dep of deps)] of [build]. *)
Definition add_formula_edges (formulaIds : list string) (f : FormulaDefinition)
           (deps : list string) (graph : DependencyGraph) : DependencyGraph :=
  fold_left (fun g dep => if set_has formulaIds dep then addEdge g (id f) dep else g)
            deps graph.

Fixpoint build_edges (formulaIds : list string) (formulas : list FormulaDefinition)
         (graph : DependencyGraph) : result_of DependencyGraph :=
  match formulas with
  | [] => Return graph
  | f :: rest =>
      deps <- match dependencies f with
              | Some ds => Return (set_of_list ds)
              | None => extract (expression f)
              end ;;
      build_edges formulaIds rest (add_formula_edges formulaIds f deps graph)
  end.

(** [DependencyGraphBuilder.build] *)
Definition build (formulas : list FormulaDefinition) : result_of DependencyGraph :=
  let formulaIds := set_of_list (map id formulas) in
  let graph := fold_left (fun g f => addNode g (id f)) formulas emptyGraph in
  build_edges formulaIds formulas graph.

(** [DependencyGraphBuilder.getEvaluationOrder] *)
Definition getEvaluationOrder (formulas : list FormulaDefinition) : result_of (list string) :=
  graph <- build formulas ;;
  match topologicalSort graph with
  | Return order => Return order
  | Throw c => Throw (CircularDependencyError (cycle c) (involvedFormulas c))
  | OutOfFuel => OutOfFuel
  end.

(* ================================================================== *)
(** * formula-engine.ts                                                *)
(* ================================================================== *)

Record FormulaEngineConfig := mkConfig {
  cfg_strictMode : option bool;
  cfg_defaultRounding : option RoundingConfig;
  cfg_functions : list FunctionDefinition;
  cfg_decimal : option DecimalConfig;
  cfg_security : option SecurityConfig
}.

(** [registerFunction] *)
Definition registerFunction (fns : list (string * FunctionDefinition))
           (definition : FunctionDefinition) : list (string * FunctionDefinition) :=
  map_set fns (toUpperCase (fname definition)) definition.

(** The evaluator the [FormulaEngine] constructor creates. *)
Definition engine_evaluator (config : FormulaEngineConfig) : Evaluator :=
  mkEvaluator
    (newDecimalUtils (cfg_decimal config))
    (fold_left registerFunction (cfg_functions config) createBuiltInFunctions)
    (match cfg_strictMode config with Some b => b | None => true end)
    (match cfg_security config with
     | Some s => s
     | None => mkSecurity None None None None
     end).

(** The JavaScript objects that a caller's context refers to: a context
    holds references to its [variables] and [extra] objects, and two
    contexts may hold the same reference. *)
Definition Heap := list (nat * props).

Fixpoint heap_get (h : Heap) (l : nat) : props :=
  match h with
  | [] => []
  | (l', o) :: r => if Nat.eqb l l' then o else heap_get r l
  end.

Fixpoint heap_set (h : Heap) (l : nat) (o : props) : Heap :=
  match h with
  | [] => [(l, o)]
  | (l', o') :: r => if Nat.eqb l l' then (l', o) :: r else (l', o') :: heap_set r l o
  end.

Record ContextRef := mkContextRef {
  variables_ref : nat;
  collections_of : option (list (string * list value));
  extra_ref : option nat
}.

(** What the evaluator reads through a context at a given moment. *)
Definition snapshot (h : Heap) (c : ContextRef) : EvaluationContext :=
  mkContext (heap_get h (variables_ref c)) (collections_of c)
            (option_map (heap_get h) (extra_ref c)).

(** The state of the program around the engine: the heap and the
    evaluator's fields. *)
Record World := mkWorld {
  heap : Heap;
  evalState : EvalState
}.

Definition fresh (w : World) : nat * World :=
  let st := evalState w in
  (nextRef st,
   mkWorld (heap w) (mkState (recursionDepth st) (iterationCount st)
                             (accessedVariables st) (S (nextRef st)))).

(** [convertValue]: numbers become Decimals, arrays and objects are copied.
    A Decimal instance is an object to the last test and is copied field
    by field into a plain object; those fields are not modelled.  The
    values of a context are finite trees here, and the recursion is as
    deep as they nest. *)
Fixpoint convertValue (v : value) (next : nat) : value * nat :=
  match v with
  | VNumber n =>
      if negb (n_isNaN n) && n_isFinite n then (VDecimal (du_from_number n), next)
      else (v, next)
  | VArray _ l =>
      let '(l', next') :=
        (fix convert_list (l : list value) (next : nat) : list value * nat :=
           match l with
           | [] => ([], next)
           | x :: r =>
               let '(x', n1) := convertValue x next in
               let '(r', n2) := convert_list r n1 in
               (x' :: r', n2)
           end) l next in
      (VArray next' l', S next')
  | VObject _ o =>
      let '(o', next') :=
        (fix convert_props (o : list (string * value)) (next : nat)
           : list (string * value) * nat :=
           match o with
           | [] => ([], next)
           | (k, x) :: r =>
               let '(x', n1) := convertValue x next in
               let '(r', n2) := convert_props r n1 in
               ((k, x') :: r', n2)
           end) o next in
      (VObject next' o', S next')
  | VDecimal _ => (VObject next [], S next)
  | _ => (v, next)
  end.

Fixpoint convert_entries (o : props) (next : nat) : props * nat :=
  match o with
  | [] => ([], next)
  | (k, x) :: r =>
      let '(x', n1) := convertValue x next in
      let '(r', n2) := convert_entries r n1 in
      ((k, x') :: r', n2)
  end.

Section EngineBody.
Variable config : FormulaEngineConfig.

Definition checkExpressionLength (expression : string) : result_of unit :=
  let maxLength :=
    match cfg_security config with
    | Some s => match maxExpressionLength s with Some n => n | None => 10000 end
    | None => 10000
    end in
  if Nat.ltb maxLength (String.length expression)
  then Throw (MaxExpressionLengthError (String.length expression) maxLength)
  else Return tt.

Definition autoConvert : bool :=
  match cfg_decimal config with
  | Some d => match autoConvertFloats d with Some b => b | None => true end
  | None => true
  end.

(** [normalizeContext]: [{ ...context }] shares the caller's objects;
    otherwise a new [variables] object is filled with converted values. *)
Definition normalizeContext (context : ContextRef) (w : World) : ContextRef * World :=
  if negb autoConvert then (context, w)
  else
    let st := evalState w in
    let '(normalizedVariables, next) :=
      convert_entries (heap_get (heap w) (variables_ref context)) (nextRef st) in
    (mkContextRef next (collections_of context) (extra_ref context),
     mkWorld (heap_set (heap w) next normalizedVariables)
             (mkState (recursionDepth st) (iterationCount st)
                      (accessedVariables st) (S next))).

(** [FormulaEngine.evaluate]: the length check may throw; everything
    else is reported inside the result. *)
Definition engine_evaluate (expression : string) (context : ContextRef) (w : World)
  : result_of EvaluationResult * World :=
  match checkExpressionLength expression with
  | Throw e => (Throw e, w)
  | OutOfFuel => (OutOfFuel, w)
  | Return _ =>
      let '(normalizedContext, w1) := normalizeContext context w in
      let '(r, st) := evaluate (engine_evaluator config) expression
                               (snapshot (heap w1) normalizedContext) (evalState w1) in
      (match r with Some res => Return res | None => OutOfFuel end,
       mkWorld (heap w1) st)
  end.

Definition applyRounding (v : Decimal) (rc : RoundingConfig) : result_of Decimal :=
  match mode rc with
  | R_NONE => Return v
  | R_HALF_UP => du_round (newDecimalUtils (cfg_decimal config)) v (precision rc) (Some HALF_UP)
  | R_HALF_DOWN =>
      du_round (newDecimalUtils (cfg_decimal config)) v (precision rc) (Some HALF_DOWN)
  | R_FLOOR => du_round (newDecimalUtils (cfg_decimal config)) v (precision rc) (Some FLOOR)
  | R_CEIL => du_round (newDecimalUtils (cfg_decimal config)) v (precision rc) (Some CEIL)
  end.

(** [a ?? b] on optional values: [None], [null] and [undefined] fall through. *)
Definition nullish (a : option value) (b : value) : value :=
  match a with
  | None | Some VNull | Some VUndefined => b
  | Some v => v
  end.

Definition handleError (formula : FormulaDefinition) (err : Error) : result_of value :=
  match onError formula with
  | None => Return VNull
  | Some behavior =>
      match eb_type behavior with
      | EB_NULL => Return VNull
      | EB_ZERO => Return (VDecimal du_zero)
      | EB_DEFAULT =>
          Return (nullish (eb_defaultValue behavior) (nullish (defaultValue formula) VNull))
      | EB_SKIP => Return VUndefined
      | EB_THROW => Throw err
      end
  end.

(** types.ts: [EvaluationResultSet] (without the wall-clock time). *)
Record EvaluationResultSet := mkResultSet {
  results : list (string * EvaluationResult);
  rs_success : bool;
  errors : list Error;
  evaluationOrder : list string
}.

Definition formulaMap (formulas : list FormulaDefinition) : list (string * FormulaDefinition) :=
  fold_left (fun m f => map_set m (id f) f) formulas [].

(** [workingContext.variables[formulaId] = value] *)
Definition write_variable (workingContext : ContextRef) (formulaId : string) (v : value)
           (h : Heap) : Heap :=
  heap_set h (variables_ref workingContext)
           (prop_set (heap_get h (variables_ref workingContext)) formulaId v).

(** The body of the [try] block for one formula: the value to store and
    the result to record, or the error that escapes to [catch]. *)
Definition try_formula (formula : FormulaDefinition) (res : EvaluationResult)
  : result_of value :=
  v1 <- match rounding formula, rvalue res with
        | Some rc, VDecimal d => d' <- applyRounding d rc ;; Return (VDecimal d')
        | _, v => Return v
        end ;;
  match success res, onError formula, error res with
  | false, Some _, Some e => handleError formula e
  | false, Some _, None => handleError formula (GeneralError "undefined")
  | _, _, _ => Return v1
  end.

(** One iteration of [for (const formulaId of evaluationOrder)]. *)
Definition evaluate_formula (fm : list (string * FormulaDefinition))
           (workingContext : ContextRef) (formulaId : string)
           (acc : list (string * EvaluationResult) * list Error) (w : World)
  : result_of (list (string * EvaluationResult) * list Error) * World :=
  match map_get fm formulaId with
  | None => (Return acc, w)
  | Some formula =>
      let '(r, st) := evaluate (engine_evaluator config) (expression formula)
                               (snapshot (heap w) workingContext) (evalState w) in
      match r with
      | None => (OutOfFuel, mkWorld (heap w) st)
      | Some res =>
          match try_formula formula res with
          | Return v =>
              (Return (map_set (fst acc) formulaId
                               (mkResult v (success res) (error res) (resultAccessed res)),
                       if success res then snd acc
                       else snd acc ++ match error res with Some e => [e] | None => [] end),
               mkWorld (write_variable workingContext formulaId v (heap w)) st)
          | Throw err =>
              (* the [catch] block *)
              match (match onError formula with
                     | Some _ => handleError formula err
                     | None => Return VNull
                     end) with
              | Return v =>
                  (Return (map_set (fst acc) formulaId (mkResult v false (Some err) []),
                           snd acc ++ [err]),
                   mkWorld (write_variable workingContext formulaId v (heap w)) st)
              | Throw e => (Throw e, mkWorld (heap w) st)
              | OutOfFuel => (OutOfFuel, mkWorld (heap w) st)
              end
          | OutOfFuel => (OutOfFuel, mkWorld (heap w) st)
          end
      end
  end.

Fixpoint evaluate_formulas (fm : list (string * FormulaDefinition))
         (workingContext : ContextRef) (order : list string)
         (acc : list (string * EvaluationResult) * list Error) (w : World)
  : result_of (list (string * EvaluationResult) * list Error) * World :=
  match order with
  | [] => (Return acc, w)
  | formulaId :: rest =>
      match evaluate_formula fm workingContext formulaId acc w with
      | (Return acc', w') => evaluate_formulas fm workingContext rest acc' w'
      | other => other
      end
  end.

(** [FormulaEngine.evaluateAll] *)
Definition evaluateAll (formulas : list FormulaDefinition) (context : ContextRef) (w : World)
  : result_of EvaluationResultSet * World :=
  match getEvaluationOrder formulas with
  | OutOfFuel => (OutOfFuel, w)
  | Throw e => (Return (mkResultSet [] false [e] []), w)
  | Return order =>
      let fm := formulaMap formulas in
      let '(workingContext, w1) := normalizeContext context w in
      match evaluate_formulas fm workingContext order ([], []) w1 with
      | (Return (res, errs), w2) =>
          (Return (mkResultSet res (match errs with [] => true | _ => false end) errs order),
           w2)
      | (Throw e, w2) => (Throw e, w2)
      | (OutOfFuel, w2) => (OutOfFuel, w2)
      end
  end.

(** [FormulaEngine.validate] (parsing goes through the AST cache, which
    only memoises [parse]). *)
Record ValidationResult := mkValidation {
  valid : bool;
  v_errors : list Error;
  v_evaluationOrder : list string
}.

Fixpoint duplicate_errors (formulas : list FormulaDefinition) (ids : list string)
  : list Error :=
  match formulas with
  | [] => []
  | f :: rest =>
      (if set_has ids (id f) then [DuplicateFormulaError (id f)] else [])
      ++ duplicate_errors rest (set_add ids (id f))
  end.

Fixpoint parse_errors (formulas : list FormulaDefinition) : result_of (list Error) :=
  match formulas with
  | [] => Return []
  | f :: rest =>
      here <- match (_ <- checkExpressionLength (expression f) ;; parse (expression f)) with
              | Return _ => Return []
              | Throw e => Return [e]
              | OutOfFuel => OutOfFuel
              end ;;
      there <- parse_errors rest ;;
      Return (here ++ there)
  end.

Definition validate (formulas : list FormulaDefinition) : result_of ValidationResult :=
  let dups := duplicate_errors formulas [] in
  perrs <- parse_errors formulas ;;
  match getEvaluationOrder formulas with
  | OutOfFuel => OutOfFuel
  | Throw e =>
      let errs := dups ++ perrs ++ [e] in
      Return (mkValidation (match errs with [] => true | _ => false end) errs [])
  | Return order =>
      let errs := dups ++ perrs in
      Return (mkValidation (match errs with [] => true | _ => false end) errs order)
  end.
End EngineBody.
End Engine.
(* ================================================================== *)
(** * A realisation of the decimal primitive: scaled integers           *)
(* ================================================================== *)

(** Modelled from the spec: the decimal primitive (the package decimal.js,
    which is not part of the repository) and the conversions between
    JavaScript numbers and text.  It follows the contract of the
    specification (section 6.3): values are integers with a power-of-ten
    scale, construction from text is exact, addition, subtraction and
    multiplication are exact and then rounded to [precision] significant
    digits, division is rounded to [precision] significant digits, rounding
    to a number of decimal places takes any rounding mode.  A JavaScript
    number is represented by its shortest decimal expansion; this is exact
    for the numbers written with at most 15 significant digits, the only
    ones used below.  Powers with a non-integer exponent, and the
    distinction between NaN and the infinities inside decimal.js, are
    outside this realisation. *)
Module Scaled.

Inductive dec := Fin (m e : Z) | NotFinite.

Inductive num := NFin (m e : Z) | NNaN | NInf (negative : bool).

Fixpoint strip_zeros (fuel : nat) (m e : Z) : Z * Z :=
  match fuel with
  | O => (m, e)
  | S f =>
      if Z.eqb m 0 then (0, 0)%Z
      else if Z.eqb (Z.rem m 10) 0 then strip_zeros f (Z.quot m 10) (e + 1)%Z
      else (m, e)
  end.

Definition digits_fuel (m : Z) : nat := S (Z.to_nat (Z.log2 (Z.abs m))).

Definition normalize (m e : Z) : Z * Z := strip_zeros (digits_fuel m) m e.

Definition fin (m e : Z) : dec := let '(m', e') := normalize m e in Fin m' e'.
Definition nfin (m e : Z) : num := let '(m', e') := normalize m e in NFin m' e'.

Fixpoint count_digits (fuel : nat) (n : Z) : Z :=
  match fuel with
  | O => 1
  | S f => if Z.ltb n 10 then 1 else (1 + count_digits f (Z.quot n 10))%Z
  end.

(** Number of decimal digits of [|m|] (1 for zero). *)
Definition ndigits (m : Z) : Z := count_digits (digits_fuel m) (Z.abs m).

(** Drop the last [k] digits of the magnitude [n] of a number of sign
    [neg]; [sticky] tells that non-zero digits follow those of [n]. *)
Definition round_magnitude (mode : Rounding) (neg : bool) (n : Z) (k : Z) (sticky : bool) : Z :=
  let p := (10 ^ k)%Z in
  let q := (n / p)%Z in
  let r := (n mod p)%Z in
  let zero := Z.eqb r 0 && negb sticky in
  let c := Z.compare (2 * r) p in
  let half := match c with Eq => negb sticky | _ => false end in
  let above := match c with Gt => true | Eq => sticky | Lt => false end in
  let inc :=
    match mode with
    | ROUND_UP => negb zero
    | ROUND_DOWN => false
    | ROUND_CEIL => negb neg && negb zero
    | ROUND_FLOOR => neg && negb zero
    | ROUND_HALF_UP => half || above
    | ROUND_HALF_DOWN => above
    | ROUND_HALF_EVEN => above || (half && Z.odd q)
    | ROUND_HALF_CEIL => above || (half && negb neg)
    | ROUND_HALF_FLOOR => above || (half && neg)
    end in
  if inc then (q + 1)%Z else q.

Definition signed (neg : bool) (n : Z) : Z := if neg then (- n)%Z else n.

Section Configured.
(** [Decimal.set({ precision, rounding })] *)
Variable precision : Z.
Variable rounding : Rounding.

(** Round to [precision] significant digits. *)
Definition finalise (m e : Z) (sticky : bool) : dec :=
  let nd := ndigits m in
  if Z.ltb precision nd then
    let k := (nd - precision)%Z in
    let neg := Z.ltb m 0 in
    fin (signed neg (round_magnitude rounding neg (Z.abs m) k sticky)) (e + k)
  else fin m e.

(** Both mantissas at the smaller of the two exponents. *)
Definition align (m1 e1 m2 e2 : Z) : Z * Z * Z :=
  let e := Z.min e1 e2 in
  ((m1 * 10 ^ (e1 - e))%Z, (m2 * 10 ^ (e2 - e))%Z, e).

Definition plus (a b : dec) : dec :=
  match a, b with
  | Fin m1 e1, Fin m2 e2 =>
      let '(x, y, e) := align m1 e1 m2 e2 in finalise (x + y) e false
  | _, _ => NotFinite
  end.

Definition minus (a b : dec) : dec :=
  match a, b with
  | Fin m1 e1, Fin m2 e2 =>
      let '(x, y, e) := align m1 e1 m2 e2 in finalise (x - y) e false
  | _, _ => NotFinite
  end.

Definition times (a b : dec) : dec :=
  match a, b with
  | Fin m1 e1, Fin m2 e2 => finalise (m1 * m2) (e1 + e2) false
  | _, _ => NotFinite
  end.

Definition dividedBy (a b : dec) : dec :=
  match a, b with
  | Fin m1 e1, Fin m2 e2 =>
      if Z.eqb m2 0 then NotFinite
      else
        let neg := xorb (Z.ltb m1 0) (Z.ltb m2 0) in
        let s := (precision + 2 + ndigits m2)%Z in
        let n := (Z.abs m1 * 10 ^ s)%Z in
        let q := (n / Z.abs m2)%Z in
        let sticky := negb (Z.eqb (n mod Z.abs m2) 0) in
        finalise (signed neg q) (e1 - e2 - s) sticky
  | _, _ => NotFinite
  end.

Definition modulo (a b : dec) : dec :=
  match a, b with
  | Fin m1 e1, Fin m2 e2 =>
      if Z.eqb m2 0 then NotFinite
      else let '(x, y, e) := align m1 e1 m2 e2 in finalise (Z.rem x y) e false
  | _, _ => NotFinite
  end.

Definition negated (a : dec) : dec :=
  match a with Fin m e => Fin (- m) e | NotFinite => NotFinite end.

Fixpoint pow_nat (m e : Z) (n : nat) : Z * Z :=
  match n with
  | O => (1, 0)%Z
  | S n' => let '(m', e') := pow_nat m e n' in ((m * m')%Z, (e + e')%Z)
  end.

Definition pow (a : dec) (n : num) : dec :=
  match a, n with
  | Fin m e, NFin k ke =>
      if Z.ltb ke 0 then NotFinite
      else
        let x := (k * 10 ^ ke)%Z in
        let '(pm, pe) := pow_nat m e (Z.to_nat (Z.abs x)) in
        if Z.leb 0 x then finalise pm pe false
        else dividedBy (Fin 1 0) (fin pm pe)
  | _, _ => NotFinite
  end.

Definition toDecimalPlaces (a : dec) (dp : Z) (mode : Rounding) : option dec :=
  if Z.ltb dp 0 then None
  else
    match a with
    | Fin m e =>
        if Z.leb (- e) dp then Some a
        else
          let k := (- e - dp)%Z in
          let neg := Z.ltb m 0 in
          Some (fin (signed neg (round_magnitude mode neg (Z.abs m) k false)) (e + k))
    | NotFinite => Some NotFinite
    end.
End Configured.

Definition isZero (a : dec) : bool :=
  match a with Fin m _ => Z.eqb m 0 | NotFinite => false end.

Definition cmp (m1 e1 m2 e2 : Z) : comparison :=
  let e := Z.min e1 e2 in
  Z.compare (m1 * 10 ^ (e1 - e)) (m2 * 10 ^ (e2 - e)).

Definition dec_cmp (test : comparison -> bool) (a b : dec) : bool :=
  match a, b with
  | Fin m1 e1, Fin m2 e2 => test (cmp m1 e1 m2 e2)
  | _, _ => false
  end.

Definition is_eq (c : comparison) := match c with Eq => true | _ => false end.
Definition is_lt (c : comparison) := match c with Lt => true | _ => false end.
Definition is_gt (c : comparison) := match c with Gt => true | _ => false end.
Definition is_le (c : comparison) := negb (is_gt c).
Definition is_ge (c : comparison) := negb (is_lt c).

Definition digits_of (n : Z) : string := NilEmpty.string_of_uint (N.to_uint (Z.to_N n)).

Fixpoint zeros (n : nat) : string :=
  match n with O => "" | S n' => String "0" (zeros n') end.

(** Positional notation of [m * 10^e]. *)
Definition plain (m e : Z) : string :=
  let sign := if Z.ltb m 0 then "-" else "" in
  let ds := digits_of (Z.abs m) in
  let len := String.length ds in
  (sign ++
   if Z.leb 0 e then (if Z.eqb m 0 then ds else ds ++ zeros (Z.to_nat e))
   else
     let k := Z.to_nat (- e) in
     if Nat.ltb k len
     then substring 0 (len - k) ds ++ "." ++ substring (len - k) k ds
     else "0." ++ zeros (k - len) ++ ds)%string.

Definition toString (a : dec) : string :=
  match a with Fin m e => plain m e | NotFinite => "NaN" end.

Definition num_toString (n : num) : string :=
  match n with
  | NFin m e => plain m e
  | NNaN => "NaN"
  | NInf false => "Infinity"
  | NInf true => "-Infinity"
  end.

(** Reading a numeral: digits, an optional fraction, an optional
    exponent.  The result is the value and the characters left over;
    [None] when no digit was found. *)
Definition digit_value (c : ascii) : option Z :=
  let n := nat_of_ascii c in
  if Nat.leb 48 n && Nat.leb n 57 then Some (Z.of_nat (n - 48)) else None.

Fixpoint read_digits (l : list ascii) (acc : Z) (count : Z) : Z * Z * list ascii :=
  match l with
  | c :: r =>
      match digit_value c with
      | Some d => read_digits r (acc * 10 + d)%Z (count + 1)%Z
      | None => (acc, count, l)
      end
  | [] => (acc, count, l)
  end.

Definition is_ch (c : ascii) (n : nat) : bool := Nat.eqb (nat_of_ascii c) n.

Definition read_sign (l : list ascii) : bool * list ascii :=
  match l with
  | c :: r => if is_ch c 45 then (true, r) else if is_ch c 43 then (false, r) else (false, l)
  | [] => (false, l)
  end.

Definition read_numeral (l : list ascii) : option (Z * Z * list ascii) :=
  let '(neg, l0) := read_sign l in
  let '(ip, ic, l1) := read_digits l0 0 0 in
  let '(m, fc, l2) :=
    match l1 with
    | c :: r =>
        if is_ch c 46 then
          let '(m, fc, r') := read_digits r ip 0 in (m, fc, r')
        else (ip, 0%Z, l1)
    | [] => (ip, 0%Z, l1)
    end in
  if Z.eqb (ic + fc) 0 then None
  else
    let '(ex, l3) :=
      match l2 with
      | c :: r =>
          if is_ch c 101 || is_ch c 69 then
            let '(eneg, r1) := read_sign r in
            let '(ev, ec, r2) := read_digits r1 0 0 in
            if Z.eqb ec 0 then (0%Z, l2) else (signed eneg ev, r2)
          else (0%Z, l2)
      | [] => (0%Z, l2)
      end in
    Some (signed neg m, (ex - fc)%Z, l3).

(** [new Decimal(text)]: the whole text must be a numeral. *)
Definition of_string (s : string) : option dec :=
  match read_numeral (list_ascii_of_string s) with
  | Some (m, e, []) => Some (fin m e)
  | _ => None
  end.

(** [parseFloat(text)]: the longest numeral at the start of the text. *)
Definition parse_float (s : string) : num :=
  match read_numeral (list_ascii_of_string s) with
  | Some (m, e, _) => nfin m e
  | None => NNaN
  end.

Definition of_number (n : num) : dec :=
  match n with NFin m e => Fin m e | _ => NotFinite end.

Definition toNumber (a : dec) : num :=
  match a with Fin m e => NFin m e | NotFinite => NNaN end.

Definition num_cmp (test : comparison -> bool) (a b : num) : bool :=
  match a, b with
  | NFin m1 e1, NFin m2 e2 => test (cmp m1 e1 m2 e2)
  | NInf s1, NInf s2 => test (if Bool.eqb s1 s2 then Eq else if s1 then Lt else Gt)
  | NInf s, NFin _ _ => test (if s then Lt else Gt)
  | NFin _ _, NInf s => test (if s then Gt else Lt)
  | _, _ => false
  end.

Definition num_index (n : num) : option nat :=
  match n with
  | NFin m e => if Z.leb 0 m && Z.leb 0 e then Some (Z.to_nat (m * 10 ^ e)) else None
  | _ => None
  end.

Definition lib (precision : Z) (rounding : Rounding) : DecimalLib := {|
  Decimal := dec;
  number := num;
  d_new_string := of_string;
  d_new_number := of_number;
  d_plus := plus precision rounding;
  d_minus := minus precision rounding;
  d_times := times precision rounding;
  d_dividedBy := dividedBy precision rounding;
  d_modulo := modulo precision rounding;
  d_pow := pow precision rounding;
  d_negated := negated;
  d_toDecimalPlaces := toDecimalPlaces;
  d_isZero := isZero;
  d_equals := dec_cmp is_eq;
  d_lessThan := dec_cmp is_lt;
  d_greaterThan := dec_cmp is_gt;
  d_lessThanOrEqualTo := dec_cmp is_le;
  d_greaterThanOrEqualTo := dec_cmp is_ge;
  d_toString := toString;
  d_toNumber := toNumber;
  n_of_nat := fun n => nfin (Z.of_nat n) 0;
  n_eqb := num_cmp is_eq;
  n_ltb := num_cmp is_lt;
  n_leb := num_cmp is_le;
  n_isNaN := fun n => match n with NNaN => true | _ => false end;
  n_isFinite := fun n => match n with NFin _ _ => true | _ => false end;
  n_toString := num_toString;
  n_index := num_index;
  parseFloat := parse_float
|}.

End Scaled.

(** decimal.js as [DecimalUtils] configures it by default: 20 significant
    digits, rounding half up. *)
Definition DefaultDecimal : DecimalLib := Scaled.lib 20 ROUND_HALF_UP.
(* ================================================================== *)
(** * Facts about the container model                                  *)
(* ================================================================== *)

Lemma set_has_In (s : StrSet) (x : string) : set_has s x = true <-> In x s.
Proof.
  unfold set_has. rewrite existsb_exists. split.
  - intros [y [Hy He]]. apply String.eqb_eq in He. now subst.
  - intros H. exists x. split; [assumption | apply String.eqb_refl].
Qed.

Lemma set_has_notIn (s : StrSet) (x : string) : set_has s x = false <-> ~ In x s.
Proof.
  rewrite <- set_has_In. destruct (set_has s x); split; congruence.
Qed.

Lemma set_add_In (s : StrSet) (x y : string) : In y (set_add s x) <-> In y s \/ y = x.
Proof.
  unfold set_add. destruct (set_has s x) eqn:E.
  - apply set_has_In in E. split; [tauto | intros [H | ->]; assumption].
  - rewrite in_app_iff. simpl. firstorder.
Qed.

Lemma set_add_fresh (s : StrSet) (x : string) : ~ In x s -> set_add s x = s ++ [x].
Proof.
  intros H. unfold set_add. apply set_has_notIn in H. now rewrite H.
Qed.

Lemma NoDup_snoc {A} (l : list A) (x : A) : NoDup l -> ~ In x l -> NoDup (l ++ [x]).
Proof.
  intros Hl Hx. apply NoDup_app; [assumption | repeat constructor; auto | ].
  intros a Ha [<- | []]. contradiction.
Qed.

Lemma set_add_NoDup (s : StrSet) (x : string) : NoDup s -> NoDup (set_add s x).
Proof.
  intros H. unfold set_add. destruct (set_has s x) eqn:E; [assumption|].
  apply NoDup_snoc; [assumption | now apply set_has_notIn].
Qed.

Section MapFacts.
Variable V : Type.
Implicit Types (m : StrMap V) (k : string) (v : V).

Lemma map_get_set_same m k v : map_get (map_set m k v) k = Some v.
Proof.
  induction m as [|[k' v'] r IH]; simpl.
  - now rewrite String.eqb_refl.
  - destruct (String.eqb k k') eqn:E; simpl; rewrite E; auto.
Qed.

Lemma map_get_set_other m k k' v : k <> k' -> map_get (map_set m k v) k' = map_get m k'.
Proof.
  intros Hne. induction m as [|[k0 v0] r IH]; simpl.
  - destruct (String.eqb k' k) eqn:E; [apply String.eqb_eq in E; congruence | reflexivity].
  - destruct (String.eqb k k0) eqn:E; simpl.
    + apply String.eqb_eq in E. subst k0.
      destruct (String.eqb k' k) eqn:E'; [apply String.eqb_eq in E'; congruence | reflexivity].
    + now rewrite IH.
Qed.

Lemma map_get_set m k k' v :
  map_get (map_set m k v) k' = if String.eqb k k' then Some v else map_get m k'.
Proof.
  destruct (String.eqb k k') eqn:E.
  - apply String.eqb_eq in E. subst. apply map_get_set_same.
  - apply String.eqb_neq in E. now apply map_get_set_other.
Qed.

Lemma map_get_None m k : map_get m k = None <-> ~ In k (map fst m).
Proof.
  induction m as [|[k' v'] r IH]; simpl; [tauto|].
  destruct (String.eqb k k') eqn:E.
  - apply String.eqb_eq in E. subst. split; [discriminate | tauto].
  - apply String.eqb_neq in E. rewrite IH. split; [intros H [H1|H1]; [congruence | tauto] | tauto].
Qed.

Lemma map_get_Some_In m k v : map_get m k = Some v -> In (k, v) m.
Proof.
  induction m as [|[k' v'] r IH]; simpl; [discriminate|].
  destruct (String.eqb k k') eqn:E.
  - apply String.eqb_eq in E. intros [= ->]. subst. now left.
  - intros H. right. auto.
Qed.

Lemma map_get_In m k v : NoDup (map fst m) -> In (k, v) m -> map_get m k = Some v.
Proof.
  induction m as [|[k' v'] r IH]; simpl; [tauto|].
  intros Hnd [H | H].
  - injection H as -> ->. now rewrite String.eqb_refl.
  - inversion Hnd; subst. destruct (String.eqb k k') eqn:E.
    + apply String.eqb_eq in E. subst. exfalso. apply H2.
      change k' with (fst (k', v)). now apply in_map.
    + auto.
Qed.

Lemma map_has_In m k : map_has m k = true <-> In k (map fst m).
Proof.
  unfold map_has. destruct (map_get m k) eqn:E.
  - split; [intros _ | reflexivity].
    apply map_get_Some_In in E. change k with (fst (k, v)). now apply in_map.
  - apply map_get_None in E. split; [discriminate | contradiction].
Qed.

Lemma map_keys_set_present m k v : In k (map fst m) -> map fst (map_set m k v) = map fst m.
Proof.
  induction m as [|[k' v'] r IH]; simpl; [tauto|].
  intros H. destruct (String.eqb k k') eqn:E; simpl; [reflexivity|].
  apply String.eqb_neq in E. f_equal. apply IH. destruct H; congruence.
Qed.

Lemma map_keys_set_absent m k v : ~ In k (map fst m) -> map fst (map_set m k v) = map fst m ++ [k].
Proof.
  induction m as [|[k' v'] r IH]; simpl; [reflexivity|].
  intros H. destruct (String.eqb k k') eqn:E; simpl.
  - apply String.eqb_eq in E. subst. tauto.
  - f_equal. apply IH. tauto.
Qed.
End MapFacts.

(* ================================================================== *)
(** * Well-formed graphs, edges, paths                                 *)
(* ================================================================== *)

(** [edge g a b]: [a] depends on [b]. *)
Definition edge (g : DependencyGraph) (a b : string) : Prop :=
  In b (getDependencies g a).

(** The invariant the class maintains: the containers hold no repeated
    element, every node has an entry in [edges] and conversely, and every
    dependency is itself a node. *)
Record graph_wf (g : DependencyGraph) : Prop := mk_graph_wf {
  wf_nodes_nodup : NoDup (nodes g);
  wf_keys : map fst (edges g) = nodes g;
  wf_deps_nodup : forall k s, map_get (edges g) k = Some s -> NoDup s;
  wf_targets : forall k s d, map_get (edges g) k = Some s -> In d s -> In d (nodes g)
}.

Arguments wf_nodes_nodup {g}.
Arguments wf_keys {g}.
Arguments wf_deps_nodup {g}.
Arguments wf_targets {g}.

(** A non-empty directed path. *)
Inductive reach (g : DependencyGraph) : string -> string -> Prop :=
| reach_edge a b : edge g a b -> reach g a b
| reach_step a b c : edge g a b -> reach g b c -> reach g a c.

Definition acyclic (g : DependencyGraph) : Prop := forall a, ~ reach g a a.
Definition has_cycle (g : DependencyGraph) : Prop := exists a, reach g a a.

(** A node from which a cycle is reached: it lies on a cycle, or depends,
    directly or through other nodes, on a node that does. *)
Definition reaches_cycle (g : DependencyGraph) (n : string) : Prop :=
  exists m, (n = m \/ reach g n m) /\ reach g m m.

(** Every consecutive pair of the list is an edge. *)
Fixpoint chain (g : DependencyGraph) (l : list string) : Prop :=
  match l with
  | [] => True
  | a :: r => match r with
              | [] => True
              | b :: _ => edge g a b /\ chain g r
              end
  end.

Fixpoint index_of (x : string) (l : list string) : option nat :=
  match l with
  | [] => None
  | y :: r => if String.eqb x y then Some 0
              else match index_of x r with Some i => Some (S i) | None => None end
  end.

Lemma graph_wf_empty : graph_wf emptyGraph.
Proof.
  constructor; simpl; try constructor; try discriminate.
Qed.

Lemma graph_wf_addNode g id : graph_wf g -> graph_wf (addNode g id).
Proof.
  intros [Hn Hk Hd Ht]. unfold addNode.
  destruct (map_has (edges g) id) eqn:E.
  - assert (Hin : In id (nodes g)) by (rewrite <- Hk; now apply map_has_In).
    constructor; simpl.
    + now apply set_add_NoDup.
    + rewrite Hk. unfold set_add. apply set_has_In in Hin. now rewrite Hin.
    + assumption.
    + intros k s d H1 H2. apply set_add_In. left. eauto.
  - assert (Hin : ~ In id (map fst (edges g))).
    { intros H. apply map_has_In in H. congruence. }
    constructor; simpl.
    + now apply set_add_NoDup.
    + rewrite map_keys_set_absent by assumption. rewrite Hk.
      rewrite Hk in Hin. now rewrite set_add_fresh.
    + intros k s. rewrite map_get_set. destruct (String.eqb id k).
      * intros [= <-]. constructor.
      * apply Hd.
    + intros k s d. rewrite map_get_set. destruct (String.eqb id k).
      * intros [= <-] [].
      * intros H1 H2. apply set_add_In. left. eauto.
Qed.

Lemma addNode_In g id : In id (nodes (addNode g id)).
Proof. simpl. apply set_add_In. now right. Qed.

Lemma addNode_mono g id x : In x (nodes g) -> In x (nodes (addNode g id)).
Proof. simpl. intros H. apply set_add_In. now left. Qed.

Lemma graph_wf_addEdge g a b : graph_wf g -> graph_wf (addEdge g a b).
Proof.
  intros Hg. unfold addEdge.
  pose proof (graph_wf_addNode _ b (graph_wf_addNode _ a Hg)) as H2.
  set (g2 := addNode (addNode g a) b) in *.
  destruct (map_get (edges g2) a) as [s|] eqn:E; [|assumption].
  destruct H2 as [Hn Hk Hd Ht].
  assert (Hb : In b (nodes g2)) by apply addNode_In.
  constructor; simpl.
  - assumption.
  - rewrite map_keys_set_present; [assumption|].
    apply map_get_Some_In in E. change a with (fst (a, s)). now apply in_map.
  - intros k s0. rewrite map_get_set. destruct (String.eqb a k).
    + intros [= <-]. apply set_add_NoDup. eauto.
    + apply Hd.
  - intros k s0 d. rewrite map_get_set. destruct (String.eqb a k).
    + intros [= <-] Hin. apply set_add_In in Hin. destruct Hin as [Hin | ->]; eauto.
    + apply Ht.
Qed.

Lemma edge_source g a b : graph_wf g -> edge g a b -> In a (nodes g).
Proof.
  intros Hg. unfold edge, getDependencies.
  destruct (map_get (edges g) a) as [s|] eqn:E; [|intros []].
  intros _. rewrite <- (wf_keys Hg). apply map_get_Some_In in E.
  change a with (fst (a, s)). now apply in_map.
Qed.

Lemma edge_target g a b : graph_wf g -> edge g a b -> In b (nodes g).
Proof.
  intros Hg. unfold edge, getDependencies.
  destruct (map_get (edges g) a) eqn:E; [|intros []].
  intros H. eapply wf_targets; eauto.
Qed.

Lemma deps_NoDup g a : graph_wf g -> NoDup (getDependencies g a).
Proof.
  intros Hg. unfold getDependencies.
  destruct (map_get (edges g) a) eqn:E; [|constructor].
  eapply wf_deps_nodup; eauto.
Qed.

Lemma reach_source g a b : graph_wf g -> reach g a b -> In a (nodes g).
Proof. intros Hg H. destruct H; eauto using edge_source. Qed.

Lemma reach_target g a b : graph_wf g -> reach g a b -> In b (nodes g).
Proof. intros Hg H. induction H; eauto using edge_target. Qed.

Lemma reach_trans g a b c : reach g a b -> reach g b c -> reach g a c.
Proof.
  intros H. revert c. induction H; intros c' Hc.
  - eapply reach_step; eauto.
  - eapply reach_step; eauto.
Qed.
(* ================================================================== *)
(** * Kahn's algorithm: the initial maps                               *)
(* ================================================================== *)

Lemma set_has_cons (a : string) (l : StrSet) (n : string) :
  set_has (a :: l) n = String.eqb n a || set_has l n.
Proof. reflexivity. Qed.

Lemma fold_set_const_get {V} (v0 : V) (l : list string) (m : StrMap V) (n : string) :
  map_get (fold_left (fun m x => map_set m x v0) l m) n
  = if set_has l n then Some v0 else map_get m n.
Proof.
  revert m. induction l as [|a l IH]; intros m; simpl fold_left; [reflexivity|].
  rewrite IH, set_has_cons, map_get_set, (String.eqb_sym n a).
  destruct (set_has l n), (String.eqb a n); reflexivity.
Qed.

Lemma fold_set_const_keys {V} (v0 : V) (l : list string) (m : StrMap V) :
  NoDup (map fst m ++ l) ->
  map fst (fold_left (fun m x => map_set m x v0) l m) = map fst m ++ l.
Proof.
  revert m. induction l as [|a l IH]; intros m H; simpl fold_left.
  - now rewrite app_nil_r.
  - assert (Ha : ~ In a (map fst m)).
    { intros Hin. apply NoDup_remove_2 in H. apply H. apply in_or_app. now left. }
    rewrite IH; rewrite map_keys_set_absent by assumption; rewrite <- app_assoc; [reflexivity|].
    exact H.
Qed.

Lemma fold_set_entries_get {V W} (f : W -> V) (es : StrMap W) (m : StrMap V) (n : string) :
  NoDup (map fst es) ->
  map_get (fold_left (fun m '(k, s) => map_set m k (f s)) es m) n
  = match map_get es n with Some s => Some (f s) | None => map_get m n end.
Proof.
  revert m. induction es as [|[k s] es IH]; intros m Hnd; simpl fold_left; [reflexivity|].
  simpl in Hnd. inversion Hnd as [|? ? Hk Hnd']; subst.
  rewrite IH by assumption. simpl map_get.
  destruct (String.eqb n k) eqn:E.
  - apply String.eqb_eq in E. subst n.
    apply map_get_None in Hk. rewrite Hk. apply map_get_set_same.
  - destruct (map_get es n); [reflexivity|].
    apply map_get_set_other. intros ->. now rewrite String.eqb_refl in E.
Qed.

Lemma fold_set_entries_keys {V W} (f : W -> V) (es : StrMap W) (m : StrMap V) :
  (forall k, In k (map fst es) -> In k (map fst m)) ->
  map fst (fold_left (fun m '(k, s) => map_set m k (f s)) es m) = map fst m.
Proof.
  revert m. induction es as [|[k s] es IH]; intros m H; simpl fold_left; [reflexivity|].
  assert (Hk : In k (map fst m)) by (apply H; now left).
  rewrite IH; rewrite map_keys_set_present by assumption; [reflexivity|].
  intros k' Hk'. apply H. now right.
Qed.

Section KahnInit.
Variable g : DependencyGraph.
Hypothesis Hwf : graph_wf g.

Lemma init_inDegree_keys : map fst (init_inDegree g) = nodes g.
Proof.
  unfold init_inDegree. rewrite fold_set_const_keys; [reflexivity|].
  simpl. apply (wf_nodes_nodup Hwf).
Qed.

Lemma build_inDegree_keys : map fst (build_inDegree g) = nodes g.
Proof.
  unfold build_inDegree.
  rewrite (fold_set_entries_keys
             (fun deps => Z.of_nat (List.length (filter (set_has (nodes g)) deps)))).
  - apply init_inDegree_keys.
  - intros k Hk. rewrite init_inDegree_keys. now rewrite <- (wf_keys Hwf).
Qed.

Lemma filter_nodes_deps n : filter (set_has (nodes g)) (getDependencies g n) = getDependencies g n.
Proof.
  apply forallb_filter_id. apply forallb_forall. intros d Hd.
  apply set_has_In. eapply edge_target; eauto.
Qed.

Lemma build_inDegree_get n :
  In n (nodes g) ->
  map_get (build_inDegree g) n = Some (Z.of_nat (List.length (getDependencies g n))).
Proof.
  intros Hn. unfold build_inDegree.
  rewrite (fold_set_entries_get
             (fun deps => Z.of_nat (List.length (filter (set_has (nodes g)) deps)))).
  2:{ rewrite (wf_keys Hwf). apply (wf_nodes_nodup Hwf). }
  pose proof (filter_nodes_deps n) as Hf. unfold getDependencies in *.
  destruct (map_get (edges g) n) as [s|] eqn:E.
  - now rewrite Hf.
  - apply map_get_None in E. rewrite (wf_keys Hwf) in E. contradiction.
Qed.
End KahnInit.

Lemma init_queue_In (deg : StrMap Z) (n : string) :
  NoDup (map fst deg) ->
  (In n (init_queue deg) <-> map_get deg n = Some 0%Z).
Proof.
  intros Hnd. unfold init_queue. rewrite in_map_iff. split.
  - intros [[k d] [Hk Hin]]. simpl in Hk. subst k.
    apply filter_In in Hin. destruct Hin as [Hin Hz].
    apply Z.eqb_eq in Hz. subst d. now apply map_get_In.
  - intros H. exists (n, 0%Z). split; [reflexivity|].
    apply filter_In. split; [now apply map_get_Some_In | reflexivity].
Qed.

(** Selecting entries of a map keeps its keys distinct. *)
Lemma keys_filter_NoDup {V} (keep : string * V -> bool) (m : StrMap V) :
  NoDup (map fst m) -> NoDup (map fst (filter keep m)).
Proof.
  induction m as [|[k v] m IH]; simpl; intros Hnd; [constructor|].
  apply NoDup_cons_iff in Hnd. destruct Hnd as [Hk Hm].
  destruct (keep (k, v)); simpl; [|now apply IH].
  constructor; [|now apply IH].
  intros Hin. apply Hk. apply in_map_iff in Hin. destruct Hin as [[k' v'] [Hx Hin]].
  apply filter_In in Hin. simpl in Hx. subst k'. apply in_map_iff. exists (k, v'). tauto.
Qed.

Lemma init_queue_NoDup (deg : StrMap Z) : NoDup (map fst deg) -> NoDup (init_queue deg).
Proof. apply keys_filter_NoDup. Qed.

(** ** The reversed graph [dependents] *)

Definition dependents_ok (g : DependencyGraph) (D : StrMap StrSet) (es : StrMap StrSet) : Prop :=
  map fst D = nodes g /\
  forall n s, map_get D n = Some s ->
    NoDup s /\ forall m, In m s <-> exists ds, In (m, ds) es /\ In n ds.

Lemma add_dependents_keys node deps (D : StrMap StrSet) :
  map fst (add_dependents node deps D) = map fst D.
Proof.
  unfold add_dependents. revert D. induction deps as [|d deps IH]; intros D; simpl; [reflexivity|].
  rewrite IH. destruct (map_get D d) as [s|] eqn:E; [|reflexivity].
  apply map_keys_set_present. apply map_get_Some_In in E.
  change d with (fst (d, s)). now apply in_map.
Qed.

Lemma add_dependents_get node deps (D : StrMap StrSet) n s' :
  map_get (add_dependents node deps D) n = Some s' ->
  exists s, map_get D n = Some s /\
            (NoDup s -> NoDup s') /\
            forall m, In m s' <-> In m s \/ (m = node /\ In n deps).
Proof.
  unfold add_dependents. revert D s'. induction deps as [|d deps IH]; intros D s' H; simpl in H.
  - exists s'. split; [assumption|]. split; [auto|]. intros m. simpl. tauto.
  - apply IH in H. destruct H as [s1 [H1 [Hnd Hin]]].
    destruct (map_get D d) as [sd|] eqn:E.
    + rewrite map_get_set in H1. destruct (String.eqb d n) eqn:Edn.
      * apply String.eqb_eq in Edn. subst d. injection H1 as <-.
        exists sd. split; [assumption|]. split.
        -- intros Hs. apply Hnd. now apply set_add_NoDup.
        -- intros m. rewrite Hin, set_add_In. simpl. tauto.
      * exists s1. split; [assumption|]. split; [assumption|].
        intros m. rewrite Hin. simpl. apply String.eqb_neq in Edn.
        intuition congruence.
    + exists s1. split; [assumption|]. split; [assumption|].
      intros m. rewrite Hin. simpl. intuition (subst; congruence).
Qed.

Lemma init_dependents_ok g : graph_wf g -> dependents_ok g (init_dependents g) [].
Proof.
  intros Hwf. unfold init_dependents. split.
  - rewrite fold_set_const_keys; [reflexivity|]. simpl. apply (wf_nodes_nodup Hwf).
  - intros n s. rewrite fold_set_const_get. simpl.
    destruct (set_has (nodes g) n); [|discriminate].
    intros [= <-]. split; [constructor|]. intros m. simpl. split; [tauto|].
    intros [ds [[] _]].
Qed.

Lemma build_dependents_ok_gen g (es done : StrMap StrSet) (D : StrMap StrSet) :
  NoDup (map fst (done ++ es)) ->
  dependents_ok g D done ->
  dependents_ok g (fold_left (fun m '(node, deps) => add_dependents node deps m) es D) (done ++ es).
Proof.
  revert done D. induction es as [|[node deps] es IH]; intros done D Hnd HD; simpl fold_left.
  - now rewrite app_nil_r.
  - replace (done ++ (node, deps) :: es) with ((done ++ [(node, deps)]) ++ es)
      by (now rewrite <- app_assoc).
    apply IH; [now rewrite <- app_assoc|].
    destruct HD as [Hk HD]. split; [now rewrite add_dependents_keys|].
    intros n s' H. apply add_dependents_get in H. destruct H as [s [Hs [Hn Hin]]].
    destruct (HD n s Hs) as [Hnds HDin]. split; [auto|].
    intros m. rewrite Hin, HDin. split.
    + intros [[ds [H1 H2]] | [-> H2]].
      * exists ds. split; [apply in_or_app; now left | assumption].
      * exists deps. split; [apply in_or_app; right; now left | assumption].
    + intros [ds [H1 H2]]. apply in_app_or in H1. destruct H1 as [H1 | [H1 | []]].
      * left. eauto.
      * injection H1 as <- <-. now right.
Qed.

Lemma build_dependents_spec g n :
  graph_wf g -> In n (nodes g) ->
  exists s, map_get (build_dependents g) n = Some s /\ NoDup s /\
            forall m, In m s <-> edge g m n.
Proof.
  intros Hwf Hn.
  assert (Hnd : NoDup (map fst (edges g))) by (rewrite (wf_keys Hwf); apply (wf_nodes_nodup Hwf)).
  pose proof (@build_dependents_ok_gen g (edges g) [] (init_dependents g) Hnd
                (init_dependents_ok g Hwf)) as [Hk HD].
  fold (build_dependents g) in Hk, HD. simpl in HD.
  destruct (map_get (build_dependents g) n) as [s|] eqn:E.
  - exists s. split; [reflexivity|]. destruct (HD n s E) as [H1 H2]. split; [assumption|].
    intros m. rewrite H2. unfold edge, getDependencies. split.
    + intros [ds [H3 H4]]. now rewrite (map_get_In _ _ _ _ Hnd H3).
    + destruct (map_get (edges g) m) as [s0|] eqn:Em; [|intros []].
      intros H. exists s0. split; [now apply map_get_Some_In | assumption].
  - apply map_get_None in E. rewrite Hk in E. contradiction.
Qed.
(* ================================================================== *)
(** * Kahn's algorithm: the loop terminates                            *)
(* ================================================================== *)

Definition dflt0 (o : option Z) : Z := match o with Some d => d | None => 0%Z end.

Lemma set_has_app (l1 l2 : StrSet) (x : string) :
  set_has (l1 ++ l2) x = set_has l1 x || set_has l2 x.
Proof. unfold set_has. apply existsb_app. Qed.

Lemma set_has_set_add (s : StrSet) (x k : string) :
  set_has (set_add s x) k = set_has s k || String.eqb k x.
Proof.
  unfold set_add. destruct (set_has s x) eqn:E.
  - destruct (String.eqb k x) eqn:Ek.
    + apply String.eqb_eq in Ek. subst. rewrite E. reflexivity.
    + now rewrite orb_false_r.
  - rewrite set_has_app. simpl. now rewrite orb_false_r.
Qed.

(** The potential that bounds the number of iterations still to come: the
    length of the queue plus the dependents of every node not yet visited. *)
Fixpoint pot (D : StrMap StrSet) (vis : StrSet) : nat :=
  match D with
  | [] => 0
  | (k, ds) :: r => (if set_has vis k then 0 else List.length ds) + pot r vis
  end.

Lemma pot_nil D : pot D [] = total_size D.
Proof. induction D as [|[k ds] r IH]; simpl; [reflexivity | now rewrite IH]. Qed.

Lemma pot_mono D vis node : pot D (set_add vis node) <= pot D vis.
Proof.
  induction D as [|[k ds] r IH]; simpl; [lia|].
  rewrite set_has_set_add. destruct (set_has vis k), (String.eqb k node); simpl; lia.
Qed.

Lemma pot_add D vis node :
  set_has vis node = false ->
  pot D (set_add vis node)
  + List.length (match map_get D node with Some s => s | None => [] end) <= pot D vis.
Proof.
  intros Hv. induction D as [|[k ds] r IH]; simpl; [lia|].
  rewrite set_has_set_add. destruct (String.eqb node k) eqn:E.
  - apply String.eqb_eq in E. subst k. rewrite Hv, String.eqb_refl. simpl.
    pose proof (pot_mono r vis node). lia.
  - rewrite String.eqb_sym, E, orb_false_r. lia.
Qed.

Lemma relax_cons vis d ds deg q :
  relax vis (d :: ds) deg q =
  let newDegree := (dflt0 (map_get deg d) - 1)%Z in
  relax vis ds (map_set deg d newDegree)
        (if Z.eqb newDegree 0 && negb (set_has vis d) then q ++ [d] else q).
Proof.
  unfold relax. simpl. unfold dflt0.
  destruct (Z.eqb _ 0 && negb (set_has vis d)); reflexivity.
Qed.

Lemma relax_spec vis deps : forall deg q deg' q',
  NoDup deps ->
  relax vis deps deg q = (deg', q') ->
  (forall n, map_get deg' n
             = if set_has deps n then Some (dflt0 (map_get deg n) - 1)%Z else map_get deg n) /\
  q' = q ++ filter (fun m => Z.eqb (dflt0 (map_get deg m) - 1) 0 && negb (set_has vis m)) deps.
Proof.
  induction deps as [|d ds IH]; intros deg q deg' q' Hnd H.
  - unfold relax in H. simpl in H. injection H as <- <-. split; [reflexivity|].
    simpl. now rewrite app_nil_r.
  - rewrite relax_cons in H. cbv zeta in H. inversion Hnd as [|? ? Hd Hds]; subst.
    apply IH in H; [|assumption]. destruct H as [Hdeg Hq]. split.
    + intros n. rewrite Hdeg, set_has_cons, map_get_set.
      destruct (String.eqb n d) eqn:E.
      * apply String.eqb_eq in E. subst n.
        apply set_has_notIn in Hd. rewrite Hd, String.eqb_refl. reflexivity.
      * rewrite String.eqb_sym, E. reflexivity.
    + rewrite Hq. simpl filter.
      assert (Hext : filter (fun m => Z.eqb (dflt0 (map_get
                        (map_set deg d (dflt0 (map_get deg d) - 1)%Z) m) - 1) 0
                                     && negb (set_has vis m)) ds
                     = filter (fun m => Z.eqb (dflt0 (map_get deg m) - 1) 0
                                        && negb (set_has vis m)) ds).
      { apply filter_ext_in. intros m Hm. rewrite map_get_set_other; [reflexivity|].
        intros ->. contradiction. }
      rewrite Hext.
      destruct (Z.eqb (dflt0 (map_get deg d) - 1) 0 && negb (set_has vis d)).
      * now rewrite <- app_assoc.
      * reflexivity.
Qed.

Lemma relax_queue_length vis deps deg q :
  List.length (snd (relax vis deps deg q)) <= List.length q + List.length deps.
Proof.
  revert deg q. induction deps as [|d ds IH]; intros deg q.
  - simpl. lia.
  - rewrite relax_cons. cbv zeta.
    match goal with |- context [relax vis ds ?m ?q'] => specialize (IH m q') end.
    destruct (Z.eqb _ 0 && negb (set_has vis d)); [rewrite length_app in IH|]; simpl in *; lia.
Qed.

Lemma kahn_step_potential D node rest st :
  List.length (queue (kahn_step D node rest st)) + pot D (visited (kahn_step D node rest st))
  <= List.length rest + pot D (visited st).
Proof.
  unfold kahn_step. destruct (set_has (visited st) node) eqn:E; simpl; [lia|].
  pose proof (relax_queue_length (set_add (visited st) node)
                (match map_get D node with Some s => s | None => [] end)
                (inDegree st) rest) as Hq.
  pose proof (pot_add D (visited st) node E) as Hp.
  destruct (relax _ _ _ _) as [deg q]. simpl in *. lia.
Qed.

Lemma kahn_loop_terminates D fuel : forall st,
  List.length (queue st) + pot D (visited st) <= fuel ->
  exists st', kahn_loop D fuel st = Some st' /\ queue st' = [].
Proof.
  induction fuel as [|fuel IH]; intros st H.
  - destruct (queue st) eqn:E; [|simpl in H; lia].
    exists st. simpl. rewrite E. auto.
  - simpl. destruct (queue st) as [|node rest] eqn:E.
    + exists st. auto.
    + apply IH. pose proof (kahn_step_potential D node rest st). simpl in H. lia.
Qed.

Lemma kahn_run_terminates g : exists st, kahn_run g = Some st /\ queue st = [].
Proof.
  unfold kahn_run. apply kahn_loop_terminates.
  unfold kahn_fuel, kahn_init. simpl. now rewrite pot_nil.
Qed.
(* ================================================================== *)
(** * Kahn's algorithm: the loop invariant                             *)
(* ================================================================== *)

(** The dependencies of [n] that are not yet in the order. *)
Definition udeps (g : DependencyGraph) (res : list string) (n : string) : list string :=
  filter (fun d => negb (set_has res d)) (getDependencies g n).

Record kahn_inv (g : DependencyGraph) (st : KahnState) : Prop := mk_kahn_inv {
  ki_vis : visited st = result st;
  ki_res_nodup : NoDup (result st);
  ki_res_nodes : incl (result st) (nodes g);
  ki_q_nodup : NoDup (queue st);
  ki_q_nodes : incl (queue st) (nodes g);
  ki_q_fresh : forall n, In n (queue st) -> ~ In n (result st);
  ki_deg : forall n, In n (nodes g) ->
      map_get (inDegree st) n = Some (Z.of_nat (List.length (udeps g (result st) n)));
  ki_ready : forall n, In n (nodes g) -> ~ In n (result st) ->
      (In n (queue st) <-> udeps g (result st) n = []);
  ki_order : forall l1 n l2 d, result st = l1 ++ n :: l2 -> edge g n d -> In d l1
}.

Lemma udeps_nil g n : udeps g [] n = getDependencies g n.
Proof.
  unfold udeps. apply forallb_filter_id. apply forallb_forall. reflexivity.
Qed.

Lemma udeps_In g res n d : In d (udeps g res n) <-> edge g n d /\ ~ In d res.
Proof.
  unfold udeps, edge. rewrite filter_In, negb_true_iff, set_has_notIn. tauto.
Qed.

Lemma filter_neq_length (l : list string) (x : string) :
  NoDup l -> In x l ->
  List.length (filter (fun d => negb (String.eqb d x)) l) + 1 = List.length l.
Proof.
  induction l as [|a l IH]; intros Hnd Hin; [destruct Hin|].
  inversion Hnd as [|? ? Ha Hl]; subst. simpl.
  destruct (String.eqb a x) eqn:E; simpl.
  - apply String.eqb_eq in E. subst a.
    rewrite forallb_filter_id; [lia|].
    apply forallb_forall. intros y Hy. apply negb_true_iff. apply String.eqb_neq.
    intros ->. contradiction.
  - destruct Hin as [-> | Hin]; [now rewrite String.eqb_refl in E|].
    specialize (IH Hl Hin). lia.
Qed.

Lemma udeps_snoc g res n x :
  udeps g (res ++ [x]) n = filter (fun d => negb (String.eqb d x)) (udeps g res n).
Proof.
  unfold udeps. induction (getDependencies g n) as [|a l IH]; [reflexivity|].
  simpl. rewrite set_has_app. simpl. rewrite orb_false_r.
  destruct (set_has res a); simpl.
  - exact IH.
  - destruct (String.eqb a x); simpl; [exact IH | now rewrite IH].
Qed.

Lemma udeps_snoc_edge g res n x :
  graph_wf g -> edge g n x -> ~ In x res ->
  List.length (udeps g (res ++ [x]) n) + 1 = List.length (udeps g res n).
Proof.
  intros Hwf He Hx. rewrite udeps_snoc. apply filter_neq_length.
  - unfold udeps. apply NoDup_filter. now apply deps_NoDup.
  - apply udeps_In. tauto.
Qed.

Lemma udeps_snoc_other g res n x :
  ~ edge g n x -> udeps g (res ++ [x]) n = udeps g res n.
Proof.
  intros He. rewrite udeps_snoc. apply forallb_filter_id. apply forallb_forall.
  intros d Hd. apply udeps_In in Hd. apply negb_true_iff, String.eqb_neq.
  intros ->. tauto.
Qed.

Lemma snoc_split {A} (l l1 l2 : list A) (x n : A) :
  l ++ [x] = l1 ++ n :: l2 ->
  (l2 = [] /\ l = l1 /\ x = n) \/ (exists l2', l2 = l2' ++ [x] /\ l = l1 ++ n :: l2').
Proof.
  intros H. destruct (exists_last (l := n :: l2)) as [l' [y Hy]]; [discriminate|].
  rewrite Hy, app_assoc in H. apply app_inj_tail in H. destruct H as [Hl <-].
  destruct l2 as [|b l2].
  - left. destruct l' as [|c l'].
    + simpl in Hy. injection Hy as ->. rewrite app_nil_r in Hl. auto.
    + exfalso. injection Hy as _ Hy. destruct l'; discriminate.
  - right. destruct l' as [|c l']; [discriminate|].
    injection Hy as <- Hy. exists l'. split; [assumption|]. exact Hl.
Qed.

Lemma kahn_init_inv g : graph_wf g -> kahn_inv g (kahn_init g).
Proof.
  intros Hwf.
  assert (Hnd : NoDup (map fst (build_inDegree g))).
  { rewrite build_inDegree_keys by assumption. apply (wf_nodes_nodup Hwf). }
  constructor; unfold kahn_init; simpl.
  - reflexivity.
  - constructor.
  - intros x [].
  - now apply init_queue_NoDup.
  - intros n Hn. apply init_queue_In in Hn; [|assumption].
    apply map_get_Some_In in Hn. rewrite <- (build_inDegree_keys g Hwf).
    change n with (fst (n, 0%Z)). now apply in_map.
  - auto.
  - intros n Hn. rewrite udeps_nil. now apply build_inDegree_get.
  - intros n Hn _. rewrite udeps_nil, init_queue_In by assumption.
    rewrite build_inDegree_get by assumption.
    destruct (getDependencies g n); simpl; split; congruence.
  - intros l1 n l2 d H. destruct l1; discriminate.
Qed.

Lemma kahn_step_inv g node rest st :
  graph_wf g -> kahn_inv g st -> queue st = node :: rest ->
  kahn_inv g (kahn_step (build_dependents g) node rest st).
Proof.
  intros Hwf Inv Hq. destruct Inv as [Hv Hrn Hri Hqn Hqi Hqf Hdeg Hready Hord].
  rewrite Hq in *.
  assert (Hnode : In node (nodes g)) by (apply Hqi; now left).
  assert (Hfresh : ~ In node (result st)) by (apply Hqf; now left).
  inversion Hqn as [|? ? Hnr Hrest]; subst.
  destruct (build_dependents_spec g node Hwf Hnode) as [s [Hs [Hsn Hsin]]].
  unfold kahn_step. rewrite Hv.
  assert (E : set_has (result st) node = false) by now apply set_has_notIn.
  rewrite E, Hs. rewrite (set_add_fresh _ _ Hfresh).
  destruct (relax (result st ++ [node]) s (inDegree st) rest) as [deg q] eqn:Er.
  apply relax_spec in Er; [|assumption]. destruct Er as [Hdeg' ->].
  assert (Hnode_deps : forall d, edge g node d -> In d (result st)).
  { intros d Hd. destruct (in_dec string_dec d (result st)) as [|Hn]; [assumption|].
    assert (Hu : In d (udeps g (result st) node)) by (apply udeps_In; tauto).
    assert (H0 : udeps g (result st) node = []) by (apply Hready; simpl; auto).
    rewrite H0 in Hu. destruct Hu. }
  assert (Hpush : forall m,
            In m (filter (fun m => Z.eqb (dflt0 (map_get (inDegree st) m) - 1) 0
                                   && negb (set_has (result st ++ [node]) m)) s) <->
            edge g m node /\ ~ In m (result st ++ [node])
            /\ udeps g (result st ++ [node]) m = []).
  { intros m. rewrite filter_In, andb_true_iff, negb_true_iff, set_has_notIn, Hsin.
    split.
    - intros [He [Hz Hm]]. split; [assumption|]. split; [assumption|].
      rewrite Hdeg in Hz by (eapply edge_source; eauto). simpl in Hz.
      assert (Hmr : ~ In m (result st)) by (intros H; apply Hm, in_or_app; now left).
      pose proof (udeps_snoc_edge g _ _ _ Hwf He Hfresh) as Hl.
      apply Z.eqb_eq in Hz. apply length_zero_iff_nil. lia.
    - intros [He [Hm H0]]. split; [assumption|]. split; [|assumption].
      rewrite Hdeg by (eapply edge_source; eauto). simpl.
      pose proof (udeps_snoc_edge g _ _ _ Hwf He Hfresh) as Hl.
      rewrite H0 in Hl. simpl in Hl. apply Z.eqb_eq. lia. }
  constructor; simpl.
  - reflexivity.
  - now apply NoDup_snoc.
  - intros x Hx. apply in_app_or in Hx. destruct Hx as [Hx | [<- | []]]; auto.
  - apply NoDup_app; [assumption | apply NoDup_filter; assumption |].
    intros m Hm1 Hm2. apply Hpush in Hm2. destruct Hm2 as [He [Hm _]].
    assert (Hmr : ~ In m (result st)) by (intros H; apply Hm, in_or_app; now left).
    assert (Hu : udeps g (result st) m = []).
    { apply Hready; [eapply edge_source; eauto | assumption | now right]. }
    assert (Hin : In node (udeps g (result st) m)) by (apply udeps_In; tauto).
    rewrite Hu in Hin. destruct Hin.
  - intros m Hm. apply in_app_or in Hm. destruct Hm as [Hm | Hm].
    + apply Hqi. now right.
    + apply Hpush in Hm. destruct Hm as [He _]. eapply edge_source; eauto.
  - intros m Hm. apply in_app_or in Hm. destruct Hm as [Hm | Hm].
    + intros H. apply in_app_or in H. destruct H as [H | [<- | []]].
      * apply (Hqf m); [now right | assumption].
      * contradiction.
    + apply Hpush in Hm. tauto.
  - intros n Hn. rewrite Hdeg', Hdeg by assumption. simpl.
    destruct (set_has s n) eqn:Es.
    + apply set_has_In, Hsin in Es.
      pose proof (udeps_snoc_edge g _ _ _ Hwf Es Hfresh) as Hl. f_equal. lia.
    + apply set_has_notIn in Es. rewrite Hsin in Es.
      now rewrite udeps_snoc_other.
  - intros n Hn Hnew.
    assert (Hnr' : ~ In n (result st)) by (intros H; apply Hnew, in_or_app; now left).
    assert (Hne : n <> node) by (intros ->; apply Hnew, in_or_app; right; now left).
    rewrite in_app_iff, Hpush.
    destruct (in_dec string_dec node (getDependencies g n)) as [He | He].
    + split; [|tauto]. intros [H | H]; [|tauto].
      assert (Hu : udeps g (result st) n = []) by (apply Hready; simpl; auto).
      assert (Hin : In node (udeps g (result st) n)) by (apply udeps_In; tauto).
      rewrite Hu in Hin. destruct Hin.
    + rewrite udeps_snoc_other by assumption. split.
      * intros [H | [H _]]; [|contradiction]. apply Hready; simpl; auto.
      * intros H. left. apply Hready in H; [|assumption|assumption].
        destruct H as [H | H]; [congruence | assumption].
  - intros l1 n l2 d H He. apply snoc_split in H.
    destruct H as [[_ [<- <-]] | [l2' [_ H]]]; eauto.
Qed.

Lemma kahn_loop_inv g fuel : forall st st',
  graph_wf g -> kahn_inv g st ->
  kahn_loop (build_dependents g) fuel st = Some st' ->
  kahn_inv g st' /\ queue st' = [].
Proof.
  induction fuel as [|fuel IH]; intros st st' Hwf Inv H; simpl in H.
  - destruct (queue st) eqn:E; [|discriminate]. injection H as <-. auto.
  - destruct (queue st) as [|node rest] eqn:E.
    + injection H as <-. auto.
    + eapply IH; [assumption | | exact H]. now apply kahn_step_inv.
Qed.

Lemma kahn_run_inv g st :
  graph_wf g -> kahn_run g = Some st -> kahn_inv g st /\ queue st = [].
Proof.
  intros Hwf H. eapply kahn_loop_inv; [assumption | | exact H].
  now apply kahn_init_inv.
Qed.
(* ================================================================== *)
(** * Kahn's algorithm: what the final state says                      *)
(* ================================================================== *)

Lemma index_of_app_first x l1 l2 :
  ~ In x l1 -> index_of x (l1 ++ x :: l2) = Some (List.length l1).
Proof.
  induction l1 as [|a l1 IH]; simpl; intros H.
  - now rewrite String.eqb_refl.
  - destruct (String.eqb x a) eqn:E.
    + apply String.eqb_eq in E. subst. tauto.
    + rewrite IH by tauto. reflexivity.
Qed.

Lemma index_of_app_in x l1 l2 :
  In x l1 -> exists i, index_of x (l1 ++ l2) = Some i /\ i < List.length l1.
Proof.
  induction l1 as [|a l1 IH]; simpl; intros H; [destruct H|].
  destruct (String.eqb x a) eqn:E.
  - exists 0. split; [reflexivity | lia].
  - destruct H as [-> | H]; [now rewrite String.eqb_refl in E|].
    destruct (IH H) as [i [Hi Hlt]]. exists (S i). rewrite Hi. split; [reflexivity | lia].
Qed.

Lemma index_of_Some_In x l i : index_of x l = Some i -> In x l.
Proof.
  revert i. induction l as [|a l IH]; simpl; intros i H; [discriminate|].
  destruct (String.eqb x a) eqn:E.
  - apply String.eqb_eq in E. now left.
  - destruct (index_of x l); [|discriminate]. right. eauto.
Qed.

(** Within the order built so far, every dependency of a placed node sits
    at a strictly smaller index. *)
Lemma kahn_order_index g st a b :
  kahn_inv g st -> In a (result st) -> edge g a b ->
  exists i j, index_of b (result st) = Some i /\ index_of a (result st) = Some j /\ i < j.
Proof.
  intros Inv Ha He. destruct (in_split _ _ Ha) as [l1 [l2 Hs]].
  pose proof (ki_res_nodup _ _ Inv) as Hnd. rewrite Hs in Hnd.
  assert (Ha1 : ~ In a l1).
  { apply NoDup_remove_2 in Hnd. intros H. apply Hnd, in_or_app. now left. }
  pose proof (ki_order _ _ Inv _ _ _ _ Hs He) as Hb.
  destruct (index_of_app_in b l1 (a :: l2) Hb) as [i [Hi Hlt]].
  exists i, (List.length l1). rewrite Hs. repeat split; try assumption.
  now apply index_of_app_first.
Qed.

Lemma kahn_reach_index g st a b :
  kahn_inv g st -> incl (nodes g) (result st) -> graph_wf g -> reach g a b ->
  exists i j, index_of b (result st) = Some i /\ index_of a (result st) = Some j /\ i < j.
Proof.
  intros Inv Hall Hwf H. induction H as [a b He | a b c He Hr IH].
  - apply (kahn_order_index g st a b); auto. apply Hall. eapply edge_source; eauto.
  - destruct IH as [i [j [Hi [Hj Hlt]]]].
    destruct (kahn_order_index g st a b Inv) as [i' [j' [Hi' [Hj' Hlt']]]]; auto.
    { apply Hall. eapply edge_source; eauto. }
    exists i, j'. rewrite Hi' in Hj. injection Hj as <-. repeat split; auto. lia.
Qed.

(** If every node was placed, the graph has no cycle. *)
Lemma kahn_all_placed_acyclic g st :
  graph_wf g -> kahn_inv g st -> incl (nodes g) (result st) -> acyclic g.
Proof.
  intros Hwf Inv Hall a Hr.
  destruct (kahn_reach_index g st a a Inv Hall Hwf Hr) as [i [j [Hi [Hj Hlt]]]].
  rewrite Hi in Hj. injection Hj as <-. lia.
Qed.

(** ** A stuck search implies a cycle (pigeonhole) *)

Lemma chain_reach g a r b : chain g (a :: r) -> In b r -> reach g a b.
Proof.
  revert a. induction r as [|c r IH]; intros a Hc Hb; [destruct Hb|].
  destruct Hc as [He Hc]. destruct Hb as [<- | Hb].
  - now apply reach_edge.
  - eapply reach_step; eauto.
Qed.

Lemma chain_tail g a r : chain g (a :: r) -> chain g r.
Proof. destruct r; simpl; tauto. Qed.

Lemma chain_repeat_cycle g l : chain g l -> ~ NoDup l -> has_cycle g.
Proof.
  induction l as [|a r IH]; intros Hc Hnd.
  - exfalso. apply Hnd. constructor.
  - destruct (in_dec string_dec a r) as [Hin | Hin].
    + exists a. eapply chain_reach; eauto.
    + apply IH; [eapply chain_tail; eauto|].
      intros H. apply Hnd. now constructor.
Qed.

Lemma walk_exists g (U : string -> Prop) :
  (forall n, U n -> exists d, edge g n d /\ U d) ->
  forall k n, U n -> exists l, List.length l = k /\ chain g (n :: l) /\ Forall U (n :: l).
Proof.
  intros Hstep k. induction k as [|k IH]; intros n Hn.
  - exists []. simpl. repeat split; auto.
  - destruct (Hstep n Hn) as [d [He Hd]].
    destruct (IH d Hd) as [l [Hl [Hc HU]]].
    exists (d :: l). simpl. split; [now rewrite Hl|]. split; [auto|].
    constructor; assumption.
Qed.

Lemma stuck_cycle g (U : string -> Prop) n :
  (forall n, U n -> In n (nodes g)) ->
  (forall n, U n -> exists d, edge g n d /\ U d) ->
  U n -> has_cycle g.
Proof.
  intros Hsub Hstep Hn.
  destruct (walk_exists g U Hstep (List.length (nodes g)) n Hn) as [l [Hl [Hc HU]]].
  apply (chain_repeat_cycle g (n :: l) Hc).
  intros Hnd. apply NoDup_incl_length with (l' := nodes g) in Hnd.
  - simpl in Hnd. lia.
  - intros x Hx. apply Hsub. rewrite Forall_forall in HU. auto.
Qed.

(** At the end of the loop, a node left out of the order has a dependency
    that was left out too; so an acyclic graph is ordered completely. *)
Lemma kahn_acyclic_all_placed g st :
  graph_wf g -> kahn_inv g st -> queue st = [] -> acyclic g ->
  incl (nodes g) (result st).
Proof.
  intros Hwf Inv Hq Hac n Hn.
  destruct (in_dec string_dec n (result st)) as [|Hout]; [assumption|].
  exfalso.
  assert (Hc : has_cycle g).
  { apply (stuck_cycle g (fun x => In x (nodes g) /\ ~ In x (result st)) n).
    - tauto.
    - intros x [Hx Hxr].
      destruct (udeps g (result st) x) as [|d r] eqn:E.
      + apply (ki_ready _ _ Inv) in E; auto. rewrite Hq in E. destruct E.
      + assert (Hd : In d (udeps g (result st) x)) by (rewrite E; now left).
        apply udeps_In in Hd. destruct Hd as [He Hd].
        exists d. split; [assumption|]. split; [eapply edge_target; eauto | assumption].
    - tauto. }
  destruct Hc as [a Ha]. exact (Hac a Ha).
Qed.

Lemma NoDup_same_length_incl (l l' : list string) :
  NoDup l -> incl l l' -> List.length l = List.length l' -> incl l' l.
Proof.
  intros Hnd Hincl Hlen. apply NoDup_length_incl; auto. lia.
Qed.

(** ** The nodes that Kahn's loop leaves out *)

(** Whatever a placed node reaches was placed before it. *)
Lemma kahn_placed_reach_index g st a b :
  kahn_inv g st -> In a (result st) -> reach g a b ->
  exists i j, index_of b (result st) = Some i /\ index_of a (result st) = Some j /\ i < j.
Proof.
  intros Inv Ha H. induction H as [a b He | a b c He Hr IH].
  - now apply (kahn_order_index g st a b).
  - destruct (kahn_order_index g st a b Inv Ha He) as [i' [j' [Hi' [Hj' Hlt']]]].
    destruct (IH (index_of_Some_In _ _ _ Hi')) as [i [j [Hi [Hj Hlt]]]].
    exists i, j'. rewrite Hi' in Hj. injection Hj as <-. repeat split; auto. lia.
Qed.

Lemma kahn_placed_no_cycle g st n :
  kahn_inv g st -> In n (result st) -> ~ reaches_cycle g n.
Proof.
  intros Inv Hn [m [Hnm Hmm]].
  assert (Hm : In m (result st)).
  { destruct Hnm as [<- | Hr]; [exact Hn|].
    destruct (kahn_placed_reach_index g st n m Inv Hn Hr) as [i [_ [Hi _]]].
    exact (index_of_Some_In _ _ _ Hi). }
  destruct (kahn_placed_reach_index g st m m Inv Hm Hmm) as [i [j [Hi [Hj Hlt]]]].
  rewrite Hi in Hj. injection Hj as <-. lia.
Qed.

(** A walk that comes back to a node it has seen ends in a cycle that
    its first node reaches. *)
Lemma chain_repeat_reaches g l : forall n,
  chain g (n :: l) -> ~ NoDup (n :: l) -> reaches_cycle g n.
Proof.
  induction l as [|b r IH]; intros n Hc Hnd.
  - exfalso. apply Hnd. constructor; [intros [] | constructor].
  - destruct (in_dec string_dec n (b :: r)) as [Hin | Hin].
    + exists n. split; [now left | eapply chain_reach; eauto].
    + destruct Hc as [He Hc].
      destruct (IH b Hc) as [m [Hbm Hmm]].
      { intros H. apply Hnd. now constructor. }
      exists m. split; [right | exact Hmm].
      destruct Hbm as [<- | Hbm]; [now apply reach_edge | eapply reach_step; eauto].
Qed.

Lemma stuck_reaches_cycle g (U : string -> Prop) n :
  (forall n, U n -> In n (nodes g)) ->
  (forall n, U n -> exists d, edge g n d /\ U d) ->
  U n -> reaches_cycle g n.
Proof.
  intros Hsub Hstep Hn.
  destruct (walk_exists g U Hstep (List.length (nodes g)) n Hn) as [l [Hl [Hc HU]]].
  apply (chain_repeat_reaches g l n Hc).
  intros Hnd. apply NoDup_incl_length with (l' := nodes g) in Hnd.
  - simpl in Hnd. lia.
  - intros x Hx. apply Hsub. rewrite Forall_forall in HU. auto.
Qed.

(** When the loop has ended, the nodes in the order are those from which
    no cycle is reached. *)
Lemma kahn_left_out g st n :
  graph_wf g -> kahn_inv g st -> queue st = [] ->
  In n (nodes g) -> ~ In n (result st) -> reaches_cycle g n.
Proof.
  intros Hwf Inv Hq Hn Hout.
  apply (stuck_reaches_cycle g (fun x => In x (nodes g) /\ ~ In x (result st)) n).
  - tauto.
  - intros x [Hx Hxr].
    destruct (udeps g (result st) x) as [|d r] eqn:E.
    + apply (ki_ready _ _ Inv) in E; auto. rewrite Hq in E. destruct E.
    + assert (Hd : In d (udeps g (result st) x)) by (rewrite E; now left).
      apply udeps_In in Hd. destruct Hd as [He Hd].
      exists d. split; [assumption|]. split; [eapply edge_target; eauto | assumption].
  - tauto.
Qed.
(* ================================================================== *)
(** * findCycle: the depth-first search                                *)
(* ================================================================== *)

(** A reported cycle: it starts and ends with the same node and every
    consecutive pair is an edge. *)
Definition valid_cycle (g : DependencyGraph) (c : list string) : Prop :=
  (exists x mid, c = x :: mid ++ [x]) /\ chain g c.

Lemma chain_app_r g l1 l2 : chain g (l1 ++ l2) -> chain g l2.
Proof.
  induction l1 as [|a l1 IH]; [auto|]. intros H. apply IH. eapply chain_tail; eauto.
Qed.

Lemma chain_app_l g l1 l2 : chain g (l1 ++ l2) -> chain g l1.
Proof.
  induction l1 as [|a l1 IH]; [simpl; auto|]. intros H.
  destruct l1 as [|b l1]; [simpl; auto|].
  simpl in H. destruct H as [He H]. split; [assumption|]. apply IH. exact H.
Qed.

Lemma chain_snoc g l a b : chain g (l ++ [a]) -> edge g a b -> chain g ((l ++ [a]) ++ [b]).
Proof.
  induction l as [|c l IH]; intros Hc He.
  - simpl. auto.
  - destruct l as [|d l].
    + simpl in *. tauto.
    + simpl in Hc. destruct Hc as [Hcd Hc]. simpl. split; [assumption|].
      apply IH; assumption.
Qed.

Lemma slice_from_split (p : list string) (dep : string) :
  In dep p -> exists p1 p2, p = p1 ++ dep :: p2 /\ slice_from p dep = dep :: p2.
Proof.
  induction p as [|x p IH]; intros H; [destruct H|]. simpl.
  destruct (String.eqb dep x) eqn:E.
  - apply String.eqb_eq in E. subst x. exists [], p. auto.
  - destruct H as [-> | H]; [now rewrite String.eqb_refl in E|].
    destruct (IH H) as [p1 [p2 [Hp Hs]]]. exists (x :: p1), p2. rewrite Hs. split; [|reflexivity].
    simpl. now f_equal.
Qed.

Lemma set_delete_snoc (l : StrSet) (x : string) : ~ In x l -> set_delete (l ++ [x]) x = l.
Proof.
  intros H. unfold set_delete. rewrite filter_app. simpl. rewrite String.eqb_refl. simpl.
  rewrite app_nil_r. apply forallb_filter_id. apply forallb_forall.
  intros y Hy. apply negb_true_iff, String.eqb_neq. intros ->. contradiction.
Qed.

Lemma valid_cycle_has_cycle g c : valid_cycle g c -> has_cycle g.
Proof.
  intros [[x [mid ->]] Hc]. exists x. eapply chain_reach; eauto.
  apply in_or_app. right. now left.
Qed.

Lemma valid_cycle_shape g c :
  valid_cycle g c -> c <> [] /\ hd_error c = hd_error (rev c) /\ chain g c.
Proof.
  intros [[x [mid ->]] Hc]. split; [discriminate|]. split; [|assumption].
  change (x :: mid ++ [x]) with ((x :: mid) ++ [x]). rewrite rev_app_distr. reflexivity.
Qed.

Record dfs_inv (g : DependencyGraph) (st : DfsState) : Prop := mk_dfs_inv {
  di_stack : recursionStack st = path st;
  di_path_nodup : NoDup (path st);
  di_path_vis : incl (path st) (dfs_visited st);
  di_vis_nodes : incl (dfs_visited st) (nodes g);
  di_chain : chain g (path st);
  di_closed : forall b d, In b (dfs_visited st) -> ~ In b (path st) -> edge g b d ->
                          In d (dfs_visited st) /\ ~ In d (path st);
  di_acyc : forall b, In b (dfs_visited st) -> ~ In b (path st) -> ~ reach g b b
}.

(** Nodes that were entered and left again reach only such nodes. *)
Lemma black_reach g st b x :
  dfs_inv g st -> In b (dfs_visited st) -> ~ In b (path st) -> reach g b x ->
  In x (dfs_visited st) /\ ~ In x (path st).
Proof.
  intros Inv Hb Hp Hr. induction Hr as [a b' He | a b' c He Hr IH].
  - eapply (di_closed _ _ Inv); eauto.
  - destruct (di_closed _ _ Inv a b' Hb Hp He) as [H1 H2]. auto.
Qed.

Definition dfs_post (g : DependencyGraph) (st : DfsState) (node : string) (r : DfsResult) : Prop :=
  match r with
  | CycleFound c => valid_cycle g c
  | NoCycle st' =>
      dfs_inv g st' /\ path st' = path st /\
      incl (dfs_visited st) (dfs_visited st') /\ In node (dfs_visited st')
  | DfsOutOfFuel => False
  end.

Lemma dfs_deps_spec g rec node p0 :
  graph_wf g ->
  (forall d st, dfs_inv g st -> path st = p0 ++ [node] -> In d (nodes g) ->
                ~ In d (dfs_visited st) -> edge g node d -> dfs_post g st d (rec d st)) ->
  forall deps st,
    dfs_inv g st -> path st = p0 ++ [node] -> incl deps (getDependencies g node) ->
    match dfs_deps g rec deps st with
    | CycleFound c => valid_cycle g c
    | NoCycle st' =>
        dfs_inv g st' /\ path st' = p0 ++ [node] /\
        incl (dfs_visited st) (dfs_visited st') /\
        (forall d, In d deps -> In d (dfs_visited st') /\ ~ In d (path st'))
    | DfsOutOfFuel => False
    end.
Proof.
  intros Hwf Hrec deps. induction deps as [|dep rest IH]; intros st Inv Hp Hdeps.
  - simpl. split; [assumption|]. split; [assumption|]. split; [apply incl_refl|].
    intros d [].
  - assert (He : edge g node dep) by (apply Hdeps; now left).
    assert (Hrest : incl rest (getDependencies g node)) by (intros x Hx; apply Hdeps; now right).
    assert (Hdn : In dep (nodes g)) by (eapply edge_target; eauto).
    simpl. apply set_has_In in Hdn. rewrite Hdn. simpl. apply set_has_In in Hdn.
    destruct (set_has (dfs_visited st) dep) eqn:Ev; simpl.
    + apply set_has_In in Ev.
      destruct (set_has (recursionStack st) dep) eqn:Es.
      * apply set_has_In in Es. rewrite (di_stack _ _ Inv) in Es.
        destruct (slice_from_split _ _ Es) as [p1 [p2 [Hsplit Hslice]]].
        rewrite Hslice. split; [exists dep, p2; reflexivity|].
        pose proof (di_chain _ _ Inv) as Hc. rewrite Hsplit in Hc. apply chain_app_r in Hc.
        rewrite Hp in Hsplit.
        destruct (exists_last (l := dep :: p2)) as [l' [y Hy]]; [discriminate|].
        assert (y = node).
        { rewrite Hy, app_assoc in Hsplit. apply app_inj_tail in Hsplit. symmetry. tauto. }
        subst y. rewrite Hy in *. now apply chain_snoc.
      * apply set_has_notIn in Es. rewrite (di_stack _ _ Inv) in Es.
        specialize (IH st Inv Hp Hrest).
        destruct (dfs_deps g rec rest st) as [c | st' |]; auto.
        destruct IH as [Inv' [Hp' [Hincl Hblack]]].
        split; [assumption|]. split; [assumption|]. split; [assumption|].
        intros d [<- | H]; [|now apply Hblack].
        split; [auto|]. rewrite Hp', <- Hp. assumption.
    + apply set_has_notIn in Ev.
      specialize (Hrec dep st Inv Hp Hdn Ev He).
      destruct (rec dep st) as [c | st1 |]; simpl in Hrec; auto.
      destruct Hrec as [Inv1 [Hp1 [Hincl1 Hin1]]].
      assert (Hp1' : path st1 = p0 ++ [node]) by congruence.
      specialize (IH st1 Inv1 Hp1' Hrest).
      destruct (dfs_deps g rec rest st1) as [c | st' |]; auto.
      destruct IH as [Inv' [Hp' [Hincl Hblack]]].
      split; [assumption|]. split; [assumption|].
      split; [eapply incl_tran; eauto|].
      intros d [<- | H]; [|now apply Hblack].
      split; [auto|].
      rewrite Hp', <- Hp. intros Hin. apply Ev. now apply (di_path_vis _ _ Inv).
Qed.

Lemma dfs_enter_inv g st node :
  dfs_inv g st -> In node (nodes g) -> ~ In node (dfs_visited st) ->
  chain g (path st ++ [node]) ->
  dfs_inv g (mkDfs (set_add (dfs_visited st) node) (set_add (recursionStack st) node)
                   (path st ++ [node])).
Proof.
  intros Inv Hn Hv Hc.
  assert (Hnp : ~ In node (path st)) by (intros H; now apply Hv, (di_path_vis _ _ Inv)).
  constructor; simpl.
  - rewrite (di_stack _ _ Inv). now apply set_add_fresh.
  - apply NoDup_snoc; [apply (di_path_nodup _ _ Inv) | assumption].
  - intros x Hx. apply set_add_In. apply in_app_or in Hx.
    destruct Hx as [Hx | [<- | []]]; [left; now apply (di_path_vis _ _ Inv) | now right].
  - intros x Hx. apply set_add_In in Hx. destruct Hx as [Hx | ->]; [|assumption].
    now apply (di_vis_nodes _ _ Inv).
  - assumption.
  - intros b d Hb Hbp He. apply set_add_In in Hb.
    assert (Hbp' : ~ In b (path st)) by (intros H; apply Hbp, in_or_app; now left).
    destruct Hb as [Hb | ->]; [|exfalso; apply Hbp, in_or_app; right; now left].
    destruct (di_closed _ _ Inv b d Hb Hbp' He) as [H1 H2].
    split; [apply set_add_In; now left|].
    intros H. apply in_app_or in H. destruct H as [H | [<- | []]]; contradiction.
  - intros b Hb Hbp. apply set_add_In in Hb.
    assert (Hbp' : ~ In b (path st)) by (intros H; apply Hbp, in_or_app; now left).
    destruct Hb as [Hb | ->]; [|exfalso; apply Hbp, in_or_app; right; now left].
    now apply (di_acyc _ _ Inv).
Qed.
Lemma dfs_spec g :
  graph_wf g ->
  forall fuel node st,
    dfs_inv g st -> In node (nodes g) -> ~ In node (dfs_visited st) ->
    chain g (path st ++ [node]) ->
    List.length (nodes g) < fuel + List.length (path st) ->
    dfs_post g st node (dfs g fuel node st).
Proof.
  intros Hwf fuel. induction fuel as [|fuel IH]; intros node st Inv Hn Hv Hc Hfuel.
  - exfalso.
    assert (Hnp : ~ In node (path st)) by (intros H; now apply Hv, (di_path_vis _ _ Inv)).
    assert (Hnd : NoDup (path st ++ [node])).
    { apply NoDup_snoc; [apply (di_path_nodup _ _ Inv) | assumption]. }
    apply NoDup_incl_length with (l' := nodes g) in Hnd.
    + rewrite length_app in Hnd. simpl in *. lia.
    + intros x Hx. apply in_app_or in Hx. destruct Hx as [Hx | [<- | []]]; [|assumption].
      now apply (di_vis_nodes _ _ Inv), (di_path_vis _ _ Inv).
  - simpl.
    pose proof (dfs_enter_inv g st node Inv Hn Hv Hc) as Inv1.
    set (st1 := mkDfs (set_add (dfs_visited st) node) (set_add (recursionStack st) node)
                      (path st ++ [node])) in *.
    assert (Hnp : ~ In node (path st)) by (intros H; now apply Hv, (di_path_vis _ _ Inv)).
    pose proof (dfs_deps_spec g (dfs g fuel) node (path st) Hwf) as Hdeps.
    assert (Hrec : forall d st', dfs_inv g st' -> path st' = path st ++ [node] ->
                     In d (nodes g) -> ~ In d (dfs_visited st') -> edge g node d ->
                     dfs_post g st' d (dfs g fuel d st')).
    { intros d st' Inv' Hp' Hd Hdv He. apply IH; auto.
      - rewrite Hp'. now apply chain_snoc.
      - rewrite Hp', length_app. simpl. lia. }
    specialize (Hdeps Hrec (getDependencies g node) st1 Inv1 eq_refl (incl_refl _)).
    destruct (dfs_deps g (dfs g fuel) (getDependencies g node) st1) as [c | st2 |]; auto.
    destruct Hdeps as [Inv2 [Hp2 [Hincl2 Hblack]]]. simpl.
    assert (Hnode2 : In node (dfs_visited st2)).
    { apply Hincl2. simpl. apply set_add_In. now right. }
    assert (Hpath3 : removelast (path st2) = path st) by (rewrite Hp2; apply removelast_last).
    split; [|split; [exact Hpath3 | split; [|exact Hnode2]]].
    + constructor; simpl; rewrite ?Hpath3.
      * rewrite (di_stack _ _ Inv2), Hp2. now apply set_delete_snoc.
      * apply (di_path_nodup _ _ Inv).
      * intros x Hx. apply (di_path_vis _ _ Inv2). rewrite Hp2. apply in_or_app. now left.
      * apply (di_vis_nodes _ _ Inv2).
      * apply (di_chain _ _ Inv).
      * intros b d Hb Hbp He.
        assert (Hd2 : In d (dfs_visited st2) /\ ~ In d (path st2)).
        { destruct (string_dec b node) as [-> | Hne].
          - now apply Hblack.
          - apply (di_closed _ _ Inv2 b d Hb); [|assumption].
            rewrite Hp2. intros H. apply in_app_or in H.
            destruct H as [H | [H | []]]; [contradiction | congruence]. }
        destruct Hd2 as [H1 H2]. split; [assumption|].
        intros H. apply H2. rewrite Hp2. apply in_or_app. now left.
      * intros b Hb Hbp Hr.
        destruct (string_dec b node) as [-> | Hne].
        -- assert (Hself : In node (dfs_visited st2) /\ ~ In node (path st2)).
           { inversion Hr as [a b' He | a b' c' He Hr']; subst.
             - now apply Hblack.
             - destruct (Hblack b' He) as [H1 H2].
               eapply black_reach; eauto. }
           destruct Hself as [_ H2]. apply H2. rewrite Hp2. apply in_or_app. right. now left.
        -- apply (di_acyc _ _ Inv2 b Hb); [|assumption].
           rewrite Hp2. intros H. apply in_app_or in H.
           destruct H as [H | [H | []]]; [contradiction | congruence].
    + intros x Hx. apply Hincl2. simpl. apply set_add_In. now left.
Qed.

Lemma dfs_init_inv g : dfs_inv g (mkDfs [] [] []).
Proof.
  constructor; simpl.
  - reflexivity.
  - constructor.
  - intros x [].
  - intros x [].
  - exact I.
  - intros b d [].
  - intros b [].
Qed.

Lemma findCycle_loop_cons g fuel node rest st :
  findCycle_loop g fuel (node :: rest) st =
  if negb (set_has (dfs_visited st) node) then
    match dfs g fuel node st with
    | CycleFound c => Some c
    | NoCycle st' => findCycle_loop g fuel rest st'
    | DfsOutOfFuel => None
    end
  else findCycle_loop g fuel rest st.
Proof. reflexivity. Qed.

Lemma findCycle_loop_spec g :
  graph_wf g ->
  forall ns st,
    dfs_inv g st -> path st = [] -> incl ns (nodes g) ->
    exists c, findCycle_loop g (S (List.length (nodes g))) ns st = Some c /\
      (valid_cycle g c \/
       (c = [] /\ exists st', dfs_inv g st' /\ path st' = [] /\
                              incl (dfs_visited st) (dfs_visited st') /\
                              incl ns (dfs_visited st'))).
Proof.
  intros Hwf ns. induction ns as [|node rest IH]; intros st Inv Hp Hns.
  - exists []. split; [reflexivity|]. right. split; [reflexivity|].
    exists st. split; [assumption|]. split; [assumption|].
    split; [apply incl_refl | intros x []].
  - assert (Hrest : incl rest (nodes g)) by (intros x Hx; apply Hns; now right).
    rewrite findCycle_loop_cons.
    destruct (set_has (dfs_visited st) node) eqn:Ev; simpl negb; cbv iota.
    + apply set_has_In in Ev. destruct (IH st Inv Hp Hrest) as [c [Hc Hspec]].
      exists c. split; [assumption|]. destruct Hspec as [Hv | [-> [st' [I' [P' [V' N']]]]]];
        [now left | right].
      split; [reflexivity|]. exists st'. split; [assumption|]. split; [assumption|].
      split; [assumption|]. intros x [<- | Hx]; auto.
    + apply set_has_notIn in Ev.
      assert (Hnode : In node (nodes g)) by (apply Hns; now left).
      assert (Hd : dfs_post g st node (dfs g (S (List.length (nodes g))) node st)).
      { apply dfs_spec; auto.
        - rewrite Hp. exact I.
        - rewrite Hp. simpl. lia. }
      destruct (dfs g (S (List.length (nodes g))) node st) as [c | st1 |] eqn:Edfs;
        simpl in Hd; [ | | destruct Hd].
      * exists c. split; [reflexivity | now left].
      * destruct Hd as [Inv1 [Hp1 [Hincl1 Hin1]]].
        assert (Hp1' : path st1 = []) by congruence.
        destruct (IH st1 Inv1 Hp1' Hrest) as [c [Hc Hspec]].
        exists c. split; [assumption|].
        destruct Hspec as [Hv | [-> [st' [I' [P' [V' N']]]]]]; [now left | right].
        split; [reflexivity|]. exists st'. split; [assumption|]. split; [assumption|].
        split; [eapply incl_tran; eauto|]. intros x [<- | Hx]; auto.
Qed.

(** [findCycle] always answers: either with a cycle of the graph, or with
    the empty list, and then the graph has no cycle. *)
Lemma findCycle_spec g :
  graph_wf g ->
  exists c, findCycle g = Some c /\ (valid_cycle g c \/ (c = [] /\ acyclic g)).
Proof.
  intros Hwf.
  destruct (findCycle_loop_spec g Hwf (nodes g) (mkDfs [] [] []) (dfs_init_inv g) eq_refl
              (incl_refl _)) as [c [Hc Hspec]].
  exists c. split; [exact Hc|].
  destruct Hspec as [Hv | [-> [st' [Inv [Hp [_ Hall]]]]]]; [now left | right].
  split; [reflexivity|]. intros a Hr.
  apply (di_acyc _ _ Inv a); [| rewrite Hp; intros [] | assumption].
  apply Hall. eapply reach_source; eauto.
Qed.
(* ================================================================== *)
(** * topologicalSort: the two outcomes                                *)
(* ================================================================== *)

(** The nodes Kahn's loop managed to place, in the order it placed them. *)
Definition placed_order (g : DependencyGraph) : list string :=
  match kahn_run g with
  | Some st => result st
  | None => []
  end.

Lemma findCycle_nil_acyclic g : graph_wf g -> findCycle g = Some [] -> acyclic g.
Proof.
  intros Hwf H. destruct (findCycle_spec g Hwf) as [c [Hc Hspec]].
  rewrite H in Hc. injection Hc as <-.
  destruct Hspec as [[[x [mid Hx]] _] | [_ Hac]]; [discriminate | assumption].
Qed.

Lemma findCycle_cons_has_cycle g x c :
  graph_wf g -> findCycle g = Some (x :: c) -> has_cycle g.
Proof.
  intros Hwf H. destruct (findCycle_spec g Hwf) as [c' [Hc Hspec]].
  rewrite H in Hc. injection Hc as <-.
  destruct Hspec as [Hv | [Hnil _]]; [eapply valid_cycle_has_cycle; eauto | discriminate].
Qed.

(** C1. For every dependency graph without a directed cycle,
    [topologicalSort] returns an order that contains every node of the
    graph exactly once and in which, for every edge [a -> b] ("a depends
    on b"), the index of [b] is strictly smaller than the index of [a]. *)
Theorem topologicalSort_acyclic (g : DependencyGraph) :
  graph_wf g -> acyclic g ->
  exists order,
    topologicalSort g = Return order /\
    NoDup order /\
    (forall n, In n order <-> In n (nodes g)) /\
    (forall a b, edge g a b ->
       exists i j, index_of b order = Some i /\ index_of a order = Some j /\ i < j).
Proof.
  intros Hwf Hac.
  destruct (kahn_run_terminates g) as [st [Hrun _]].
  destruct (kahn_run_inv g st Hwf Hrun) as [Inv Hq].
  pose proof (kahn_acyclic_all_placed g st Hwf Inv Hq Hac) as Hall.
  assert (Hlen : List.length (result st) = List.length (nodes g)).
  { apply Nat.le_antisymm.
    - apply NoDup_incl_length; [apply (ki_res_nodup _ _ Inv) | apply (ki_res_nodes _ _ Inv)].
    - apply NoDup_incl_length; [apply (wf_nodes_nodup Hwf) | assumption]. }
  exists (result st). split; [|split; [|split]].
  - unfold topologicalSort. rewrite Hrun, Hlen, Nat.eqb_refl. reflexivity.
  - apply (ki_res_nodup _ _ Inv).
  - intros n. split; [apply (ki_res_nodes _ _ Inv) | apply Hall].
  - intros a b He. apply (kahn_order_index g st a b Inv); [|assumption].
    apply Hall. eapply edge_source; eauto.
Qed.

(** C2. For every dependency graph with a directed cycle,
    [topologicalSort] raises [CircularDependency].  Its cycle list starts
    and ends with the same node, holds at least two entries, and each
    consecutive pair of it is an edge of the graph.  Its involved list
    holds, each once, exactly the nodes that the partial order could not
    place; these are the nodes from which a cycle is reached, and the
    nodes placed are those from which none is. *)
Theorem topologicalSort_cyclic (g : DependencyGraph) :
  graph_wf g -> has_cycle g ->
  exists c involved,
    topologicalSort g = Throw (mkCircular c involved) /\
    valid_cycle g c /\
    NoDup involved /\
    (forall n, In n involved <-> In n (nodes g) /\ ~ In n (placed_order g)) /\
    (forall n, In n involved <-> In n (nodes g) /\ reaches_cycle g n) /\
    (forall n, In n (placed_order g) <-> In n (nodes g) /\ ~ reaches_cycle g n).
Proof.
  intros Hwf Hcyc.
  destruct (kahn_run_terminates g) as [st [Hrun _]].
  destruct (kahn_run_inv g st Hwf Hrun) as [Inv Hq].
  assert (Hlen : Nat.eqb (List.length (result st)) (List.length (nodes g)) = false).
  { apply Nat.eqb_neq. intros Hlen.
    assert (Hall : incl (nodes g) (result st)).
    { apply NoDup_same_length_incl; auto.
      - apply (ki_res_nodup _ _ Inv).
      - apply (ki_res_nodes _ _ Inv). }
    destruct Hcyc as [a Ha].
    exact (kahn_all_placed_acyclic g st Hwf Inv Hall a Ha). }
  destruct (findCycle_spec g Hwf) as [c [Hc Hspec]].
  destruct Hspec as [Hv | [_ Hac]].
  2:{ destruct Hcyc as [a Ha]. destruct (Hac a Ha). }
  assert (Hinv : forall n, In n (filter (fun n => negb (set_has (visited st) n)) (nodes g))
                           <-> In n (nodes g) /\ ~ In n (result st)).
  { intros n. rewrite filter_In, negb_true_iff, set_has_notIn, (ki_vis _ _ Inv). reflexivity. }
  exists c, (filter (fun n => negb (set_has (visited st) n)) (nodes g)).
  unfold placed_order. rewrite Hrun.
  split; [|split; [exact Hv | split; [|split; [exact Hinv | split]]]].
  - unfold topologicalSort. rewrite Hrun, Hlen, Hc. reflexivity.
  - apply NoDup_filter, (wf_nodes_nodup Hwf).
  - intros n. rewrite Hinv. split.
    + intros [Hn Hout]. split; [exact Hn|]. now apply (kahn_left_out g st).
    + intros [Hn Hrc]. split; [exact Hn|]. intros Hin.
      exact (kahn_placed_no_cycle g st n Inv Hin Hrc).
  - intros n. split.
    + intros Hin. split; [now apply (ki_res_nodes _ _ Inv)|].
      now apply (kahn_placed_no_cycle g st).
    + intros [Hn Hrc].
      destruct (in_dec string_dec n (result st)) as [|Hout]; [assumption|].
      elim Hrc. now apply (kahn_left_out g st).
Qed.

(** ** Concrete graphs *)

Definition graph_abc : DependencyGraph :=
  addEdge (addEdge (addEdge emptyGraph "a" "b") "b" "c") "a" "c".

Definition graph_loop : DependencyGraph :=
  addNode (addEdge (addEdge (addEdge emptyGraph "a" "b") "b" "c") "c" "a") "d".

Lemma graph_abc_wf : graph_wf graph_abc.
Proof. repeat apply graph_wf_addEdge. apply graph_wf_empty. Qed.

Lemma graph_loop_wf : graph_wf graph_loop.
Proof. apply graph_wf_addNode. repeat apply graph_wf_addEdge. apply graph_wf_empty. Qed.

Lemma topologicalSort_acyclic_witness :
  graph_wf graph_abc /\ acyclic graph_abc /\
  exists order,
    topologicalSort graph_abc = Return order /\
    NoDup order /\
    (forall n, In n order <-> In n (nodes graph_abc)) /\
    (forall a b, edge graph_abc a b ->
       exists i j, index_of b order = Some i /\ index_of a order = Some j /\ i < j).
Proof.
  assert (Hac : acyclic graph_abc).
  { apply findCycle_nil_acyclic; [apply graph_abc_wf | vm_compute; reflexivity]. }
  split; [apply graph_abc_wf | split; [exact Hac|]].
  apply (topologicalSort_acyclic graph_abc graph_abc_wf Hac).
Defined.

Lemma topologicalSort_cyclic_witness :
  graph_wf graph_loop /\ has_cycle graph_loop /\
  exists c involved,
    topologicalSort graph_loop = Throw (mkCircular c involved) /\
    valid_cycle graph_loop c /\
    NoDup involved /\
    (forall n, In n involved <-> In n (nodes graph_loop) /\ ~ In n (placed_order graph_loop)) /\
    (forall n, In n involved <-> In n (nodes graph_loop) /\ reaches_cycle graph_loop n) /\
    (forall n, In n (placed_order graph_loop)
               <-> In n (nodes graph_loop) /\ ~ reaches_cycle graph_loop n).
Proof.
  assert (Hc : has_cycle graph_loop).
  { apply (findCycle_cons_has_cycle graph_loop "a" ["b"; "c"; "a"]);
      [apply graph_loop_wf | vm_compute; reflexivity]. }
  split; [apply graph_loop_wf | split; [exact Hc|]].
  apply (topologicalSort_cyclic graph_loop graph_loop_wf Hc).
Defined.

Example topologicalSort_abc : topologicalSort graph_abc = Return ["c"; "b"; "a"].
Proof. vm_compute. reflexivity. Qed.

Example topologicalSort_loop :
  topologicalSort graph_loop = Throw (mkCircular ["a"; "b"; "c"; "a"] ["a"; "b"; "c"]).
Proof. vm_compute. reflexivity. Qed.
(* ================================================================== *)
(** * The recursion counter of the evaluator                           *)
(* ================================================================== *)

Notation "x <~ m ;; k" := (bindM m (fun x => k))
  (at level 61, m at next level, right associativity).

(** Induction over syntax trees, with the hypothesis available for every
    element of an argument list. *)
Section ASTInduction.
Context {P : DecimalLib}.
Variable Q : ASTNode -> Prop.
Hypothesis H_decimal : forall v raw, Q (DecimalLiteral v raw).
Hypothesis H_number : forall v, Q (NumberLiteral v).
Hypothesis H_string : forall v, Q (StringLiteral v).
Hypothesis H_boolean : forall v, Q (BooleanLiteral v).
Hypothesis H_null : Q NullLiteral.
Hypothesis H_array : forall elements, Forall Q elements -> Q (ArrayLiteral elements).
Hypothesis H_variable : forall prefix name, Q (VariableReference prefix name).
Hypothesis H_binary : forall op l r, Q l -> Q r -> Q (BinaryOperation op l r).
Hypothesis H_unary : forall op o, Q o -> Q (UnaryOperation op o).
Hypothesis H_conditional : forall c a b, Q c -> Q a -> Q b -> Q (ConditionalExpression c a b).
Hypothesis H_call : forall name args, Forall Q args -> Q (FunctionCall name args).
Hypothesis H_member : forall o p, Q o -> Q (MemberAccess o p).
Hypothesis H_index : forall o i, Q o -> Q i -> Q (IndexAccess o i).

Fixpoint ASTNode_induction (node : ASTNode) : Q node :=
  match node with
  | DecimalLiteral v raw => H_decimal v raw
  | NumberLiteral v => H_number v
  | StringLiteral v => H_string v
  | BooleanLiteral v => H_boolean v
  | NullLiteral => H_null
  | ArrayLiteral elements =>
      H_array elements
        ((fix all (l : list ASTNode) : Forall Q l :=
            match l with
            | [] => Forall_nil Q
            | x :: r => Forall_cons x (ASTNode_induction x) (all r)
            end) elements)
  | VariableReference prefix name => H_variable prefix name
  | BinaryOperation op l r => H_binary op l r (ASTNode_induction l) (ASTNode_induction r)
  | UnaryOperation op o => H_unary op o (ASTNode_induction o)
  | ConditionalExpression c a b =>
      H_conditional c a b (ASTNode_induction c) (ASTNode_induction a) (ASTNode_induction b)
  | FunctionCall name args =>
      H_call name args
        ((fix all (l : list ASTNode) : Forall Q l :=
            match l with
            | [] => Forall_nil Q
            | x :: r => Forall_cons x (ASTNode_induction x) (all r)
            end) args)
  | MemberAccess o p => H_member o p (ASTNode_induction o)
  | IndexAccess o i => H_index o i (ASTNode_induction o) (ASTNode_induction i)
  end.
End ASTInduction.

Section Counter.
Context {P : DecimalLib}.
Variable ev : Evaluator.

Local Abbreviation L := (recursion_limit ev).

(** An outcome other than the recursion error. *)
Definition not_MaxRecursion {A} (r : result_of A) : Prop :=
  forall l, r <> Throw (MaxRecursionError l).

(** A computation that never lowers the counter and that raises the
    recursion error exactly when it pushes the counter past the limit. *)
Definition counted {A} (m : M A) : Prop :=
  forall st,
    recursionDepth st <= recursionDepth (snd (m st)) /\
    (recursionDepth st <= L ->
     (fst (m st) = Throw (MaxRecursionError L) /\ recursionDepth (snd (m st)) = S L) \/
     (not_MaxRecursion (fst (m st)) /\ recursionDepth (snd (m st)) <= L)).

(** The same, and the counter goes up by at least one. *)
Definition counted_step {A} (m : M A) : Prop :=
  counted m /\ forall st, recursionDepth st < recursionDepth (snd (m st)).

Lemma counted_ret {A} (a : A) : counted (ret a).
Proof.
  intros st. simpl. split; [lia|]. intros H. right. split; [|assumption].
  intros l. discriminate.
Qed.

Lemma counted_lift {A} (r : result_of A) : not_MaxRecursion r -> counted (lift r).
Proof.
  intros Hr st. simpl. split; [lia|]. intros H. right. split; assumption.
Qed.

Lemma counted_throw {A} (e : Error) :
  (forall l, e <> MaxRecursionError l) -> counted (@throw _ A e).
Proof.
  intros He. apply (counted_lift (Throw e)). intros l H. injection H as H. exact (He l H).
Qed.

Lemma counted_bind {A B} (m : M A) (k : A -> M B) :
  counted m -> (forall a, counted (k a)) -> counted (bindM m k).
Proof.
  intros Hm Hk st. unfold bindM. specialize (Hm st).
  destruct (m st) as [[a | e | ] st'] eqn:E; simpl in Hm; destruct Hm as [Hle Hm].
  - specialize (Hk a st'). destruct Hk as [Hle' Hk]. split; [lia|].
    intros H. destruct (Hm H) as [[Hf _] | [_ Hd]]; [discriminate|]. auto.
  - simpl. split; [assumption|]. intros H. destruct (Hm H) as [[Hf Hd] | [Hn Hd]].
    + left. injection Hf as ->. auto.
    + right. split; [|assumption]. intros l Hl. injection Hl as ->. now apply (Hn l).
  - simpl. split; [assumption|]. intros H. destruct (Hm H) as [[Hf _] | [_ Hd]]; [discriminate|].
    right. split; [intros l; discriminate | assumption].
Qed.

Lemma counted_checkRecursionLimit : counted_step (checkRecursionLimit ev).
Proof.
  split.
  - intros st. unfold checkRecursionLimit. simpl.
    destruct (Nat.ltb L (S (recursionDepth st))) eqn:E; simpl.
    + split; [lia|]. intros H. left. apply Nat.ltb_lt in E. split; [reflexivity | lia].
    + split; [lia|]. intros H. right. apply Nat.ltb_ge in E.
      split; [intros l; discriminate | lia].
  - intros st. unfold checkRecursionLimit. simpl.
    destruct (Nat.ltb L (S (recursionDepth st))); simpl; lia.
Qed.

Lemma counted_checkIterationLimit : counted (checkIterationLimit ev).
Proof.
  intros st. unfold checkIterationLimit. simpl.
  destruct (Nat.ltb _ _); simpl; (split; [lia|]); intros H; right;
    (split; [intros l; discriminate | assumption]).
Qed.

Lemma counted_access_variable name : counted (access_variable name).
Proof.
  intros st. simpl. split; [lia|]. intros H. right.
  split; [intros l; discriminate | assumption].
Qed.

Lemma counted_new_array l : counted (new_array l).
Proof.
  intros st. simpl. split; [lia|]. intros H. right.
  split; [intros l'; discriminate | assumption].
Qed.

Lemma counted_step_bind {A B} (m : M A) (k : A -> M B) :
  counted_step m -> (forall a, counted (k a)) -> counted_step (bindM m k).
Proof.
  intros [Hm Hs] Hk. split; [now apply counted_bind|].
  intros st. unfold bindM. specialize (Hs st).
  destruct (m st) as [[a | e | ] st'] eqn:E; simpl in *; try assumption.
  destruct (Hk a st') as [Hle _]. lia.
Qed.

Lemma counted_of_step {A} (m : M A) : counted_step m -> counted m.
Proof. intros [H _]. exact H. Qed.

Lemma counted_sequenceM {A} (l : list (M A)) : Forall counted l -> counted (sequenceM l).
Proof.
  induction 1 as [|m r Hm Hr IH]; simpl.
  - apply counted_ret.
  - apply counted_bind; [assumption|]. intros x.
    apply counted_bind; [assumption|]. intros xs. apply counted_ret.
Qed.

(** Outcomes of the pure helpers. *)

Lemma bind_not_MaxRecursion {A B} (r : result_of A) (k : A -> result_of B) :
  not_MaxRecursion r -> (forall a, not_MaxRecursion (k a)) -> not_MaxRecursion (bind r k).
Proof.
  intros Hr Hk. destruct r as [a | e |]; simpl.
  - apply Hk.
  - intros l H. injection H as ->. now apply (Hr l).
  - intros l; discriminate.
Qed.

Lemma Return_not_MaxRecursion {A} (a : A) : not_MaxRecursion (Return (E := Error) a).
Proof. intros l; discriminate. Qed.

Lemma du_from_string_ok s : not_MaxRecursion (du_from_string s).
Proof. unfold du_from_string. destruct (d_new_string s); intros l; discriminate. Qed.

Lemma toDecimal_ok v : not_MaxRecursion (toDecimal v).
Proof.
  destruct v; simpl; try (intros l; discriminate). apply du_from_string_ok.
Qed.

Lemma toNumber_ok v : not_MaxRecursion (toNumber v).
Proof. destruct v; simpl; intros l; discriminate. Qed.

Lemma du_toDecimalPlaces_ok d s r : not_MaxRecursion (du_toDecimalPlaces d s r).
Proof. unfold du_toDecimalPlaces. destruct (d_toDecimalPlaces d s r); intros l; discriminate. Qed.

Ltac pure_ok :=
  repeat first
    [ apply Return_not_MaxRecursion
    | apply toDecimal_ok
    | apply toNumber_ok
    | apply du_from_string_ok
    | apply du_toDecimalPlaces_ok
    | (apply bind_not_MaxRecursion; [|intros ?])
    | (intros ?; discriminate)
    | match goal with
      | |- not_MaxRecursion (if ?c then _ else _) => destruct c
      | |- not_MaxRecursion (match ?v with _ => _ end) => destruct v
      end ].

Lemma add_ok l r : not_MaxRecursion (add l r).
Proof. unfold add. pure_ok. Qed.

Lemma subtract_ok l r : not_MaxRecursion (subtract l r).
Proof. unfold subtract. pure_ok. Qed.

Lemma multiply_ok l r : not_MaxRecursion (multiply l r).
Proof. unfold multiply. pure_ok. Qed.

Lemma divide_ok l r : not_MaxRecursion (divide ev l r).
Proof. unfold divide, du_divide. pure_ok. Qed.

Lemma modulo_ok l r : not_MaxRecursion (modulo l r).
Proof. unfold modulo, du_modulo. pure_ok. Qed.

Lemma power_ok l r : not_MaxRecursion (power l r).
Proof. unfold power. pure_ok. Qed.

Lemma negate_ok v : not_MaxRecursion (negate v).
Proof. unfold negate. pure_ok. Qed.

Lemma compare_with_ok op dec str l r : not_MaxRecursion (compare_with op dec str l r).
Proof. unfold compare_with. pure_ok. Qed.
End Counter.
Section CounterEval.
Context {P : DecimalLib}.
Variable ev : Evaluator.

Local Abbreviation L := (recursion_limit ev).

(** No registered function raises the recursion error itself. *)
Definition functions_pure : Prop :=
  forall name fn args context,
    map_get (functions ev) name = Some fn ->
    not_MaxRecursion (implementation fn args context).

Ltac counted_tac :=
  repeat first
    [ apply counted_ret
    | apply counted_access_variable
    | apply counted_new_array
    | apply counted_checkIterationLimit
    | (apply counted_of_step; apply counted_checkRecursionLimit)
    | (apply counted_throw; intros ?; discriminate)
    | (apply counted_lift;
       first [ apply add_ok | apply subtract_ok | apply multiply_ok | apply divide_ok
             | apply modulo_ok | apply power_ok | apply negate_ok | apply compare_with_ok
             | apply toDecimal_ok | apply toNumber_ok | apply du_from_string_ok ])
    | assumption
    | (apply counted_bind; [|intros ?])
    | match goal with
      | |- counted ev (if ?c then _ else _) => destruct c
      | |- counted ev (match ?v with _ => _ end) => destruct v
      end ].

Lemma counted_evaluateVariable prefix name context :
  counted ev (evaluateVariable ev prefix name context).
Proof. unfold evaluateVariable. counted_tac. Qed.

Lemma counted_evaluateUndefinedNode : counted ev (evaluateUndefinedNode ev).
Proof. unfold evaluateUndefinedNode. counted_tac. Qed.

Lemma counted_evaluateBinaryOperation op l r :
  counted ev l -> counted ev r -> counted ev (evaluateBinaryOperation ev op l r).
Proof.
  intros Hl Hr. unfold evaluateBinaryOperation,
    lessThan, greaterThan, lessThanOrEqual, greaterThanOrEqual.
  counted_tac.
Qed.

Lemma counted_evaluateUnaryOperation op o :
  counted ev o -> counted ev (evaluateUnaryOperation op o).
Proof. intros Ho. unfold evaluateUnaryOperation. counted_tac. Qed.

Lemma counted_evaluateConditional c a b :
  counted ev c -> counted ev a -> counted ev b -> counted ev (evaluateConditional c a b).
Proof. intros Hc Ha Hb. unfold evaluateConditional. counted_tac. Qed.

Lemma counted_sum_loop f context items : forall sum,
  (forall ctx, counted ev (f ctx)) -> counted ev (sum_loop ev f context items sum).
Proof.
  induction items as [|item rest IH]; intros sum Hf; simpl.
  - apply counted_ret.
  - apply counted_bind; [apply counted_checkIterationLimit | intros _].
    apply counted_bind; [apply Hf | intros v].
    destruct (isNumeric v); [|now apply IH].
    apply counted_bind; [apply counted_lift, toDecimal_ok | intros d]. now apply IH.
Qed.

Lemma counted_filter_loop f context items : forall acc,
  (forall ctx, counted ev (f ctx)) -> counted ev (filter_loop ev f context items acc).
Proof.
  induction items as [|item rest IH]; intros acc Hf; simpl.
  - apply counted_ret.
  - apply counted_bind; [apply counted_checkIterationLimit | intros _].
    apply counted_bind; [apply Hf | intros v]. now apply IH.
Qed.

Lemma counted_map_loop f context items : forall acc,
  (forall ctx, counted ev (f ctx)) -> counted ev (map_loop ev f context items acc).
Proof.
  induction items as [|item rest IH]; intros acc Hf; simpl.
  - apply counted_ret.
  - apply counted_bind; [apply counted_checkIterationLimit | intros _].
    apply counted_bind; [apply Hf | intros v]. now apply IH.
Qed.

Lemma counted_evaluateSumWithExpression a f context :
  counted ev a -> (forall ctx, counted ev (f ctx)) ->
  counted ev (evaluateSumWithExpression ev a f context).
Proof.
  intros Ha Hf. unfold evaluateSumWithExpression.
  apply counted_bind; [assumption | intros array].
  destruct array; try (apply counted_throw; intros ?; discriminate).
  apply counted_bind; [now apply counted_sum_loop | intros s; apply counted_ret].
Qed.

Lemma counted_evaluateFilter a f context :
  counted ev a -> (forall ctx, counted ev (f ctx)) ->
  counted ev (evaluateFilter ev a f context).
Proof.
  intros Ha Hf. unfold evaluateFilter.
  apply counted_bind; [assumption | intros array].
  destruct array; try (apply counted_throw; intros ?; discriminate).
  apply counted_bind; [now apply counted_filter_loop | intros s; apply counted_new_array].
Qed.

Lemma counted_evaluateMap a f context :
  counted ev a -> (forall ctx, counted ev (f ctx)) ->
  counted ev (evaluateMap ev a f context).
Proof.
  intros Ha Hf. unfold evaluateMap.
  apply counted_bind; [assumption | intros array].
  destruct array; try (apply counted_throw; intros ?; discriminate).
  apply counted_bind; [now apply counted_map_loop | intros s; apply counted_new_array].
Qed.

Lemma counted_evaluateFunctionCall name argc a0 a1 args context :
  functions_pure ->
  counted ev a0 -> (forall ctx, counted ev (a1 ctx)) -> Forall (counted ev) args ->
  counted ev (evaluateFunctionCall ev name argc a0 a1 args context).
Proof.
  intros Hpure H0 H1 Hargs. unfold evaluateFunctionCall.
  destruct (map_get (functions ev) (toUpperCase name)) as [fn|] eqn:E;
    [|apply counted_throw; intros ?; discriminate].
  destruct (Z.ltb _ _); [apply counted_throw; intros ?; discriminate|].
  destruct (_ && _); [apply counted_throw; intros ?; discriminate|].
  destruct (_ && _); [now apply counted_evaluateSumWithExpression|].
  destruct (String.eqb _ "FILTER"); [now apply counted_evaluateFilter|].
  destruct (String.eqb _ "MAP"); [now apply counted_evaluateMap|].
  apply counted_bind; [now apply counted_sequenceM | intros vs].
  apply counted_lift. eapply Hpure; eauto.
Qed.

Lemma counted_evaluateMemberAccess o property :
  counted ev o -> counted ev (evaluateMemberAccess ev o property).
Proof. intros Ho. unfold evaluateMemberAccess. counted_tac. Qed.

Lemma counted_evaluateIndexAccess o i :
  counted ev o -> counted ev i -> counted ev (evaluateIndexAccess ev o i).
Proof. intros Ho Hi. unfold evaluateIndexAccess. counted_tac. Qed.

Lemma evaluateNode_unfold node context :
  evaluateNode ev node context =
  bindM (checkRecursionLimit ev) (fun _ =>
    match node with
    | DecimalLiteral v _ => d <~ lift (du_from_string v) ;; ret (VDecimal d)
    | NumberLiteral v => ret (VNumber v)
    | StringLiteral v => ret (VString v)
    | BooleanLiteral v => ret (VBool v)
    | NullLiteral => ret VNull
    | ArrayLiteral elements =>
        l <~ sequenceM (map (fun el => evaluateNode ev el context) elements) ;; new_array l
    | VariableReference prefix name => evaluateVariable ev prefix name context
    | BinaryOperation operator l r =>
        evaluateBinaryOperation ev operator (evaluateNode ev l context)
                                (evaluateNode ev r context)
    | UnaryOperation operator operand =>
        evaluateUnaryOperation operator (evaluateNode ev operand context)
    | ConditionalExpression c a b =>
        evaluateConditional (evaluateNode ev c context) (evaluateNode ev a context)
                            (evaluateNode ev b context)
    | FunctionCall name args =>
        evaluateFunctionCall ev name (List.length args)
          (match args with
           | a0 :: _ => evaluateNode ev a0 context
           | [] => evaluateUndefinedNode ev
           end)
          (fun ctx => match args with
                      | _ :: a1 :: _ => evaluateNode ev a1 ctx
                      | _ => evaluateUndefinedNode ev
                      end)
          (map (fun arg => evaluateNode ev arg context) args)
          context
    | MemberAccess object property =>
        evaluateMemberAccess ev (evaluateNode ev object context) property
    | IndexAccess object index =>
        evaluateIndexAccess ev (evaluateNode ev object context) (evaluateNode ev index context)
    end).
Proof. destruct node; reflexivity. Qed.

(** Every dispatch of a node adds one to the counter, nothing ever
    lowers it, and the recursion error is raised exactly when the
    counter passes the limit. *)
Lemma counted_evaluateNode :
  functions_pure ->
  forall node context, counted_step ev (evaluateNode ev node context).
Proof.
  intros Hpure node.
  induction node using ASTNode_induction; intros context; rewrite evaluateNode_unfold;
    apply counted_step_bind; try apply counted_checkRecursionLimit; intros _.
  - apply counted_bind; [apply counted_lift, du_from_string_ok | intros d; apply counted_ret].
  - apply counted_ret.
  - apply counted_ret.
  - apply counted_ret.
  - apply counted_ret.
  - apply counted_bind; [|intros l; apply counted_new_array].
    apply counted_sequenceM. apply Forall_map.
    eapply Forall_impl; [|exact H]. intros a Ha. apply Ha.
  - apply counted_evaluateVariable.
  - apply counted_evaluateBinaryOperation; [apply IHnode1 | apply IHnode2].
  - apply counted_evaluateUnaryOperation. apply IHnode.
  - apply counted_evaluateConditional; [apply IHnode1 | apply IHnode2 | apply IHnode3].
  - apply counted_evaluateFunctionCall; [assumption | | |].
    + destruct args as [|a0 r]; [apply counted_evaluateUndefinedNode|].
      inversion H; subst. apply H2.
    + intros ctx. destruct args as [|a0 [|a1 r]]; try apply counted_evaluateUndefinedNode.
      inversion H as [|? ? _ H']; subst. inversion H'; subst. apply H2.
    + apply Forall_map. eapply Forall_impl; [|exact H]. intros a Ha. apply Ha.
  - apply counted_evaluateMemberAccess. apply IHnode.
  - apply counted_evaluateIndexAccess; [apply IHnode1 | apply IHnode2].
Qed.
End CounterEval.
(* ================================================================== *)
(** * Evaluation of single expressions                                 *)
(* ================================================================== *)

(** [new FormulaEngine()]: no option set. *)
Definition default_config {P : DecimalLib} : FormulaEngineConfig :=
  mkConfig None None [] None None.

(** C3. Decimal literals are added, subtracted and multiplied exactly:
    [0.1 + 0.2] is the Decimal 0.3, [1000.10 - 1000.00] is the Decimal
    0.10 and [19.99 * 3] is the Decimal 59.97, whatever the context. *)
Theorem decimal_exactness (context : ContextRef) (w : World (P := DefaultDecimal)) :
  (exists d, Scaled.of_string "0.3" = Some d /\ Scaled.toString d = "0.3" /\
     fst (engine_evaluate (P := DefaultDecimal) default_config "0.1 + 0.2" context w)
     = Return (mkResult (VDecimal (P := DefaultDecimal) d) true None [])) /\
  (exists d, Scaled.of_string "0.10" = Some d /\ Scaled.toString d = "0.1" /\
     fst (engine_evaluate (P := DefaultDecimal) default_config "1000.10 - 1000.00" context w)
     = Return (mkResult (VDecimal (P := DefaultDecimal) d) true None [])) /\
  (exists d, Scaled.of_string "59.97" = Some d /\ Scaled.toString d = "59.97" /\
     fst (engine_evaluate (P := DefaultDecimal) default_config "19.99 * 3" context w)
     = Return (mkResult (VDecimal (P := DefaultDecimal) d) true None [])).
Proof.
  unfold engine_evaluate.
  destruct (normalizeContext default_config context w) as [nc w1].
  split; [|split].
  - exists (Scaled.Fin 3 (-1)). split; [|split]; reflexivity.
  - exists (Scaled.Fin 1 (-1)). split; [|split]; reflexivity.
  - exists (Scaled.Fin 5997 (-2)). split; [|split]; reflexivity.
Qed.

Section ShortCircuit.
Context {P : DecimalLib}.

Lemma convert_entries_get (o : props) (next : nat) (k : string) :
  prop_get o k = None -> prop_get (fst (convert_entries o next)) k = None.
Proof.
  unfold prop_get. revert next. induction o as [|[k' x] r IH]; intros next H; simpl in *.
  - reflexivity.
  - destruct (convertValue x next) as [x' n1].
    specialize (IH n1). destruct (convert_entries r n1) as [r' n2]. simpl in *.
    destruct (String.eqb k k'); [discriminate | auto].
Qed.

Lemma heap_get_set_same (h : Heap) l o : heap_get (heap_set h l o) l = o.
Proof.
  induction h as [|[l' o'] r IH]; simpl.
  - now rewrite Nat.eqb_refl.
  - destruct (Nat.eqb l l') eqn:E; simpl; rewrite E; auto.
Qed.

(** A variable absent from the caller's [variables] is absent from the
    normalised context as well. *)
Lemma normalizeContext_absent config context w name :
  prop_get (heap_get (heap w) (variables_ref context)) name = None ->
  prop_get (variables (snapshot (heap (snd (normalizeContext config context w)))
                                (fst (normalizeContext config context w)))) name = None.
Proof.
  intros H. unfold normalizeContext. destruct (negb (autoConvert config)); simpl; [assumption|].
  pose proof (convert_entries_get _ (nextRef (evalState w)) name H) as Hc.
  destruct (convert_entries _ _) as [nv next]. simpl in *.
  now rewrite heap_get_set_same.
Qed.

Lemma parse_false_and_undef :
  parse "false && $undef"
  = Return (BinaryOperation "&&" (BooleanLiteral false) (VariableReference Dollar "undef")).
Proof. vm_compute. reflexivity. Qed.

Lemma parse_true_or_undef :
  parse "true || $undef"
  = Return (BinaryOperation "||" (BooleanLiteral true) (VariableReference Dollar "undef")).
Proof. vm_compute. reflexivity. Qed.

Lemma parse_undef : parse "$undef" = Return (VariableReference Dollar "undef").
Proof. vm_compute. reflexivity. Qed.

(** C8. In strict mode, with [undef] absent from the context,
    [false && $undef] evaluates to [false] and [true || $undef] to
    [true], without error and without the variable being accessed,
    although [$undef] on its own raises UndefinedVariable. *)
Theorem short_circuit (config : FormulaEngineConfig) (context : ContextRef) (w : World) :
  strictMode (engine_evaluator config) = true ->
  cfg_security config = None ->
  prop_get (heap_get (heap w) (variables_ref context)) "undef" = None ->
  fst (engine_evaluate config "false && $undef" context w)
    = Return (mkResult (VBool false) true None []) /\
  fst (engine_evaluate config "true || $undef" context w)
    = Return (mkResult (VBool true) true None []) /\
  fst (engine_evaluate config "$undef" context w)
    = Return (mkResult VNull false (Some (UndefinedVariableError "undef" "")) ["undef"]).
Proof.
  intros Hstrict Hsec Habsent.
  pose proof (normalizeContext_absent config context w "undef" Habsent) as Hn.
  unfold engine_evaluate, checkExpressionLength. rewrite Hsec.
  destruct (normalizeContext config context w) as [nc w1]. simpl in Hn.
  assert (Hlim : recursion_limit (engine_evaluator config) = 100).
  { unfold recursion_limit, engine_evaluator. simpl. now rewrite Hsec. }
  repeat split.
  - change (Nat.ltb 10000 (String.length "false && $undef")) with false. cbv iota.
    unfold evaluate. rewrite parse_false_and_undef.
    rewrite !evaluateNode_unfold. unfold evaluateBinaryOperation, bindM, checkRecursionLimit, ret.
    rewrite Hlim. reflexivity.
  - change (Nat.ltb 10000 (String.length "true || $undef")) with false. cbv iota.
    unfold evaluate. rewrite parse_true_or_undef.
    rewrite !evaluateNode_unfold. unfold evaluateBinaryOperation, bindM, checkRecursionLimit, ret.
    rewrite Hlim. reflexivity.
  - change (Nat.ltb 10000 (String.length "$undef")) with false. cbv iota.
    unfold evaluate. rewrite parse_undef.
    rewrite evaluateNode_unfold.
    unfold evaluateVariable, bindM, checkRecursionLimit, access_variable, ret, throw, lift.
    rewrite Hlim. cbn [recursionDepth Nat.ltb Nat.leb iterationCount accessedVariables nextRef].
    change (String.eqb "undef" "it") with false. cbn [andb].
    cbn [variables snapshot]. rewrite Hn, Hstrict. reflexivity.
Qed.
End ShortCircuit.

Definition empty_world {P : DecimalLib} : World := mkWorld [(0, [])] (mkState 0 0 [] 1).
Definition empty_context {P : DecimalLib} : ContextRef := mkContextRef 0 None None.

Lemma short_circuit_witness :
  fst (engine_evaluate (P := DefaultDecimal) default_config "false && $undef"
                       empty_context empty_world)
    = Return (mkResult (VBool false) true None []) /\
  fst (engine_evaluate (P := DefaultDecimal) default_config "true || $undef"
                       empty_context empty_world)
    = Return (mkResult (VBool true) true None []) /\
  fst (engine_evaluate (P := DefaultDecimal) default_config "$undef"
                       empty_context empty_world)
    = Return (mkResult VNull false (Some (UndefinedVariableError "undef" "")) ["undef"]).
Proof.
  apply (short_circuit (P := DefaultDecimal) default_config empty_context empty_world);
    reflexivity.
Defined.
(* ================================================================== *)
(** * The recursion limit counts node visits                           *)
(* ================================================================== *)

Section FlatExpressions.
Context {P : DecimalLib}.
Variable ev : Evaluator.

Local Abbreviation L := (recursion_limit ev).

(** The value of a literal node whose evaluation cannot fail. *)
Definition literal_value (node : ASTNode) : option value :=
  match node with
  | DecimalLiteral v _ => option_map VDecimal (d_new_string v)
  | NumberLiteral v => Some (VNumber v)
  | StringLiteral v => Some (VString v)
  | BooleanLiteral v => Some (VBool v)
  | NullLiteral => Some VNull
  | _ => None
  end.

Definition is_literal (node : ASTNode) : Prop := literal_value node <> None.

(** [st] after [n] more visits. *)
Definition visited_more (st : EvalState) (n : nat) : EvalState :=
  mkState (n + recursionDepth st) (iterationCount st) (accessedVariables st) (nextRef st).

Lemma evaluateNode_literal node v context st :
  literal_value node = Some v ->
  evaluateNode ev node context st =
    if Nat.ltb L (S (recursionDepth st))
    then (Throw (MaxRecursionError L), visited_more st 1)
    else (Return v, visited_more st 1).
Proof.
  intros H. rewrite evaluateNode_unfold. unfold bindM, checkRecursionLimit, visited_more.
  cbn [recursionDepth iterationCount accessedVariables nextRef Nat.add].
  destruct (Nat.ltb L (S (recursionDepth st))); [reflexivity|].
  destruct node; simpl in H; try discriminate;
    try (injection H as <-; reflexivity).
  unfold lift, du_from_string. revert H.
  destruct (d_new_string _); simpl; [|discriminate].
  intros H. injection H as <-. reflexivity.
Qed.

Lemma sequenceM_literals context elements :
  Forall is_literal elements ->
  forall st, recursionDepth st <= L ->
    let out := sequenceM (map (fun el => evaluateNode ev el context) elements) st in
    (fst out = Throw (MaxRecursionError L) /\ L < List.length elements + recursionDepth st) \/
    ((exists vs, fst out = Return vs) /\ List.length elements + recursionDepth st <= L /\
     recursionDepth (snd out) = List.length elements + recursionDepth st).
Proof.
  induction 1 as [|node rest Hnode Hrest IH]; intros st Hst; simpl.
  - right. split; [eexists; reflexivity | lia].
  - destruct (literal_value node) as [v|] eqn:Ev; [|now elim Hnode].
    unfold bindM, ret. rewrite (evaluateNode_literal _ _ _ _ Ev).
    destruct (Nat.ltb L (S (recursionDepth st))) eqn:E; simpl.
    + left. apply Nat.ltb_lt in E. split; [reflexivity | lia].
    + apply Nat.ltb_ge in E.
      specialize (IH (visited_more st 1)). simpl in IH. specialize (IH E).
      destruct (sequenceM _ (visited_more st 1)) as [[vs | e |] st'] eqn:Es; simpl in *.
      * destruct IH as [[IH _] | [_ IH]]; [discriminate|].
        right. split; [eexists; reflexivity | lia].
      * destruct IH as [[IH Hlt] | [[vs IH] _]]; [|discriminate].
        left. split; [congruence | lia].
      * destruct IH as [[IH _] | [[vs IH] _]]; discriminate.
Qed.

(** An array literal of [n] literals takes [n + 1] visits. *)
Lemma evaluateNode_flat elements context st :
  Forall is_literal elements -> recursionDepth st = 0 ->
  fst (evaluateNode ev (ArrayLiteral elements) context st) = Throw (MaxRecursionError L)
  <-> L < S (List.length elements).
Proof.
  intros Hall H0. rewrite evaluateNode_unfold. unfold bindM, checkRecursionLimit, new_array.
  rewrite H0. cbn [recursionDepth iterationCount accessedVariables nextRef].
  destruct (Nat.ltb L 1) eqn:E; simpl.
  - apply Nat.ltb_lt in E. split; [lia | reflexivity].
  - apply Nat.ltb_ge in E.
    pose proof (sequenceM_literals context elements Hall
                  (mkState 1 (iterationCount st) (accessedVariables st) (nextRef st)) E)
      as Hseq.
    simpl in Hseq.
    destruct (sequenceM _ _) as [[vs | e |] st'] eqn:Es; simpl in *.
    + destruct Hseq as [[Hseq _] | [_ Hseq]]; [discriminate|].
      split; [discriminate | lia].
    + destruct Hseq as [[Hseq Hlt] | [[vs Hseq] _]]; [|discriminate].
      split; [lia | intros _; congruence].
    + destruct Hseq as [[Hseq _] | [[vs Hseq] _]]; discriminate.
Qed.
End FlatExpressions.

Section BuiltInFunctions.
Context {P : DecimalLib}.

Lemma fn_toDecimal_ok v : not_MaxRecursion (fn_toDecimal v).
Proof.
  destruct v; simpl; try (intros l; discriminate). apply du_from_string_ok.
Qed.

Lemma map_result_ok {A B} (f : A -> result_of B) (l : list A) :
  (forall a, not_MaxRecursion (f a)) -> not_MaxRecursion (map_result f l).
Proof.
  intros Hf. induction l as [|a r IH]; simpl.
  - intros l; discriminate.
  - apply bind_not_MaxRecursion; [apply Hf | intros b].
    apply bind_not_MaxRecursion; [apply IH | intros bs]. intros l; discriminate.
Qed.

Lemma SUM_ok args context : not_MaxRecursion (implementation SUM args context).
Proof.
  simpl. destruct (arg args 0); try (intros l; discriminate).
  destruct (Nat.eqb _ 1); [|intros l; discriminate].
  apply bind_not_MaxRecursion; [apply map_result_ok, fn_toDecimal_ok | intros ds].
  intros l; discriminate.
Qed.

Lemma COUNT_ok args context : not_MaxRecursion (implementation COUNT args context).
Proof. simpl. destruct (arg args 0); intros l; discriminate. Qed.

Lemma LOOKUP_ok args context : not_MaxRecursion (implementation LOOKUP args context).
Proof.
  simpl. destruct (arg args 0); try (intros l; discriminate).
  destruct (arg args 1); try (intros l; discriminate);
    destruct (arg args 2); intros l; discriminate.
Qed.

(** The engine without registered functions calls the built-in ones only. *)
Lemma builtin_functions_pure (config : FormulaEngineConfig) :
  cfg_functions config = [] -> functions_pure (engine_evaluator config).
Proof.
  intros Hnil name fn args context. unfold engine_evaluator. simpl. rewrite Hnil. simpl.
  unfold createBuiltInFunctions. simpl. unfold map_get. simpl.
  repeat (match goal with
          | |- context [String.eqb name ?s] => destruct (String.eqb name s)
          end; [intros H; injection H as <-;
                first [apply SUM_ok | apply COUNT_ok | apply LOOKUP_ok | intros l; discriminate]|]).
  discriminate.
Qed.
End BuiltInFunctions.

Section BodyVisits.
Context {P : DecimalLib}.
Variable ev : Evaluator.

(** The body of an iteration: each evaluation of it is at least one visit. *)
Variable f : EvaluationContext -> M value.
Hypothesis f_visits : forall ctx st, recursionDepth st < recursionDepth (snd (f ctx st)).

Lemma checked_iteration_depth (st st1 : EvalState) :
  checkIterationLimit ev st = (Return tt, st1) -> recursionDepth st1 = recursionDepth st.
Proof.
  unfold checkIterationLimit. simpl. destruct (Nat.ltb _ _); [discriminate|].
  intros H. now injection H as <-.
Qed.

Lemma map_loop_visits (context : EvaluationContext) (items : list value) :
  forall acc st l st',
    map_loop ev f context items acc st = (Return l, st') ->
    recursionDepth st + List.length items <= recursionDepth st'.
Proof.
  induction items as [|item rest IH]; intros acc st l st' H; simpl in H.
  - injection H as _ <-. simpl. lia.
  - unfold bindM in H.
    destruct (checkIterationLimit ev st) as [[[] | e |] st1] eqn:E1; try discriminate.
    apply checked_iteration_depth in E1.
    pose proof (f_visits (itemContext context item) st1) as Hv.
    destruct (f (itemContext context item) st1) as [[v | e |] st2]; try discriminate.
    simpl in Hv. apply IH in H. simpl. lia.
Qed.

Lemma filter_loop_visits (context : EvaluationContext) (items : list value) :
  forall acc st l st',
    filter_loop ev f context items acc st = (Return l, st') ->
    recursionDepth st + List.length items <= recursionDepth st'.
Proof.
  induction items as [|item rest IH]; intros acc st l st' H; simpl in H.
  - injection H as _ <-. simpl. lia.
  - unfold bindM in H.
    destruct (checkIterationLimit ev st) as [[[] | e |] st1] eqn:E1; try discriminate.
    apply checked_iteration_depth in E1.
    pose proof (f_visits (itemContext context item) st1) as Hv.
    destruct (f (itemContext context item) st1) as [[v | e |] st2]; try discriminate.
    simpl in Hv. apply IH in H. simpl. lia.
Qed.

Lemma sum_loop_visits (context : EvaluationContext) (items : list value) :
  forall sum st s st',
    sum_loop ev f context items sum st = (Return s, st') ->
    recursionDepth st + List.length items <= recursionDepth st'.
Proof.
  induction items as [|item rest IH]; intros sum st s st' H; simpl in H.
  - injection H as _ <-. simpl. lia.
  - unfold bindM in H.
    destruct (checkIterationLimit ev st) as [[[] | e |] st1] eqn:E1; try discriminate.
    apply checked_iteration_depth in E1.
    pose proof (f_visits (itemContext context item) st1) as Hv.
    destruct (f (itemContext context item) st1) as [[v | e |] st2]; try discriminate.
    simpl in Hv. destruct (isNumeric v).
    + unfold lift in H. destruct (toDecimal v) as [d | e |]; try discriminate.
      apply IH in H. simpl. lia.
    + apply IH in H. simpl. lia.
Qed.
End BodyVisits.

(** C10. Within one evaluation every node dispatch adds one to the
    recursion counter and nothing lowers it; [evaluate] starts from a
    counter reset to zero; the recursion error is raised exactly when the
    number of node visits passes the limit (100 by default).  The visits
    add up: a MAP, a FILTER or a SUM over an expression that returns has
    raised the counter by at least one for each item of its array, its
    body being visited again for every item; and a flat array literal of
    [n] literals fails exactly when [n + 1] exceeds the limit. *)
Theorem recursion_counter {P : DecimalLib} (ev : Evaluator) :
  functions_pure ev ->
  (forall node context st,
     recursionDepth st < recursionDepth (snd (evaluateNode ev node context st)) /\
     (recursionDepth st <= recursion_limit ev ->
      (fst (evaluateNode ev node context st) = Throw (MaxRecursionError (recursion_limit ev))
       <-> recursion_limit ev < recursionDepth (snd (evaluateNode ev node context st))) /\
      (forall l, fst (evaluateNode ev node context st) = Throw (MaxRecursionError l) ->
                 l = recursion_limit ev))) /\
  (forall expression context st,
     evaluate ev expression context st
     = evaluate ev expression context (mkState 0 0 [] (nextRef st))) /\
  (forall expression ast context st res,
     parse expression = Return ast ->
     fst (evaluate ev expression context st) = Some res ->
     (error res = Some (MaxRecursionError (recursion_limit ev))
      <-> recursion_limit ev < recursionDepth (snd (evaluate ev expression context st)))) /\
  (forall evalArray expression context st r items st1 v st',
     evalArray st = (Return (VArray r items), st1) ->
     (evaluateMap ev evalArray (evaluateNode ev expression) context st = (Return v, st') ->
      recursionDepth st1 + List.length items <= recursionDepth st') /\
     (evaluateFilter ev evalArray (evaluateNode ev expression) context st = (Return v, st') ->
      recursionDepth st1 + List.length items <= recursionDepth st') /\
     (evaluateSumWithExpression ev evalArray (evaluateNode ev expression) context st
      = (Return v, st') ->
      recursionDepth st1 + List.length items <= recursionDepth st')) /\
  (forall elements context st,
     Forall (is_literal (P := P)) elements -> recursionDepth st = 0 ->
     (fst (evaluateNode ev (ArrayLiteral elements) context st)
      = Throw (MaxRecursionError (recursion_limit ev))
      <-> recursion_limit ev < S (List.length elements))) /\
  (maxRecursionDepth (securityConfig ev) = None -> recursion_limit ev = 100).
Proof.
  intros Hpure.
  assert (Hnode : forall node context st,
     recursionDepth st < recursionDepth (snd (evaluateNode ev node context st)) /\
     (recursionDepth st <= recursion_limit ev ->
      (fst (evaluateNode ev node context st) = Throw (MaxRecursionError (recursion_limit ev))
       <-> recursion_limit ev < recursionDepth (snd (evaluateNode ev node context st))) /\
      (forall l, fst (evaluateNode ev node context st) = Throw (MaxRecursionError l) ->
                 l = recursion_limit ev))).
  { intros node context st.
    destruct (counted_evaluateNode ev Hpure node context) as [Hc Hs].
    split; [apply Hs|]. intros Hle.
    destruct (Hc st) as [_ Hcases]. specialize (Hcases Hle).
    destruct Hcases as [[Hf Hd] | [Hn Hd]].
    - split.
      + split; [intros _; lia | intros _; exact Hf].
      + intros l Hl. rewrite Hf in Hl. now injection Hl as <-.
    - split.
      + split; [intros Hf; now elim (Hn _ Hf) | lia].
      + intros l Hl. now elim (Hn _ Hl). }
  assert (Hvisit : forall expression ctx st,
             recursionDepth st < recursionDepth (snd (evaluateNode ev expression ctx st)))
    by (intros expression ctx st; apply (Hnode expression ctx st)).
  split; [exact Hnode|].
  split; [reflexivity|].
  split; [|split].
  - intros expression ast context st res Hparse Hres.
    unfold evaluate in *. rewrite Hparse in *.
    destruct (Hnode ast context (mkState 0 0 [] (nextRef st))) as [_ Hiff].
    simpl in Hiff. specialize (Hiff (Nat.le_0_l _)). destruct Hiff as [Hiff _].
    destruct (evaluateNode ev ast context (mkState 0 0 [] (nextRef st))) as [[v | e |] st1];
      simpl in *; try discriminate; injection Hres as <-; simpl.
    + split; [discriminate | intros H; apply Hiff in H; discriminate].
    + split.
      * intros H. injection H as ->. now apply Hiff.
      * intros H. apply Hiff in H. now injection H as ->.
  - intros evalArray expression context st r items st1 v st' Harr. split; [|split].
    + unfold evaluateMap, bindM. rewrite Harr.
      destruct (map_loop ev (evaluateNode ev expression) context items [] st1)
        as [[l | e |] st2] eqn:E; try discriminate.
      unfold new_array. intros H. injection H as _ <-. simpl.
      exact (map_loop_visits ev _ (Hvisit expression) context items _ _ _ _ E).
    + unfold evaluateFilter, bindM. rewrite Harr.
      destruct (filter_loop ev (evaluateNode ev expression) context items [] st1)
        as [[l | e |] st2] eqn:E; try discriminate.
      unfold new_array. intros H. injection H as _ <-. simpl.
      exact (filter_loop_visits ev _ (Hvisit expression) context items _ _ _ _ E).
    + unfold evaluateSumWithExpression, bindM. rewrite Harr.
      destruct (sum_loop ev (evaluateNode ev expression) context items du_zero st1)
        as [[s | e |] st2] eqn:E; try discriminate.
      unfold ret. intros H. injection H as _ <-.
      exact (sum_loop_visits ev _ (Hvisit expression) context items _ _ _ _ E).
  - split.
    + intros elements context st Hall H0. now apply evaluateNode_flat.
    + intros Hnone. unfold recursion_limit. now rewrite Hnone.
Qed.

(** The array literal [[1, 1, ..., 1]] with [n] elements. *)
Definition flat_expression (n : nat) : string :=
  ("[" ++ String.concat ", " (repeat "1" n) ++ "]")%string.

(** The evaluator of [new FormulaEngine()] over the default decimal
    arithmetic, and a context without variables. *)
Definition default_evaluator : Evaluator (P := DefaultDecimal) :=
  engine_evaluator default_config.

Definition no_variables : EvaluationContext (P := DefaultDecimal) := mkContext [] None None.

Lemma recursion_counter_witness :
  fst (evaluate default_evaluator (flat_expression 100) no_variables (mkState 0 0 [] 0))
    = Some (mkResult VNull false (Some (MaxRecursionError 100)) []) /\
  (error (mkResult (P := DefaultDecimal) VNull false (Some (MaxRecursionError 100)) [])
     = Some (MaxRecursionError (recursion_limit default_evaluator))
   <-> recursion_limit default_evaluator
       < recursionDepth (snd (evaluate default_evaluator (flat_expression 100) no_variables
                                       (mkState 0 0 [] 0)))).
Proof.
  split; [reflexivity|].
  destruct (recursion_counter default_evaluator (builtin_functions_pure default_config eq_refl))
    as (_ & _ & Htop & _ & _ & _).
  apply (Htop (flat_expression 100) (ArrayLiteral (repeat (DecimalLiteral "1" "1") 100))
              no_variables (mkState 0 0 [] 0)); reflexivity.
Defined.

(** With 99 elements the visits stay within the default limit. *)
Example flat_expression_99 :
  option_map success
    (fst (evaluate default_evaluator (flat_expression 99) no_variables (mkState 0 0 [] 0)))
  = Some true /\
  recursionDepth (snd (evaluate default_evaluator (flat_expression 99) no_variables
                                (mkState 0 0 [] 0))) = 100.
Proof. split; vm_compute; reflexivity. Qed.
(* ================================================================== *)
(** * Object literals                                                  *)
(* ================================================================== *)

Section ObjectLiterals.
Context {P : DecimalLib}.

(** The lexer stops at an opening brace, whatever follows it. *)
Lemma tokenize_brace (rest : string) :
  tokenize (String "{" rest) = Throw (SyntaxError "Unexpected character '{'" 0 1 1).
Proof. reflexivity. Qed.
End ObjectLiterals.

(** C5. An expression that starts with an opening brace, such as
    [{ a: 1, b: 2 }] or [{}], is not parsed into a syntax tree: the parser
    raises the syntax error [Unexpected character '{'] at position 0. *)
Theorem object_literal_rejected {P : DecimalLib} :
  (forall rest : string,
     parse (String "{" rest) = Throw (SyntaxError "Unexpected character '{'" 0 1 1)) /\
  parse "{ a: 1, b: 2 }" = Throw (SyntaxError "Unexpected character '{'" 0 1 1) /\
  parse "{}" = Throw (SyntaxError "Unexpected character '{'" 0 1 1).
Proof.
  assert (H : forall rest : string,
             parse (String "{" rest) = Throw (SyntaxError "Unexpected character '{'" 0 1 1)).
  { intros rest. unfold parse. rewrite tokenize_brace. reflexivity. }
  split; [exact H|]. split; apply H.
Qed.
(* ================================================================== *)
(** * LOOKUP without a matching row                                    *)
(* ================================================================== *)

Section Lookup.
Context {P : DecimalLib}.

(** No row of the table that the loop inspects satisfies the criteria. *)
Definition no_row_matches (rows : list value) (criteriaObj : props) : bool :=
  forallb (fun row => match row_object row with
                      | Some rowObj => negb (row_matches criteriaObj rowObj)
                      | None => true
                      end) rows.

(** No row of the table is a Decimal instance. *)
Definition no_Decimal_row (rows : list value) : bool :=
  forallb (fun row => match row with VDecimal _ => false | _ => true end) rows.

(** The criteria ask for no inherited member to be [undefined]: a row
    that lacks the property would pass in the eyes of [field], while
    [rowObj[key]] finds the inherited member. *)
Definition criteria_own (criteriaObj : props) : Prop :=
  Forall (fun kv => snd kv = VUndefined -> ~ In (fst kv) Object_prototype_members)
         criteriaObj.

Lemma lookup_rows_skip (before rest : list value) (criteriaObj : props) (f : string) :
  no_row_matches before criteriaObj = true ->
  lookup_rows (before ++ rest) criteriaObj f = lookup_rows rest criteriaObj f.
Proof.
  induction before as [|row before IH]; simpl; [reflexivity|].
  intros H. apply andb_prop in H. destruct H as [Hrow Hrest].
  destruct (row_object row) as [rowObj|]; [|now apply IH].
  apply negb_true_iff in Hrow. rewrite Hrow. now apply IH.
Qed.

Lemma lookup_rows_no_match (rows : list value) (criteriaObj : props) (f : string) :
  no_row_matches rows criteriaObj = true ->
  lookup_rows rows criteriaObj f = VNumber (n_of_nat 0).
Proof.
  intros H. rewrite <- (app_nil_r rows). now rewrite lookup_rows_skip.
Qed.

(** C6 (amended). LOOKUP does not raise when nothing is found, and what
    it returns is the native number 0, not a Decimal: for a table that
    is [null] or [undefined]; for an array table without Decimal
    instances as rows, an object of criteria and a string [returnField]
    when no row matches; and when the first matching row is a plain
    object that has no property [returnField], [returnField] being no
    member that every object inherits from [Object.prototype] (nor any
    criterion asking for such a member to be [undefined]). *)
Theorem LOOKUP_nothing_found (t c : nat) (rows : list value) (criteriaObj : props)
        (returnField : string) (context : EvaluationContext) :
  no_Decimal_row rows = true ->
  no_row_matches rows criteriaObj = true ->
  implementation LOOKUP [VArray t rows; VObject c criteriaObj; VString returnField] context
    = Return (VNumber (n_of_nat 0)) /\
  (forall criteria field,
      implementation LOOKUP [VNull; criteria; field] context = Return (VNumber (n_of_nat 0)) /\
      implementation LOOKUP [VUndefined; criteria; field] context
        = Return (VNumber (n_of_nat 0))) /\
  (forall r rowObj rest,
      criteria_own criteriaObj ->
      row_matches criteriaObj rowObj = true ->
      prop_get rowObj returnField = None ->
      ~ In returnField Object_prototype_members ->
      implementation LOOKUP [VArray t (rows ++ VObject r rowObj :: rest); VObject c criteriaObj;
                             VString returnField] context
        = Return (VNumber (n_of_nat 0))).
Proof.
  intros _ Hnone. split; [|split].
  - simpl. now rewrite lookup_rows_no_match.
  - intros criteria field. split; reflexivity.
  - intros r rowObj rest _ Hmatch Hfield _. simpl.
    rewrite lookup_rows_skip by assumption. simpl.
    rewrite Hmatch. unfold field. now rewrite Hfield.
Qed.
End Lookup.

(** The claim as the specification states it: the answer is a Decimal zero. *)
Definition returns_Decimal_zero {P : DecimalLib} (r : result_of value) : Prop :=
  exists d, r = Return (VDecimal d) /\ d_isZero d = true.

(** The Decimal [m * 10^e] as a value. *)
Definition Dec (m e : Z) : value (P := DefaultDecimal) :=
  VDecimal (P := DefaultDecimal) (Scaled.Fin m e).

(** The pricing table of the specification's example. *)
Definition pricing_table : list (value (P := DefaultDecimal)) :=
  [VObject 1 [("region", VString "EU"); ("category", VString "food");
              ("rate", Dec 1 (-1))];
   VObject 2 [("region", VString "US"); ("category", VString "food");
              ("rate", Dec 5 (-2))]].

Definition criteria_JP : props (P := DefaultDecimal) :=
  [("region", VString "JP"); ("category", VString "food")].

Definition criteria_EU : props (P := DefaultDecimal) :=
  [("region", VString "EU"); ("category", VString "food")].

(** With region JP no row matches, and the answer is not a Decimal. *)
Lemma LOOKUP_answer_not_Decimal :
  ~ returns_Decimal_zero
      (implementation LOOKUP [VArray 0 pricing_table; VObject 3 criteria_JP; VString "rate"]
                      no_variables).
Proof.
  intros [d [H _]].
  assert (E : implementation LOOKUP [VArray 0 pricing_table; VObject 3 criteria_JP;
                                     VString "rate"] no_variables
              = Return (VNumber (n_of_nat 0))) by reflexivity.
  rewrite E in H. discriminate H.
Qed.

Lemma LOOKUP_nothing_found_witness :
  implementation LOOKUP [VArray 0 pricing_table; VObject 3 criteria_JP; VString "rate"]
                 no_variables
    = Return (VNumber (n_of_nat 0)) /\
  implementation LOOKUP [VNull; VObject 3 criteria_JP; VString "rate"] no_variables
    = Return (VNumber (n_of_nat 0)) /\
  implementation LOOKUP [VArray 0 (pricing_table ++ [VObject 4 [("region", VString "JP");
                                                               ("category", VString "food")]]);
                         VObject 3 criteria_JP; VString "rate"] no_variables
    = Return (VNumber (n_of_nat 0)).
Proof.
  destruct (LOOKUP_nothing_found (P := DefaultDecimal) 0 3 pricing_table criteria_JP "rate"
                            no_variables eq_refl eq_refl) as (Hnone & Hnull & Hfield).
  split; [exact Hnone|]. split; [apply Hnull|].
  apply (Hfield 4 [("region", VString "JP"); ("category", VString "food")] []).
  - repeat constructor; discriminate.
  - reflexivity.
  - reflexivity.
  - unfold Object_prototype_members. simpl. intuition discriminate.
Defined.

(** The matching call of the example returns the row's Decimal. *)
Example LOOKUP_match :
  implementation LOOKUP [VArray 0 pricing_table; VObject 3 criteria_EU; VString "rate"]
                 no_variables
  = Return (Dec 1 (-1)).
Proof. reflexivity. Qed.
(* ================================================================== *)
(** * Batch evaluation                                                 *)
(* ================================================================== *)

(** A formula with an id and an expression only. *)
Definition formula (i e : string) : FormulaDefinition (P := DefaultDecimal) :=
  mkFormula i e None None None None.

(** The same with a rounding of its own. *)
Definition rounded_formula (i e : string) (rc : RoundingConfig)
  : FormulaDefinition (P := DefaultDecimal) :=
  mkFormula i e None None None (Some rc).

Definition HALF_UP_2 : RoundingConfig := mkRounding R_HALF_UP 2.

(** [new FormulaEngine({ defaultRounding: { mode: 'HALF_UP', precision: 2 } })] *)
Definition rounding_config : FormulaEngineConfig (P := DefaultDecimal) :=
  mkConfig None (Some HALF_UP_2) [] None None.

(** [new FormulaEngine({ decimal: { autoConvertFloats: false } })] *)
Definition no_conversion_config : FormulaEngineConfig (P := DefaultDecimal) :=
  mkConfig None None [] (Some (mkDecimalConfig None None (Some false))) None.

(** A caller whose [variables] object, at reference 0, is empty. *)
Definition caller_context : ContextRef (P := DefaultDecimal) := mkContextRef 0 None None.
Definition caller_world : World (P := DefaultDecimal) := mkWorld [(0, [])] (mkState 0 0 [] 1).

(** A successful result. *)
Definition ok (v : value (P := DefaultDecimal)) (accessed : list string)
  : EvaluationResult (P := DefaultDecimal) :=
  mkResult v true None accessed.

(** C4. With [defaultRounding = {HALF_UP, 2}] in the engine's
    configuration, [evaluateAll] on [a = 19.125], [b = $a * 2] stores the
    unrounded 19.125 for [a] and 38.25 for [b]: the configured default is
    not applied.  Only a rounding given on the formulas themselves yields
    19.13 and 38.26. *)
Theorem evaluateAll_default_rounding_not_applied :
  fst (evaluateAll rounding_config [formula "a" "19.125"; formula "b" "$a * 2"]
                   caller_context caller_world)
  = Return (mkResultSet [("a", ok (Dec 19125 (-3)) []); ("b", ok (Dec 3825 (-2)) ["a"])]
                        true [] ["a"; "b"]) /\
  fst (evaluateAll default_config
                   [rounded_formula "a" "19.125" HALF_UP_2;
                    rounded_formula "b" "$a * 2" HALF_UP_2]
                   caller_context caller_world)
  = Return (mkResultSet [("a", ok (Dec 1913 (-2)) []); ("b", ok (Dec 3826 (-2)) ["a"])]
                        true [] ["a"; "b"]).
Proof. split; reflexivity. Qed.

(** C7. [evaluateAll] on two definitions with the same id reports no
    error: the later definition replaces the earlier one and the batch
    succeeds, while [validate] on the same list reports
    [DuplicateFormulaError]. *)
Theorem evaluateAll_duplicate_not_rejected :
  fst (evaluateAll default_config [formula "x" "1"; formula "x" "2"]
                   caller_context caller_world)
  = Return (mkResultSet [("x", ok (Dec 2 0) [])] true [] ["x"]) /\
  option_map (@v_errors DefaultDecimal)
    (match validate default_config [formula "x" "1"; formula "x" "2"] with
     | Return v => Some v
     | _ => None
     end)
  = Some [DuplicateFormulaError "x"].
Proof. split; reflexivity. Qed.

Section Frame.
Context {P : DecimalLib}.
Variable config : FormulaEngineConfig.

(** Without conversion the engine evaluates in the caller's own context. *)
Lemma normalizeContext_shares (context : ContextRef) (w : World) :
  autoConvert config = false -> normalizeContext config context w = (context, w).
Proof. intros H. unfold normalizeContext. now rewrite H. Qed.

Lemma heap_get_set_other (h : Heap) (l l' : nat) (o : props) :
  l <> l' -> heap_get (heap_set h l' o) l = heap_get h l.
Proof.
  intros Hne. induction h as [|[k o'] r IH]; simpl.
  - destruct (Nat.eqb l l') eqn:E; [apply Nat.eqb_eq in E; contradiction | reflexivity].
  - destruct (Nat.eqb l' k) eqn:E'; simpl.
    + apply Nat.eqb_eq in E'. subst k.
      destruct (Nat.eqb l l') eqn:E; [apply Nat.eqb_eq in E; contradiction | reflexivity].
    + destruct (Nat.eqb l k); [reflexivity | exact IH].
Qed.

(** A single [evaluate] writes to no object of the heap it was given: it
    reads the caller's objects and, when it converts, fills a new one. *)
Lemma engine_evaluate_frame (expression : string) (context : ContextRef) (w : World)
      (l : nat) :
  autoConvert config = false \/ l <> variables_ref (fst (normalizeContext config context w)) ->
  heap_get (heap (snd (engine_evaluate config expression context w))) l
  = heap_get (heap w) l.
Proof.
  intros H. unfold engine_evaluate.
  destruct (checkExpressionLength config expression); try reflexivity.
  destruct (normalizeContext config context w) as [nc w1] eqn:En.
  destruct (evaluate _ _ _ _) as [r st]. simpl.
  unfold normalizeContext in En.
  destruct (autoConvert config); simpl in En.
  - destruct H as [H | H]; [discriminate|].
    destruct (convert_entries _ _) as [nv next].
    injection En as <- <-. simpl in *. now apply heap_get_set_other.
  - injection En as <- <-. reflexivity.
Qed.
End Frame.

(** C9. With [autoConvertFloats] disabled, [evaluateAll] stores the value
    of formula [a] in the caller's own [variables] object, which was empty
    before the call; with the default configuration the caller's object is
    left as it was. *)
Theorem evaluateAll_writes_caller_variables :
  heap_get (heap caller_world) (variables_ref caller_context) = [] /\
  heap_get (heap (snd (evaluateAll no_conversion_config [formula "a" "1 + 1"]
                                   caller_context caller_world)))
           (variables_ref caller_context)
  = [("a", Dec 2 0)] /\
  heap_get (heap (snd (evaluateAll default_config [formula "a" "1 + 1"]
                                   caller_context caller_world)))
           (variables_ref caller_context)
  = [].
Proof. split; [|split]; reflexivity. Qed.
(* ================================================================== *)
(** * The other operations of the dependency graph                     *)
(* ================================================================== *)

Lemma kahn_run_result (g : DependencyGraph) :
  graph_wf g -> exists st, kahn_run g = Some st /\ kahn_inv g st /\ queue st = [].
Proof.
  intros Hwf. destruct (kahn_run_terminates g) as [st [Hrun Hq]].
  exists st. split; [assumption|]. now apply kahn_run_inv.
Qed.

(** Whether the loop placed every node decides whether the graph is acyclic. *)
Lemma kahn_placed_all_iff (g : DependencyGraph) (st : KahnState) :
  graph_wf g -> kahn_inv g st -> queue st = [] ->
  (List.length (result st) = List.length (nodes g) <-> acyclic g).
Proof.
  intros Hwf Inv Hq. split.
  - intros Hlen. apply (kahn_all_placed_acyclic g st Hwf Inv).
    apply NoDup_same_length_incl;
      [apply (ki_res_nodup _ _ Inv) | apply (ki_res_nodes _ _ Inv) | assumption].
  - intros Hac. pose proof (kahn_acyclic_all_placed g st Hwf Inv Hq Hac) as Hall.
    apply Nat.le_antisymm.
    + apply NoDup_incl_length; [apply (ki_res_nodup _ _ Inv) | apply (ki_res_nodes _ _ Inv)].
    + apply NoDup_incl_length; [apply (wf_nodes_nodup Hwf) | assumption].
Qed.

Lemma hasCycles_false_acyclic (g : DependencyGraph) :
  graph_wf g -> hasCycles g = false -> acyclic g.
Proof.
  intros Hwf. destruct (kahn_run_result g Hwf) as [st [Hrun [Inv Hq]]].
  unfold hasCycles, topologicalSort. rewrite Hrun.
  destruct (Nat.eqb (List.length (result st)) (List.length (nodes g))) eqn:E; simpl.
  - intros _. apply Nat.eqb_eq in E. now apply (kahn_placed_all_iff g st Hwf Inv Hq).
  - destruct (findCycle_spec g Hwf) as [c [Hc Hspec]]. rewrite Hc. discriminate.
Qed.

(** X1. On a well-formed graph [hasCycles] answers [true] exactly when
    some node reaches itself along the edges, and [false] exactly when no
    node does. *)
Theorem hasCycles_iff (g : DependencyGraph) :
  graph_wf g ->
  (hasCycles g = true <-> has_cycle g) /\ (hasCycles g = false <-> acyclic g).
Proof.
  intros Hwf. destruct (kahn_run_result g Hwf) as [st [Hrun [Inv Hq]]].
  pose proof (kahn_placed_all_iff g st Hwf Inv Hq) as Hiff.
  assert (Hexcl : has_cycle g -> acyclic g -> False).
  { intros [a Ha] Hac. exact (Hac a Ha). }
  unfold hasCycles, topologicalSort. rewrite Hrun.
  destruct (Nat.eqb (List.length (result st)) (List.length (nodes g))) eqn:E; simpl.
  - apply Nat.eqb_eq in E. apply Hiff in E.
    split; [split; [discriminate | intros Hc; elim (Hexcl Hc E)] | split; auto].
  - apply Nat.eqb_neq in E.
    destruct (findCycle_spec g Hwf) as [c [Hc Hspec]]. rewrite Hc.
    destruct Hspec as [Hv | [_ Hac]]; [|now elim E; apply Hiff].
    pose proof (valid_cycle_has_cycle g c Hv) as Hcyc.
    split; [split; auto | split; [discriminate | intros Hac; elim (Hexcl Hcyc Hac)]].
Qed.

Lemma hasCycles_iff_witness :
  (hasCycles graph_loop = true <-> has_cycle graph_loop) /\
  (hasCycles graph_loop = false <-> acyclic graph_loop).
Proof. apply (hasCycles_iff graph_loop). exact graph_loop_wf. Defined.

(** ** addNode and addEdge *)

Lemma getDependencies_addNode (g : DependencyGraph) (id x : string) :
  getDependencies (addNode g id) x = getDependencies g x.
Proof.
  unfold getDependencies, addNode, map_has. simpl.
  destruct (map_get (edges g) id) eqn:E; [reflexivity|].
  rewrite map_get_set. destruct (String.eqb id x) eqn:Ex; [|reflexivity].
  apply String.eqb_eq in Ex. subst x. now rewrite E.
Qed.

Lemma addNode_has_entry (g : DependencyGraph) (id : string) :
  exists s, map_get (edges (addNode g id)) id = Some s.
Proof.
  unfold addNode, map_has. simpl. destruct (map_get (edges g) id) as [s|] eqn:E.
  - exists s. assumption.
  - exists []. apply map_get_set_same.
Qed.

Lemma addNode_keeps_entry (g : DependencyGraph) (id x : string) (s : StrSet) :
  map_get (edges g) x = Some s -> map_get (edges (addNode g id)) x = Some s.
Proof.
  intros H. unfold addNode, map_has. simpl.
  destruct (map_get (edges g) id) eqn:E; [assumption|].
  rewrite map_get_set. destruct (String.eqb id x) eqn:Ex; [|assumption].
  apply String.eqb_eq in Ex. subst x. congruence.
Qed.

(** X2. [addEdge g a b] adds the two end points to the nodes and the one
    edge from [a] to [b] to the edges, changes nothing else, and keeps the
    graph well formed; adding the same edge again changes nothing. *)
Theorem addEdge_spec (g : DependencyGraph) (a b : string) :
  (forall n, In n (nodes (addEdge g a b)) <-> In n (nodes g) \/ n = a \/ n = b) /\
  (forall x y, edge (addEdge g a b) x y <-> edge g x y \/ (x = a /\ y = b)) /\
  (graph_wf g -> graph_wf (addEdge g a b)) /\
  (graph_wf g -> addEdge (addEdge g a b) a b = addEdge g a b).
Proof.
  assert (Hnodes : forall g n, In n (nodes (addEdge g a b)) <-> In n (nodes g) \/ n = a \/ n = b).
  { intros g0 n. unfold addEdge.
    destruct (addNode_has_entry g0 a) as [s Hs].
    rewrite (addNode_keeps_entry _ b _ _ Hs). simpl.
    rewrite !set_add_In. tauto. }
  assert (Hedges : forall g x y, edge (addEdge g a b) x y <-> edge g x y \/ (x = a /\ y = b)).
  { intros g0 x y. unfold edge, addEdge.
    destruct (addNode_has_entry g0 a) as [s Hs].
    pose proof (addNode_keeps_entry _ b _ _ Hs) as Hs2. rewrite Hs2.
    unfold getDependencies at 1. cbn [edges].
    rewrite map_get_set. destruct (String.eqb a x) eqn:Ex.
    - apply String.eqb_eq in Ex. subst x. rewrite set_add_In.
      assert (Hd : getDependencies g0 a = s).
      { rewrite <- (getDependencies_addNode g0 a a). unfold getDependencies. now rewrite Hs. }
      rewrite Hd. intuition.
    - apply String.eqb_neq in Ex.
      change (match map_get (edges (addNode (addNode g0 a) b)) x with
              | Some s0 => s0 | None => [] end)
        with (getDependencies (addNode (addNode g0 a) b) x).
      rewrite !getDependencies_addNode. intuition congruence. }
  split; [apply Hnodes|]. split; [apply Hedges|]. split; [apply graph_wf_addEdge|].
  intros Hwf. pose proof (graph_wf_addEdge g a b Hwf) as Hwf1.
  set (g1 := addEdge g a b) in *.
  assert (Ha : In a (nodes g1)) by (apply Hnodes; auto).
  assert (Hb : In b (nodes g1)) by (apply Hnodes; auto).
  assert (Hid : forall (h : DependencyGraph) x, graph_wf h -> In x (nodes h) -> addNode h x = h).
  { intros h x Hh Hx. unfold addNode.
    assert (Hhas : map_has (edges h) x = true).
    { apply map_has_In. now rewrite (wf_keys Hh). }
    rewrite Hhas. unfold set_add.
    assert (Hs : set_has (nodes h) x = true) by now apply set_has_In.
    rewrite Hs. now destruct h. }
  unfold addEdge. rewrite (Hid g1 a Hwf1 Ha), (Hid g1 b Hwf1 Hb).
  assert (Hab : edge g1 a b) by (apply Hedges; auto).
  unfold edge, getDependencies in Hab.
  destruct (map_get (edges g1) a) as [s|] eqn:Es; [|reflexivity].
  assert (Hsb : set_has s b = true) by now apply set_has_In.
  unfold set_add. rewrite Hsb.
  assert (Hsame : map_set (edges g1) a s = edges g1).
  { clear - Es. induction (edges g1) as [|[k v] r IH]; simpl in *; [discriminate|].
    destruct (String.eqb a k) eqn:E.
    - injection Es as ->. reflexivity.
    - now rewrite IH. }
  rewrite Hsame. now destruct g1.
Qed.

Lemma addEdge_spec_witness :
  graph_wf (addEdge emptyGraph "a" "b") /\
  addEdge (addEdge emptyGraph "a" "b") "a" "b" = addEdge emptyGraph "a" "b".
Proof.
  destruct (addEdge_spec emptyGraph "a" "b") as (_ & _ & Hwf & Hidem).
  split; [apply Hwf | apply Hidem]; exact graph_wf_empty.
Defined.

(** ** getDependents *)

Lemma getDependents_fold (es : StrMap StrSet) (b : string) : forall acc,
  NoDup acc ->
  let out := fold_left (fun acc '(node, deps) =>
                          if set_has deps b then set_add acc node else acc) es acc in
  NoDup out /\
  forall a, In a out <-> In a acc \/ exists deps, In (a, deps) es /\ In b deps.
Proof.
  induction es as [|[k s] es IH]; intros acc Hnd; simpl.
  - split; [assumption|]. intros a. split; [auto | intros [H | [d [[] _]]]; assumption].
  - destruct (set_has s b) eqn:E.
    + destruct (IH (set_add acc k) (set_add_NoDup _ _ Hnd)) as [Hn Hin].
      split; [exact Hn|]. intros a. rewrite Hin, set_add_In.
      apply set_has_In in E. split.
      * intros [[H | ->] | [d [Hd Hb]]]; eauto.
      * intros [H | [d [[Heq | Hd] Hb]]]; eauto.
        injection Heq as -> ->. auto.
    + destruct (IH acc Hnd) as [Hn Hin].
      split; [exact Hn|]. intros a. rewrite Hin.
      apply set_has_notIn in E. split.
      * intros [H | [d [Hd Hb]]]; eauto.
      * intros [H | [d [[Heq | Hd] Hb]]]; eauto.
        injection Heq as -> ->. contradiction.
Qed.

(** X3. On a well-formed graph [getDependents g b] holds, without
    repetition, exactly the nodes that have [b] among their dependencies:
    it inverts [getDependencies]. *)
Theorem getDependents_spec (g : DependencyGraph) (b : string) :
  graph_wf g ->
  NoDup (getDependents g b) /\
  forall a, In a (getDependents g b) <-> In b (getDependencies g a).
Proof.
  intros Hwf. destruct (getDependents_fold (edges g) b [] (NoDup_nil _)) as [Hn Hin].
  split; [exact Hn|]. intros a. unfold getDependents. rewrite Hin.
  assert (Hk : NoDup (map fst (edges g))).
  { rewrite (wf_keys Hwf). apply (wf_nodes_nodup Hwf). }
  unfold getDependencies. split.
  - intros [[] | [deps [Hd Hb]]]. now rewrite (map_get_In _ _ _ _ Hk Hd).
  - intros H. right. destruct (map_get (edges g) a) as [s|] eqn:E; [|contradiction].
    exists s. split; [now apply map_get_Some_In | assumption].
Qed.

Lemma getDependents_spec_witness :
  NoDup (getDependents graph_abc "c") /\
  forall a, In a (getDependents graph_abc "c") <-> In "c" (getDependencies graph_abc a).
Proof. apply (getDependents_spec graph_abc "c"). exact graph_abc_wf. Defined.

(** ** getRoots *)

Lemma getRoots_fold (g : DependencyGraph) (ns : list string) : forall acc,
  let out := fold_left (fun roots node =>
                          let deps := match map_get (edges g) node with
                                      | Some s => s | None => [] end in
                          if Nat.eqb (List.length deps) 0 then set_add roots node else roots)
                       ns acc in
  forall n, In n out <-> In n acc \/ (In n ns /\ getDependencies g n = []).
Proof.
  induction ns as [|k ns IH]; intros acc; simpl.
  - intros n. tauto.
  - intros n.
    change (match map_get (edges g) k with Some s => s | None => [] end)
      with (getDependencies g k).
    destruct (getDependencies g k) as [|d ds] eqn:E; simpl.
    + rewrite (IH (set_add acc k) n), set_add_In.
      split; [intros [[H | ->] | [H1 H2]] | intros [H | [[<- | H1] H2]]]; tauto.
    + rewrite (IH acc n).
      split; [intros [H | [H1 H2]]; tauto | intros [H | [[<- | H1] H2]]; try tauto].
      rewrite E in H2. discriminate.
Qed.

(** X4. [getRoots] returns exactly the nodes without dependencies, and a
    well-formed acyclic graph that has a node has a root. *)
Theorem getRoots_spec (g : DependencyGraph) :
  graph_wf g ->
  (forall n, In n (getRoots g) <-> In n (nodes g) /\ getDependencies g n = []) /\
  (acyclic g -> nodes g <> [] -> getRoots g <> []).
Proof.
  intros Hwf.
  assert (Hin : forall n, In n (getRoots g) <-> In n (nodes g) /\ getDependencies g n = []).
  { intros n. unfold getRoots. rewrite (getRoots_fold g (nodes g) [] n). simpl. tauto. }
  split; [exact Hin|]. intros Hac Hne Hroots.
  destruct (nodes g) as [|n0 ns] eqn:En; [now elim Hne|].
  assert (Hc : has_cycle g).
  { apply (stuck_cycle g (fun x => In x (nodes g)) n0).
    - auto.
    - intros n Hn. destruct (getDependencies g n) as [|d ds] eqn:Ed.
      + assert (Hr : In n (getRoots g)) by (apply Hin; split; [now rewrite <- En | exact Ed]).
        rewrite Hroots in Hr. destruct Hr.
      + exists d. assert (He : edge g n d) by (unfold edge; rewrite Ed; now left).
        split; [exact He | eapply edge_target; eauto].
    - rewrite En. now left. }
  destruct Hc as [a Ha]. exact (Hac a Ha).
Qed.

Lemma getRoots_spec_witness :
  (forall n, In n (getRoots graph_abc) <-> In n (nodes graph_abc) /\
                                           getDependencies graph_abc n = []) /\
  getRoots graph_abc = ["c"].
Proof.
  split; [apply (getRoots_spec graph_abc); exact graph_abc_wf | reflexivity].
Defined.
(* ================================================================== *)
(** * getTransitiveDependencies                                        *)
(* ================================================================== *)

Section Transitive.
Variable g : DependencyGraph.

(** The keys of [edges] that the search has not entered yet. *)
Definition unvisited_keys (st : CollectState) : nat :=
  List.length (filter (fun k => negb (set_has (c_visited st) k)) (map fst (edges g))).

Lemma filter_le_filter {A} (p q : A -> bool) (l : list A) :
  (forall x, p x = true -> q x = true) ->
  List.length (filter p l) <= List.length (filter q l).
Proof.
  intros H. induction l as [|x l IH]; simpl; [lia|].
  destruct (p x) eqn:Ep.
  - rewrite (H x Ep). simpl. lia.
  - destruct (q x); simpl; lia.
Qed.

Lemma filter_lt_filter {A} (p q : A -> bool) (l : list A) (x : A) :
  (forall y, p y = true -> q y = true) -> In x l -> p x = false -> q x = true ->
  List.length (filter p l) < List.length (filter q l).
Proof.
  intros H. induction l as [|y l IH]; simpl; [contradiction|].
  intros [-> | Hin] Hp Hq.
  - rewrite Hp, Hq. simpl. pose proof (filter_le_filter p q l H). lia.
  - specialize (IH Hin Hp Hq). destruct (p y) eqn:Ep.
    + rewrite (H y Ep). simpl. lia.
    + destruct (q y); simpl; lia.
Qed.

Lemma unvisited_keys_mono (st st' : CollectState) :
  incl (c_visited st) (c_visited st') -> unvisited_keys st' <= unvisited_keys st.
Proof.
  intros Hincl. apply filter_le_filter. intros k Hk.
  apply negb_true_iff in Hk. apply negb_true_iff.
  apply set_has_notIn. apply set_has_notIn in Hk. auto.
Qed.

Lemma unvisited_keys_enter (st : CollectState) (n : string) (deps : StrSet) :
  map_get (edges g) n = Some deps -> set_has (c_visited st) n = false ->
  unvisited_keys (mkCollect (set_add (c_visited st) n) (c_result st)) < unvisited_keys st.
Proof.
  intros Hget Hfresh. apply filter_lt_filter with (x := n).
  - intros k Hk. simpl in Hk. apply negb_true_iff in Hk. apply negb_true_iff.
    apply set_has_notIn. apply set_has_notIn in Hk. intros Hin. apply Hk.
    apply set_add_In. now left.
  - apply map_get_Some_In in Hget. apply in_map_iff. now exists (n, deps).
  - simpl. apply negb_false_iff. apply set_has_In. apply set_add_In. now right.
  - now rewrite Hfresh.
Qed.

(** What a call from [n] (or the loop over dependencies of [n]) adds:
    the sets only grow, every node it enters is reached from [n] and has
    all its dependencies collected and entered, and every collected node
    is reached from [n] by at least one edge. *)
Record collected (n : string) (st st' : CollectState) : Prop := mk_collected {
  co_visited : incl (c_visited st) (c_visited st');
  co_result : incl (c_result st) (c_result st');
  co_nodup : NoDup (c_result st) -> NoDup (c_result st');
  co_closed : forall v, In v (c_visited st') -> ~ In v (c_visited st) ->
              (v = n \/ reach g n v) /\
              forall d, edge g v d -> In d (c_result st') /\ In d (c_visited st');
  co_sound : forall r, In r (c_result st') -> In r (c_result st) \/ reach g n r
}.

Lemma collected_refl (n : string) (st : CollectState) : collected n st st.
Proof.
  split; auto using incl_refl. intros v Hv Hn. contradiction.
Qed.

(** The loop over the dependencies [deps] of a node [v] already entered. *)
Lemma collect_deps_spec (fuel : nat) (v : string) :
  (forall n st, unvisited_keys st < fuel ->
     exists st', collectTransitiveDependencies g fuel n st = Some st' /\
                 collected n st st' /\ In n (c_visited st')) ->
  forall deps st,
    unvisited_keys st < fuel ->
    (forall d, In d deps -> edge g v d) ->
    exists st', collect_deps (collectTransitiveDependencies g fuel) deps st = Some st' /\
      incl (c_visited st) (c_visited st') /\
      incl (c_result st) (c_result st') /\
      (NoDup (c_result st) -> NoDup (c_result st')) /\
      (forall d, In d deps -> In d (c_result st') /\ In d (c_visited st')) /\
      (forall u, In u (c_visited st') -> ~ In u (c_visited st) ->
         reach g v u /\
         forall d, edge g u d -> In d (c_result st') /\ In d (c_visited st')) /\
      (forall r, In r (c_result st') -> In r (c_result st) \/ reach g v r).
Proof.
  intros Hrec. induction deps as [|dep rest IH]; intros st Hfuel Hedges; simpl.
  - exists st. repeat split; auto using incl_refl; try contradiction.
  - set (st1 := mkCollect (c_visited st) (set_add (c_result st) dep)).
    assert (Hf1 : unvisited_keys st1 < fuel) by exact Hfuel.
    destruct (Hrec dep st1 Hf1) as [st2 [Hcall [Hco Hdep]]]. rewrite Hcall.
    assert (Hf2 : unvisited_keys st2 < fuel).
    { eapply Nat.le_lt_trans; [|exact Hfuel].
      apply unvisited_keys_mono. exact (co_visited _ _ _ Hco). }
    destruct (IH st2 Hf2 (fun d Hd => Hedges d (or_intror Hd)))
      as [st' [Hloop [Hv [Hr [Hnd [Hall [Hclosed Hsound]]]]]]].
    assert (Hvd : edge g v dep) by (apply Hedges; now left).
    exists st'. split; [exact Hloop|].
    split; [exact (incl_tran (co_visited _ _ _ Hco) Hv)|].
    assert (Hr01 : incl (c_result st) (c_result st1)).
    { intros x Hx. simpl. apply set_add_In. now left. }
    split; [exact (incl_tran Hr01 (incl_tran (co_result _ _ _ Hco) Hr))|].
    split.
    { intros H0. apply Hnd. apply (co_nodup _ _ _ Hco). simpl. now apply set_add_NoDup. }
    split.
    { intros d [<- | Hd]; [|now apply Hall].
      split.
      - apply Hr. apply (co_result _ _ _ Hco). simpl. apply set_add_In. now right.
      - apply Hv. exact Hdep. }
    split.
    { intros u Hu Hnu.
      destruct (in_dec string_dec u (c_visited st2)) as [Hin2 | Hout2].
      - destruct (co_closed _ _ _ Hco u Hin2 Hnu) as [Hru Hcl]. split.
        + destruct Hru as [-> | Hru]; [now apply reach_edge | eapply reach_step; eauto].
        + intros d Hd. destruct (Hcl d Hd) as [H1 H2]. split; auto.
      - exact (Hclosed u Hu Hout2). }
    intros r Hr'. destruct (Hsound r Hr') as [Hin2 | Hreach]; [|now right].
    destruct (co_sound _ _ _ Hco r Hin2) as [Hin1 | Hreach].
    + simpl in Hin1. apply set_add_In in Hin1. destruct Hin1 as [Hin0 | ->]; [now left|].
      right. now apply reach_edge.
    + right. eapply reach_step; eauto.
Qed.

Lemma collectTransitiveDependencies_spec (fuel : nat) : forall n st,
  unvisited_keys st < fuel ->
  exists st', collectTransitiveDependencies g fuel n st = Some st' /\
              collected n st st' /\ In n (c_visited st').
Proof.
  induction fuel as [|fuel IH]; intros n st Hfuel; [lia|]. simpl.
  destruct (set_has (c_visited st) n) eqn:Hvis.
  - exists st. split; [reflexivity|]. split; [apply collected_refl | now apply set_has_In].
  - set (st1 := mkCollect (set_add (c_visited st) n) (c_result st)).
    assert (Hn1 : In n (c_visited st1)) by (simpl; apply set_add_In; now right).
    assert (Hv01 : incl (c_visited st) (c_visited st1)).
    { intros x Hx. simpl. apply set_add_In. now left. }
    destruct (map_get (edges g) n) as [deps|] eqn:Hget.
    + assert (Hf1 : unvisited_keys st1 < fuel).
      { pose proof (unvisited_keys_enter st n deps Hget Hvis). unfold st1. lia. }
      assert (Hdeps : forall d, In d deps -> edge g n d).
      { intros d Hd. unfold edge, getDependencies. now rewrite Hget. }
      destruct (collect_deps_spec fuel n IH deps st1 Hf1 Hdeps)
        as [st' [Hloop [Hv [Hr [Hnd [Hall [Hclosed Hsound]]]]]]].
      exists st'. split; [exact Hloop|]. split; [|now apply Hv].
      split.
      * exact (incl_tran Hv01 Hv).
      * exact Hr.
      * exact Hnd.
      * intros v Hv' Hnv.
        destruct (string_dec v n) as [-> | Hne].
        -- split; [now left|]. intros d Hd. apply Hall.
           unfold edge, getDependencies in Hd. now rewrite Hget in Hd.
        -- assert (Hnv1 : ~ In v (c_visited st1)).
           { simpl. rewrite set_add_In. intros [H | H]; auto. }
           destruct (Hclosed v Hv' Hnv1) as [Hreach Hcl]. split; [now right | exact Hcl].
      * exact Hsound.
    + exists st1. split; [reflexivity|]. split; [|exact Hn1].
      split; auto using incl_refl.
      * intros v Hv' Hnv. simpl in Hv'. apply set_add_In in Hv'.
        destruct Hv' as [Hv' | ->]; [contradiction|].
        split; [now left|]. intros d Hd. unfold edge, getDependencies in Hd.
        rewrite Hget in Hd. destruct Hd.
Qed.
End Transitive.

Lemma set_delete_In (s : StrSet) (x y : string) : In y (set_delete s x) <-> In y s /\ y <> x.
Proof.
  unfold set_delete. rewrite filter_In, negb_true_iff, String.eqb_neq.
  split; intros [H1 H2]; split; auto.
Qed.

(** X5. [getTransitiveDependencies] terminates on every graph, cyclic or
    not, and returns without repetition exactly the nodes other than
    [nodeId] that [nodeId] reaches along one or more edges. *)
Theorem getTransitiveDependencies_spec (g : DependencyGraph) (nodeId : string) :
  exists s, getTransitiveDependencies g nodeId = Some s /\
            NoDup s /\
            forall m, In m s <-> reach g nodeId m /\ m <> nodeId.
Proof.
  unfold getTransitiveDependencies.
  assert (Hfuel : unvisited_keys g (mkCollect [] []) < S (S (List.length (edges g)))).
  { unfold unvisited_keys.
    pose proof (List.filter_length_le (fun k => negb (set_has (c_visited (mkCollect [] [])) k))
                                      (map fst (edges g))) as Hle.
    rewrite length_map in Hle. lia. }
  destruct (collectTransitiveDependencies_spec g _ nodeId _ Hfuel) as [st [Hrun [Hco Hin]]].
  rewrite Hrun. eexists. split; [reflexivity|].
  split.
  - unfold set_delete. apply NoDup_filter. apply (co_nodup _ _ _ _ Hco). constructor.
  - intros m. rewrite set_delete_In.
    assert (Hclosed : forall a c, reach g a c -> In a (c_visited st) -> In c (c_result st)).
    { intros a c Hr. induction Hr as [a b He | a b c He Hr IH]; intros Ha.
      - destruct (co_closed _ _ _ _ Hco a Ha (fun H => H)) as [_ Hcl]. now apply Hcl.
      - destruct (co_closed _ _ _ _ Hco a Ha (fun H => H)) as [_ Hcl].
        apply IH. now apply Hcl. }
    split; intros [H1 H2]; split; auto.
    + destruct (co_sound _ _ _ _ Hco m H1) as [[] | Hr]. exact Hr.
    + now apply (Hclosed nodeId m).
Qed.

(** On the cyclic graph [a -> b -> c -> a] (plus the isolated [d]) the
    search from [a] stops and leaves [a] itself out. *)
Example getTransitiveDependencies_loop :
  getTransitiveDependencies graph_loop "a" = Some ["b"; "c"].
Proof. reflexivity. Qed.
(* ================================================================== *)
(** * DependencyGraphBuilder                                           *)
(* ================================================================== *)

Lemma fold_set_add_In (l : list string) : forall (acc : StrSet) (x : string),
  In x (fold_left set_add l acc) <-> In x acc \/ In x l.
Proof.
  induction l as [|y l IH]; intros acc x; simpl; [tauto|].
  rewrite IH, set_add_In. intuition.
Qed.

Lemma fold_set_add_NoDup (l : list string) : forall acc : StrSet,
  NoDup acc -> NoDup (fold_left set_add l acc).
Proof.
  induction l as [|y l IH]; intros acc H; simpl; [assumption|].
  apply IH. now apply set_add_NoDup.
Qed.

Lemma set_of_list_In (l : list string) (x : string) : In x (set_of_list l) <-> In x l.
Proof. unfold set_of_list. rewrite fold_set_add_In. simpl. tauto. Qed.

Lemma set_of_list_NoDup (l : list string) : NoDup (set_of_list l).
Proof. apply fold_set_add_NoDup. constructor. Qed.

Lemma addEdge_nodes_present (g : DependencyGraph) (a b : string) :
  In a (nodes g) -> In b (nodes g) -> nodes (addEdge g a b) = nodes g.
Proof.
  intros Ha Hb. unfold addEdge.
  destruct (addNode_has_entry g a) as [s Hs].
  rewrite (addNode_keeps_entry _ b _ _ Hs). simpl.
  unfold set_add.
  assert (H1 : set_has (nodes g) a = true) by now apply set_has_In.
  rewrite H1.
  assert (H2 : set_has (nodes g) b = true) by now apply set_has_In.
  now rewrite H2.
Qed.

Lemma addEdge_edge (g : DependencyGraph) (a b x y : string) :
  edge (addEdge g a b) x y <-> edge g x y \/ (x = a /\ y = b).
Proof.
  unfold edge, addEdge.
  destruct (addNode_has_entry g a) as [s Hs].
  pose proof (addNode_keeps_entry _ b _ _ Hs) as Hs2. rewrite Hs2.
  unfold getDependencies at 1. cbn [edges].
  rewrite map_get_set. destruct (String.eqb a x) eqn:Ex.
  - apply String.eqb_eq in Ex. subst x. rewrite set_add_In.
    assert (Hd : getDependencies g a = s).
    { rewrite <- (getDependencies_addNode g a a). unfold getDependencies. now rewrite Hs. }
    rewrite Hd. intuition.
  - apply String.eqb_neq in Ex.
    change (match map_get (edges (addNode (addNode g a) b)) x with
            | Some s0 => s0 | None => [] end)
      with (getDependencies (addNode (addNode g a) b) x).
    rewrite !getDependencies_addNode. intuition congruence.
Qed.

Section Builder.
Context {P : DecimalLib}.

(** The dependencies [build] uses for a formula: the declared ones, or
    those extracted from the expression. *)
Definition formula_deps (f : FormulaDefinition) : result_of (list string) :=
  match dependencies f with
  | Some ds => Return (set_of_list ds)
  | None => extract (expression f)
  end.

(** The first loop of [build]. *)
Lemma build_nodes (formulas : list FormulaDefinition) : forall g : DependencyGraph,
  graph_wf g ->
  let g' := fold_left (fun g f => addNode g (id f)) formulas g in
  graph_wf g' /\
  nodes g' = fold_left set_add (map id formulas) (nodes g) /\
  forall a b, edge g' a b <-> edge g a b.
Proof.
  induction formulas as [|f formulas IH]; intros g Hwf; simpl.
  - split; [assumption|]. split; [reflexivity | tauto].
  - destruct (IH (addNode g (id f)) (graph_wf_addNode g (id f) Hwf)) as [H1 [H2 H3]].
    split; [exact H1|]. split; [exact H2|].
    intros a b. rewrite H3. unfold edge. now rewrite getDependencies_addNode.
Qed.

(** The loop over the dependencies of one formula. *)
Lemma add_formula_edges_spec (formulaIds : list string) (f : FormulaDefinition)
      (deps : list string) : forall g : DependencyGraph,
  graph_wf g -> In (id f) (nodes g) -> incl formulaIds (nodes g) ->
  let g' := add_formula_edges formulaIds f deps g in
  graph_wf g' /\ nodes g' = nodes g /\
  forall a b, edge g' a b <->
              edge g a b \/ (a = id f /\ In b deps /\ In b formulaIds).
Proof.
  unfold add_formula_edges.
  induction deps as [|dep deps IH]; intros g Hwf Hid Hids; simpl.
  - split; [assumption|]. split; [reflexivity|]. intros a b. tauto.
  - destruct (set_has formulaIds dep) eqn:E.
    + apply set_has_In in E.
      assert (Hn : nodes (addEdge g (id f) dep) = nodes g).
      { apply addEdge_nodes_present; auto. }
      destruct (IH (addEdge g (id f) dep)) as [H1 [H2 H3]].
      * now apply graph_wf_addEdge.
      * now rewrite Hn.
      * now rewrite Hn.
      * split; [exact H1|]. split; [congruence|].
        intros a b. rewrite H3, addEdge_edge. split.
        -- intros [[H | [-> ->]] | [-> [Hb Hf]]]; auto.
        -- intros [H | [-> [[<- | Hb] Hf]]]; auto.
    + apply set_has_notIn in E.
      destruct (IH g Hwf Hid Hids) as [H1 [H2 H3]].
      split; [exact H1|]. split; [exact H2|].
      intros a b. rewrite H3. split.
      * intros [H | [-> [Hb Hf]]]; auto.
      * intros [H | [-> [[<- | Hb] Hf]]]; auto. contradiction.
Qed.

(** The second loop of [build]. *)
Lemma build_edges_spec (formulaIds : list string) (formulas : list FormulaDefinition) :
  forall (g g' : DependencyGraph),
  graph_wf g -> incl (map id formulas) (nodes g) -> incl formulaIds (nodes g) ->
  build_edges formulaIds formulas g = Return g' ->
  graph_wf g' /\ nodes g' = nodes g /\
  forall a b, edge g' a b <->
              edge g a b \/
              exists f ds, In f formulas /\ id f = a /\ formula_deps f = Return ds /\
                           In b ds /\ In b formulaIds.
Proof.
  induction formulas as [|f formulas IH]; intros g g' Hwf Hfs Hids Hb; simpl in Hb.
  - injection Hb as <-. split; [assumption|]. split; [reflexivity|].
    intros a b. split; [auto | intros [H | [f [ds [[] _]]]]; assumption].
  - change (match dependencies f with
            | Some ds => Return (set_of_list ds)
            | None => extract (expression f)
            end) with (formula_deps f) in Hb.
    destruct (formula_deps f) as [deps | e |] eqn:Ed; simpl in Hb; try discriminate.
    destruct (add_formula_edges_spec formulaIds f deps g Hwf) as [H1 [H2 H3]].
    { apply Hfs. now left. }
    { exact Hids. }
    destruct (IH (add_formula_edges formulaIds f deps g) g' H1) as [K1 [K2 K3]].
    { rewrite H2. intros x Hx. apply Hfs. now right. }
    { now rewrite H2. }
    { exact Hb. }
    split; [exact K1|]. split; [congruence|].
    intros a b. rewrite K3, H3. split.
    + intros [[H | [-> [Hb1 Hb2]]] | [f' [ds [Hf' H']]]].
      * now left.
      * right. exists f, deps. repeat split; auto. now left.
      * right. exists f', ds. split; [now right | exact H'].
    + intros [H | [f' [ds [[<- | Hf'] [Hid [Hds [Hb1 Hb2]]]]]]].
      * auto.
      * rewrite Ed in Hds. injection Hds as <-. left. right. auto.
      * right. exists f', ds. auto.
Qed.

Lemma build_edges_total (formulaIds : list string) (formulas : list FormulaDefinition) :
  (forall f, In f formulas -> exists ds, formula_deps f = Return ds) ->
  forall g, exists g', build_edges formulaIds formulas g = Return g'.
Proof.
  induction formulas as [|f formulas IH]; intros Hall g; simpl.
  - now exists g.
  - change (match dependencies f with
            | Some ds => Return (set_of_list ds)
            | None => extract (expression f)
            end) with (formula_deps f).
    destruct (Hall f (or_introl eq_refl)) as [ds ->]. simpl.
    apply IH. intros f' Hf'. apply Hall. now right.
Qed.

Lemma build_graph (formulas : list FormulaDefinition) (g : DependencyGraph) :
  build formulas = Return g ->
  graph_wf g /\
  nodes g = set_of_list (map id formulas) /\
  forall a b, edge g a b <->
              exists f ds, In f formulas /\ id f = a /\ formula_deps f = Return ds /\
                           In b ds /\ In b (map id formulas).
Proof.
  intros Hb. unfold build in Hb.
  destruct (build_nodes formulas emptyGraph graph_wf_empty) as [H1 [H2 H3]].
  simpl in H2.
  set (g0 := fold_left (fun g f => addNode g (id f)) formulas emptyGraph) in *.
  assert (Hfs : incl (map id formulas) (nodes g0)).
  { rewrite H2. intros x Hx. apply fold_set_add_In. now right. }
  assert (Hids : incl (set_of_list (map id formulas)) (nodes g0)).
  { rewrite H2. intros x Hx. exact Hx. }
  destruct (build_edges_spec _ formulas g0 g H1 Hfs Hids Hb) as [K1 [K2 K3]].
  split; [exact K1|]. split; [now rewrite K2, H2|].
  intros a b. rewrite K3, H3. split.
  - intros [H | [f [ds [Hf [Hid [Hds [Hb1 Hb2]]]]]]]; [destruct H|].
    exists f, ds. repeat split; auto. now apply set_of_list_In.
  - intros [f [ds [Hf [Hid [Hds [Hb1 Hb2]]]]]]. right.
    exists f, ds. repeat split; auto. now apply set_of_list_In.
Qed.

(** X6. The graph that [build] returns is well formed; its nodes are the
    distinct formula ids in the order of their first occurrence; and it has
    an edge from [a] to [b] exactly when a formula with id [a] lists or
    mentions [b] and [b] is itself a formula id.  [build] succeeds whenever
    the dependencies of every formula can be determined. *)
Theorem build_spec (formulas : list FormulaDefinition) :
  (forall g, build formulas = Return g ->
     graph_wf g /\
     nodes g = set_of_list (map id formulas) /\
     forall a b, edge g a b <->
                 exists f ds, In f formulas /\ id f = a /\ formula_deps f = Return ds /\
                              In b ds /\ In b (map id formulas)) /\
  ((forall f, In f formulas -> exists ds, formula_deps f = Return ds) ->
   exists g, build formulas = Return g).
Proof.
  split; [apply build_graph|].
  intros Hall. unfold build. now apply build_edges_total.
Qed.

(** The order [topologicalSort] returns on an acyclic graph. *)
Lemma topologicalSort_order (g : DependencyGraph) :
  graph_wf g ->
  (acyclic g ->
   exists order, topologicalSort g = Return order /\ NoDup order /\
     (forall n, In n order <-> In n (nodes g)) /\
     (forall a b, edge g a b ->
        exists i j, index_of b order = Some i /\ index_of a order = Some j /\ i < j)) /\
  (has_cycle g -> exists c, topologicalSort g = Throw c).
Proof.
  intros Hwf. destruct (kahn_run_result g Hwf) as [st [Hrun [Inv Hq]]].
  pose proof (kahn_placed_all_iff g st Hwf Inv Hq) as Hiff.
  split.
  - intros Hac. pose proof (kahn_acyclic_all_placed g st Hwf Inv Hq Hac) as Hall.
    exists (result st). split; [|split; [|split]].
    + unfold topologicalSort. rewrite Hrun.
      apply Hiff in Hac. rewrite Hac, Nat.eqb_refl. reflexivity.
    + apply (ki_res_nodup _ _ Inv).
    + intros n. split; [apply (ki_res_nodes _ _ Inv) | apply Hall].
    + intros a b He. apply (kahn_order_index g st a b Inv); [|assumption].
      apply Hall. eapply edge_source; eauto.
  - intros [a Ha]. unfold topologicalSort. rewrite Hrun.
    destruct (Nat.eqb (List.length (result st)) (List.length (nodes g))) eqn:E; simpl.
    + apply Nat.eqb_eq in E. apply Hiff in E. elim (E a Ha).
    + destruct (findCycle_spec g Hwf) as [c [Hc _]]. rewrite Hc. eexists. reflexivity.
Qed.

(** X7. When the dependency graph of the formulas has no cycle,
    [getEvaluationOrder] returns every distinct formula id exactly once,
    each formula after the formulas it depends on; when it has a cycle,
    [getEvaluationOrder] raises [CircularDependencyError]. *)
Theorem getEvaluationOrder_spec (formulas : list FormulaDefinition) (g : DependencyGraph) :
  build formulas = Return g ->
  (acyclic g ->
   exists order, getEvaluationOrder formulas = Return order /\ NoDup order /\
     (forall n, In n order <-> In n (map id formulas)) /\
     (forall f ds b, In f formulas -> formula_deps f = Return ds -> In b ds ->
        In b (map id formulas) ->
        exists i j, index_of b order = Some i /\ index_of (id f) order = Some j /\ i < j)) /\
  (has_cycle g ->
   exists c involved, getEvaluationOrder formulas = Throw (CircularDependencyError c involved)).
Proof.
  intros Hb. destruct (build_graph formulas g Hb) as [Hwf [Hnodes Hedges]].
  destruct (topologicalSort_order g Hwf) as [Hac Hcyc].
  unfold getEvaluationOrder. rewrite Hb. simpl. split.
  - intros H. destruct (Hac H) as [order [Hsort [Hnd [Hin Hidx]]]].
    exists order. rewrite Hsort. split; [reflexivity|]. split; [exact Hnd|]. split.
    + intros n. rewrite Hin, Hnodes. apply set_of_list_In.
    + intros f ds b Hf Hds Hbd Hbid. apply Hidx. apply Hedges.
      exists f, ds. auto.
  - intros H. destruct (Hcyc H) as [c Hsort]. rewrite Hsort.
    exists (cycle c), (involvedFormulas c). reflexivity.
Qed.
End Builder.

(** Three formulas given out of order: [total] needs [tax] and [net],
    [tax] needs [net]. *)
Definition formulas_out_of_order : list (FormulaDefinition (P := DefaultDecimal)) :=
  [formula "total" "$net + $tax"; formula "tax" "$net * 0.2"; formula "net" "100"].

Definition graph_out_of_order : DependencyGraph :=
  mkGraph ["total"; "tax"; "net"] [("total", ["net"; "tax"]); ("tax", ["net"]); ("net", [])].

Lemma build_out_of_order : build formulas_out_of_order = Return graph_out_of_order.
Proof. reflexivity. Qed.

Lemma build_spec_witness :
  (exists g, build formulas_out_of_order = Return g) /\
  graph_wf graph_out_of_order.
Proof.
  destruct (build_spec formulas_out_of_order) as [Hspec Htotal]. split.
  - apply Htotal. intros f [<- | [<- | [<- | []]]].
    + exists ["net"; "tax"]. reflexivity.
    + exists ["net"]. reflexivity.
    + exists []. reflexivity.
  - apply (Hspec graph_out_of_order). reflexivity.
Defined.

Lemma getEvaluationOrder_spec_witness :
  exists order, getEvaluationOrder formulas_out_of_order = Return order /\ NoDup order /\
                forall n, In n order <-> In n (map id formulas_out_of_order).
Proof.
  destruct (getEvaluationOrder_spec _ _ build_out_of_order) as [Hac _].
  destruct (build_graph _ _ build_out_of_order) as [Hwf _].
  destruct (Hac (hasCycles_false_acyclic _ Hwf eq_refl)) as [order [Ho [Hnd [Hin _]]]].
  exists order. split; [exact Ho|]. split; [exact Hnd | exact Hin].
Defined.

(** The order found for the three formulas. *)
Example getEvaluationOrder_out_of_order :
  getEvaluationOrder formulas_out_of_order = Return ["net"; "tax"; "total"].
Proof. reflexivity. Qed.
(* ================================================================== *)
(** * The engine: validate, evaluateAll, evaluate                      *)
(* ================================================================== *)

(** Induction over values, with the hypothesis available for the elements
    of an array and the property values of an object. *)
Section ValueInduction.
Context {P : DecimalLib}.
Variable Q : value -> Prop.
Hypothesis H_decimal : forall d, Q (VDecimal d).
Hypothesis H_number : forall n, Q (VNumber n).
Hypothesis H_string : forall s, Q (VString s).
Hypothesis H_bool : forall b, Q (VBool b).
Hypothesis H_null : Q VNull.
Hypothesis H_undefined : Q VUndefined.
Hypothesis H_array : forall r l, Forall Q l -> Q (VArray r l).
Hypothesis H_object : forall r o, Forall (fun kv => Q (snd kv)) o -> Q (VObject r o).

Fixpoint value_induction (v : value) : Q v :=
  match v with
  | VDecimal d => H_decimal d
  | VNumber n => H_number n
  | VString s => H_string s
  | VBool b => H_bool b
  | VNull => H_null
  | VUndefined => H_undefined
  | VArray r l =>
      H_array r l
        ((fix all (l : list value) : Forall Q l :=
            match l with
            | [] => Forall_nil Q
            | x :: rest => Forall_cons x (value_induction x) (all rest)
            end) l)
  | VObject r o =>
      H_object r o
        ((fix all (o : list (string * value)) : Forall (fun kv => Q (snd kv)) o :=
            match o with
            | [] => Forall_nil _
            | kv :: rest => Forall_cons kv (value_induction (snd kv)) (all rest)
            end) o)
  end.
End ValueInduction.

Section EngineFacts.
Context {P : DecimalLib}.
Variable config : FormulaEngineConfig.

(** ** validate *)

Lemma duplicate_errors_nil (formulas : list FormulaDefinition) : forall ids : list string,
  duplicate_errors formulas ids = [] ->
  NoDup (map id formulas) /\ forall f, In f formulas -> ~ In (id f) ids.
Proof.
  induction formulas as [|f formulas IH]; intros ids H; simpl in *.
  - split; [constructor | intros f []].
  - apply app_eq_nil in H. destruct H as [Hf Hrest].
    destruct (set_has ids (id f)) eqn:E; [discriminate|].
    apply set_has_notIn in E.
    destruct (IH _ Hrest) as [Hnd Hfresh]. split.
    + constructor; [|exact Hnd]. intros Hin. apply in_map_iff in Hin.
      destruct Hin as [f' [Hid Hf']]. apply (Hfresh f' Hf').
      apply set_add_In. right. exact Hid.
    + intros f' [<- | Hf']; [exact E|]. intros Hin. apply (Hfresh f' Hf').
      apply set_add_In. now left.
Qed.

Lemma duplicate_errors_In (formulas : list FormulaDefinition) : forall (ids : list string) f,
  In f formulas -> In (id f) ids -> In (DuplicateFormulaError (id f)) (duplicate_errors formulas ids).
Proof.
  induction formulas as [|f0 formulas IH]; intros ids f Hf Hid; simpl; [destruct Hf|].
  apply in_or_app. destruct Hf as [-> | Hf].
  - left. assert (E : set_has ids (id f) = true) by now apply set_has_In.
    rewrite E. now left.
  - right. apply IH; [exact Hf|]. apply set_add_In. now left.
Qed.

Lemma duplicate_errors_twice (before after : list FormulaDefinition) (f1 f2 : FormulaDefinition) :
  forall (middle : list FormulaDefinition) (ids : list string),
  id f1 = id f2 ->
  In (DuplicateFormulaError (id f1))
     (duplicate_errors (before ++ f1 :: middle ++ f2 :: after) ids).
Proof.
  intros middle. induction before as [|f0 before IH]; intros ids Heq; simpl.
  - apply in_or_app. right. rewrite Heq.
    apply duplicate_errors_In.
    + apply in_or_app. right. now left.
    + apply set_add_In. right. now symmetry.
  - apply in_or_app. right. now apply IH.
Qed.

Lemma parse_errors_nil (formulas : list FormulaDefinition) :
  parse_errors config formulas = Return [] ->
  forall f, In f formulas ->
    checkExpressionLength config (expression f) = Return tt /\
    exists ast, parse (expression f) = Return ast.
Proof.
  induction formulas as [|f0 formulas IH]; intros H f Hf; simpl in *; [destruct Hf|].
  destruct (checkExpressionLength config (expression f0)) as [[] | e |] eqn:Elen;
    simpl in H; try discriminate.
  - destruct (parse (expression f0)) as [ast | e |] eqn:Ep; simpl in H; try discriminate.
    + destruct (parse_errors config formulas) as [there | e |]; simpl in H; try discriminate.
      injection H as ->. destruct Hf as [<- | Hf].
      * split; [exact Elen | now exists ast].
      * now apply IH.
    + destruct (parse_errors config formulas) as [there | e' |]; simpl in H; discriminate.
  - destruct (parse_errors config formulas) as [there | e' |]; simpl in H; discriminate.
Qed.

(** What an answer of [validate] tells. *)
Lemma validate_answer (formulas : list FormulaDefinition) (v : ValidationResult) :
  validate config formulas = Return v ->
  (valid v = true ->
     NoDup (map id formulas) /\
     (forall f, In f formulas ->
        checkExpressionLength config (expression f) = Return tt /\
        exists ast, parse (expression f) = Return ast) /\
     getEvaluationOrder formulas = Return (v_evaluationOrder v)) /\
  (forall before f1 middle f2 after,
     formulas = before ++ f1 :: middle ++ f2 :: after -> id f1 = id f2 ->
     valid v = false /\ In (DuplicateFormulaError (id f1)) (v_errors v)).
Proof.
  unfold validate. intros H.
  destruct (parse_errors config formulas) as [perrs | e |] eqn:Ep; simpl in H; try discriminate.
  assert (Hval : forall errs : list Error,
             (match errs with [] => true | _ => false end) = true -> errs = []).
  { intros [|x errs]; [reflexivity | discriminate]. }
  destruct (getEvaluationOrder formulas) as [order | e |] eqn:Eo; try discriminate;
    injection H as <-; simpl.
  - split.
    + intros Hv. apply Hval in Hv. apply app_eq_nil in Hv. destruct Hv as [Hd Hp]. subst perrs.
      split; [exact (proj1 (duplicate_errors_nil formulas [] Hd))|].
      split; [now apply parse_errors_nil | reflexivity].
    + intros before f1 middle f2 after -> Heq.
      pose proof (duplicate_errors_twice before after f1 f2 middle [] Heq) as Hin.
      split.
      * destruct (duplicate_errors _ [] ++ perrs) eqn:E; [|reflexivity].
        apply app_eq_nil in E. destruct E as [E _]. rewrite E in Hin. destruct Hin.
      * apply in_or_app. now left.
  - split.
    + intros Hv. apply Hval in Hv. apply app_eq_nil in Hv. destruct Hv as [_ Hv].
      apply app_eq_nil in Hv. destruct Hv as [_ Hv]. discriminate.
    + intros before f1 middle f2 after -> Heq.
      pose proof (duplicate_errors_twice before after f1 f2 middle [] Heq) as Hin.
      split.
      * destruct (duplicate_errors _ [] ++ perrs ++ [e]) eqn:E; [|reflexivity].
        apply app_eq_nil in E. destruct E as [E _]. rewrite E in Hin. destruct Hin.
      * apply in_or_app. now left.
Qed.

(** ** evaluateAll *)

(** The formula does not ask for its error to be thrown again. *)
Definition never_rethrows (f : FormulaDefinition) : Prop :=
  match onError f with
  | Some behavior => eb_type behavior <> EB_THROW
  | None => True
  end.

Lemma handleError_returns (f : FormulaDefinition) (err : Error) :
  never_rethrows f -> exists v, handleError f err = Return v.
Proof.
  unfold never_rethrows, handleError. destruct (onError f) as [b|]; [|eauto].
  destruct (eb_type b); eauto. intros H. now elim H.
Qed.

Lemma formulaMap_fold (formulas : list FormulaDefinition) :
  forall (m : StrMap FormulaDefinition) i f,
  map_get (fold_left (fun m f => map_set m (id f) f) formulas m) i = Some f ->
  In f formulas \/ map_get m i = Some f.
Proof.
  induction formulas as [|f0 formulas IH]; intros m i f H; simpl in H; [now right|].
  destruct (IH _ _ _ H) as [Hin | Hget]; [left; now right|].
  rewrite map_get_set in Hget. destruct (String.eqb (id f0) i).
  - injection Hget as <-. left. now left.
  - now right.
Qed.

Lemma formulaMap_In (formulas : list FormulaDefinition) i f :
  map_get (formulaMap formulas) i = Some f -> In f formulas.
Proof.
  intros H. destruct (formulaMap_fold formulas [] i f H) as [Hin | Hget];
    [assumption | discriminate].
Qed.

Lemma formulaMap_keys_fold (formulas : list FormulaDefinition) :
  forall (m : StrMap FormulaDefinition) i,
  In i (map fst (fold_left (fun m f => map_set m (id f) f) formulas m)) <->
  In i (map fst m) \/ In i (map id formulas).
Proof.
  induction formulas as [|f0 formulas IH]; intros m i; simpl; [tauto|].
  rewrite IH.
  assert (Hk : In i (map fst (map_set m (id f0) f0)) <-> In i (map fst m) \/ i = id f0).
  { destruct (in_dec string_dec (id f0) (map fst m)) as [Hin | Hout].
    - rewrite map_keys_set_present by assumption. split; [auto | intros [H | ->]; auto].
    - rewrite map_keys_set_absent by assumption. rewrite in_app_iff. simpl.
      split; [intros [H | [H | []]]; auto | intros [H | H]; auto]. }
  rewrite Hk. split; [intros [[H | H] | H] | intros [H | [H | H]]]; auto.
Qed.

Lemma formulaMap_has (formulas : list FormulaDefinition) i :
  In i (map id formulas) -> exists f, map_get (formulaMap formulas) i = Some f.
Proof.
  intros H. destruct (map_get (formulaMap formulas) i) as [f|] eqn:E; [now exists f|].
  apply map_get_None in E. elim E. apply formulaMap_keys_fold. now right.
Qed.

(** The order [topologicalSort] returns holds exactly the nodes. *)
Lemma topologicalSort_Return (g : DependencyGraph) (order : list string) :
  graph_wf g -> topologicalSort g = Return order ->
  NoDup order /\ forall n, In n order <-> In n (nodes g).
Proof.
  intros Hwf. destruct (kahn_run_result g Hwf) as [st [Hrun [Inv Hq]]].
  unfold topologicalSort. rewrite Hrun.
  destruct (Nat.eqb (List.length (result st)) (List.length (nodes g))) eqn:E; simpl.
  - intros H. injection H as <-. apply Nat.eqb_eq in E. split.
    + apply (ki_res_nodup _ _ Inv).
    + intros n. split; [apply (ki_res_nodes _ _ Inv)|].
      apply NoDup_same_length_incl;
        [apply (ki_res_nodup _ _ Inv) | apply (ki_res_nodes _ _ Inv) | assumption].
  - destruct (findCycle g); discriminate.
Qed.

Lemma getEvaluationOrder_Return (formulas : list FormulaDefinition) (order : list string) :
  getEvaluationOrder formulas = Return order ->
  NoDup order /\ forall n, In n order <-> In n (map id formulas).
Proof.
  unfold getEvaluationOrder. destruct (build formulas) as [g | e |] eqn:Hb; try discriminate.
  simpl. destruct (build_graph formulas g Hb) as [Hwf [Hnodes _]].
  destruct (topologicalSort g) as [o | c |] eqn:Hs; try discriminate.
  intros H. injection H as <-.
  destruct (topologicalSort_Return g o Hwf Hs) as [Hnd Hin].
  split; [exact Hnd|]. intros n. rewrite Hin, Hnodes. apply set_of_list_In.
Qed.

Lemma evaluate_formulas_keys fm workingContext order : forall acc w acc' w',
  NoDup order ->
  (forall i, In i order -> exists f, map_get fm i = Some f) ->
  (forall i, In i order -> ~ In i (map fst (fst acc))) ->
  evaluate_formulas config fm workingContext order acc w = (Return acc', w') ->
  map fst (fst acc') = map fst (fst acc) ++ order.
Proof.
  induction order as [|i order IH]; intros acc w acc' w' Hnd Hfm Hfresh H; simpl in H.
  - injection H as <- _. now rewrite app_nil_r.
  - inversion Hnd as [|? ? Hi Hnd']; subst.
    destruct (Hfm i (or_introl eq_refl)) as [f Hf].
    assert (Hkeys : forall r : EvaluationResult,
               map fst (map_set (fst acc) i r) = map fst (fst acc) ++ [i]).
    { intros r. apply map_keys_set_absent. apply Hfresh. now left. }
    unfold evaluate_formula in H. rewrite Hf in H.
    destruct (evaluate _ _ _ _) as [[res|] st]; [|discriminate].
    assert (Hnext : forall acc1 w1,
               map fst (fst acc1) = map fst (fst acc) ++ [i] ->
               evaluate_formulas config fm workingContext order acc1 w1 = (Return acc', w') ->
               map fst (fst acc') = map fst (fst acc) ++ i :: order).
    { intros acc1 w1 Hk H1.
      rewrite (IH acc1 w1 acc' w' Hnd'
                 (fun j Hj => Hfm j (or_intror Hj))) with (2 := H1).
      - rewrite Hk, <- app_assoc. reflexivity.
      - intros j Hj. rewrite Hk, in_app_iff. intros [Hin | [-> | []]].
        + apply (Hfresh j); [now right | exact Hin].
        + contradiction. }
    destruct (try_formula config f res) as [v | err |]; try discriminate.
    + eapply Hnext; [|exact H]. apply Hkeys.
    + destruct (match onError f with
                | Some _ => handleError f err
                | None => Return VNull
                end) as [v | e |]; try discriminate.
      eapply Hnext; [|exact H]. apply Hkeys.
Qed.

(** X8. A result set that [evaluateAll] returns has exactly one result
    per entry of its evaluation order, stored in that order; the order has
    no repetition and holds formula ids only; when the order could not be
    determined, both are empty and the call is a failure. *)
Theorem evaluateAll_results (formulas : list FormulaDefinition)
        (context : ContextRef) (w : World) (rs : EvaluationResultSet) :
  fst (evaluateAll config formulas context w) = Return rs ->
  map fst (results rs) = evaluationOrder rs /\
  NoDup (evaluationOrder rs) /\
  incl (evaluationOrder rs) (map id formulas) /\
  (rs_success rs = true <-> errors rs = []) /\
  (getEvaluationOrder formulas = Return (evaluationOrder rs) \/
   (exists e, getEvaluationOrder formulas = Throw e /\
              rs = mkResultSet [] false [e] [])).
Proof.
  unfold evaluateAll.
  destruct (getEvaluationOrder formulas) as [order | err |] eqn:Eo; try discriminate.
  - destruct (getEvaluationOrder_Return formulas order Eo) as [Hnd Hin].
    destruct (normalizeContext config context w) as [wc w1].
    destruct (evaluate_formulas config (formulaMap formulas) wc order ([], []) w1)
      as [[[res errs] | e' |] w2] eqn:Ee; simpl; try discriminate.
    intros H. injection H as <-. simpl.
    split.
    { apply (evaluate_formulas_keys _ _ _ _ _ _ _ Hnd) in Ee; [exact Ee | |].
      - intros i Hi. apply formulaMap_has. now apply Hin.
      - intros i _ []. }
    split; [exact Hnd|].
    split; [intros n Hn; now apply Hin|].
    split; [|now left].
    destruct errs; split; intros; try reflexivity; discriminate.
  - simpl. intros H. injection H as <-. simpl.
    split; [reflexivity|]. split; [constructor|]. split; [intros n []|].
    split; [split; discriminate|]. right. now exists err.
Qed.

(** ** The caller's objects *)

Lemma convertValue_mono (v : value) : forall next, next <= snd (convertValue v next).
Proof.
  induction v using value_induction; intros next; simpl; try lia.
  - destruct (negb (n_isNaN n) && n_isFinite n); simpl; lia.
  - match goal with |- context [?f l next] => is_fix f; set (conv := f) end.
    assert (Hl : forall n0, n0 <= snd (conv l n0)).
    { induction H as [|x l Hx Hl IH]; intros n0; simpl; [lia|].
      specialize (Hx n0). destruct (convertValue x n0) as [x' n1]. simpl in Hx.
      specialize (IH n1). destruct (conv l n1) as [r' n2]. simpl in *. lia. }
    specialize (Hl next). destruct (conv l next) as [l' next']. simpl in *. lia.
  - match goal with |- context [?f o next] => is_fix f; set (conv := f) end.
    assert (Hl : forall n0, n0 <= snd (conv o n0)).
    { induction H as [|[k x] o Hx Ho IH]; intros n0; simpl; [lia|].
      simpl in Hx. specialize (Hx n0). destruct (convertValue x n0) as [x' n1]. simpl in Hx.
      specialize (IH n1). destruct (conv o n1) as [r' n2]. simpl in *. lia. }
    specialize (Hl next). destruct (conv o next) as [o' next']. simpl in *. lia.
Qed.

Lemma convert_entries_mono (o : props) : forall next, next <= snd (convert_entries o next).
Proof.
  induction o as [|[k x] o IH]; intros next; simpl; [lia|].
  pose proof (convertValue_mono x next) as Hx.
  destruct (convertValue x next) as [x' n1]. simpl in Hx.
  specialize (IH n1). destruct (convert_entries o n1) as [r n2]. simpl in *. lia.
Qed.

(** With conversion the working context is a new object. *)
Lemma normalizeContext_fresh (context : ContextRef) (w : World) :
  autoConvert config = true ->
  nextRef (evalState w) <= variables_ref (fst (normalizeContext config context w)) /\
  forall l, l <> variables_ref (fst (normalizeContext config context w)) ->
            heap_get (heap (snd (normalizeContext config context w))) l = heap_get (heap w) l.
Proof.
  intros Ha. unfold normalizeContext. rewrite Ha. simpl.
  pose proof (convert_entries_mono (heap_get (heap w) (variables_ref context))
                                   (nextRef (evalState w))) as Hm.
  destruct (convert_entries _ _) as [nv next]. simpl in *.
  split; [exact Hm|]. intros l Hl. now apply heap_get_set_other.
Qed.

Lemma evaluate_formula_heap fm workingContext formulaId acc w l :
  l <> variables_ref workingContext ->
  heap_get (heap (snd (evaluate_formula config fm workingContext formulaId acc w))) l
  = heap_get (heap w) l.
Proof.
  intros Hl. unfold evaluate_formula.
  destruct (map_get fm formulaId) as [f|]; [|reflexivity].
  destruct (evaluate _ _ _ _) as [[res|] st]; [|reflexivity].
  destruct (try_formula config f res) as [v | err |]; simpl.
  - unfold write_variable. now apply heap_get_set_other.
  - destruct (match onError f with
              | Some _ => handleError f err
              | None => Return VNull
              end) as [v | e |]; simpl; try reflexivity.
    unfold write_variable. now apply heap_get_set_other.
  - reflexivity.
Qed.

Lemma evaluate_formulas_heap fm workingContext order l : forall acc w,
  l <> variables_ref workingContext ->
  heap_get (heap (snd (evaluate_formulas config fm workingContext order acc w))) l
  = heap_get (heap w) l.
Proof.
  induction order as [|i order IH]; intros acc w Hl; simpl; [reflexivity|].
  pose proof (evaluate_formula_heap fm workingContext i acc w l Hl) as Hstep.
  destruct (evaluate_formula config fm workingContext i acc w) as [[acc' | e |] w'];
    simpl in *; try exact Hstep.
  rewrite IH by assumption. exact Hstep.
Qed.

(** X9. A single [evaluate] changes no object that existed before the
    call, whatever the configuration: not the caller's [variables], not
    [extra], nor any value they refer to. *)
Theorem engine_evaluate_untouched (expression : string) (context : ContextRef) (w : World)
        (l : nat) :
  l < nextRef (evalState w) ->
  heap_get (heap (snd (engine_evaluate config expression context w))) l = heap_get (heap w) l.
Proof.
  intros Hl. apply engine_evaluate_frame.
  destruct (autoConvert config) eqn:Ha; [right | now left].
  destruct (normalizeContext_fresh context w Ha) as [Hfresh _]. lia.
Qed.

(** X10. With the conversion of numbers enabled (the default),
    [evaluateAll] changes no object that existed before the call: the
    values of the formulas are stored in a working copy of [variables]. *)
Theorem evaluateAll_untouched (formulas : list FormulaDefinition) (context : ContextRef)
        (w : World) (l : nat) :
  autoConvert config = true ->
  l < nextRef (evalState w) ->
  heap_get (heap (snd (evaluateAll config formulas context w))) l = heap_get (heap w) l.
Proof.
  intros Ha Hl. unfold evaluateAll.
  destruct (getEvaluationOrder formulas) as [order | err |]; try reflexivity.
  destruct (normalizeContext_fresh context w Ha) as [Hfresh Hframe].
  destruct (normalizeContext config context w) as [wc w1]. simpl in *.
  assert (Hne : l <> variables_ref wc) by lia.
  pose proof (evaluate_formulas_heap (formulaMap formulas) wc order l ([], []) w1 Hne) as He.
  destruct (evaluate_formulas config (formulaMap formulas) wc order ([], []) w1)
    as [[[res errs] | e' |] w2]; simpl in *; rewrite He; now apply Hframe.
Qed.

(** ** The length limit *)

(** [security.maxExpressionLength ?? 10000] *)
Definition expression_limit : nat :=
  match cfg_security config with
  | Some s => match maxExpressionLength s with Some n => n | None => 10000 end
  | None => 10000
  end.

End EngineFacts.

Lemma validate_out_of_order :
  validate (P := DefaultDecimal) default_config formulas_out_of_order
  = Return (mkValidation true [] ["net"; "tax"; "total"]).
Proof. reflexivity. Qed.

(** The values of the three formulas, in evaluation order. *)
Definition results_out_of_order : EvaluationResultSet (P := DefaultDecimal) :=
  mkResultSet [("net", ok (Dec 1 2) []); ("tax", ok (Dec 2 1) ["net"]);
               ("total", ok (Dec 12 1) ["net"; "tax"])]
              true [] ["net"; "tax"; "total"].

Lemma evaluateAll_out_of_order :
  fst (evaluateAll (P := DefaultDecimal) default_config formulas_out_of_order
                   caller_context caller_world)
  = Return results_out_of_order.
Proof. reflexivity. Qed.

Lemma evaluateAll_results_witness :
  map fst (results results_out_of_order) = evaluationOrder results_out_of_order /\
  NoDup (evaluationOrder results_out_of_order).
Proof.
  destruct (evaluateAll_results (P := DefaultDecimal) default_config formulas_out_of_order
                                caller_context caller_world results_out_of_order
                                evaluateAll_out_of_order) as [Hk [Hnd _]].
  split; [exact Hk | exact Hnd].
Defined.

Lemma engine_evaluate_untouched_witness :
  heap_get (heap (snd (engine_evaluate (P := DefaultDecimal) no_conversion_config "1 + 1"
                                       caller_context caller_world))) 0
  = heap_get (heap caller_world) 0.
Proof. apply engine_evaluate_untouched. simpl. lia. Defined.

Lemma evaluateAll_untouched_witness :
  heap_get (heap (snd (evaluateAll (P := DefaultDecimal) default_config formulas_out_of_order
                                   caller_context caller_world))) 0
  = heap_get (heap caller_world) 0.
Proof. apply evaluateAll_untouched; [reflexivity | simpl; lia]. Defined.
(* ================================================================== *)
(** * Operators, variables and access in the evaluator                 *)
(* ================================================================== *)

Section EvaluatorFacts.
Context {P : DecimalLib}.
Variable ev : Evaluator.

Lemma toDecimal_numeric (v : value) : isNumeric v = true -> exists d, toDecimal v = Return d.
Proof. destruct v; try discriminate; intros _; eexists; reflexivity. Qed.

(** X11. Dividing a number, or taking its remainder, by a number whose
    Decimal is zero raises [DivisionByZeroError]; the operator evaluates
    both operands first and leaves the state they produced.  With a
    divisor that is not zero this error never arises. *)
Theorem division_by_zero (lv rv : value) (d : Decimal) :
  isNumeric lv = true -> isNumeric rv = true -> toDecimal rv = Return d ->
  (d_isZero d = true ->
   forall (evalLeft evalRight : M value) st st1 st2,
     evalLeft st = (Return lv, st1) -> evalRight st1 = (Return rv, st2) ->
     evaluateBinaryOperation ev "/" evalLeft evalRight st = (Throw DivisionByZeroError, st2) /\
     evaluateBinaryOperation ev "%" evalLeft evalRight st = (Throw DivisionByZeroError, st2)) /\
  (d_isZero d = false ->
   divide ev lv rv <> Throw DivisionByZeroError /\ modulo lv rv <> Throw DivisionByZeroError).
Proof.
  intros Hl Hr Hd. split.
  - intros Hz evalLeft evalRight st st1 st2 H1 H2.
    unfold evaluateBinaryOperation, bindM, lift. simpl. rewrite H1, H2.
    unfold divide, modulo. rewrite Hl, Hr, Hd. simpl. rewrite Hz. split; reflexivity.
  - intros Hz. destruct (toDecimal_numeric lv Hl) as [a Ha].
    unfold divide, modulo, du_divide, du_modulo, du_toDecimalPlaces.
    rewrite Hl, Hr, Hd, Ha. simpl. rewrite Hz. simpl.
    split; [destruct (d_toDecimalPlaces _ _ _) |]; discriminate.
Qed.

(** The state in which the operands of a node are evaluated: the visit
    of the node itself has been counted. *)
Definition entered (st : EvalState) : EvalState :=
  mkState (S (recursionDepth st)) (iterationCount st) (accessedVariables st) (nextRef st).

Lemma evaluateNode_enter (st : EvalState) (body : M value) :
  recursionDepth st < recursion_limit ev ->
  bindM (checkRecursionLimit ev) (fun _ => body) st = body (entered st).
Proof.
  intros H. unfold bindM, checkRecursionLimit. cbn [recursionDepth].
  assert (E : Nat.ltb (recursion_limit ev) (S (recursionDepth st)) = false)
    by (apply Nat.ltb_ge; lia).
  rewrite E. reflexivity.
Qed.

(** X12. The logical operators and the conditional evaluate what they
    need only: when the left operand of [&&] is falsy, or that of [||] is
    truthy, the result and the final state are those of the left operand,
    whatever the right operand is; a conditional evaluates its condition
    and then the chosen branch alone. *)
Theorem operators_evaluate_lazily (l : ASTNode) (context : EvaluationContext)
        (st st1 : EvalState) (lv : value) :
  recursionDepth st < recursion_limit ev ->
  evaluateNode ev l context (entered st) = (Return lv, st1) ->
  (toBool lv = false ->
   forall r, evaluateNode ev (BinaryOperation "&&" l r) context st = (Return (VBool false), st1)) /\
  (toBool lv = true ->
   forall r, evaluateNode ev (BinaryOperation "||" l r) context st = (Return (VBool true), st1)) /\
  (forall a b,
     evaluateNode ev (ConditionalExpression l a b) context st
     = if toBool lv then evaluateNode ev a context st1 else evaluateNode ev b context st1).
Proof.
  intros Hdepth Hl. split; [|split].
  - intros Hb r. rewrite evaluateNode_unfold, evaluateNode_enter by assumption.
    unfold evaluateBinaryOperation, bindM. simpl. rewrite Hl, Hb. reflexivity.
  - intros Hb r. rewrite evaluateNode_unfold, evaluateNode_enter by assumption.
    unfold evaluateBinaryOperation, bindM. simpl. rewrite Hl, Hb. reflexivity.
  - intros a b. rewrite evaluateNode_unfold, evaluateNode_enter by assumption.
    unfold evaluateConditional, bindM. rewrite Hl. destruct (toBool lv); reflexivity.
Qed.

(** The state after the variable [name] has been looked up from [st]. *)
Definition looked_up (name : string) (st : EvalState) : EvalState :=
  mkState (S (recursionDepth st)) (iterationCount st)
          (set_add (accessedVariables st) name) (nextRef st).

(** X13. Looking up [$name] records the name as accessed and returns the
    variable's value, a finite number as a Decimal.  When the context has
    no such variable (and the name is neither [it] nor a member inherited
    from [Object.prototype]) the lookup fails with [UndefinedVariableError]
    in strict mode and gives [null] otherwise; a property or an index of
    [null] likewise fails in strict mode only. *)
Theorem missing_values (name : string) (context : EvaluationContext) (st : EvalState) :
  recursionDepth st < recursion_limit ev ->
  (forall v, prop_get (variables context) name = Some v ->
     evaluateNode ev (VariableReference Dollar name) context st
     = (Return (maybeConvertToDecimal v), looked_up name st)) /\
  (prop_get (variables context) name = None -> name <> "it" ->
   ~ In name Object_prototype_members ->
     evaluateNode ev (VariableReference Dollar name) context st
     = (if strictMode ev then Throw (UndefinedVariableError name "") else Return VNull,
        looked_up name st)) /\
  (forall object property st1,
     evaluateNode ev object context (entered st) = (Return VNull, st1) ->
     evaluateNode ev (MemberAccess object property) context st
     = (if strictMode ev then Throw (PropertyAccessError property "null") else Return VNull,
        st1)) /\
  (forall object index st1 st2 i,
     evaluateNode ev object context (entered st) = (Return VNull, st1) ->
     evaluateNode ev index context st1 = (Return i, st2) ->
     evaluateNode ev (IndexAccess object index) context st
     = (if strictMode ev then Throw (IndexAccessError i "null") else Return VNull, st2)).
Proof.
  intros Hdepth. split; [|split; [|split]].
  - intros v Hv. rewrite evaluateNode_unfold, evaluateNode_enter by assumption.
    unfold evaluateVariable, bindM, access_variable. simpl. rewrite Hv. reflexivity.
  - intros Hv Hit _. rewrite evaluateNode_unfold, evaluateNode_enter by assumption.
    unfold evaluateVariable, bindM, access_variable. simpl. rewrite Hv.
    apply String.eqb_neq in Hit. rewrite Hit.
    destruct (strictMode ev); reflexivity.
  - intros object property st1 Ho.
    rewrite evaluateNode_unfold, evaluateNode_enter by assumption.
    unfold evaluateMemberAccess, bindM. rewrite Ho.
    destruct (strictMode ev); reflexivity.
  - intros object index st1 st2 i Ho Hi.
    rewrite evaluateNode_unfold, evaluateNode_enter by assumption.
    unfold evaluateIndexAccess, bindM. rewrite Ho, Hi.
    destruct (strictMode ev); reflexivity.
Qed.
End EvaluatorFacts.

Section LookupMatch.
Context {P : DecimalLib}.

(** X14. LOOKUP answers with the field of the first row that satisfies
    every criterion, whatever rows follow it.  (No row before it is a
    Decimal instance, and the criteria hold no [undefined] value: only
    such a value could tell a field a row lacks from a member the row
    inherits.) *)
Theorem LOOKUP_first_match (t c : nat) (before rest : list value) (row : value)
        (rowObj criteriaObj : props) (returnField : string) (v : value)
        (context : EvaluationContext) :
  Forall (fun kv => snd kv <> VUndefined) criteriaObj ->
  no_Decimal_row before = true ->
  no_row_matches before criteriaObj = true ->
  row_object row = Some rowObj ->
  row_matches criteriaObj rowObj = true ->
  prop_get rowObj returnField = Some v -> v <> VUndefined ->
  implementation LOOKUP [VArray t (before ++ row :: rest); VObject c criteriaObj;
                         VString returnField] context
  = Return v.
Proof.
  intros _ _ Hbefore Hrow Hmatch Hfield Hv. simpl.
  rewrite lookup_rows_skip by assumption. simpl.
  rewrite Hrow, Hmatch. unfold field. rewrite Hfield.
  destruct v; try reflexivity. now elim Hv.
Qed.
End LookupMatch.

Definition zero_literal : ASTNode (P := DefaultDecimal) := DecimalLiteral "0" "0".
Definition seven_literal : ASTNode (P := DefaultDecimal) := DecimalLiteral "7" "7".

Lemma division_by_zero_witness :
  evaluateBinaryOperation default_evaluator "/"
    (evaluateNode default_evaluator seven_literal no_variables)
    (evaluateNode default_evaluator zero_literal no_variables) (mkState 0 0 [] 0)
  = (Throw DivisionByZeroError, mkState 2 0 [] 0).
Proof.
  destruct (division_by_zero default_evaluator (Dec 7 0) (Dec 0 0) (Scaled.Fin 0 0)
                             eq_refl eq_refl eq_refl) as [Hzero _].
  apply (Hzero eq_refl _ _ (mkState 0 0 [] 0) (mkState 1 0 [] 0) (mkState 2 0 [] 0));
    reflexivity.
Defined.

Lemma operators_evaluate_lazily_witness :
  evaluateNode default_evaluator
               (BinaryOperation "&&" zero_literal (VariableReference Dollar "undef"))
               no_variables (mkState 0 0 [] 0)
  = (Return (VBool false), mkState 2 0 [] 0).
Proof.
  destruct (operators_evaluate_lazily default_evaluator zero_literal no_variables
              (mkState 0 0 [] 0) (mkState 2 0 [] 0) (Dec 0 0)) as [Hand _].
  - unfold recursion_limit. simpl. lia.
  - reflexivity.
  - apply Hand. reflexivity.
Defined.

Lemma missing_values_witness :
  evaluateNode default_evaluator (VariableReference Dollar "undef") no_variables
               (mkState 0 0 [] 0)
  = (Throw (UndefinedVariableError "undef" ""), mkState 1 0 ["undef"] 0).
Proof.
  destruct (missing_values default_evaluator "undef" no_variables (mkState 0 0 [] 0))
    as [_ [Hmissing _]].
  - unfold recursion_limit. simpl. lia.
  - apply Hmissing; [reflexivity | discriminate |].
    unfold Object_prototype_members. simpl. intuition discriminate.
Defined.

Lemma LOOKUP_first_match_witness :
  implementation LOOKUP [VArray 0 pricing_table; VObject 3 criteria_EU; VString "rate"]
                 no_variables
  = Return (Dec 1 (-1)).
Proof.
  apply (LOOKUP_first_match (P := DefaultDecimal) 0 3 [] (tl pricing_table)
           (hd VNull pricing_table)
           [("region", VString "EU"); ("category", VString "food"); ("rate", Dec 1 (-1))]
           criteria_EU "rate" (Dec 1 (-1)) no_variables);
    try reflexivity.
  - repeat constructor; discriminate.
  - discriminate.
Defined.
(* ================================================================== *)
(** * The lexer: termination and the shape of the token list           *)
(* ================================================================== *)

Section LexerFacts.
Context {P : DecimalLib}.

(** The position at which the input ends. *)
Definition input_end (s : LexState) : nat := position s + List.length (remaining s).

(** [s'] is [s] after some characters were consumed and no token added. *)
Definition advanced (s s' : LexState) : Prop :=
  input_end s' = input_end s /\ position s <= position s' /\ tokens s' = tokens s.

Lemma advanced_refl (s : LexState) : advanced s s.
Proof. unfold advanced. auto. Qed.

Lemma advanced_trans (s1 s2 s3 : LexState) :
  advanced s1 s2 -> advanced s2 s3 -> advanced s1 s3.
Proof.
  unfold advanced. intros [H1 [H2 H3]] [H4 [H5 H6]].
  repeat split; [congruence | lia | congruence].
Qed.

Lemma advance_advanced (s : LexState) : advanced s (snd (advance s)).
Proof.
  unfold advanced, advance, input_end. destruct (remaining s) as [|c r] eqn:E; simpl.
  - rewrite E. auto.
  - destruct (Ascii.eqb c newline); simpl; repeat split; lia.
Qed.

Lemma advance_position (s : LexState) :
  remaining s <> [] -> position (snd (advance s)) = S (position s).
Proof.
  unfold advance. destruct (remaining s) as [|c r]; [congruence|].
  intros _. destruct (Ascii.eqb c newline); reflexivity.
Qed.

Lemma scan_while_advanced (pred : ascii -> bool) (n : nat) :
  forall acc s, advanced s (snd (scan_while pred n acc s)).
Proof.
  induction n as [|n IH]; intros acc s; simpl; [apply advanced_refl|].
  destruct (negb (isAtEnd s) && pred (peek s)); [|apply advanced_refl].
  pose proof (advance_advanced s) as H. destruct (advance s) as [c s']. simpl in H.
  exact (advanced_trans _ _ _ H (IH _ _)).
Qed.

Lemma scan_chars_advanced (pred : ascii -> bool) (acc : list ascii) (s : LexState) :
  advanced s (snd (scan_chars pred acc s)).
Proof. apply scan_while_advanced. Qed.

Lemma scanString_loop_advanced (quote : ascii) (n : nat) :
  forall acc s, advanced s (snd (scanString_loop n quote acc s)).
Proof.
  induction n as [|n IH]; intros acc s; simpl; [apply advanced_refl|].
  destruct (negb (isAtEnd s) && negb (Ascii.eqb (peek s) quote)); [|apply advanced_refl].
  pose proof (advance_advanced s) as H.
  destruct (Ascii.eqb (peek s) backslash).
  - destruct (negb (isAtEnd (snd (advance s)))).
    + pose proof (advance_advanced (snd (advance s))) as H'.
      destruct (advance (snd (advance s))) as [escaped s2]. simpl in H'.
      exact (advanced_trans _ _ _ (advanced_trans _ _ _ H H') (IH _ _)).
    + exact (advanced_trans _ _ _ H (IH _ _)).
  - destruct (advance s) as [c s1]. simpl in H.
    exact (advanced_trans _ _ _ H (IH _ _)).
Qed.

Lemma skipWhitespace_advanced (s : LexState) : advanced s (skipWhitespace s).
Proof.
  unfold skipWhitespace. generalize (List.length (remaining s)) as n. intros n. revert s.
  induction n as [|n IH]; intros s; simpl; [apply advanced_refl|].
  destruct (isAtEnd s); [apply advanced_refl|].
  destruct (isWhitespace (peek s)); [|apply advanced_refl].
  exact (advanced_trans _ _ _ (advance_advanced s) (IH _)).
Qed.

(** [s'] is [s] after some characters were consumed and one token, which
    is not the end marker, was added at the position then reached. *)
Definition token_added (s s' : LexState) : Prop :=
  input_end s' = input_end s /\ position s <= position s' /\
  exists t, tokens s' = tokens s ++ [t] /\ ttype t <> EOF /\ tposition t = position s'.

Lemma addToken_added (s s0 : LexState) (t : TokenType) (v : TokenValue) :
  advanced s s0 -> t <> EOF -> token_added s (addToken t v s0).
Proof.
  intros [H1 [H2 H3]] Ht. unfold token_added, addToken, input_end in *. simpl.
  repeat split; auto. eexists. rewrite H3. split; [reflexivity|]. simpl. auto.
Qed.

(** The errors that the lexer raises. *)
Definition lexer_error (e : Error) : Prop :=
  match e with
  | SyntaxError _ _ _ _ | UnterminatedStringError _ | InvalidNumberError _ _ => True
  | _ => False
  end.

(** What scanning one token from [s] may give. *)
Definition scanned (s : LexState) (r : result_of LexState) : Prop :=
  match r with
  | Return s' => token_added s s'
  | Throw e => lexer_error e
  | OutOfFuel => False
  end.

Ltac lex_chain :=
  first [ assumption
        | apply advanced_refl
        | match goal with
          | H : advanced ?b ?c |- advanced ?a ?c =>
              apply (advanced_trans a b c); [lex_chain | exact H]
          end ].

Ltac lex_leaf :=
  match goal with
  | |- scanned _ (Throw _) => exact I
  | |- scanned _ (Return (addToken _ _ _)) =>
      apply addToken_added; [lex_chain | discriminate]
  end.

Ltac lex_step :=
  match goal with
  | |- context [scan_chars ?p ?a ?s] =>
      let H := fresh "Hadv" in
      pose proof (scan_chars_advanced p a s) as H;
      destruct (scan_chars p a s) as [? ?]; cbn [snd] in H
  | |- context [scanString_loop ?n ?q ?a ?s] =>
      let H := fresh "Hadv" in
      pose proof (scanString_loop_advanced q n a s) as H;
      destruct (scanString_loop n q a s) as [? ?]; cbn [snd] in H
  | |- context [let '(_, _) := advance ?s in _] =>
      let H := fresh "Hadv" in
      pose proof (advance_advanced s) as H;
      destruct (advance s) as [? ?]; cbn [snd] in H
  | |- context [snd (advance ?s)] =>
      let H := fresh "Hadv" in
      let s' := fresh "s" in
      pose proof (advance_advanced s) as H;
      set (s' := snd (advance s)) in *; clearbody s'
  | |- context [if ?b then _ else _] => destruct b
  end.

Lemma scanVariable_scanned (s0 s : LexState) :
  advanced s0 s -> scanned s0 (scanVariable s).
Proof.
  intros H. unfold scanVariable. lex_step. destruct l; [exact I | lex_leaf].
Qed.

Lemma scanContextVariable_scanned (s0 s : LexState) :
  advanced s0 s -> scanned s0 (scanContextVariable s).
Proof.
  intros H. unfold scanContextVariable. lex_step. destruct l; [exact I | lex_leaf].
Qed.

Lemma scanString_scanned (s0 s : LexState) (quote : ascii) :
  advanced s0 s -> scanned s0 (scanString quote s).
Proof.
  intros H. unfold scanString. lex_step. destruct (isAtEnd l0); [exact I|].
  lex_step. lex_leaf.
Qed.

Lemma scanNumber_scanned (s0 s : LexState) (firstChar : ascii) :
  advanced s0 s -> scanned s0 (scanNumber firstChar s).
Proof.
  intros H. unfold scanNumber.
  repeat (lex_step; cbv beta iota delta [bind]); lex_leaf.
Qed.

Lemma scanIdentifier_scanned (s0 s : LexState) (firstChar : ascii) :
  advanced s0 s -> scanned s0 (Return (scanIdentifier firstChar s)).
Proof.
  intros H. unfold scanIdentifier. lex_step.
  match goal with
  | |- context [match ?k with Some _ => _ | None => _ end] =>
      assert (Hk : k <> Some EOF);
      [ unfold KEYWORDS;
        repeat match goal with |- context [if ?b then _ else _] => destruct b end;
        discriminate
      | destruct k as [[]|]; try lex_leaf; congruence ]
  end.
Qed.
Lemma scanToken_scanned (s : LexState) : scanned (snd (advance s)) (scanToken s).
Proof.
  unfold scanToken. destruct (advance s) as [char s1]. cbn [snd].
  repeat match goal with
         | |- context [if ?b then _ else _] => destruct b
         end;
    try lex_leaf;
    try (lex_step; lex_leaf);
    auto using scanVariable_scanned, scanContextVariable_scanned, scanString_scanned,
               scanNumber_scanned, scanIdentifier_scanned, advanced_refl.
Qed.

(** The tokens added so far: none is the end marker, each lies at the
    position reached when it was added, and these positions grow. *)
Definition tokens_ordered (bound : nat) (l : list Token) : Prop :=
  Forall (fun t => ttype t <> EOF /\ 0 < tposition t <= bound) l /\
  StronglySorted lt (map tposition l).

Lemma tokens_ordered_weaken (b b' : nat) (l : list Token) :
  b <= b' -> tokens_ordered b l -> tokens_ordered b' l.
Proof.
  intros Hb [H1 H2]. split; [|exact H2].
  eapply Forall_impl; [|exact H1]. simpl. intros t [Ht Hp]. split; [exact Ht | lia].
Qed.

Lemma tokens_ordered_snoc (b : nat) (l : list Token) (t : Token) :
  tokens_ordered b l -> ttype t <> EOF -> b < tposition t ->
  tokens_ordered (tposition t) (l ++ [t]).
Proof.
  intros [H1 H2] Ht Hp. split.
  - apply Forall_app. split.
    + eapply Forall_impl; [|exact H1]. simpl. intros u [Hu Hq]. split; [exact Hu | lia].
    + constructor; [|constructor]. split; [exact Ht | lia].
  - rewrite map_app. simpl. clear Ht. induction l as [|u l IH]; simpl.
    + constructor; constructor.
    + inversion H1 as [|? ? [Hu Hq] H1']; subst. simpl in H2.
      inversion H2 as [|? ? H2' Hall]; subst.
      constructor; [now apply IH|].
      apply Forall_app. split; [exact Hall|]. constructor; [lia | constructor].
Qed.

Lemma tokenize_loop_spec (fuel : nat) : forall s,
  List.length (remaining s) <= fuel ->
  tokens_ordered (position s) (tokens s) ->
  match tokenize_loop fuel s with
  | Return s' => remaining s' = [] /\ input_end s' = input_end s /\
                 tokens_ordered (position s') (tokens s')
  | Throw e => lexer_error e
  | OutOfFuel => False
  end.
Proof.
  induction fuel as [|fuel IH]; intros s Hfuel Hord.
  - simpl. destruct (remaining s) eqn:E; [|simpl in Hfuel; lia].
    unfold isAtEnd. rewrite E. auto.
  - simpl. unfold isAtEnd at 1. destruct (remaining s) as [|c r] eqn:E.
    { rewrite E. auto. }
    destruct (skipWhitespace_advanced s) as [Hend [Hpos Htok]].
    set (s1 := skipWhitespace s) in *.
    assert (Hlen1 : List.length (remaining s1) <= S fuel).
    { unfold input_end in Hend. rewrite E in Hend. simpl in *. lia. }
    assert (Hord1 : tokens_ordered (position s1) (tokens s1)).
    { rewrite Htok. exact (tokens_ordered_weaken _ _ _ Hpos Hord). }
    unfold isAtEnd. destruct (remaining s1) as [|c1 r1] eqn:E1; simpl.
    + specialize (IH s1). rewrite E1 in IH. simpl in IH.
      specialize (IH (Nat.le_0_l _) Hord1).
      destruct (tokenize_loop fuel s1); auto.
      destruct IH as [H1 [H2 H3]]. split; [exact H1|]. split; [congruence | exact H3].
    + pose proof (scanToken_scanned s1) as Hscan.
      assert (Hp1 : position (snd (advance s1)) = S (position s1)).
      { apply advance_position. rewrite E1. discriminate. }
      destruct (advance_advanced s1) as [Hend1 [_ Htok1]].
      destruct (scanToken s1) as [s2| |]; simpl in *; auto.
      destruct Hscan as [Hend2 [Hpos2 [t [Htok2 [Ht Htp]]]]].
      assert (Hord2 : tokens_ordered (position s2) (tokens s2)).
      { rewrite Htok2, Htok1, <- Htp.
        apply tokens_ordered_snoc with (b := position s1); [exact Hord1 | exact Ht | lia]. }
      assert (Hlen2 : List.length (remaining s2) <= fuel).
      { unfold input_end in *. rewrite E1 in *. simpl in *. lia. }
      specialize (IH s2 Hlen2 Hord2).
      destruct (tokenize_loop fuel s2); auto.
      destruct IH as [H1 [H2 H3]]. split; [exact H1|]. split; [congruence | exact H3].
Qed.

Lemma list_ascii_length (s : string) :
  List.length (list_ascii_of_string s) = String.length s.
Proof. induction s; simpl; congruence. Qed.

Lemma tokenize_outcome (input : string) :
  match tokenize input with
  | Return _ => True
  | Throw e => lexer_error e
  | OutOfFuel => False
  end.
Proof.
  unfold tokenize.
  set (s0 := mkLex (list_ascii_of_string input) 0 1 1 []).
  assert (Hfuel : List.length (remaining s0) <= S (List.length (list_ascii_of_string input)))
    by (simpl; lia).
  assert (Hord : tokens_ordered (position s0) (tokens s0))
    by (split; simpl; constructor).
  pose proof (tokenize_loop_spec _ s0 Hfuel Hord) as H.
  destruct (tokenize_loop _ s0); simpl; auto.
Qed.

(** Strictly growing positions between [a] and [b] are at most [b - a]. *)
Lemma growing_positions_length (l : list nat) : forall a b,
  a <= b -> StronglySorted lt l -> Forall (fun x => a < x <= b) l ->
  List.length l + a <= b.
Proof.
  induction l as [|x l IH]; intros a b Hab Hs Hall; simpl; [exact Hab|].
  inversion Hs as [|? ? Hs' Hx]; subst. inversion Hall as [|? ? Hxa Hall']; subst.
  assert (H : List.length l + x <= b).
  { apply IH; [lia | exact Hs'|].
    rewrite Forall_forall in *. intros y Hy. split; [now apply Hx | now apply Hall']. }
  lia.
Qed.

(** An input has no more tokens than characters, the end marker apart. *)
Lemma tokenize_length (input : string) (toks : list Token) :
  tokenize input = Return toks ->
  exists front last,
    toks = front ++ [last] /\ ttype last = EOF /\ List.length front <= String.length input.
Proof.
  unfold tokenize.
  set (s0 := mkLex (list_ascii_of_string input) 0 1 1 []).
  assert (Hfuel : List.length (remaining s0) <= S (List.length (list_ascii_of_string input)))
    by (simpl; lia).
  assert (Hord : tokens_ordered (position s0) (tokens s0))
    by (split; simpl; constructor).
  pose proof (tokenize_loop_spec _ s0 Hfuel Hord) as H.
  destruct (tokenize_loop _ s0) as [s| |]; simpl; try discriminate.
  destruct H as [Hrem [Hend [Hall Hsorted]]].
  assert (Hpos : position s = String.length input).
  { unfold input_end in Hend. rewrite Hrem in Hend. simpl in Hend.
    rewrite list_ascii_length in Hend. lia. }
  intros Htoks. injection Htoks as <-.
  exists (tokens s), (mkToken EOF TNull (position s) (line s) (column s)).
  split; [reflexivity|]. split; [reflexivity|].
  pose proof (growing_positions_length (map tposition (tokens s)) 0 (position s)
                (Nat.le_0_l _) Hsorted) as Hlen.
  rewrite length_map in Hlen. rewrite <- Hpos.
  assert (Hin : Forall (fun x => 0 < x <= position s) (map tposition (tokens s))).
  { rewrite Forall_map. eapply Forall_impl; [|exact Hall]. simpl. tauto. }
  specialize (Hlen Hin). lia.
Qed.
End LexerFacts.

(** X15. [tokenize] stops on every input: it raises one of the three
    lexer errors or returns the tokens in source order.  The tokens
    returned end with the only end marker, placed at the length of the
    input; the others carry strictly growing positions within the input. *)
Theorem tokenize_spec {P : DecimalLib} (input : string) :
  tokenize input <> OutOfFuel /\
  (forall e, tokenize input = Throw e -> lexer_error e) /\
  (forall toks, tokenize input = Return toks ->
     exists front last,
       toks = front ++ [last] /\
       ttype last = EOF /\ tposition last = String.length input /\
       Forall (fun t => ttype t <> EOF /\ 0 < tposition t <= String.length input) front /\
       StronglySorted lt (map tposition front)).
Proof.
  unfold tokenize.
  set (s0 := mkLex (list_ascii_of_string input) 0 1 1 []).
  assert (Hfuel : List.length (remaining s0) <= S (List.length (list_ascii_of_string input)))
    by (simpl; lia).
  assert (Hord : tokens_ordered (position s0) (tokens s0))
    by (split; simpl; constructor).
  pose proof (tokenize_loop_spec _ s0 Hfuel Hord) as H.
  destruct (tokenize_loop _ s0) as [s| |]; simpl.
  - destruct H as [Hrem [Hend [Hall Hsorted]]].
    assert (Hpos : position s = String.length input).
    { unfold input_end in Hend. rewrite Hrem in Hend. simpl in Hend.
      rewrite list_ascii_length in Hend. lia. }
    split; [discriminate|]. split; [discriminate|].
    intros toks Htoks. injection Htoks as <-.
    exists (tokens s), (mkToken EOF TNull (position s) (line s) (column s)).
    rewrite <- Hpos. repeat split; auto.
  - split; [discriminate|]. split; [|discriminate].
    intros e' He. injection He as <-. exact H.
  - destruct H.
Qed.
(* ================================================================== *)
(** * The parser: termination                                          *)
(* ================================================================== *)

Section ParserFacts.
Context {P : DecimalLib}.

Lemma TokenType_eqb_eq (a b : TokenType) : TokenType_eqb a b = true -> a = b.
Proof. destruct a, b; simpl; intros H; try discriminate; reflexivity. Qed.

Lemma TokenType_eqb_refl (a : TokenType) : TokenType_eqb a a = true.
Proof. destruct a; reflexivity. Qed.

(** The tokens that stand before the end marker. *)
Fixpoint tokens_before_EOF (l : list Token) : nat :=
  match l with
  | [] => 0
  | t :: r => if TokenType_eqb (ttype t) EOF then 0 else S (tokens_before_EOF r)
  end.

(** The tokens the parser has still to read. *)
Definition tokens_left (p : ParseState) : nat :=
  tokens_before_EOF (skipn (current p) (ptokens p)).

Lemma tokens_before_EOF_length (l : list Token) : tokens_before_EOF l <= List.length l.
Proof.
  induction l as [|t r IH]; simpl; [lia|].
  destruct (TokenType_eqb (ttype t) EOF); lia.
Qed.

Lemma tokens_before_last_EOF (l : list Token) (t : Token) :
  ttype t = EOF -> tokens_before_EOF (l ++ [t]) <= List.length l.
Proof.
  intros Ht. induction l as [|x l IH]; simpl.
  - rewrite Ht. simpl. lia.
  - destruct (TokenType_eqb (ttype x) EOF); lia.
Qed.

Lemma tokens_left_peek (p : ParseState) :
  tokens_left p = if pisAtEnd p then 0
                  else S (tokens_left (mkParse (ptokens p) (S (current p)))).
Proof.
  unfold tokens_left, pisAtEnd, ppeek. simpl.
  generalize (current p) as n. generalize (ptokens p) as l.
  induction l as [|t r IH]; intros [|n]; simpl; auto.
Qed.

Lemma padvance_left (p : ParseState) :
  tokens_left (snd (padvance p)) = tokens_left p - 1.
Proof.
  unfold padvance. rewrite (tokens_left_peek p).
  destruct (pisAtEnd p) eqn:E; simpl.
  - rewrite (tokens_left_peek p), E. reflexivity.
  - lia.
Qed.

Lemma peek_left (p : ParseState) : ttype (ppeek p) <> EOF -> 1 <= tokens_left p.
Proof.
  intros H. rewrite tokens_left_peek. unfold pisAtEnd.
  destruct (TokenType_eqb (ttype (ppeek p)) EOF) eqn:E; [|lia].
  now apply TokenType_eqb_eq in E.
Qed.

(** The errors that parsing raises. *)
Definition parse_error (e : Error) : Prop :=
  match e with
  | SyntaxError _ _ _ _ | UnexpectedTokenError _ _ _
  | UnterminatedStringError _ | InvalidNumberError _ _ => True
  | _ => False
  end.

(** What a parsing method started at [p] may give: it returns having
    read at least [k] tokens, or raises a parse error. *)
Definition parsed {A} (k : nat) (p : ParseState) (r : result_of (A * ParseState)) : Prop :=
  match r with
  | Return (_, p') => tokens_left p' + k <= tokens_left p
  | Throw e => parse_error e
  | OutOfFuel => False
  end.

Lemma expect_parsed (t : TokenType) (expected : string) (p : ParseState) :
  t <> EOF -> parsed 1 p (expect t expected p).
Proof.
  intros Ht. unfold expect. destruct (TokenType_eqb (ttype (ppeek p)) t) eqn:E; [|exact I].
  apply TokenType_eqb_eq in E.
  pose proof (padvance_left p). destruct (padvance p) as [tok p1]. simpl in *.
  assert (1 <= tokens_left p) by (apply peek_left; congruence). lia.
Qed.

Section ParserLoops.
Variable rec : nat -> ParseState -> result_of (ASTNode * ParseState).
Variable f : nat.
Hypothesis Hrec : forall prec p, 1 <= prec -> tokens_left p < f -> parsed 1 p (rec prec p).

Lemma parse_list_parsed (n : nat) : forall acc p,
  tokens_left p < n -> tokens_left p < f -> parsed 1 p (parse_list rec n acc p).
Proof.
  induction n as [|n IH]; intros acc p Hn Hf; [lia|]. cbn [parse_list].
  set (p1 := if TokenType_eqb (ttype (ppeek p)) COMMA then snd (padvance p) else p).
  assert (H1 : tokens_left p1 <= tokens_left p).
  { unfold p1. destruct (TokenType_eqb _ COMMA); [rewrite padvance_left|]; lia. }
  clearbody p1.
  assert (Hlt : tokens_left p1 < f) by lia.
  pose proof (Hrec PREC_LOWEST p1 (le_n 1) Hlt) as Hr.
  destruct (rec PREC_LOWEST p1) as [[e p2]| |]; simpl in *; auto.
  destruct (TokenType_eqb (ttype (ppeek p2)) COMMA).
  - assert (H2 : tokens_left p2 < n) by lia.
    assert (H3 : tokens_left p2 < f) by lia.
    specialize (IH (acc ++ [e]) p2 H2 H3).
    destruct (parse_list rec n (acc ++ [e]) p2) as [[l p3]| |]; simpl in *; auto. lia.
  - simpl. lia.
Qed.

(** The arguments of a call or the elements of an array, up to the
    closing token [close]. *)
Lemma parse_items_parsed (n : nat) (close : TokenType) (p : ParseState) :
  tokens_left p < n -> tokens_left p < f ->
  parsed 0 p (if negb (TokenType_eqb (ttype (ppeek p)) close)
              then parse_list rec n [] p else Return ([], p)).
Proof.
  intros Hn Hf. destruct (negb _).
  - pose proof (parse_list_parsed n [] p Hn Hf) as H.
    destruct (parse_list rec n [] p) as [[l p2]| |]; simpl in *; auto. lia.
  - simpl. lia.
Qed.

Lemma parseFunctionCall_parsed (n : nat) (name : string) (p : ParseState) :
  ttype (ppeek p) = LPAREN -> tokens_left p <= n -> tokens_left p <= f ->
  parsed 1 p (parseFunctionCall rec n name p).
Proof.
  intros Hp Hn Hf. unfold parseFunctionCall.
  assert (H0 : 1 <= tokens_left p) by (apply peek_left; congruence).
  pose proof (padvance_left p) as H1. set (p1 := snd (padvance p)) in *. clearbody p1.
  assert (Hn1 : tokens_left p1 < n) by lia.
  assert (Hf1 : tokens_left p1 < f) by lia.
  pose proof (parse_items_parsed n RPAREN p1 Hn1 Hf1) as H2.
  destruct (if negb _ then _ else _) as [[args p2]| |]; simpl in *; auto.
  assert (Hne : RPAREN <> EOF) by discriminate.
  pose proof (expect_parsed RPAREN ")" p2 Hne) as H3.
  destruct (expect RPAREN ")" p2) as [[tok p3]| |]; simpl in *; auto. lia.
Qed.

Lemma parseArrayLiteral_parsed (n : nat) (p : ParseState) :
  ttype (ppeek p) = LBRACKET -> tokens_left p <= n -> tokens_left p <= f ->
  parsed 1 p (parseArrayLiteral rec n p).
Proof.
  intros Hp Hn Hf. unfold parseArrayLiteral.
  assert (H0 : 1 <= tokens_left p) by (apply peek_left; congruence).
  pose proof (padvance_left p) as H1. set (p1 := snd (padvance p)) in *. clearbody p1.
  assert (Hn1 : tokens_left p1 < n) by lia.
  assert (Hf1 : tokens_left p1 < f) by lia.
  pose proof (parse_items_parsed n RBRACKET p1 Hn1 Hf1) as H2.
  destruct (if negb _ then _ else _) as [[elements p2]| |]; simpl in *; auto.
  assert (Hne : RBRACKET <> EOF) by discriminate.
  pose proof (expect_parsed RBRACKET "]" p2 Hne) as H3.
  destruct (expect RBRACKET "]" p2) as [[tok p3]| |]; simpl in *; auto. lia.
Qed.

Lemma parseGroupedExpression_parsed (p : ParseState) :
  ttype (ppeek p) = LPAREN -> tokens_left p <= f ->
  parsed 1 p (parseGroupedExpression rec p).
Proof.
  intros Hp Hf. unfold parseGroupedExpression.
  assert (H0 : 1 <= tokens_left p) by (apply peek_left; congruence).
  pose proof (padvance_left p) as H1. set (p1 := snd (padvance p)) in *. clearbody p1.
  assert (Hf1 : tokens_left p1 < f) by lia.
  pose proof (Hrec PREC_LOWEST p1 (le_n 1) Hf1) as H2.
  destruct (rec PREC_LOWEST p1) as [[expr p2]| |]; simpl in *; auto.
  assert (Hne : RPAREN <> EOF) by discriminate.
  pose proof (expect_parsed RPAREN ")" p2 Hne) as H3.
  destruct (expect RPAREN ")" p2) as [[tok p3]| |]; simpl in *; auto. lia.
Qed.

Lemma parseUnaryExpression_parsed (p : ParseState) :
  ttype (ppeek p) <> EOF -> tokens_left p <= f ->
  parsed 1 p (parseUnaryExpression rec p).
Proof.
  intros Hp Hf. unfold parseUnaryExpression.
  assert (H0 : 1 <= tokens_left p) by now apply peek_left.
  pose proof (padvance_left p) as H1. destruct (padvance p) as [token p1]. simpl in H1.
  assert (Hf1 : tokens_left p1 < f) by lia.
  assert (Hprec : 1 <= PREC_UNARY) by (unfold PREC_UNARY; lia).
  pose proof (Hrec PREC_UNARY p1 Hprec Hf1) as H2.
  destruct (rec PREC_UNARY p1) as [[operand p2]| |]; simpl in *; auto. lia.
Qed.

Lemma parseIdentifierOrFunctionCall_parsed (n : nat) (p : ParseState) :
  ttype (ppeek p) <> EOF -> tokens_left p <= n -> tokens_left p <= f ->
  parsed 1 p (parseIdentifierOrFunctionCall rec n p).
Proof.
  intros Hp Hn Hf. unfold parseIdentifierOrFunctionCall.
  assert (H0 : 1 <= tokens_left p) by now apply peek_left.
  pose proof (padvance_left p) as H1. destruct (padvance p) as [token p1]. simpl in H1.
  destruct (TokenType_eqb (ttype (ppeek p1)) LPAREN) eqn:E.
  - apply TokenType_eqb_eq in E.
    assert (Hn1 : tokens_left p1 <= n) by lia.
    assert (Hf1 : tokens_left p1 <= f) by lia.
    pose proof (parseFunctionCall_parsed n (token_text token) p1 E Hn1 Hf1) as H2.
    destruct (parseFunctionCall rec n (token_text token) p1) as [[node p2]| |];
      simpl in *; auto. lia.
  - destruct (_ || _); exact I.
Qed.

Lemma parsePrefixExpression_parsed (n : nat) (p : ParseState) :
  tokens_left p <= n -> tokens_left p <= f ->
  parsed 1 p (parsePrefixExpression rec n p).
Proof.
  intros Hn Hf. unfold parsePrefixExpression.
  pose proof (padvance_left p) as H1. pose proof (peek_left p) as H0.
  destruct (ttype (ppeek p)) eqn:E; try exact I;
    try (assert (Hne : ttype (ppeek p) <> EOF) by (rewrite E; discriminate));
    try specialize (H0 ltac:(discriminate)).
  - unfold parseNumber. destruct (padvance p) as [token p1]. simpl in H1.
    destruct (tvalue token); simpl; lia.
  - unfold parseString. destruct (padvance p) as [token p1]. simpl in *. lia.
  - unfold parseBoolean. destruct (padvance p) as [token p1]. simpl in *. lia.
  - unfold parseNull, parsed. lia.
  - now apply parseIdentifierOrFunctionCall_parsed.
  - unfold parseVariable. destruct (padvance p) as [token p1]. simpl in *. lia.
  - unfold parseContextVariable. destruct (padvance p) as [token p1]. simpl in *. lia.
  - now apply parseUnaryExpression_parsed.
  - now apply parseUnaryExpression_parsed.
  - now apply parseGroupedExpression_parsed.
  - now apply parseArrayLiteral_parsed.
Qed.

Lemma parseBinaryExpression_parsed (left : ASTNode) (p : ParseState) :
  3 <= getPrecedence p -> tokens_left p <= f ->
  parsed 1 p (parseBinaryExpression rec left p).
Proof.
  intros Hp Hf. unfold parseBinaryExpression.
  assert (H0 : 1 <= tokens_left p).
  { apply peek_left. intros E. unfold getPrecedence in Hp. rewrite E in Hp.
    simpl in Hp. unfold PREC_LOWEST in Hp. lia. }
  assert (Htok : fst (padvance p) = ppeek p).
  { unfold padvance, pisAtEnd. rewrite tokens_left_peek in H0. unfold pisAtEnd in H0.
    destruct (TokenType_eqb (ttype (ppeek p)) EOF); [lia|]. simpl.
    rewrite Nat.sub_0_r. reflexivity. }
  pose proof (padvance_left p) as H1. destruct (padvance p) as [token p1].
  simpl in H1, Htok. subst token.
  assert (Hf1 : tokens_left p1 < f) by lia.
  assert (Hprec : 1 <= (if TokenType_eqb (ttype (ppeek p)) POWER
                        then getTokenPrecedence (ttype (ppeek p)) - 1
                        else getTokenPrecedence (ttype (ppeek p)))).
  { unfold getPrecedence in Hp. destruct (TokenType_eqb _ POWER); lia. }
  pose proof (Hrec _ p1 Hprec Hf1) as H2.
  destruct (rec _ p1) as [[rhs p2]| |]; simpl in *; auto. lia.
Qed.

Lemma parseTernaryExpression_parsed (condition : ASTNode) (p : ParseState) :
  ttype (ppeek p) <> EOF -> tokens_left p <= f ->
  parsed 1 p (parseTernaryExpression rec condition p).
Proof.
  intros Hp Hf. unfold parseTernaryExpression.
  assert (H0 : 1 <= tokens_left p) by now apply peek_left.
  pose proof (padvance_left p) as H1. set (p1 := snd (padvance p)) in *. clearbody p1.
  assert (Hf1 : tokens_left p1 < f) by lia.
  pose proof (Hrec PREC_LOWEST p1 (le_n 1) Hf1) as H2.
  destruct (rec PREC_LOWEST p1) as [[consequent p2]| |]; simpl in *; auto.
  assert (Hne : COLON <> EOF) by discriminate.
  pose proof (expect_parsed COLON ":" p2 Hne) as H3.
  destruct (expect COLON ":" p2) as [[tok p3]| |]; simpl in *; auto.
  assert (Hf3 : tokens_left p3 < f) by lia.
  pose proof (Hrec 1 p3 (le_n 1) Hf3) as H4.
  destruct (rec 1 p3) as [[alternate p4]| |]; simpl in *; auto. lia.
Qed.

Lemma parseAccess_parsed (n : nat) : forall member object p,
  ttype (ppeek p) <> EOF -> tokens_left p <= n -> tokens_left p <= f ->
  parsed 1 p (parseAccess rec n member object p).
Proof.
  induction n as [|n IH]; intros member object p Hp Hn Hf.
  { pose proof (peek_left p Hp). lia. }
  assert (H0 : 1 <= tokens_left p) by now apply peek_left.
  pose proof (padvance_left p) as H1. cbn [parseAccess].
  set (p1 := snd (padvance p)) in *. clearbody p1.
  assert (Hstep : parsed 1 p
            (if member then
               if negb (TokenType_eqb (ttype (ppeek p1)) IDENTIFIER)
                  && negb (TokenType_eqb (ttype (ppeek p1)) VARIABLE)
               then Throw (UnexpectedTokenError (token_text (ppeek p1)) ["identifier"]
                                                (tposition (ppeek p1)))
               else Return (MemberAccess object (token_text (ppeek p1)), snd (padvance p1))
             else
               '(index, p2) <- rec PREC_LOWEST p1 ;;
               '(_, p3) <- expect RBRACKET "]" p2 ;;
               Return (IndexAccess object index, p3))).
  { destruct member.
    - destruct (_ && _); [exact I|]. unfold parsed. rewrite padvance_left. lia.
    - assert (Hf1 : tokens_left p1 < f) by lia.
      pose proof (Hrec PREC_LOWEST p1 (le_n 1) Hf1) as H2.
      destruct (rec PREC_LOWEST p1) as [[index p2]| |]; simpl in *; auto.
      assert (Hne : RBRACKET <> EOF) by discriminate.
      pose proof (expect_parsed RBRACKET "]" p2 Hne) as H3.
      destruct (expect RBRACKET "]" p2) as [[tok p3]| |]; simpl in *; auto. lia. }
  destruct (if member then _ else _) as [[node p']| |]; simpl in *; auto.
  destruct (TokenType_eqb (ttype (ppeek p')) DOT) eqn:Edot.
  - apply TokenType_eqb_eq in Edot.
    assert (Hp' : ttype (ppeek p') <> EOF) by (rewrite Edot; discriminate).
    assert (Hn' : tokens_left p' <= n) by lia.
    assert (Hf' : tokens_left p' <= f) by lia.
    specialize (IH true node p' Hp' Hn' Hf').
    destruct (parseAccess rec n true node p') as [[r p'']| |]; simpl in *; auto. lia.
  - destruct (TokenType_eqb (ttype (ppeek p')) LBRACKET) eqn:Ebr.
    + apply TokenType_eqb_eq in Ebr.
      assert (Hp' : ttype (ppeek p') <> EOF) by (rewrite Ebr; discriminate).
      assert (Hn' : tokens_left p' <= n) by lia.
      assert (Hf' : tokens_left p' <= f) by lia.
      specialize (IH false node p' Hp' Hn' Hf').
      destruct (parseAccess rec n false node p') as [[r p'']| |]; simpl in *; auto. lia.
    + simpl. lia.
Qed.

Lemma parseInfixExpression_parsed (n : nat) (left : ASTNode) (p : ParseState) :
  1 < getPrecedence p -> 1 <= tokens_left p <= n -> tokens_left p <= f ->
  parsed 1 p (parseInfixExpression rec n left p).
Proof.
  intros Hp Hn Hf. unfold parseInfixExpression.
  assert (Hbin : 3 <= getPrecedence p -> parsed 1 p (parseBinaryExpression rec left p)).
  { intros H. now apply parseBinaryExpression_parsed. }
  unfold getPrecedence in Hp, Hbin.
  destruct (ttype (ppeek p)) eqn:E; simpl in Hp, Hbin;
    unfold PREC_LOWEST, PREC_TERNARY, PREC_OR, PREC_AND, PREC_EQUALITY, PREC_COMPARISON,
           PREC_TERM, PREC_FACTOR, PREC_POWER, PREC_MEMBER in Hp, Hbin;
    try lia; try (apply Hbin; lia).
  - apply parseAccess_parsed; [rewrite E; discriminate | lia | lia].
  - apply parseAccess_parsed; [rewrite E; discriminate | lia | lia].
  - apply parseTernaryExpression_parsed; [rewrite E; discriminate | lia].
Qed.

Lemma parseExpression_loop_parsed (n : nat) : forall prec left p,
  1 <= prec -> tokens_left p < n -> tokens_left p <= f ->
  parsed 0 p (parseExpression_loop rec n prec left p).
Proof.
  induction n as [|n IH]; intros prec left p Hprec Hn Hf; [lia|].
  simpl. destruct (negb (pisAtEnd p) && Nat.ltb prec (getPrecedence p)) eqn:G.
  - apply andb_true_iff in G. destruct G as [G1 G2]. apply Nat.ltb_lt in G2.
    assert (H0 : 1 <= tokens_left p).
    { rewrite tokens_left_peek. destruct (pisAtEnd p); [discriminate | lia]. }
    assert (Hp : 1 < getPrecedence p) by lia.
    assert (Hn' : 1 <= tokens_left p <= n) by lia.
    pose proof (parseInfixExpression_parsed n left p Hp Hn' Hf) as H.
    destruct (parseInfixExpression rec n left p) as [[left' p']| |]; simpl in *; auto.
    assert (H2 : tokens_left p' < n) by lia.
    assert (H3 : tokens_left p' <= f) by lia.
    specialize (IH prec left' p' Hprec H2 H3).
    destruct (parseExpression_loop rec n prec left' p') as [[r p'']| |]; simpl in *; auto.
    lia.
  - simpl. lia.
Qed.
End ParserLoops.

Lemma parseExpression_parsed (fuel : nat) : forall prec p,
  1 <= prec -> tokens_left p < fuel -> parsed 1 p (parseExpression fuel prec p).
Proof.
  induction fuel as [|fuel IH]; intros prec p Hprec Hfuel; [lia|]. simpl.
  assert (Hle : tokens_left p <= fuel) by lia.
  pose proof (parsePrefixExpression_parsed (parseExpression fuel) fuel IH fuel p Hle Hle) as H.
  destruct (parsePrefixExpression (parseExpression fuel) fuel p) as [[lhs p1]| |];
    simpl in *; auto.
  assert (H1 : tokens_left p1 < fuel) by lia.
  assert (H2 : tokens_left p1 <= fuel) by lia.
  pose proof (parseExpression_loop_parsed (parseExpression fuel) fuel IH fuel prec lhs p1
                                          Hprec H1 H2) as H3.
  destruct (parseExpression_loop (parseExpression fuel) fuel prec lhs p1) as [[r p2]| |];
    simpl in *; auto. lia.
Qed.
End ParserFacts.

(** ** The result does not depend on the depth

    Two runs of the parser whose recursive calls agree on every state
    with fewer tokens left give the same result, whatever fuel their
    loops have beyond the tokens left. *)
Section ParserDepth.
Context {P : DecimalLib}.
Variables rec1 rec2 : nat -> ParseState -> result_of (ASTNode * ParseState).
Variable f : nat.
Hypothesis Hrec : forall prec p, 1 <= prec -> tokens_left p < f -> parsed 1 p (rec1 prec p).
Hypothesis Hsame : forall prec p, 1 <= prec -> tokens_left p < f -> rec1 prec p = rec2 prec p.

Lemma parse_list_same (n1 : nat) : forall n2 acc p,
  tokens_left p < n1 -> tokens_left p < n2 -> tokens_left p < f ->
  parse_list rec1 n1 acc p = parse_list rec2 n2 acc p.
Proof.
  induction n1 as [|n1 IH]; intros [|n2] acc p H1 H2 Hf; try lia. cbn [parse_list].
  set (p1 := if TokenType_eqb (ttype (ppeek p)) COMMA then snd (padvance p) else p).
  assert (Hp1 : tokens_left p1 <= tokens_left p).
  { unfold p1. destruct (TokenType_eqb _ COMMA); [rewrite padvance_left|]; lia. }
  clearbody p1.
  assert (Hlt : tokens_left p1 < f) by lia.
  rewrite <- (Hsame PREC_LOWEST p1 (le_n 1) Hlt).
  pose proof (Hrec PREC_LOWEST p1 (le_n 1) Hlt) as Hr.
  destruct (rec1 PREC_LOWEST p1) as [[e p2]| |]; simpl in *; try reflexivity.
  destruct (TokenType_eqb (ttype (ppeek p2)) COMMA); [|reflexivity].
  apply IH; lia.
Qed.

Lemma parseFunctionCall_same (n1 n2 : nat) (name : string) (p : ParseState) :
  ttype (ppeek p) = LPAREN -> tokens_left p <= n1 -> tokens_left p <= n2 ->
  tokens_left p <= f ->
  parseFunctionCall rec1 n1 name p = parseFunctionCall rec2 n2 name p.
Proof.
  intros Hp H1 H2 Hf. unfold parseFunctionCall.
  assert (H0 : 1 <= tokens_left p) by (apply peek_left; congruence).
  pose proof (padvance_left p) as Ha. cbv zeta.
  destruct (negb (TokenType_eqb (ttype (ppeek (snd (padvance p)))) RPAREN)); [|reflexivity].
  rewrite (parse_list_same n1 n2 [] (snd (padvance p))) by lia. reflexivity.
Qed.

Lemma parseArrayLiteral_same (n1 n2 : nat) (p : ParseState) :
  ttype (ppeek p) = LBRACKET -> tokens_left p <= n1 -> tokens_left p <= n2 ->
  tokens_left p <= f ->
  parseArrayLiteral rec1 n1 p = parseArrayLiteral rec2 n2 p.
Proof.
  intros Hp H1 H2 Hf. unfold parseArrayLiteral.
  assert (H0 : 1 <= tokens_left p) by (apply peek_left; congruence).
  pose proof (padvance_left p) as Ha. cbv zeta.
  destruct (negb (TokenType_eqb (ttype (ppeek (snd (padvance p)))) RBRACKET)); [|reflexivity].
  rewrite (parse_list_same n1 n2 [] (snd (padvance p))) by lia. reflexivity.
Qed.

Lemma parseGroupedExpression_same (p : ParseState) :
  ttype (ppeek p) = LPAREN -> tokens_left p <= f ->
  parseGroupedExpression rec1 p = parseGroupedExpression rec2 p.
Proof.
  intros Hp Hf. unfold parseGroupedExpression.
  assert (H0 : 1 <= tokens_left p) by (apply peek_left; congruence).
  pose proof (padvance_left p) as Ha. cbv zeta.
  rewrite (Hsame PREC_LOWEST (snd (padvance p)) (le_n 1)) by lia. reflexivity.
Qed.

Lemma parseUnaryExpression_same (p : ParseState) :
  ttype (ppeek p) <> EOF -> tokens_left p <= f ->
  parseUnaryExpression rec1 p = parseUnaryExpression rec2 p.
Proof.
  intros Hp Hf. unfold parseUnaryExpression.
  assert (H0 : 1 <= tokens_left p) by now apply peek_left.
  pose proof (padvance_left p) as Ha. destruct (padvance p) as [token p1]. simpl in Ha.
  assert (Hprec : 1 <= PREC_UNARY) by (unfold PREC_UNARY; lia).
  rewrite (Hsame PREC_UNARY p1 Hprec) by lia. reflexivity.
Qed.

Lemma parseIdentifierOrFunctionCall_same (n1 n2 : nat) (p : ParseState) :
  ttype (ppeek p) <> EOF -> tokens_left p <= n1 -> tokens_left p <= n2 ->
  tokens_left p <= f ->
  parseIdentifierOrFunctionCall rec1 n1 p = parseIdentifierOrFunctionCall rec2 n2 p.
Proof.
  intros Hp H1 H2 Hf. unfold parseIdentifierOrFunctionCall.
  assert (H0 : 1 <= tokens_left p) by now apply peek_left.
  pose proof (padvance_left p) as Ha. destruct (padvance p) as [token p1]. simpl in Ha.
  destruct (TokenType_eqb (ttype (ppeek p1)) LPAREN) eqn:E; [|reflexivity].
  apply TokenType_eqb_eq in E. apply parseFunctionCall_same; [exact E | lia | lia | lia].
Qed.

Lemma parsePrefixExpression_same (n1 n2 : nat) (p : ParseState) :
  tokens_left p <= n1 -> tokens_left p <= n2 -> tokens_left p <= f ->
  parsePrefixExpression rec1 n1 p = parsePrefixExpression rec2 n2 p.
Proof.
  intros H1 H2 Hf. unfold parsePrefixExpression.
  destruct (ttype (ppeek p)) eqn:E; try reflexivity;
    try (assert (Hne : ttype (ppeek p) <> EOF) by (rewrite E; discriminate)).
  - now apply parseIdentifierOrFunctionCall_same.
  - now apply parseUnaryExpression_same.
  - now apply parseUnaryExpression_same.
  - now apply parseGroupedExpression_same.
  - now apply parseArrayLiteral_same.
Qed.

Lemma parseBinaryExpression_same (left : ASTNode) (p : ParseState) :
  3 <= getPrecedence p -> tokens_left p <= f ->
  parseBinaryExpression rec1 left p = parseBinaryExpression rec2 left p.
Proof.
  intros Hp Hf. unfold parseBinaryExpression.
  assert (H0 : 1 <= tokens_left p).
  { apply peek_left. intros E. unfold getPrecedence in Hp. rewrite E in Hp.
    simpl in Hp. unfold PREC_LOWEST in Hp. lia. }
  assert (Htok : fst (padvance p) = ppeek p).
  { unfold padvance, pisAtEnd. rewrite tokens_left_peek in H0. unfold pisAtEnd in H0.
    destruct (TokenType_eqb (ttype (ppeek p)) EOF); [lia|]. simpl.
    rewrite Nat.sub_0_r. reflexivity. }
  pose proof (padvance_left p) as Ha. destruct (padvance p) as [token p1].
  simpl in Ha, Htok. subst token.
  assert (Hprec : 1 <= (if TokenType_eqb (ttype (ppeek p)) POWER
                        then getTokenPrecedence (ttype (ppeek p)) - 1
                        else getTokenPrecedence (ttype (ppeek p)))).
  { unfold getPrecedence in Hp. destruct (TokenType_eqb _ POWER); lia. }
  rewrite (Hsame _ p1 Hprec) by lia. reflexivity.
Qed.

Lemma parseTernaryExpression_same (condition : ASTNode) (p : ParseState) :
  ttype (ppeek p) <> EOF -> tokens_left p <= f ->
  parseTernaryExpression rec1 condition p = parseTernaryExpression rec2 condition p.
Proof.
  intros Hp Hf. unfold parseTernaryExpression.
  assert (H0 : 1 <= tokens_left p) by now apply peek_left.
  pose proof (padvance_left p) as Ha. set (p1 := snd (padvance p)) in *. clearbody p1.
  assert (Hf1 : tokens_left p1 < f) by lia.
  rewrite <- (Hsame PREC_LOWEST p1 (le_n 1) Hf1).
  pose proof (Hrec PREC_LOWEST p1 (le_n 1) Hf1) as H2.
  destruct (rec1 PREC_LOWEST p1) as [[consequent p2]| |]; simpl in *; try reflexivity.
  assert (Hne : COLON <> EOF) by discriminate.
  pose proof (expect_parsed COLON ":" p2 Hne) as H3.
  destruct (expect COLON ":" p2) as [[tok p3]| |]; simpl in *; try reflexivity.
  rewrite (Hsame 1 p3 (le_n 1)) by lia. reflexivity.
Qed.

Lemma parseAccess_same (n1 : nat) : forall n2 member object p,
  ttype (ppeek p) <> EOF -> tokens_left p <= n1 -> tokens_left p <= n2 ->
  tokens_left p <= f ->
  parseAccess rec1 n1 member object p = parseAccess rec2 n2 member object p.
Proof.
  induction n1 as [|n1 IH]; intros n2 member object p Hp H1 H2 Hf.
  { pose proof (peek_left p Hp). lia. }
  destruct n2 as [|n2]; [pose proof (peek_left p Hp); lia|].
  assert (H0 : 1 <= tokens_left p) by now apply peek_left.
  pose proof (padvance_left p) as Ha. cbn [parseAccess].
  set (p1 := snd (padvance p)) in *. clearbody p1.
  assert (Hf1 : tokens_left p1 < f) by lia.
  destruct member.
  - destruct (_ && _); [reflexivity|]. cbn [bind].
    pose proof (padvance_left p1) as Hb. set (p' := snd (padvance p1)) in *. clearbody p'.
    destruct (TokenType_eqb (ttype (ppeek p')) DOT) eqn:Edot.
    + apply TokenType_eqb_eq in Edot.
      apply IH; [rewrite Edot; discriminate | lia | lia | lia].
    + destruct (TokenType_eqb (ttype (ppeek p')) LBRACKET) eqn:Ebr; [|reflexivity].
      apply TokenType_eqb_eq in Ebr.
      apply IH; [rewrite Ebr; discriminate | lia | lia | lia].
  - rewrite <- (Hsame PREC_LOWEST p1 (le_n 1) Hf1).
    pose proof (Hrec PREC_LOWEST p1 (le_n 1) Hf1) as Hr.
    destruct (rec1 PREC_LOWEST p1) as [[index p2]| |]; simpl in *; try reflexivity.
    assert (Hne : RBRACKET <> EOF) by discriminate.
    pose proof (expect_parsed RBRACKET "]" p2 Hne) as H3.
    destruct (expect RBRACKET "]" p2) as [[tok p']| |]; simpl in *; try reflexivity.
    destruct (TokenType_eqb (ttype (ppeek p')) DOT) eqn:Edot.
    + apply TokenType_eqb_eq in Edot.
      apply IH; [rewrite Edot; discriminate | lia | lia | lia].
    + destruct (TokenType_eqb (ttype (ppeek p')) LBRACKET) eqn:Ebr; [|reflexivity].
      apply TokenType_eqb_eq in Ebr.
      apply IH; [rewrite Ebr; discriminate | lia | lia | lia].
Qed.

Lemma parseInfixExpression_same (n1 n2 : nat) (left : ASTNode) (p : ParseState) :
  1 < getPrecedence p -> 1 <= tokens_left p -> tokens_left p <= n1 -> tokens_left p <= n2 ->
  tokens_left p <= f ->
  parseInfixExpression rec1 n1 left p = parseInfixExpression rec2 n2 left p.
Proof.
  intros Hp H0 H1 H2 Hf. unfold parseInfixExpression.
  assert (Hbin : 3 <= getPrecedence p ->
                 parseBinaryExpression rec1 left p = parseBinaryExpression rec2 left p).
  { intros H. now apply parseBinaryExpression_same. }
  unfold getPrecedence in Hp, Hbin.
  destruct (ttype (ppeek p)) eqn:E; simpl in Hp, Hbin;
    unfold PREC_LOWEST, PREC_TERNARY, PREC_OR, PREC_AND, PREC_EQUALITY, PREC_COMPARISON,
           PREC_TERM, PREC_FACTOR, PREC_POWER, PREC_MEMBER in Hp, Hbin;
    try lia; try (apply Hbin; lia).
  - apply parseAccess_same; [rewrite E; discriminate | lia | lia | lia].
  - apply parseAccess_same; [rewrite E; discriminate | lia | lia | lia].
  - apply parseTernaryExpression_same; [rewrite E; discriminate | lia].
Qed.

Lemma parseExpression_loop_same (n1 : nat) : forall n2 prec left p,
  1 <= prec -> tokens_left p < n1 -> tokens_left p < n2 -> tokens_left p <= f ->
  parseExpression_loop rec1 n1 prec left p = parseExpression_loop rec2 n2 prec left p.
Proof.
  induction n1 as [|n1 IH]; intros [|n2] prec left p Hprec H1 H2 Hf; try lia.
  simpl. destruct (negb (pisAtEnd p) && Nat.ltb prec (getPrecedence p)) eqn:G;
    [|reflexivity].
  apply andb_true_iff in G. destruct G as [G1 G2]. apply Nat.ltb_lt in G2.
  assert (H0 : 1 <= tokens_left p).
  { rewrite tokens_left_peek. destruct (pisAtEnd p); [discriminate | lia]. }
  assert (Hp : 1 < getPrecedence p) by lia.
  rewrite <- (parseInfixExpression_same n1 n2 left p Hp H0) by lia.
  assert (Hn1 : 1 <= tokens_left p <= n1) by lia.
  pose proof (parseInfixExpression_parsed rec1 f Hrec n1 left p Hp Hn1 Hf) as H.
  destruct (parseInfixExpression rec1 n1 left p) as [[left' p']| |]; simpl in *;
    try reflexivity.
  apply IH; [exact Hprec | lia | lia | lia].
Qed.
End ParserDepth.

Lemma parseExpression_same {P : DecimalLib} (f1 : nat) : forall f2 prec p,
  1 <= prec -> tokens_left p < f1 -> tokens_left p < f2 ->
  parseExpression f1 prec p = parseExpression f2 prec p.
Proof.
  induction f1 as [|f1 IH]; intros [|f2] prec p Hprec H1 H2; try lia. simpl.
  assert (Hrec : forall prec p, 1 <= prec -> tokens_left p < Nat.min f1 f2 ->
                                parsed 1 p (parseExpression f1 prec p)).
  { intros prec0 p0 Hp0 Hlt. apply parseExpression_parsed; [exact Hp0 | lia]. }
  assert (Hsame : forall prec p, 1 <= prec -> tokens_left p < Nat.min f1 f2 ->
                                 parseExpression f1 prec p = parseExpression f2 prec p).
  { intros prec0 p0 Hp0 Hlt. apply IH; [exact Hp0 | lia | lia]. }
  assert (Hf : tokens_left p <= Nat.min f1 f2) by lia.
  rewrite <- (parsePrefixExpression_same _ _ _ Hrec Hsame f1 f2 p) by lia.
  assert (Hf1 : tokens_left p <= f1) by lia.
  pose proof (parsePrefixExpression_parsed (parseExpression f1) _ Hrec f1 p Hf1 Hf) as H.
  destruct (parsePrefixExpression (parseExpression f1) f1 p) as [[lhs p1]| |];
    simpl in *; try reflexivity.
  apply (parseExpression_loop_same _ _ _ Hrec Hsame); [exact Hprec | lia | lia | lia].
Qed.

Lemma parse_outcome {P : DecimalLib} (expression : string) :
  match parse expression with
  | Return _ => True
  | Throw e => parse_error e
  | OutOfFuel => False
  end.
Proof.
  unfold parse. pose proof (tokenize_outcome expression) as Htok.
  destruct (tokenize expression) as [toks|e|]; cbn [bind]; [| |exact Htok].
  - set (fuel := 2 * List.length toks + 2).
    assert (Hfuel : tokens_left (mkParse toks 0) < fuel).
    { unfold tokens_left. simpl. pose proof (tokens_before_EOF_length toks). lia. }
    pose proof (parseExpression_parsed fuel PREC_LOWEST (mkParse toks 0) (le_n 1) Hfuel) as H.
    destruct (parseExpression fuel PREC_LOWEST (mkParse toks 0)) as [[ast p]| |];
      cbn [bind parsed] in *; auto.
    destruct (negb (pisAtEnd p)); exact I.
  - destruct e; simpl in *; auto.
Qed.

(** ** The depth of the recursion

    Nothing in the parser bounds its recursion: [parseExpression] calls
    itself through the prefix and infix parsers once for every level of
    nesting in the expression, and a JavaScript engine ends a recursion
    that its call stack does not admit with a RangeError.

    [parse_within depth] is [Parser.parse] with that recursion cut at
    [depth] nested calls of [parseExpression] (and each loop of the parser
    cut after as many rounds); a run that needs more ends in [OutOfFuel].
    [parse] above is the parser cut at twice the number of tokens. *)
Definition parse_within {P : DecimalLib} (depth : nat) (expression : string)
  : result_of ASTNode :=
  toks <- tokenize expression ;;
  '(ast, p) <- parseExpression depth PREC_LOWEST (mkParse toks 0) ;;
  if negb (pisAtEnd p) then
    Throw (UnexpectedTokenError (token_text (ppeek p)) ["end of expression"]
                                (tposition (ppeek p)))
  else Return ast.

Lemma parse_within_parse {P : DecimalLib} (depth : nat) (expression : string) :
  String.length expression < depth -> parse_within depth expression = parse expression.
Proof.
  intros Hdepth. unfold parse_within, parse.
  pose proof (tokenize_length expression) as Hlen.
  destruct (tokenize expression) as [toks|e|]; cbn [bind]; try reflexivity.
  destruct (Hlen toks eq_refl) as [front [last [-> [Hlast Hfront]]]].
  pose proof (tokens_before_last_EOF front last Hlast) as Hleft.
  rewrite (parseExpression_same depth (2 * List.length (front ++ [last]) + 2) PREC_LOWEST
                                (mkParse (front ++ [last]) 0) (le_n 1)).
  - reflexivity.
  - unfold tokens_left. simpl. lia.
  - unfold tokens_left. simpl. rewrite length_app. simpl. lia.
Qed.

(** X16. The recursion of the parser is at most as deep as the
    expression is long: cut at a depth beyond the number of characters,
    the parser returns a syntax tree or raises one of the four parse
    errors, however operators, brackets, calls and accesses are nested
    within that depth; and the result is the same at every such depth,
    the one of [parse]. *)
Theorem parse_spec {P : DecimalLib} (depth : nat) (expression : string) :
  String.length expression < depth ->
  ((exists ast, parse_within depth expression = Return ast) \/
   (exists e, parse_within depth expression = Throw e /\ parse_error e)) /\
  parse_within depth expression = parse expression.
Proof.
  intros Hdepth. split; [|now apply parse_within_parse]. unfold parse_within.
  pose proof (tokenize_outcome expression) as Htok.
  pose proof (tokenize_length expression) as Hlen.
  destruct (tokenize expression) as [toks|e|]; cbn [bind]; [| |destruct Htok].
  - destruct (Hlen toks eq_refl) as [front [last [-> [Hlast Hfront]]]].
    assert (Hleft : tokens_left (mkParse (front ++ [last]) 0) < depth).
    { unfold tokens_left. simpl.
      pose proof (tokens_before_last_EOF front last Hlast). lia. }
    pose proof (parseExpression_parsed depth PREC_LOWEST (mkParse (front ++ [last]) 0)
                                       (le_n 1) Hleft) as H.
    destruct (parseExpression depth PREC_LOWEST (mkParse (front ++ [last]) 0))
      as [[ast p]| |];
      cbn [bind parsed] in *; [| right; now exists e | destruct H].
    destruct (negb (pisAtEnd p)); [right | left]; eexists; [split; [reflexivity | exact I]
                                                          | reflexivity].
  - right. exists e. split; [reflexivity|]. destruct e; simpl in *; auto.
Qed.

(** The sum [1 + 2], five characters long. *)
Lemma parse_spec_witness :
  (exists ast, parse_within (P := DefaultDecimal) 6 "1 + 2" = Return ast) \/
  (exists e, parse_within (P := DefaultDecimal) 6 "1 + 2" = Throw e /\ parse_error e).
Proof. apply (parse_spec (P := DefaultDecimal) 6 "1 + 2"). simpl. lia. Defined.

(** Three signs and a number nest four deep. *)
Example parse_beyond_depth :
  parse_within (P := DefaultDecimal) 3 "---1" = OutOfFuel /\
  parse_within (P := DefaultDecimal) 4 "---1"
  = Return (UnaryOperation "-" (UnaryOperation "-" (UnaryOperation "-"
              (DecimalLiteral "1" "1")))).
Proof. split; reflexivity. Qed.
(* ================================================================== *)
(** * Invariants of an evaluation                                      *)
(* ================================================================== *)

Section EvaluatorInvariant.
Context {P : DecimalLib}.
Variable ev : Evaluator.

(** How a call ended, the value it returned left aside. *)
Inductive ending :=
| Returned
| Thrown (e : Error)
| Unfinished.

Definition ending_of {A} (r : result_of A) : ending :=
  match r with
  | Return _ => Returned
  | Throw e => Thrown e
  | OutOfFuel => Unfinished
  end.

(** The errors that the evaluator raises by itself, the two limits apart. *)
Definition evaluator_error (e : Error) : Prop :=
  match e with
  | UndefinedVariableError _ _ | UndefinedFunctionError _ | DivisionByZeroError
  | ArgumentCountError _ _ _ _ | InvalidOperationError _ _
  | PropertyAccessError _ _ | IndexAccessError _ _
  | DecimalDivisionByZeroError | InvalidDecimalError _ | DecimalError _
  | GeneralError _ | TypeError _ => True
  | _ => False
  end.

Definition evaluator_outcome {A} (r : result_of A) : Prop :=
  match r with
  | Return _ => True
  | Throw e => evaluator_error e
  | OutOfFuel => False
  end.

(** [refers node prefix name]: the variable [name] with this prefix
    stands somewhere in the syntax tree [node]. *)
Inductive refers : ASTNode -> Prefix -> string -> Prop :=
| refers_variable prefix name : refers (VariableReference prefix name) prefix name
| refers_element elements e prefix name :
    In e elements -> refers e prefix name -> refers (ArrayLiteral elements) prefix name
| refers_left op l r prefix name :
    refers l prefix name -> refers (BinaryOperation op l r) prefix name
| refers_right op l r prefix name :
    refers r prefix name -> refers (BinaryOperation op l r) prefix name
| refers_operand op o prefix name :
    refers o prefix name -> refers (UnaryOperation op o) prefix name
| refers_condition c a b prefix name :
    refers c prefix name -> refers (ConditionalExpression c a b) prefix name
| refers_consequent c a b prefix name :
    refers a prefix name -> refers (ConditionalExpression c a b) prefix name
| refers_alternate c a b prefix name :
    refers b prefix name -> refers (ConditionalExpression c a b) prefix name
| refers_argument fn args a prefix name :
    In a args -> refers a prefix name -> refers (FunctionCall fn args) prefix name
| refers_member o p prefix name :
    refers o prefix name -> refers (MemberAccess o p) prefix name
| refers_indexed o i prefix name :
    refers o prefix name -> refers (IndexAccess o i) prefix name
| refers_index o i prefix name :
    refers i prefix name -> refers (IndexAccess o i) prefix name.

(** Outcomes of the pure helpers. *)

Lemma bind_outcome {A B} (r : result_of A) (k : A -> result_of B) :
  evaluator_outcome r -> (forall a, evaluator_outcome (k a)) -> evaluator_outcome (bind r k).
Proof. intros Hr Hk. destruct r as [a | e |]; simpl; auto. Qed.

Lemma du_from_string_outcome s : evaluator_outcome (du_from_string s).
Proof. unfold du_from_string. destruct (d_new_string s); exact I. Qed.

Lemma toDecimal_outcome v : evaluator_outcome (toDecimal v).
Proof. destruct v; simpl; try exact I. apply du_from_string_outcome. Qed.

Lemma toNumber_outcome v : evaluator_outcome (toNumber v).
Proof. destruct v; exact I. Qed.

Lemma du_toDecimalPlaces_outcome d s r : evaluator_outcome (du_toDecimalPlaces d s r).
Proof. unfold du_toDecimalPlaces. destruct (d_toDecimalPlaces d s r); exact I. Qed.

Ltac outcome_tac :=
  repeat first
    [ exact I
    | apply toDecimal_outcome
    | apply toNumber_outcome
    | apply du_from_string_outcome
    | apply du_toDecimalPlaces_outcome
    | (apply bind_outcome; [|intros ?])
    | match goal with
      | |- evaluator_outcome (if ?c then _ else _) => destruct c
      | |- evaluator_outcome (match ?v with _ => _ end) => destruct v
      end ].

Lemma add_outcome l r : evaluator_outcome (add l r).
Proof. unfold add. outcome_tac. Qed.

Lemma subtract_outcome l r : evaluator_outcome (subtract l r).
Proof. unfold subtract. outcome_tac. Qed.

Lemma multiply_outcome l r : evaluator_outcome (multiply l r).
Proof. unfold multiply. outcome_tac. Qed.

Lemma divide_outcome l r : evaluator_outcome (divide ev l r).
Proof. unfold divide, du_divide. outcome_tac. Qed.

Lemma modulo_outcome l r : evaluator_outcome (modulo l r).
Proof. unfold modulo, du_modulo. outcome_tac. Qed.

Lemma power_outcome l r : evaluator_outcome (power l r).
Proof. unfold power. outcome_tac. Qed.

Lemma negate_outcome v : evaluator_outcome (negate v).
Proof. unfold negate. outcome_tac. Qed.

Lemma compare_with_outcome op dec str l r : evaluator_outcome (compare_with op dec str l r).
Proof. unfold compare_with. outcome_tac. Qed.

(** ** A property of the state that every step keeps *)

(** [Q st r st'] relates the state before a call, how the call ended and
    the state after it; [allowed] tells which variables may be looked up. *)
Variable Q : EvalState -> ending -> EvalState -> Prop.
Variable allowed : string -> Prop.

Definition keeps {A} (m : M A) : Prop :=
  forall st, Q st (ending_of (fst (m st))) (snd (m st)).

Hypothesis Q_return : forall st, Q st Returned st.
Hypothesis Q_then : forall st st1 st2 r, Q st Returned st1 -> Q st1 r st2 -> Q st r st2.
Hypothesis Q_throw : forall st e, evaluator_error e -> Q st (Thrown e) st.
Hypothesis Q_recursion : keeps (checkRecursionLimit ev).
Hypothesis Q_iteration : keeps (checkIterationLimit ev).
Hypothesis Q_access : forall name, allowed name -> keeps (access_variable name).
Hypothesis Q_array : forall l, keeps (new_array l).
Hypothesis Q_function : forall name fn args context st,
  map_get (functions ev) name = Some fn ->
  Q st (ending_of (implementation fn args context)) st.

Lemma keeps_ret {A} (a : A) : keeps (ret a).
Proof. intros st. apply Q_return. Qed.

Lemma keeps_throw {A} (e : Error) : evaluator_error e -> keeps (@throw _ A e).
Proof. intros He st. now apply Q_throw. Qed.

Lemma keeps_lift {A} (r : result_of A) : evaluator_outcome r -> keeps (lift r).
Proof.
  intros Hr st. unfold lift. simpl. destruct r as [a | e |]; simpl in *.
  - apply Q_return.
  - now apply Q_throw.
  - destruct Hr.
Qed.

Lemma keeps_bind {A B} (m : M A) (k : A -> M B) :
  keeps m -> (forall a, keeps (k a)) -> keeps (bindM m k).
Proof.
  intros Hm Hk st. unfold bindM. specialize (Hm st).
  destruct (m st) as [[a | e |] st1]; simpl in *; try exact Hm.
  exact (Q_then _ _ _ _ Hm (Hk a st1)).
Qed.

Lemma keeps_sequenceM {A} (l : list (M A)) : Forall keeps l -> keeps (sequenceM l).
Proof.
  induction 1 as [|m r Hm Hr IH]; simpl; [apply keeps_ret|].
  apply keeps_bind; [assumption | intros x].
  apply keeps_bind; [assumption | intros xs; apply keeps_ret].
Qed.

Ltac keeps_tac :=
  repeat first
    [ apply keeps_ret
    | apply Q_array
    | apply Q_iteration
    | apply Q_recursion
    | (apply keeps_throw; exact I)
    | (apply keeps_lift;
       first [ apply add_outcome | apply subtract_outcome | apply multiply_outcome
             | apply divide_outcome | apply modulo_outcome | apply power_outcome
             | apply negate_outcome | apply compare_with_outcome
             | apply toDecimal_outcome | apply toNumber_outcome
             | apply du_from_string_outcome ])
    | assumption
    | (apply keeps_bind; [|intros ?])
    | match goal with
      | |- keeps (if ?c then _ else _) => destruct c
      | |- keeps (match ?v with _ => _ end) => destruct v
      end ].

Lemma keeps_evaluateVariable prefix name context :
  allowed name -> keeps (evaluateVariable ev prefix name context).
Proof.
  intros Hname. unfold evaluateVariable.
  apply keeps_bind; [now apply Q_access | intros _]. keeps_tac.
Qed.

Lemma keeps_evaluateUndefinedNode : keeps (evaluateUndefinedNode ev).
Proof. unfold evaluateUndefinedNode. keeps_tac. Qed.

Lemma keeps_evaluateBinaryOperation op l r :
  keeps l -> keeps r -> keeps (evaluateBinaryOperation ev op l r).
Proof.
  intros Hl Hr. unfold evaluateBinaryOperation,
    lessThan, greaterThan, lessThanOrEqual, greaterThanOrEqual.
  keeps_tac.
Qed.

Lemma keeps_evaluateUnaryOperation op o : keeps o -> keeps (evaluateUnaryOperation op o).
Proof. intros Ho. unfold evaluateUnaryOperation. keeps_tac. Qed.

Lemma keeps_evaluateConditional c a b :
  keeps c -> keeps a -> keeps b -> keeps (evaluateConditional c a b).
Proof. intros Hc Ha Hb. unfold evaluateConditional. keeps_tac. Qed.

Lemma keeps_sum_loop f context items : forall sum,
  (forall ctx, keeps (f ctx)) -> keeps (sum_loop ev f context items sum).
Proof.
  induction items as [|item rest IH]; intros sum Hf; simpl; [apply keeps_ret|].
  apply keeps_bind; [apply Q_iteration | intros _].
  apply keeps_bind; [apply Hf | intros v].
  destruct (isNumeric v); [|now apply IH].
  apply keeps_bind; [apply keeps_lift, toDecimal_outcome | intros d]. now apply IH.
Qed.

Lemma keeps_filter_loop f context items : forall acc,
  (forall ctx, keeps (f ctx)) -> keeps (filter_loop ev f context items acc).
Proof.
  induction items as [|item rest IH]; intros acc Hf; simpl; [apply keeps_ret|].
  apply keeps_bind; [apply Q_iteration | intros _].
  apply keeps_bind; [apply Hf | intros v]. now apply IH.
Qed.

Lemma keeps_map_loop f context items : forall acc,
  (forall ctx, keeps (f ctx)) -> keeps (map_loop ev f context items acc).
Proof.
  induction items as [|item rest IH]; intros acc Hf; simpl; [apply keeps_ret|].
  apply keeps_bind; [apply Q_iteration | intros _].
  apply keeps_bind; [apply Hf | intros v]. now apply IH.
Qed.

Lemma keeps_evaluateFunctionCall name argc a0 a1 args context :
  keeps a0 -> (forall ctx, keeps (a1 ctx)) -> Forall keeps args ->
  keeps (evaluateFunctionCall ev name argc a0 a1 args context).
Proof.
  intros H0 H1 Hargs. unfold evaluateFunctionCall.
  destruct (map_get (functions ev) (toUpperCase name)) as [fn|] eqn:E;
    [|apply keeps_throw; exact I].
  destruct (Z.ltb _ _); [apply keeps_throw; exact I|].
  destruct (_ && _); [apply keeps_throw; exact I|].
  destruct (_ && _).
  { unfold evaluateSumWithExpression. apply keeps_bind; [assumption | intros array].
    destruct array; try (apply keeps_throw; exact I).
    apply keeps_bind; [now apply keeps_sum_loop | intros s; apply keeps_ret]. }
  destruct (String.eqb _ "FILTER").
  { unfold evaluateFilter. apply keeps_bind; [assumption | intros array].
    destruct array; try (apply keeps_throw; exact I).
    apply keeps_bind; [now apply keeps_filter_loop | intros s; apply Q_array]. }
  destruct (String.eqb _ "MAP").
  { unfold evaluateMap. apply keeps_bind; [assumption | intros array].
    destruct array; try (apply keeps_throw; exact I).
    apply keeps_bind; [now apply keeps_map_loop | intros s; apply Q_array]. }
  apply keeps_bind; [now apply keeps_sequenceM | intros vs].
  intros st. unfold lift. simpl. eapply Q_function; eassumption.
Qed.

Lemma keeps_evaluateMemberAccess o property :
  keeps o -> keeps (evaluateMemberAccess ev o property).
Proof. intros Ho. unfold evaluateMemberAccess. keeps_tac. Qed.

Lemma keeps_evaluateIndexAccess o i :
  keeps o -> keeps i -> keeps (evaluateIndexAccess ev o i).
Proof. intros Ho Hi. unfold evaluateIndexAccess. keeps_tac. Qed.

(** The evaluation of a syntax tree keeps the property, provided every
    variable the tree refers to may be looked up. *)
Lemma keeps_evaluateNode : forall node,
  (forall prefix name, refers node prefix name -> allowed name) ->
  forall context, keeps (evaluateNode ev node context).
Proof.
  intros node.
  induction node using ASTNode_induction; intros Hnames context;
    rewrite evaluateNode_unfold; (apply keeps_bind; [apply Q_recursion | intros _]).
  - apply keeps_bind; [apply keeps_lift, du_from_string_outcome | intros d; apply keeps_ret].
  - apply keeps_ret.
  - apply keeps_ret.
  - apply keeps_ret.
  - apply keeps_ret.
  - apply keeps_bind; [|intros l; apply Q_array].
    apply keeps_sequenceM. apply Forall_map. apply Forall_forall. intros e He.
    rewrite Forall_forall in H. apply (H e He).
    intros prefix name Hr. apply (Hnames prefix name). now apply refers_element with e.
  - apply keeps_evaluateVariable. apply (Hnames prefix). constructor.
  - apply keeps_evaluateBinaryOperation; [apply IHnode1 | apply IHnode2];
      intros prefix name Hr; apply (Hnames prefix name);
      [now apply refers_left | now apply refers_right].
  - apply keeps_evaluateUnaryOperation. apply IHnode.
    intros prefix name Hr. apply (Hnames prefix name). now apply refers_operand.
  - apply keeps_evaluateConditional; [apply IHnode1 | apply IHnode2 | apply IHnode3];
      intros prefix name Hr; apply (Hnames prefix name);
      [now apply refers_condition | now apply refers_consequent | now apply refers_alternate].
  - rewrite Forall_forall in H.
    assert (Harg : forall a, In a args -> forall ctx, keeps (evaluateNode ev a ctx)).
    { intros a Ha. apply (H a Ha). intros prefix name' Hr.
      apply (Hnames prefix name'). now apply refers_argument with a. }
    apply keeps_evaluateFunctionCall.
    + destruct args as [|a0 r]; [apply keeps_evaluateUndefinedNode|].
      apply Harg. now left.
    + intros ctx. destruct args as [|a0 [|a1 r]]; try apply keeps_evaluateUndefinedNode.
      apply Harg. right. now left.
    + apply Forall_map. apply Forall_forall. intros a Ha. now apply Harg.
  - apply keeps_evaluateMemberAccess. apply IHnode.
    intros prefix name Hr. apply (Hnames prefix name). now apply refers_member.
  - apply keeps_evaluateIndexAccess; [apply IHnode1 | apply IHnode2];
      intros prefix name Hr; apply (Hnames prefix name);
      [now apply refers_indexed | now apply refers_index].
Qed.
End EvaluatorInvariant.
(* ================================================================== *)
(** * Every call of the engine comes back                              *)
(* ================================================================== *)

Section Termination.
Context {P : DecimalLib}.

(** No registered function runs without end. *)
Definition functions_terminate (ev : Evaluator) : Prop :=
  forall name fn args context,
    map_get (functions ev) name = Some fn -> implementation fn args context <> OutOfFuel.

Lemma evaluateNode_terminates (ev : Evaluator) :
  functions_terminate ev ->
  forall node context st, fst (evaluateNode ev node context st) <> OutOfFuel.
Proof.
  intros Hfn node context st.
  assert (H : keeps (fun _ r _ => r <> Unfinished) (evaluateNode ev node context)).
  { apply (keeps_evaluateNode ev (fun _ r _ => r <> Unfinished) (fun _ => True));
      try (intros; discriminate); try (intros; assumption); try exact (fun _ _ _ => I).
    - intros st0. unfold checkRecursionLimit. simpl. destruct (Nat.ltb _ _); discriminate.
    - intros st0. unfold checkIterationLimit. simpl. destruct (Nat.ltb _ _); discriminate.
    - intros name fn args ctx st0 Hget. specialize (Hfn name fn args ctx Hget).
      destruct (implementation fn args ctx); [discriminate | discriminate | congruence]. }
  specialize (H st). destruct (fst (evaluateNode ev node context st)); simpl in H;
    [discriminate | discriminate | congruence].
Qed.

(** [Evaluator.evaluate] catches every error into its result. *)
Lemma evaluate_returns (ev : Evaluator) (expression : string) (context : EvaluationContext)
      (st : EvalState) :
  functions_terminate ev ->
  exists res, fst (evaluate ev expression context st) = Some res /\
              (success res = true <-> error res = None) /\
              (success res = false -> rvalue res = VNull).
Proof.
  intros Hfn. unfold evaluate. pose proof (parse_outcome expression) as Hp.
  destruct (parse expression) as [ast | e |]; [| |destruct Hp].
  - pose proof (evaluateNode_terminates ev Hfn ast context (mkState 0 0 [] (nextRef st))) as Hn.
    destruct (evaluateNode ev ast context (mkState 0 0 [] (nextRef st))) as [[v | e |] st1];
      simpl in *; [| |congruence]; eexists; (split; [reflexivity|]); simpl;
      (split; [split; intros; (reflexivity || discriminate) | intros; (reflexivity || discriminate)]).
  - eexists. split; [reflexivity|]. simpl.
    split; [split; intros; discriminate | reflexivity].
Qed.

(** ** The functions of an engine *)

Lemma fn_toDecimal_finished v : fn_toDecimal v <> OutOfFuel.
Proof. destruct v; simpl; try discriminate. unfold du_from_string. destruct (d_new_string s); discriminate. Qed.

Lemma map_result_finished {A B} (f : A -> result_of B) (l : list A) :
  (forall a, f a <> OutOfFuel) -> map_result f l <> OutOfFuel.
Proof.
  intros Hf. induction l as [|a r IH]; simpl; [discriminate|].
  specialize (Hf a). destruct (f a); simpl; try congruence.
  destruct (map_result f r); simpl; congruence.
Qed.

Lemma builtin_terminate (name : string) (fn : FunctionDefinition) args context :
  map_get createBuiltInFunctions name = Some fn -> implementation fn args context <> OutOfFuel.
Proof.
  unfold createBuiltInFunctions. simpl. unfold map_get. simpl.
  repeat (match goal with
          | |- context [String.eqb name ?s] => destruct (String.eqb name s)
          end; [intros H; injection H as <-; simpl|]); try discriminate.
  - destruct (arg args 0); try discriminate.
    destruct (Nat.eqb _ 1); [|discriminate].
    pose proof (map_result_finished fn_toDecimal elements fn_toDecimal_finished).
    destruct (map_result fn_toDecimal elements); simpl; congruence.
  - destruct (arg args 0); discriminate.
  - destruct (arg args 0); try discriminate;
      destruct (arg args 1); try discriminate;
      destruct (arg args 2); discriminate.
Qed.

Lemma registered_function (fns : list FunctionDefinition) :
  forall (base : list (string * FunctionDefinition)) name fn,
  map_get (fold_left registerFunction fns base) name = Some fn ->
  In fn fns \/ map_get base name = Some fn.
Proof.
  induction fns as [|f fns IH]; intros base name fn H; simpl in H; [now right|].
  destruct (IH _ _ _ H) as [Hin | Hget]; [left; now right|].
  unfold registerFunction in Hget. rewrite map_get_set in Hget.
  destruct (String.eqb _ name); [|now right].
  injection Hget as <-. left. now left.
Qed.

(** The functions given in the configuration all terminate. *)
Definition custom_functions_terminate (config : FormulaEngineConfig) : Prop :=
  forall fn args context,
    In fn (cfg_functions config) -> implementation fn args context <> OutOfFuel.

Lemma engine_functions_terminate (config : FormulaEngineConfig) :
  custom_functions_terminate config -> functions_terminate (engine_evaluator config).
Proof.
  intros Hc name fn args context Hget. unfold engine_evaluator in Hget. simpl in Hget.
  destruct (registered_function _ _ _ _ Hget) as [Hin | Hb].
  - now apply Hc.
  - now apply (builtin_terminate name).
Qed.

(** ** The evaluation order *)

(** An error of [getEvaluationOrder]: an expression does not parse, or
    the formulas depend on each other in a cycle. *)
Definition order_error (e : Error) : Prop :=
  parse_error e \/ exists c involved, e = CircularDependencyError c involved.

Lemma build_edges_outcome (formulaIds : list string) (formulas : list FormulaDefinition) :
  forall g, match build_edges formulaIds formulas g with
            | Return _ => True
            | Throw e => parse_error e
            | OutOfFuel => False
            end.
Proof.
  induction formulas as [|f formulas IH]; intros g; simpl; [exact I|].
  destruct (dependencies f) as [ds|]; simpl; [apply IH|].
  unfold extract. pose proof (parse_outcome (expression f)) as Hp.
  destruct (parse (expression f)) as [ast | e |]; simpl; [apply IH | exact Hp | exact Hp].
Qed.

Lemma getEvaluationOrder_outcome (formulas : list FormulaDefinition) :
  match getEvaluationOrder formulas with
  | Return _ => True
  | Throw e => order_error e
  | OutOfFuel => False
  end.
Proof.
  unfold getEvaluationOrder.
  pose proof (build_edges_outcome (set_of_list (map id formulas)) formulas
                (fold_left (fun g f => addNode g (id f)) formulas emptyGraph)) as Hb.
  destruct (build formulas) as [g | e |] eqn:Eb; unfold build in Eb; rewrite Eb in Hb;
    simpl; [| now left | exact Hb].
  destruct (build_graph formulas g Eb) as [Hwf _].
  destruct (kahn_run_result g Hwf) as [st [Hrun _]].
  unfold topologicalSort. rewrite Hrun.
  destruct (negb _); [|exact I].
  destruct (findCycle_spec g Hwf) as [c [Hc _]]. rewrite Hc.
  right. eexists. eexists. reflexivity.
Qed.

(** ** The depth of the conversion

    [convertValue] calls itself for each element of an array and each
    property value of an object.  Nothing in it bounds the depth, and
    [normalizeContext] runs outside every [try] of [evaluate] and
    [evaluateAll]: a JavaScript engine ends a recursion that its call
    stack does not admit with a RangeError, and that error leaves the
    engine.

    The definitions below are [convertValue], [normalizeContext],
    [FormulaEngine.evaluate] and [FormulaEngine.evaluateAll] with that
    recursion cut at [depth] nested calls of [convertValue]: a conversion
    that needs more gives [None], and the call of the engine [OutOfFuel]. *)

(** The nested calls of [convertValue] that a value takes: one for the
    value itself, on top of those of its deepest part.  (A Decimal
    instance takes three: the instance, its array of digits, a digit.) *)
Fixpoint conversion_depth (v : value) : nat :=
  match v with
  | VArray _ l => S (fold_right (fun x d => Nat.max (conversion_depth x) d) 0 l)
  | VObject _ o => S (fold_right (fun kv d => Nat.max (conversion_depth (snd kv)) d) 0 o)
  | VDecimal _ => 3
  | _ => 1
  end.

Fixpoint convertValue_within (depth : nat) (v : value) (next : nat) : option (value * nat) :=
  match depth with
  | O => None
  | S depth' =>
      match v with
      | VNumber n =>
          if negb (n_isNaN n) && n_isFinite n then Some (VDecimal (du_from_number n), next)
          else Some (v, next)
      | VArray _ l =>
          match (fix convert_list (l : list value) (next : nat) : option (list value * nat) :=
                   match l with
                   | [] => Some ([], next)
                   | x :: r =>
                       match convertValue_within depth' x next with
                       | Some (x', n1) =>
                           match convert_list r n1 with
                           | Some (r', n2) => Some (x' :: r', n2)
                           | None => None
                           end
                       | None => None
                       end
                   end) l next with
          | Some (l', next') => Some (VArray next' l', S next')
          | None => None
          end
      | VObject _ o =>
          match (fix convert_props (o : list (string * value)) (next : nat)
                   : option (list (string * value) * nat) :=
                   match o with
                   | [] => Some ([], next)
                   | (k, x) :: r =>
                       match convertValue_within depth' x next with
                       | Some (x', n1) =>
                           match convert_props r n1 with
                           | Some (r', n2) => Some ((k, x') :: r', n2)
                           | None => None
                           end
                       | None => None
                       end
                   end) o next with
          | Some (o', next') => Some (VObject next' o', S next')
          | None => None
          end
      | VDecimal _ =>
          match depth' with
          | S (S _) => Some (VObject next [], S next)
          | _ => None
          end
      | _ => Some (v, next)
      end
  end.

Fixpoint convert_entries_within (depth : nat) (o : props) (next : nat) : option (props * nat) :=
  match o with
  | [] => Some ([], next)
  | (k, x) :: r =>
      match convertValue_within depth x next with
      | Some (x', n1) =>
          match convert_entries_within depth r n1 with
          | Some (r', n2) => Some ((k, x') :: r', n2)
          | None => None
          end
      | None => None
      end
  end.

Lemma conversion_depth_element (x : value) (l : list value) :
  In x l -> conversion_depth x <= fold_right (fun x d => Nat.max (conversion_depth x) d) 0 l.
Proof.
  induction l as [|y l IH]; intros Hin; [destruct Hin|]. simpl.
  destruct Hin as [-> | Hin]; [lia | specialize (IH Hin); lia].
Qed.

Lemma conversion_depth_property (kv : string * value) (o : props) :
  In kv o ->
  conversion_depth (snd kv)
  <= fold_right (fun kv d => Nat.max (conversion_depth (snd kv)) d) 0 o.
Proof.
  induction o as [|y o IH]; intros Hin; [destruct Hin|]. simpl.
  destruct Hin as [-> | Hin]; [lia | specialize (IH Hin); lia].
Qed.

(** Cut at the depth the value takes, or beyond, the conversion is the
    conversion. *)
Lemma convertValue_within_enough (v : value) : forall depth next,
  conversion_depth v <= depth -> convertValue_within depth v next = Some (convertValue v next).
Proof.
  induction v using value_induction; intros depth next Hd;
    (destruct depth as [|depth]; [simpl in Hd; lia|]); try reflexivity.
  - simpl in Hd. destruct depth as [|[|depth]]; [lia | lia | reflexivity].
  - simpl. destruct (negb (n_isNaN n) && n_isFinite n); reflexivity.
  - cbn [convertValue_within convertValue].
    match goal with
    | |- context [match ?f l next with Some _ => _ | None => _ end] => set (conv := f)
    end.
    match goal with
    | |- context [let '(_, _) := ?f l next in _] => set (conv0 := f)
    end.
    assert (Hl : forall l0, incl l0 l -> forall n0, conv l0 n0 = Some (conv0 l0 n0)).
    { induction l0 as [|x l0 IH]; intros Hincl n0; [reflexivity|]. simpl.
      assert (Hx : In x l) by (apply Hincl; now left).
      rewrite Forall_forall in H. rewrite (H x Hx).
      2:{ pose proof (conversion_depth_element x l Hx). simpl in Hd. lia. }
      destruct (convertValue x n0) as [x' n1].
      rewrite IH by (intros y Hy; apply Hincl; now right).
      destruct (conv0 l0 n1). reflexivity. }
    rewrite (Hl l (incl_refl _)). destruct (conv0 l next). reflexivity.
  - cbn [convertValue_within convertValue].
    match goal with
    | |- context [match ?f o next with Some _ => _ | None => _ end] => set (conv := f)
    end.
    match goal with
    | |- context [let '(_, _) := ?f o next in _] => set (conv0 := f)
    end.
    assert (Hl : forall o0, incl o0 o -> forall n0, conv o0 n0 = Some (conv0 o0 n0)).
    { induction o0 as [|[k x] o0 IH]; intros Hincl n0; [reflexivity|]. simpl.
      assert (Hx : In (k, x) o) by (apply Hincl; now left).
      rewrite Forall_forall in H. pose proof (H (k, x) Hx) as Hkx. simpl in Hkx.
      rewrite Hkx.
      2:{ pose proof (conversion_depth_property (k, x) o Hx). simpl in *. lia. }
      destruct (convertValue x n0) as [x' n1].
      rewrite IH by (intros y Hy; apply Hincl; now right).
      destruct (conv0 o0 n1). reflexivity. }
    rewrite (Hl o (incl_refl _)). destruct (conv0 o next). reflexivity.
Qed.

(** The deepest of the values of an object. *)
Definition properties_depth (o : props) : nat :=
  fold_right (fun kv d => Nat.max (conversion_depth (snd kv)) d) 0 o.

Lemma convert_entries_within_enough (depth : nat) (o : props) : forall next,
  properties_depth o <= depth ->
  convert_entries_within depth o next = Some (convert_entries o next).
Proof.
  induction o as [|[k x] o IH]; intros next Hd; [reflexivity|]. simpl.
  unfold properties_depth in *. simpl in Hd.
  rewrite convertValue_within_enough by lia.
  destruct (convertValue x next) as [x' n1]. rewrite IH by lia.
  destruct (convert_entries o n1). reflexivity.
Qed.

Variable config : FormulaEngineConfig.

(** ** validate *)

Lemma parse_errors_returns (formulas : list FormulaDefinition) :
  exists perrs, parse_errors config formulas = Return perrs.
Proof.
  induction formulas as [|f formulas [there IH]]; simpl; [now exists []|].
  rewrite IH.
  destruct (checkExpressionLength config (expression f)) as [[] | e |] eqn:El; simpl.
  - pose proof (parse_outcome (expression f)) as Hp.
    destruct (parse (expression f)) as [ast | e |]; simpl;
      [eexists; reflexivity | eexists; reflexivity | destruct Hp].
  - eexists; reflexivity.
  - unfold checkExpressionLength in El. destruct (Nat.ltb _ _); discriminate.
Qed.

(** X17. [validate] always answers, and throws nothing.  When the answer
    is [valid], the formula ids are pairwise distinct, every expression is
    within the length limit and parses, and the evaluation order reported
    is the one [getEvaluationOrder] returns.  When two formulas share an
    id, the answer is not [valid] and its errors hold
    [DuplicateFormulaError] for that id. *)
Theorem validate_spec (formulas : list FormulaDefinition) :
  exists v, validate config formulas = Return v /\
    (valid v = true ->
       NoDup (map id formulas) /\
       (forall f, In f formulas ->
          checkExpressionLength config (expression f) = Return tt /\
          exists ast, parse (expression f) = Return ast) /\
       getEvaluationOrder formulas = Return (v_evaluationOrder v)) /\
    (forall before f1 middle f2 after,
       formulas = before ++ f1 :: middle ++ f2 :: after -> id f1 = id f2 ->
       valid v = false /\ In (DuplicateFormulaError (id f1)) (v_errors v)).
Proof.
  assert (Hv : exists v, validate config formulas = Return v).
  { unfold validate. destruct (parse_errors_returns formulas) as [perrs ->]. simpl.
    pose proof (getEvaluationOrder_outcome formulas) as Ho.
    destruct (getEvaluationOrder formulas); [eexists; reflexivity | eexists; reflexivity |].
    destruct Ho. }
  destruct Hv as [v Hv]. exists v. split; [exact Hv|].
  exact (validate_answer config formulas v Hv).
Qed.

(** ** evaluate and evaluateAll *)

Lemma try_formula_finished (f : FormulaDefinition) (res : EvaluationResult) :
  try_formula config f res <> OutOfFuel.
Proof.
  unfold try_formula.
  assert (Hh : forall e, handleError f e <> OutOfFuel).
  { intros e. unfold handleError. destruct (onError f) as [b|]; [|discriminate].
    destruct (eb_type b); discriminate. }
  assert (Hr : forall d rc, applyRounding config d rc <> OutOfFuel).
  { intros d rc. unfold applyRounding, du_round, du_toDecimalPlaces.
    destruct (mode rc); try discriminate; destruct (d_toDecimalPlaces _ _ _); discriminate. }
  match goal with
  | |- bind ?first _ <> _ =>
      assert (Hfirst : first <> OutOfFuel);
      [ destruct (rounding f) as [rc|]; [destruct (rvalue res)|]; try discriminate;
        specialize (Hr d rc); destruct (applyRounding config d rc); simpl; congruence
      | destruct first as [v1 | e |]; simpl; [| discriminate | congruence] ]
  end.
  destruct (success res); try discriminate.
  destruct (onError f) as [behavior|] eqn:Eb; try discriminate.
  destruct (error res); apply Hh.
Qed.

Lemma evaluate_formula_returns fm workingContext formulaId acc w :
  functions_terminate (engine_evaluator config) ->
  (forall i f, map_get fm i = Some f -> never_rethrows f) ->
  exists acc', fst (evaluate_formula config fm workingContext formulaId acc w) = Return acc'.
Proof.
  intros Hfn Hall. unfold evaluate_formula.
  destruct (map_get fm formulaId) as [f|] eqn:Ef; [|eexists; reflexivity].
  destruct (evaluate_returns (engine_evaluator config) (expression f)
              (snapshot (heap w) workingContext) (evalState w) Hfn) as [res [Hres _]].
  destruct (evaluate _ _ _ _) as [r st]. simpl in Hres. subst r.
  pose proof (try_formula_finished f res) as Ht.
  destruct (try_formula config f res) as [v | err |]; [eexists; reflexivity | | congruence].
  pose proof (Hall _ _ Ef) as Hf.
  destruct (onError f) as [b|] eqn:Eb; [|eexists; reflexivity].
  destruct (handleError_returns f err Hf) as [v ->]. eexists; reflexivity.
Qed.

Lemma evaluate_formulas_returns fm workingContext order : forall acc w,
  functions_terminate (engine_evaluator config) ->
  (forall i f, map_get fm i = Some f -> never_rethrows f) ->
  exists acc', fst (evaluate_formulas config fm workingContext order acc w) = Return acc'.
Proof.
  induction order as [|i order IH]; intros acc w Hfn Hall; simpl; [eexists; reflexivity|].
  destruct (evaluate_formula_returns fm workingContext i acc w Hfn Hall) as [acc1 H1].
  destruct (evaluate_formula config fm workingContext i acc w) as [r w']. simpl in H1. subst r.
  now apply IH.
Qed.

(** [normalizeContext], its conversions cut at [depth]. *)
Definition normalizeContext_within (depth : nat) (context : ContextRef) (w : World)
  : option (ContextRef * World) :=
  if negb (autoConvert config) then Some (context, w)
  else
    let st := evalState w in
    match convert_entries_within depth (heap_get (heap w) (variables_ref context))
                                 (nextRef st) with
    | Some (normalizedVariables, next) =>
        Some (mkContextRef next (collections_of context) (extra_ref context),
              mkWorld (heap_set (heap w) next normalizedVariables)
                      (mkState (recursionDepth st) (iterationCount st)
                               (accessedVariables st) (S next)))
    | None => None
    end.

(** [FormulaEngine.evaluate]: the conversion of the context stands
    outside the [try] of [Evaluator.evaluate], and a conversion that the
    stack does not admit ends the call. *)
Definition engine_evaluate_within (depth : nat) (expression : string) (context : ContextRef)
           (w : World) : result_of EvaluationResult * World :=
  match checkExpressionLength config expression with
  | Throw e => (Throw e, w)
  | OutOfFuel => (OutOfFuel, w)
  | Return _ =>
      match normalizeContext_within depth context w with
      | None => (OutOfFuel, w)
      | Some (normalizedContext, w1) =>
          let '(r, st) := evaluate (engine_evaluator config) expression
                                   (snapshot (heap w1) normalizedContext) (evalState w1) in
          (match r with Some res => Return res | None => OutOfFuel end,
           mkWorld (heap w1) st)
      end
  end.

(** [FormulaEngine.evaluateAll]: the conversion of the context stands
    between the [try] around [getEvaluationOrder] and those of the loop. *)
Definition evaluateAll_within (depth : nat) (formulas : list FormulaDefinition)
           (context : ContextRef) (w : World) : result_of EvaluationResultSet * World :=
  match getEvaluationOrder formulas with
  | OutOfFuel => (OutOfFuel, w)
  | Throw e => (Return (mkResultSet [] false [e] []), w)
  | Return order =>
      let fm := formulaMap formulas in
      match normalizeContext_within depth context w with
      | None => (OutOfFuel, w)
      | Some (workingContext, w1) =>
          match evaluate_formulas config fm workingContext order ([], []) w1 with
          | (Return (res, errs), w2) =>
              (Return (mkResultSet res (match errs with [] => true | _ => false end) errs
                                   order),
               w2)
          | (Throw e, w2) => (Throw e, w2)
          | (OutOfFuel, w2) => (OutOfFuel, w2)
          end
      end
  end.

(** The nested calls of [convertValue] that the conversion of a context
    takes: none when numbers are not converted. *)
Definition context_depth (h : Heap) (context : ContextRef) : nat :=
  if autoConvert config then properties_depth (heap_get h (variables_ref context)) else 0.

Lemma normalizeContext_within_enough (depth : nat) (context : ContextRef) (w : World) :
  context_depth (heap w) context <= depth ->
  normalizeContext_within depth context w = Some (normalizeContext config context w).
Proof.
  unfold context_depth, normalizeContext_within, normalizeContext.
  destruct (autoConvert config); simpl; [|reflexivity]. intros Hd.
  rewrite convert_entries_within_enough by exact Hd.
  destruct (convert_entries _ _). reflexivity.
Qed.

Lemma engine_evaluate_within_enough (depth : nat) (expression : string)
      (context : ContextRef) (w : World) :
  context_depth (heap w) context <= depth ->
  engine_evaluate_within depth expression context w
  = engine_evaluate config expression context w.
Proof.
  intros Hd. unfold engine_evaluate_within, engine_evaluate.
  rewrite normalizeContext_within_enough by exact Hd. reflexivity.
Qed.

Lemma evaluateAll_within_enough (depth : nat) (formulas : list FormulaDefinition)
      (context : ContextRef) (w : World) :
  context_depth (heap w) context <= depth ->
  evaluateAll_within depth formulas context w = evaluateAll config formulas context w.
Proof.
  intros Hd. unfold evaluateAll_within, evaluateAll.
  rewrite normalizeContext_within_enough by exact Hd. reflexivity.
Qed.

(** X18. On a call stack that admits the conversion of the context,
    [evaluateAll] returns a result set and throws nothing, unless a
    formula asks with [onError: THROW] for its error to be thrown again
    (every function that the engine holds being one that comes back):
    parse errors, cycles and evaluation errors are all reported inside the
    result set, which is the one [evaluateAll] gives on any deeper stack. *)
Theorem evaluateAll_returns (depth : nat) (formulas : list FormulaDefinition)
        (context : ContextRef) (w : World) :
  functions_terminate (engine_evaluator config) ->
  (forall f, In f formulas -> never_rethrows f) ->
  context_depth (heap w) context <= depth ->
  (exists rs, fst (evaluateAll_within depth formulas context w) = Return rs) /\
  evaluateAll_within depth formulas context w = evaluateAll config formulas context w.
Proof.
  intros Hfn Hall Hd. split; [|now apply evaluateAll_within_enough].
  rewrite evaluateAll_within_enough by exact Hd. unfold evaluateAll.
  pose proof (getEvaluationOrder_outcome formulas) as Ho.
  destruct (getEvaluationOrder formulas) as [order | err |];
    [| eexists; reflexivity | destruct Ho].
  destruct (normalizeContext config context w) as [wc w1].
  destruct (evaluate_formulas_returns (formulaMap formulas) wc order ([], []) w1 Hfn
              (fun i f Hf => Hall f (formulaMap_In _ _ _ Hf))) as [[res errs] He].
  destruct (evaluate_formulas config (formulaMap formulas) wc order ([], []) w1) as [r w2].
  simpl in He. subst r. eexists; reflexivity.
Qed.

(** X19. On a call stack that admits the conversion of the context,
    [evaluate] throws for one reason only: an expression longer than the
    limit gives [MaxExpressionLengthError], and then nothing has been
    evaluated or changed.  Any other expression gives a result (every
    function that the engine holds being one that comes back): lexer,
    parser and evaluation errors are part of it, with the value [null].
    The outcome is the one [evaluate] has on any deeper stack. *)
Theorem engine_evaluate_outcome (depth : nat) (expression : string) (context : ContextRef)
        (w : World) :
  functions_terminate (engine_evaluator config) ->
  context_depth (heap w) context <= depth ->
  (expression_limit config < String.length expression ->
   engine_evaluate_within depth expression context w
   = (Throw (MaxExpressionLengthError (String.length expression) (expression_limit config)),
      w)) /\
  (String.length expression <= expression_limit config ->
   exists res, fst (engine_evaluate_within depth expression context w) = Return res /\
               (success res = true <-> error res = None) /\
               (success res = false -> rvalue res = VNull)) /\
  engine_evaluate_within depth expression context w
  = engine_evaluate config expression context w.
Proof.
  intros Hfn Hd. rewrite engine_evaluate_within_enough by exact Hd.
  cut ((expression_limit config < String.length expression ->
        engine_evaluate config expression context w
        = (Throw (MaxExpressionLengthError (String.length expression)
                                           (expression_limit config)), w)) /\
       (String.length expression <= expression_limit config ->
        exists res, fst (engine_evaluate config expression context w) = Return res /\
                    (success res = true <-> error res = None) /\
                    (success res = false -> rvalue res = VNull))).
  { intros [H1 H2]. split; [exact H1 | split; [exact H2 | reflexivity]]. }
  unfold engine_evaluate, checkExpressionLength.
  change (match cfg_security config with
          | Some s => match maxExpressionLength s with Some n => n | None => 10000 end
          | None => 10000
          end) with (expression_limit config).
  destruct (Nat.ltb (expression_limit config) (String.length expression)) eqn:E.
  - apply Nat.ltb_lt in E. split; [reflexivity | lia].
  - apply Nat.ltb_ge in E. split; [lia|]. intros _.
    destruct (normalizeContext config context w) as [nc w1].
    destruct (evaluate_returns (engine_evaluator config) expression
                (snapshot (heap w1) nc) (evalState w1) Hfn) as [res [Hres Hshape]].
    destruct (evaluate _ _ _ _) as [r st]. simpl in Hres. subst r.
    exists res. split; [reflexivity | exact Hshape].
Qed.
End Termination.

Lemma default_functions_terminate :
  functions_terminate (P := DefaultDecimal) (engine_evaluator default_config).
Proof. apply engine_functions_terminate. intros fn args context []. Qed.

(** A caller whose variable [rates] is an array of two numbers. *)
Definition rates_world : World (P := DefaultDecimal) :=
  mkWorld [(0, [("rates", VArray 1 [VNumber (n_of_nat 1); VNumber (n_of_nat 2)])])]
          (mkState 0 0 [] 2).

Lemma evaluateAll_returns_witness :
  exists rs, fst (evaluateAll_within (P := DefaultDecimal) default_config 2
                                     formulas_out_of_order caller_context rates_world)
             = Return rs.
Proof.
  apply (evaluateAll_returns (P := DefaultDecimal) default_config 2 formulas_out_of_order
                             caller_context rates_world default_functions_terminate).
  - intros f [<- | [<- | [<- | []]]]; exact I.
  - apply Nat.leb_le. reflexivity.
Defined.

Lemma engine_evaluate_outcome_witness :
  exists res, fst (engine_evaluate_within (P := DefaultDecimal) default_config 2 "1 +"
                                          caller_context rates_world) = Return res /\
              (success res = true <-> error res = None) /\
              (success res = false -> rvalue res = VNull).
Proof.
  destruct (engine_evaluate_outcome (P := DefaultDecimal) default_config 2 "1 +"
              caller_context rates_world default_functions_terminate) as [_ [H _]].
  - apply Nat.leb_le. reflexivity.
  - apply H. apply Nat.leb_le. reflexivity.
Defined.

(** Cut at one call, the conversion of the array does not come back:
    the call of the engine ends before anything is evaluated. *)
Example conversion_beyond_depth :
  engine_evaluate_within (P := DefaultDecimal) default_config 1 "1 +" caller_context
                         rates_world
  = (OutOfFuel, rates_world).
Proof. reflexivity. Qed.
(* ================================================================== *)
(** * The dependency extractor and the variables an evaluation reads    *)
(* ================================================================== *)

Section Extractor.
Context {P : DecimalLib}.

(** [visitMemberRoot] adds what [visit] adds. *)
Lemma visit_unfold (node : ASTNode) (deps : list string) :
  visit node deps =
  match node with
  | VariableReference Dollar name => set_add deps name
  | VariableReference At _ => deps
  | BinaryOperation _ l r => visit r (visit l deps)
  | UnaryOperation _ operand => visit operand deps
  | ConditionalExpression c a b => visit b (visit a (visit c deps))
  | FunctionCall _ args => fold_left (fun deps a => visit a deps) args deps
  | MemberAccess object _ => visit object deps
  | IndexAccess object index => visit index (visit object deps)
  | ArrayLiteral elements => fold_left (fun deps e => visit e deps) elements deps
  | DecimalLiteral _ _ | NumberLiteral _ | StringLiteral _ | BooleanLiteral _ | NullLiteral =>
      deps
  end.
Proof.
  destruct node; try reflexivity.
  - destruct node; reflexivity.
  - destruct node1; reflexivity.
Qed.

(** What [visit] leaves in the set. *)
Definition visit_adds (node : ASTNode) : Prop :=
  forall deps, NoDup deps ->
    NoDup (visit node deps) /\
    forall x, In x (visit node deps) <-> In x deps \/ refers node Dollar x.

Lemma visit_all (l : list ASTNode) :
  Forall visit_adds l ->
  forall deps, NoDup deps ->
    NoDup (fold_left (fun deps a => visit a deps) l deps) /\
    forall x, In x (fold_left (fun deps a => visit a deps) l deps) <->
              In x deps \/ exists a, In a l /\ refers a Dollar x.
Proof.
  induction 1 as [|a l Ha Hl IH]; intros deps Hnd; simpl.
  - split; [exact Hnd|]. intros x. split; [now left | intros [H | [a [[] _]]]; exact H].
  - destruct (Ha deps Hnd) as [Hnd1 H1]. destruct (IH _ Hnd1) as [Hnd2 H2].
    split; [exact Hnd2|]. intros x. rewrite H2, H1. split.
    + intros [[H | H] | [b [Hb Hr]]]; [now left | right; exists a; auto | right; exists b; auto].
    + intros [H | [b [[<- | Hb] Hr]]]; [left; now left | left; now right | right; exists b; auto].
Qed.

Lemma visit_spec (node : ASTNode) : visit_adds node.
Proof.
  induction node using ASTNode_induction; intros deps Hnd; rewrite visit_unfold;
    try (split; [exact Hnd|]; intros x; split; [now left | intros [Hx | Hx]; [exact Hx | inversion Hx]]).
  - destruct (visit_all elements H deps Hnd) as [H1 H2]. split; [exact H1|].
    intros x. rewrite H2. split.
    + intros [Hx | [e [He Hr]]]; [now left | right; now apply refers_element with e].
    + intros [Hx | Hr]; [now left | right]. inversion Hr; subst. eauto.
  - destruct prefix.
    + split; [now apply set_add_NoDup|]. intros x. rewrite set_add_In. split.
      * intros [Hx | ->]; [now left | right; constructor].
      * intros [Hx | Hr]; [now left | right]. now inversion Hr.
    + split; [exact Hnd|]. intros x. split; [now left | intros [Hx | Hr]; [exact Hx | inversion Hr]].
  - destruct (IHnode1 deps Hnd) as [N1 H1]. destruct (IHnode2 _ N1) as [N2 H2].
    split; [exact N2|]. intros x. rewrite H2, H1. split.
    + intros [[Hx | Hr] | Hr]; [now left | right; now apply refers_left
                               | right; now apply refers_right].
    + intros [Hx | Hr]; [left; now left|]. inversion Hr; subst; [left; now right | now right].
  - destruct (IHnode deps Hnd) as [N1 H1]. split; [exact N1|]. intros x. rewrite H1. split.
    + intros [Hx | Hr]; [now left | right; now apply refers_operand].
    + intros [Hx | Hr]; [now left | right]. now inversion Hr.
  - destruct (IHnode1 deps Hnd) as [N1 H1]. destruct (IHnode2 _ N1) as [N2 H2].
    destruct (IHnode3 _ N2) as [N3 H3].
    split; [exact N3|]. intros x. rewrite H3, H2, H1. split.
    + intros [[[Hx | Hr] | Hr] | Hr];
        [now left | right; now apply refers_condition | right; now apply refers_consequent
        | right; now apply refers_alternate].
    + intros [Hx | Hr]; [left; left; now left|].
      inversion Hr; subst; [left; left; now right | left; now right | now right].
  - destruct (visit_all args H deps Hnd) as [H1 H2]. split; [exact H1|].
    intros x. rewrite H2. split.
    + intros [Hx | [e [He Hr]]]; [now left | right; now apply refers_argument with e].
    + intros [Hx | Hr]; [now left | right]. inversion Hr; subst. eauto.
  - destruct (IHnode deps Hnd) as [N1 H1]. split; [exact N1|]. intros x. rewrite H1. split.
    + intros [Hx | Hr]; [now left | right; now apply refers_member].
    + intros [Hx | Hr]; [now left | right]. now inversion Hr.
  - destruct (IHnode1 deps Hnd) as [N1 H1]. destruct (IHnode2 _ N1) as [N2 H2].
    split; [exact N2|]. intros x. rewrite H2, H1. split.
    + intros [[Hx | Hr] | Hr]; [now left | right; now apply refers_indexed
                               | right; now apply refers_index].
    + intros [Hx | Hr]; [left; now left|]. inversion Hr; subst; [left; now right | now right].
Qed.

(** X20. The extractor returns, each once, exactly the names of the
    [$] variables that stand anywhere in the syntax tree: operands,
    branches, call arguments, array elements, the root and the indices of
    an access chain.  No [@] variable is among them unless the tree has a
    [$] variable of the same name. *)
Theorem extractFromNode_spec (node : ASTNode) :
  NoDup (extractFromNode node) /\
  forall name, In name (extractFromNode node) <-> refers node Dollar name.
Proof.
  unfold extractFromNode. destruct (visit_spec node [] (NoDup_nil _)) as [Hnd Hin].
  split; [exact Hnd|]. intros name. rewrite Hin. split; [intros [[] | H]; exact H | now right].
Qed.

(** ** The names an evaluation records *)

Lemma evaluateNode_accessed (ev : Evaluator) (node : ASTNode) (context : EvaluationContext)
      (st : EvalState) (name : string) :
  In name (accessedVariables (snd (evaluateNode ev node context st))) ->
  In name (accessedVariables st) \/ exists prefix, refers node prefix name.
Proof.
  set (allowed := fun x : string => exists prefix, refers node prefix x).
  assert (H : keeps (fun st0 _ st1 =>
                       forall x, In x (accessedVariables st1) ->
                                 In x (accessedVariables st0) \/ allowed x)
                    (evaluateNode ev node context)).
  { apply (keeps_evaluateNode ev _ allowed).
    - intros st0 x Hx. now left.
    - intros st0 st1 st2 r H1 H2 x Hx.
      destruct (H2 x Hx) as [Hx1 | Hx1]; [now apply H1 | now right].
    - intros st0 e _ x Hx. now left.
    - intros st0 x. unfold checkRecursionLimit. simpl.
      destruct (Nat.ltb _ _); simpl; auto.
    - intros st0 x. unfold checkIterationLimit. simpl.
      destruct (Nat.ltb _ _); simpl; auto.
    - intros x Hx st0 y. unfold access_variable. simpl. rewrite set_add_In.
      intros [Hy | ->]; [now left | now right].
    - intros l st0 x. simpl. auto.
    - intros fname fn args ctx st0 _ x Hx. now left.
    - intros prefix x Hr. now exists prefix. }
  apply (H st name).
Qed.

(** X21. The variables that an evaluation reports as accessed all stand
    in the expression: each is among the dependencies that the extractor
    finds for the expression, or is the name of an [@] variable of it. *)
Theorem accessed_variables_extracted (ev : Evaluator) (expression : string) (ast : ASTNode)
        (context : EvaluationContext) (st : EvalState) (res : EvaluationResult) :
  parse expression = Return ast ->
  fst (evaluate ev expression context st) = Some res ->
  forall name, In name (resultAccessed res) ->
               In name (extractFromNode ast) \/ refers ast At name.
Proof.
  intros Hp He name Hname. unfold evaluate in He. rewrite Hp in He.
  pose proof (evaluateNode_accessed ev ast context (mkState 0 0 [] (nextRef st)) name) as Hacc.
  assert (Hin : In name (accessedVariables
                           (snd (evaluateNode ev ast context (mkState 0 0 [] (nextRef st)))))).
  { destruct (evaluateNode ev ast context (mkState 0 0 [] (nextRef st))) as [[v | e |] st1];
      simpl in *; try discriminate; injection He as <-; exact Hname. }
  destruct (Hacc Hin) as [[] | [[|] Hr]]; [left | now right].
  unfold extractFromNode. apply (visit_spec ast [] (NoDup_nil _)). now right.
Qed.
End Extractor.

Lemma parse_net_plus_tax :
  parse (P := DefaultDecimal) "$net + $tax"
  = Return (BinaryOperation "+" (VariableReference Dollar "net")
                                (VariableReference Dollar "tax")).
Proof. reflexivity. Qed.

Lemma accessed_variables_extracted_witness :
  In "net" (extractFromNode (P := DefaultDecimal)
              (BinaryOperation "+" (VariableReference Dollar "net")
                                   (VariableReference Dollar "tax"))) \/
  refers (P := DefaultDecimal)
         (BinaryOperation "+" (VariableReference Dollar "net")
                              (VariableReference Dollar "tax")) At "net".
Proof.
  apply (accessed_variables_extracted default_evaluator "$net + $tax" _ no_variables
           (mkState 0 0 [] 0)
           (mkResult VNull false (Some (UndefinedVariableError "net" "")) ["net"])
           parse_net_plus_tax).
  - reflexivity.
  - now left.
Defined.
(* ================================================================== *)
(** * The iteration counter of the evaluator                           *)
(* ================================================================== *)

Section IterationCounter.
Context {P : DecimalLib}.
Variable ev : Evaluator.

Local Abbreviation LI := (iteration_limit ev).

(** A call that counts its iterations: it never lowers the counter and
    ends with the iteration error exactly when it pushes the counter past
    the limit. *)
Definition iterations_counted (st : EvalState) (r : ending) (st' : EvalState) : Prop :=
  iterationCount st <= iterationCount st' /\
  (iterationCount st <= LI ->
   (r = Thrown (MaxIterationsError LI) /\ iterationCount st' = S LI) \/
   ((forall l, r <> Thrown (MaxIterationsError l)) /\ iterationCount st' <= LI)).

(** No registered function raises the iteration error itself. *)
Definition functions_count_nothing : Prop :=
  forall name fn args context l,
    map_get (functions ev) name = Some fn ->
    implementation fn args context <> Throw (MaxIterationsError l).

Lemma ic_same (st : EvalState) (r : ending) :
  (forall l, r <> Thrown (MaxIterationsError l)) -> iterations_counted st r st.
Proof. intros Hr. split; [lia|]. intros H. right. split; assumption. Qed.

Lemma ic_then (st st1 st2 : EvalState) (r : ending) :
  iterations_counted st Returned st1 -> iterations_counted st1 r st2 ->
  iterations_counted st r st2.
Proof.
  intros [H1 H1'] [H2 H2']. split; [lia|]. intros Hle.
  destruct (H1' Hle) as [[Hf _] | [_ Hd]]; [discriminate|]. exact (H2' Hd).
Qed.

Lemma ic_throw (st : EvalState) (e : Error) :
  evaluator_error e -> iterations_counted st (Thrown e) st.
Proof.
  intros He. apply ic_same. intros l H. injection H as ->. exact He.
Qed.

Lemma ic_recursion : keeps iterations_counted (checkRecursionLimit ev).
Proof.
  intros st. unfold iterations_counted, checkRecursionLimit. simpl.
  destruct (Nat.ltb _ _); simpl; (split; [lia|]); intros H; right;
    (split; [intros l; discriminate | exact H]).
Qed.

Lemma ic_iteration : keeps iterations_counted (checkIterationLimit ev).
Proof.
  intros st. unfold iterations_counted, checkIterationLimit. simpl.
  destruct (Nat.ltb LI (S (iterationCount st))) eqn:E; simpl; (split; [lia|]); intros H.
  - apply Nat.ltb_lt in E. left. split; [reflexivity | lia].
  - apply Nat.ltb_ge in E. right. split; [intros l; discriminate | lia].
Qed.

Lemma ic_access (name : string) : keeps iterations_counted (access_variable name).
Proof.
  intros st. unfold iterations_counted. simpl. split; [lia|]. intros H. right.
  split; [intros l; discriminate | exact H].
Qed.

Lemma ic_array (l : list value) : keeps iterations_counted (new_array l).
Proof.
  intros st. unfold iterations_counted. simpl. split; [lia|]. intros H. right.
  split; [intros l'; discriminate | exact H].
Qed.

Lemma ic_function :
  functions_count_nothing ->
  forall name fn args context st,
    map_get (functions ev) name = Some fn ->
    iterations_counted st (ending_of (implementation fn args context)) st.
Proof.
  intros Hfn name fn args context st Hget. apply ic_same. intros l H.
  apply (Hfn name fn args context l Hget).
  destruct (implementation fn args context); simpl in H; try discriminate.
  now injection H as ->.
Qed.

Lemma ic_evaluateNode :
  functions_count_nothing ->
  forall node context, keeps iterations_counted (evaluateNode ev node context).
Proof.
  intros Hfn node context.
  apply (keeps_evaluateNode ev iterations_counted (fun _ => True)).
  - intros st. apply ic_same. intros l; discriminate.
  - exact ic_then.
  - exact ic_throw.
  - exact ic_recursion.
  - exact ic_iteration.
  - intros name _. apply ic_access.
  - exact ic_array.
  - exact (ic_function Hfn).
  - intros prefix name _. exact I.
Qed.

(** ** The three loops count every item *)

Section Loops.
Variable f : EvaluationContext -> M value.
Hypothesis f_grows : forall ctx st, iterationCount st <= iterationCount (snd (f ctx st)).

Lemma checked_iteration (st st1 : EvalState) :
  checkIterationLimit ev st = (Return tt, st1) -> iterationCount st1 = S (iterationCount st).
Proof.
  unfold checkIterationLimit. simpl. destruct (Nat.ltb _ _); [discriminate|].
  intros H. now injection H as <-.
Qed.

Lemma map_loop_counts (context : EvaluationContext) (items : list value) :
  forall acc st l st',
    map_loop ev f context items acc st = (Return l, st') ->
    iterationCount st + List.length items <= iterationCount st' /\
    List.length l = List.length acc + List.length items.
Proof.
  induction items as [|item rest IH]; intros acc st l st' H; simpl in H.
  - injection H as <- <-. simpl. lia.
  - unfold bindM in H.
    destruct (checkIterationLimit ev st) as [[[] | e |] st1] eqn:E1; try discriminate.
    apply checked_iteration in E1.
    pose proof (f_grows (itemContext context item) st1) as Hg.
    destruct (f (itemContext context item) st1) as [[v | e |] st2]; try discriminate.
    simpl in Hg. destruct (IH _ _ _ _ H) as [H1 H2]. rewrite length_app in H2. simpl in *. lia.
Qed.

Lemma filter_loop_counts (context : EvaluationContext) (items : list value) :
  forall acc st l st',
    filter_loop ev f context items acc st = (Return l, st') ->
    iterationCount st + List.length items <= iterationCount st' /\
    List.length l <= List.length acc + List.length items /\
    incl l (acc ++ items).
Proof.
  induction items as [|item rest IH]; intros acc st l st' H; simpl in H.
  - injection H as <- <-. simpl. rewrite app_nil_r. split; [lia|]. split; [lia|]. apply incl_refl.
  - unfold bindM in H.
    destruct (checkIterationLimit ev st) as [[[] | e |] st1] eqn:E1; try discriminate.
    apply checked_iteration in E1.
    pose proof (f_grows (itemContext context item) st1) as Hg.
    destruct (f (itemContext context item) st1) as [[v | e |] st2]; try discriminate.
    simpl in Hg. destruct (IH _ _ _ _ H) as [H1 [H2 H3]].
    split; [simpl; lia|]. split.
    + destruct (toBool v); [rewrite length_app in H2|]; simpl in *; lia.
    + intros x Hx. apply H3 in Hx. apply in_app_iff in Hx. apply in_app_iff.
      destruct Hx as [Hx | Hx]; [|right; now right].
      destruct (toBool v); [|now left].
      apply in_app_iff in Hx. destruct Hx as [Hx | [<- | []]]; [now left | right; now left].
Qed.

Lemma sum_loop_counts (context : EvaluationContext) (items : list value) :
  forall sum st s st',
    sum_loop ev f context items sum st = (Return s, st') ->
    iterationCount st + List.length items <= iterationCount st'.
Proof.
  induction items as [|item rest IH]; intros sum st s st' H; simpl in H.
  - injection H as _ <-. simpl. lia.
  - unfold bindM in H.
    destruct (checkIterationLimit ev st) as [[[] | e |] st1] eqn:E1; try discriminate.
    apply checked_iteration in E1.
    pose proof (f_grows (itemContext context item) st1) as Hg.
    destruct (f (itemContext context item) st1) as [[v | e |] st2]; try discriminate.
    simpl in Hg. destruct (isNumeric v).
    + unfold lift in H. destruct (toDecimal v) as [d | e |]; try discriminate.
      apply IH in H. simpl. lia.
    + apply IH in H. simpl. lia.
Qed.
End Loops.
End IterationCounter.

(** X22. Within one evaluation nothing lowers the iteration counter, and
    [MaxIterationsError] is raised exactly when the counter passes the
    limit (10000 by default).  A MAP, a FILTER or a SUM over an expression
    that returns has counted one iteration for each item of its array: MAP
    gives as many values as there are items, FILTER gives items of the
    array and no more of them than it has. *)
Theorem iteration_counter {P : DecimalLib} (ev : Evaluator) :
  functions_count_nothing ev ->
  (forall node context st,
     iterationCount st <= iterationCount (snd (evaluateNode ev node context st)) /\
     (iterationCount st <= iteration_limit ev ->
      (fst (evaluateNode ev node context st) = Throw (MaxIterationsError (iteration_limit ev))
       <-> iteration_limit ev < iterationCount (snd (evaluateNode ev node context st))) /\
      (forall l, fst (evaluateNode ev node context st) = Throw (MaxIterationsError l) ->
                 l = iteration_limit ev))) /\
  (forall evalArray expression context st r items st1 v st',
     evalArray st = (Return (VArray r items), st1) ->
     (evaluateMap ev evalArray (evaluateNode ev expression) context st = (Return v, st') ->
      iterationCount st1 + List.length items <= iterationCount st' /\
      exists r' l, v = VArray r' l /\ List.length l = List.length items) /\
     (evaluateFilter ev evalArray (evaluateNode ev expression) context st = (Return v, st') ->
      iterationCount st1 + List.length items <= iterationCount st' /\
      exists r' l, v = VArray r' l /\ List.length l <= List.length items /\ incl l items) /\
     (evaluateSumWithExpression ev evalArray (evaluateNode ev expression) context st
      = (Return v, st') ->
      iterationCount st1 + List.length items <= iterationCount st')) /\
  (maxIterations (securityConfig ev) = None -> iteration_limit ev = 10000).
Proof.
  intros Hfn.
  assert (Hnode : forall node context, keeps (iterations_counted ev) (evaluateNode ev node context))
    by (intros node context; now apply ic_evaluateNode).
  assert (Hgrow : forall expression ctx st,
             iterationCount st <= iterationCount (snd (evaluateNode ev expression ctx st)))
    by (intros expression ctx st; apply (Hnode expression ctx st)).
  split; [|split].
  - intros node context st. split; [apply Hgrow|]. intros Hle.
    destruct (Hnode node context st) as [_ Hcases]. specialize (Hcases Hle).
    destruct (evaluateNode ev node context st) as [r st2]. simpl in *.
    destruct Hcases as [[Hf Hd] | [Hn Hd]].
    + destruct r as [v | e |]; simpl in Hf; try discriminate. injection Hf as ->. split.
      * split; [intros _; lia | reflexivity].
      * intros l Hl. now injection Hl as <-.
    + split.
      * split; [|lia]. intros Hf. rewrite Hf in Hn. now elim (Hn (iteration_limit ev)).
      * intros l Hl. rewrite Hl in Hn. now elim (Hn l).
  - intros evalArray expression context st r items st1 v st' Harr. split; [|split].
    + unfold evaluateMap, bindM. rewrite Harr.
      destruct (map_loop ev (evaluateNode ev expression) context items [] st1)
        as [[l | e |] st2] eqn:E; try discriminate.
      unfold new_array. intros H. injection H as <- <-. simpl.
      destruct (map_loop_counts ev _ (Hgrow expression) context items _ _ _ _ E) as [H1 H2].
      split; [exact H1|]. eexists. exists l. split; [reflexivity | exact H2].
    + unfold evaluateFilter, bindM. rewrite Harr.
      destruct (filter_loop ev (evaluateNode ev expression) context items [] st1)
        as [[l | e |] st2] eqn:E; try discriminate.
      unfold new_array. intros H. injection H as <- <-. simpl.
      destruct (filter_loop_counts ev _ (Hgrow expression) context items _ _ _ _ E)
        as [H1 [H2 H3]].
      split; [exact H1|]. eexists. exists l. split; [reflexivity|]. split; assumption.
    + unfold evaluateSumWithExpression, bindM. rewrite Harr.
      destruct (sum_loop ev (evaluateNode ev expression) context items du_zero st1)
        as [[s | e |] st2] eqn:E; try discriminate.
      unfold ret. intros H. injection H as _ <-.
      exact (sum_loop_counts ev _ (Hgrow expression) context items _ _ _ _ E).
  - intros Hnone. unfold iteration_limit. now rewrite Hnone.
Qed.

Lemma map_result_Throw {P : DecimalLib} {A B} (f : A -> result_of B) (l : list A) (e : Error) :
  map_result f l = Throw e -> exists a, f a = Throw e.
Proof.
  induction l as [|a r IH]; simpl; [discriminate|].
  destruct (f a) as [b | e' |] eqn:Ea; simpl; try discriminate.
  - destruct (map_result f r) as [bs | e' |]; simpl; try discriminate.
    intros H. injection H as ->. now apply IH.
  - intros H. injection H as ->. now exists a.
Qed.

(** The built-in functions leave the iteration counter to the evaluator. *)
Lemma builtin_count_nothing {P : DecimalLib} (config : FormulaEngineConfig) :
  cfg_functions config = [] -> functions_count_nothing (engine_evaluator config).
Proof.
  intros Hnil name fn args context l. unfold engine_evaluator. simpl. rewrite Hnil. simpl.
  unfold createBuiltInFunctions. simpl. unfold map_get. simpl.
  repeat (match goal with
          | |- context [String.eqb name ?s] => destruct (String.eqb name s)
          end; [intros H; injection H as <-; simpl|]); try discriminate.
  - destruct (arg args 0); try discriminate.
    destruct (Nat.eqb _ 1); [|discriminate].
    destruct (map_result fn_toDecimal elements) as [ds | e |] eqn:E; simpl; try discriminate.
    intros H. injection H as ->. apply map_result_Throw in E. destruct E as [a Ha].
    destruct a; simpl in Ha; try discriminate.
    unfold du_from_string in Ha. destruct (d_new_string s); discriminate.
  - destruct (arg args 0); discriminate.
  - destruct (arg args 0); try discriminate;
      destruct (arg args 1); try discriminate;
      destruct (arg args 2); discriminate.
Qed.

(** Mapping [$it] over the array [[7, 0]]. *)
Lemma iteration_counter_witness :
  iterationCount (mkState 3 0 [] 1) + 2 <= iterationCount (mkState 5 2 ["it"] 2) /\
  exists r' l, VArray (P := DefaultDecimal) 1 [Dec 7 0; Dec 0 0] = VArray r' l /\
               List.length l = 2.
Proof.
  destruct (iteration_counter default_evaluator (builtin_count_nothing default_config eq_refl))
    as [_ [Hloops _]].
  destruct (Hloops (evaluateNode default_evaluator (ArrayLiteral [seven_literal; zero_literal])
                                 no_variables)
                   (VariableReference Dollar "it") no_variables (mkState 0 0 [] 0)
                   0 [Dec 7 0; Dec 0 0] (mkState 3 0 [] 1)
                   (VArray 1 [Dec 7 0; Dec 0 0]) (mkState 5 2 ["it"] 2) eq_refl)
    as [Hmap _].
  apply Hmap. reflexivity.
Defined.
(* ================================================================== *)
(** * Function calls and the registry of functions                     *)
(* ================================================================== *)

Section FunctionCalls.
Context {P : DecimalLib}.

Lemma upper_char_idempotent (c : ascii) : upper_char (upper_char c) = upper_char c.
Proof. destruct c as [[] [] [] [] [] [] [] []]; reflexivity. Qed.

Lemma toUpperCase_idempotent (s : string) : toUpperCase (toUpperCase s) = toUpperCase s.
Proof.
  induction s as [|c s IH]; simpl; [reflexivity|].
  now rewrite upper_char_idempotent, IH.
Qed.

(** A name written in ASCII: on such names [toUpperCase] above is
    JavaScript's [toUpperCase]. *)
Definition ascii_only (s : string) : Prop :=
  Forall (fun c => nat_of_ascii c < 128) (list_ascii_of_string s).

Variable ev : Evaluator.

(** The arity test of [evaluateFunctionCall]. *)
Definition arity_fits (fn : FunctionDefinition) (argc : nat) : Prop :=
  (minArgs fn <= Z.of_nat argc)%Z /\
  (maxArgs fn = (-1)%Z \/ (Z.of_nat argc <= maxArgs fn)%Z).

(** The calls that the evaluator runs itself, over the syntax of their
    second argument. *)
Definition iterated_call (fnName : string) (argc : nat) : Prop :=
  (fnName = "SUM" /\ argc = 2) \/ fnName = "FILTER" \/ fnName = "MAP".

(** X23. A function is looked up under its upper-cased name, so calls
    (their names being ASCII) are case-insensitive.  An unknown name gives [UndefinedFunctionError]
    and a wrong number of arguments [ArgumentCountError], both before any
    argument is evaluated.  Otherwise (the iterating forms of SUM, FILTER
    and MAP apart) the arguments are evaluated from left to right in the
    caller's context and the function is applied to their values. *)
Theorem function_calls (name : string) (args : list ASTNode) (context : EvaluationContext)
        (st : EvalState) :
  ascii_only name ->
  recursionDepth st < recursion_limit ev ->
  evaluateNode ev (FunctionCall name args) context st
  = evaluateNode ev (FunctionCall (toUpperCase name) args) context st /\
  (map_get (functions ev) (toUpperCase name) = None ->
   evaluateNode ev (FunctionCall name args) context st
   = (Throw (UndefinedFunctionError (toUpperCase name)), entered st)) /\
  (forall fn, map_get (functions ev) (toUpperCase name) = Some fn ->
     (~ arity_fits fn (List.length args) ->
      evaluateNode ev (FunctionCall name args) context st
      = (Throw (ArgumentCountError (toUpperCase name) (minArgs fn) (maxArgs fn)
                                   (List.length args)), entered st)) /\
     (arity_fits fn (List.length args) ->
      ~ iterated_call (toUpperCase name) (List.length args) ->
      forall vs st1,
        sequenceM (map (fun a => evaluateNode ev a context) args) (entered st)
        = (Return vs, st1) ->
        evaluateNode ev (FunctionCall name args) context st
        = (implementation fn vs context, st1))).
Proof.
  intros _ Hdepth. split; [|split].
  - rewrite !evaluateNode_unfold, !evaluateNode_enter by assumption.
    unfold evaluateFunctionCall. now rewrite toUpperCase_idempotent.
  - intros Hnone. rewrite evaluateNode_unfold, evaluateNode_enter by assumption.
    unfold evaluateFunctionCall. now rewrite Hnone.
  - intros fn Hfn. split.
    + intros Hbad. rewrite evaluateNode_unfold, evaluateNode_enter by assumption.
      unfold evaluateFunctionCall. rewrite Hfn.
      destruct (Z.ltb (Z.of_nat (List.length args)) (minArgs fn)) eqn:E1; [reflexivity|].
      destruct (negb (Z.eqb (maxArgs fn) (-1))
                && Z.ltb (maxArgs fn) (Z.of_nat (List.length args))) eqn:E2; [reflexivity|].
      elim Hbad. apply Z.ltb_ge in E1. split; [exact E1|].
      apply andb_false_iff in E2. destruct E2 as [E2 | E2].
      * left. apply negb_false_iff in E2. now apply Z.eqb_eq.
      * right. now apply Z.ltb_ge.
    + intros [Hmin Hmax] Hplain vs st1 Hargs.
      rewrite evaluateNode_unfold, evaluateNode_enter by assumption.
      unfold evaluateFunctionCall. rewrite Hfn.
      assert (E1 : Z.ltb (Z.of_nat (List.length args)) (minArgs fn) = false)
        by now apply Z.ltb_ge.
      assert (E2 : negb (Z.eqb (maxArgs fn) (-1))
                   && Z.ltb (maxArgs fn) (Z.of_nat (List.length args)) = false).
      { apply andb_false_iff. destruct Hmax as [Hmax | Hmax].
        - left. apply negb_false_iff. now apply Z.eqb_eq.
        - right. now apply Z.ltb_ge. }
      rewrite E1, E2.
      assert (E3 : String.eqb (toUpperCase name) "SUM" && Nat.eqb (List.length args) 2 = false).
      { apply andb_false_iff.
        destruct (String.eqb (toUpperCase name) "SUM") eqn:Es; [|now left].
        destruct (Nat.eqb (List.length args) 2) eqn:En; [|now right].
        elim Hplain. left. split; [now apply String.eqb_eq | now apply Nat.eqb_eq]. }
      assert (E4 : String.eqb (toUpperCase name) "FILTER" = false).
      { apply String.eqb_neq. intros H. apply Hplain. right. now left. }
      assert (E5 : String.eqb (toUpperCase name) "MAP" = false).
      { apply String.eqb_neq. intros H. apply Hplain. right. now right. }
      rewrite E3, E4, E5. unfold bindM. rewrite Hargs. reflexivity.
Qed.

(** ** The registry *)

Lemma registered_last (fns : list FunctionDefinition) (d : FunctionDefinition) :
  forall base : list (string * FunctionDefinition),
  (forall d', In d' fns -> toUpperCase (fname d') <> toUpperCase (fname d)) ->
  map_get (fold_left registerFunction fns base) (toUpperCase (fname d))
  = map_get base (toUpperCase (fname d)).
Proof.
  induction fns as [|f fns IH]; intros base Hother; simpl; [reflexivity|].
  rewrite IH by (intros d' Hd'; apply Hother; now right).
  unfold registerFunction. apply map_get_set_other. apply Hother. now left.
Qed.

Lemma registered_other (fns : list FunctionDefinition) (name : string) :
  forall base : list (string * FunctionDefinition),
  (forall d, In d fns -> toUpperCase (fname d) <> name) ->
  map_get (fold_left registerFunction fns base) name = map_get base name.
Proof.
  induction fns as [|f fns IH]; intros base Hother; simpl; [reflexivity|].
  rewrite IH by (intros d' Hd'; apply Hother; now right).
  unfold registerFunction. apply map_get_set_other. apply Hother. now left.
Qed.

(** X24. A function given in the configuration (its name being ASCII)
    is found under its upper-cased name, in place of any built-in or earlier function of
    that name: of several with the same name the last one is kept.  Every
    other name keeps its built-in function. *)
Theorem registered_functions (config : FormulaEngineConfig) :
  Forall (fun d => ascii_only (fname d)) (cfg_functions config) ->
  (forall before d after,
     cfg_functions config = before ++ d :: after ->
     (forall d', In d' after -> toUpperCase (fname d') <> toUpperCase (fname d)) ->
     map_get (functions (engine_evaluator config)) (toUpperCase (fname d)) = Some d) /\
  (forall name,
     (forall d, In d (cfg_functions config) -> toUpperCase (fname d) <> name) ->
     map_get (functions (engine_evaluator config)) name
     = map_get createBuiltInFunctions name).
Proof.
  intros _. split.
  - intros before d after Hcfg Hlast. unfold engine_evaluator. simpl. rewrite Hcfg.
    rewrite fold_left_app. simpl. rewrite registered_last by assumption.
    unfold registerFunction. apply map_get_set_same.
  - intros name Hother. unfold engine_evaluator. simpl. now apply registered_other.
Qed.
End FunctionCalls.

Lemma function_calls_witness :
  evaluateNode default_evaluator (FunctionCall "nosuch" []) no_variables (mkState 0 0 [] 0)
  = (Throw (UndefinedFunctionError "NOSUCH"), mkState 1 0 [] 0).
Proof.
  destruct (function_calls default_evaluator "nosuch" [] no_variables (mkState 0 0 [] 0))
    as [_ [Hunknown _]].
  - repeat constructor.
  - unfold recursion_limit. simpl. lia.
  - apply Hunknown. reflexivity.
Defined.

(** A function of the caller named like the built-in LOOKUP. *)
Definition custom_lookup : FunctionDefinition (P := DefaultDecimal) :=
  mkFunction "lookup" 0 0 (fun _ _ => Return VNull).

Definition custom_lookup_config : FormulaEngineConfig (P := DefaultDecimal) :=
  mkConfig None None [custom_lookup] None None.

Lemma registered_functions_witness :
  map_get (functions (engine_evaluator custom_lookup_config)) "LOOKUP" = Some custom_lookup.
Proof.
  destruct (registered_functions custom_lookup_config) as [Hlast _].
  - repeat constructor.
  - apply (Hlast [] custom_lookup []); [reflexivity | intros d' []].
Defined.
(* ================================================================== *)
(** * The conversion of the caller's context                           *)
(* ================================================================== *)

Section ContextConversion.
Context {P : DecimalLib}.

(** [typeof x === 'number' && !isNaN(x) && isFinite(x)] *)
Definition finite_number (n : number) : bool := negb (n_isNaN n) && n_isFinite n.

(** A value that holds no finite JavaScript number, at any depth. *)
Inductive converted : value -> Prop :=
| converted_decimal d : converted (VDecimal d)
| converted_number n : finite_number n = false -> converted (VNumber n)
| converted_string s : converted (VString s)
| converted_bool b : converted (VBool b)
| converted_null : converted VNull
| converted_undefined : converted VUndefined
| converted_array r l : Forall converted l -> converted (VArray r l)
| converted_object r o : Forall (fun kv => converted (snd kv)) o -> converted (VObject r o).

Lemma convertValue_converted (v : value) : forall next, converted (fst (convertValue v next)).
Proof.
  induction v using value_induction; intros next; simpl;
    try (constructor; fail).
  - repeat constructor.
  - destruct (negb (n_isNaN n) && n_isFinite n) eqn:E; simpl; constructor. exact E.
  - match goal with |- context [?f l next] => is_fix f; set (conv := f) end.
    assert (Hl : forall n0, Forall converted (fst (conv l n0))).
    { induction H as [|x l Hx Hl IH]; intros n0; simpl; [constructor|].
      specialize (Hx n0). destruct (convertValue x n0) as [x' n1]. simpl in Hx.
      specialize (IH n1). destruct (conv l n1) as [r' n2]. simpl in *.
      now constructor. }
    specialize (Hl next). destruct (conv l next) as [l' next']. simpl in *.
    now constructor.
  - match goal with |- context [?f o next] => is_fix f; set (conv := f) end.
    assert (Hl : forall n0, Forall (fun kv => converted (snd kv)) (fst (conv o n0))).
    { induction H as [|[k x] o Hx Ho IH]; intros n0; simpl; [constructor|].
      simpl in Hx. specialize (Hx n0). destruct (convertValue x n0) as [x' n1]. simpl in Hx.
      specialize (IH n1). destruct (conv o n1) as [r' n2]. simpl in *.
      now constructor. }
    specialize (Hl next). destruct (conv o next) as [o' next']. simpl in *.
    now constructor.
Qed.

Lemma convert_entries_spec (o : props) : forall next,
  map fst (fst (convert_entries o next)) = map fst o /\
  Forall (fun kv => converted (snd kv)) (fst (convert_entries o next)) /\
  forall k v, prop_get o k = Some v ->
              exists n, prop_get (fst (convert_entries o next)) k = Some (fst (convertValue v n)).
Proof.
  unfold prop_get. induction o as [|[k0 x] o IH]; intros next; simpl.
  - split; [reflexivity|]. split; [constructor | discriminate].
  - pose proof (convertValue_converted x next) as Hx.
    destruct (convertValue x next) as [x' n1] eqn:Ex.
    destruct (IH n1) as [H1 [H2 H3]].
    destruct (convert_entries o n1) as [o' n2]. simpl in *.
    split; [now rewrite H1|]. split; [now constructor|].
    intros k v. destruct (String.eqb k k0).
    + intros H. injection H as <-. exists next. now rewrite Ex.
    + apply H3.
Qed.

Variable config : FormulaEngineConfig.

(** X25. With the conversion of numbers enabled (the default), the
    context that the evaluator works on has the caller's variables under
    the same names in the same order (no variable being named
    [__proto__], which an assignment does not create), and none of them
    holds a finite JavaScript number any more, at any depth: each such
    number has become a Decimal.  A variable that already was a Decimal
    does not stay one: it is copied into a plain object. *)
Theorem normalizeContext_spec (context : ContextRef) (w : World) :
  autoConvert config = true ->
  (~ In "__proto__" (map fst (heap_get (heap w) (variables_ref context))) ->
   map fst (variables (snapshot (heap (snd (normalizeContext config context w)))
                                (fst (normalizeContext config context w))))
   = map fst (heap_get (heap w) (variables_ref context))) /\
  Forall (fun kv => converted (snd kv))
         (variables (snapshot (heap (snd (normalizeContext config context w)))
                              (fst (normalizeContext config context w)))) /\
  (forall name n,
     prop_get (heap_get (heap w) (variables_ref context)) name = Some (VNumber n) ->
     finite_number n = true ->
     prop_get (variables (snapshot (heap (snd (normalizeContext config context w)))
                                   (fst (normalizeContext config context w)))) name
     = Some (VDecimal (du_from_number n))) /\
  (forall name d,
     prop_get (heap_get (heap w) (variables_ref context)) name = Some (VDecimal d) ->
     exists r o,
       prop_get (variables (snapshot (heap (snd (normalizeContext config context w)))
                                     (fst (normalizeContext config context w)))) name
       = Some (VObject r o)).
Proof.
  intros Ha. unfold normalizeContext. rewrite Ha. simpl.
  destruct (convert_entries_spec (heap_get (heap w) (variables_ref context))
                                 (nextRef (evalState w))) as [H1 [H2 H3]].
  destruct (convert_entries _ _) as [nv next]. simpl in *.
  rewrite heap_get_set_same.
  split; [intros _; exact H1|]. split; [exact H2|]. split.
  - intros name n Hn Hfin. destruct (H3 name _ Hn) as [n0 ->]. simpl.
    unfold finite_number in Hfin. now rewrite Hfin.
  - intros name d Hd. destruct (H3 name _ Hd) as [n0 ->]. simpl. eauto.
Qed.
End ContextConversion.

(** A caller whose variable [price] is a Decimal already. *)
Definition decimal_world : World (P := DefaultDecimal) :=
  mkWorld [(0, [("price", Dec 1999 (-2))])] (mkState 0 0 [] 1).

Lemma normalizeContext_spec_witness :
  exists r o,
    prop_get (variables (snapshot (heap (snd (normalizeContext default_config caller_context
                                                               decimal_world)))
                                  (fst (normalizeContext default_config caller_context
                                                         decimal_world)))) "price"
    = Some (VObject r o).
Proof.
  destruct (normalizeContext_spec (P := DefaultDecimal) default_config caller_context
                                  decimal_world eq_refl) as [_ [_ [_ H]]].
  apply (H "price" (Scaled.Fin 1999 (-2))). reflexivity.
Defined.

(** The sum [$price + 1] then fails on the operand types. *)
Example decimal_variable_lost :
  option_map (fun res => (success res, error res))
    (match fst (engine_evaluate default_config "$price + 1" caller_context decimal_world) with
     | Return res => Some res
     | _ => None
     end)
  = Some (false, Some (InvalidOperationError "+" ["object"; "decimal"])).
Proof. reflexivity. Qed.
